(** * Redis 5.0.5 storage core: dict.c, zmalloc.c and bio.c

    A shallow embedding of the hash dictionary ([dict.c]), of the
    allocator accounting ([zmalloc.c]) and of the background job queues
    ([bio.c]), with the properties of the design document stated and
    settled against the embedding.

    Conventions.
    - C integers are [Z] with the wrap-around of their type written out
      ([wrap64] for [unsigned long]/[size_t], [wrap_int] for [int]).
    - Pointers are [Z]; [0] is [NULL].
    - A computation that may leave defined behaviour (failed [assert],
      [abort], out-of-bounds access, exhausted loop fuel) returns
      [res A], whose [Err] names the reason. *)

From Stdlib Require Import ZArith Lia Bool.
From stdpp Require Import base list gmap.

Open Scope Z_scope.

(** ** Outcomes *)

Inductive fault : Type :=
| AssertFail      (* a failed assert()                              *)
| OutOfMemory     (* zmalloc_oom_handler: the default handler aborts *)
| NullDeref       (* dereference of a NULL table                    *)
| OutOfBounds     (* access outside an array                        *)
| InvalidPointer  (* free of a pointer malloc never returned        *)
| OutOfFuel.      (* the loop bound of the embedding was too small  *)

Inductive res (A : Type) : Type :=
| Ok (a : A)
| Err (f : fault).
Arguments Ok {A} a.
Arguments Err {A} f.

Definition bind {A B : Type} (m : res A) (k : A -> res B) : res B :=
  match m with
  | Ok a => k a
  | Err f => Err f
  end.

Notation "'do' x <- m ; k" := (bind m (fun x => k))
  (at level 10, x name, m at level 100, k at level 200).
Notation "'do' ' p <- m ; k" := (bind m (fun x => let 'p := x in k))
  (at level 10, p pattern, m at level 100, k at level 200).

(** ** Machine integers *)

Definition wrap64 (x : Z) : Z := x mod 2 ^ 64.
Definition wrap_int (x : Z) : Z := (x + 2 ^ 31) mod 2 ^ 32 - 2 ^ 31.
Definition INT_MAX : Z := 2 ^ 31 - 1.
Definition LONG_MAX : Z := 2 ^ 63 - 1.
Definition ULONG_MAX : Z := 2 ^ 64 - 1.

(** ** zmalloc.c *)

Module Zmalloc.

(** Build configuration.  [HAVE_MALLOC_SIZE] is set by zmalloc.h when
    the allocator can report the size of a block (jemalloc, tcmalloc,
    macOS); otherwise zmalloc keeps the size in a header in front of
    the block. *)
Record config : Type := { HAVE_MALLOC_SIZE : bool }.

Definition sizeof_long : Z := 8.
Definition sizeof_size_t : Z := 8.

Definition PREFIX_SIZE (c : config) : Z :=
  if HAVE_MALLOC_SIZE c then 0 else sizeof_size_t.

(** The process state zmalloc works on: the counter [used_memory] and
    the live blocks.  [blocks] maps the address malloc returned to the
    [size_t] kept for it: the header word written by zmalloc without
    [HAVE_MALLOC_SIZE], the size the allocator reports with it. *)
Record zstate : Type := {
  used_memory : Z;
  blocks : gmap Z Z
}.

(** What the underlying malloc answers: the address ([0] for NULL) and
    the size the allocator would report for the block. *)
Record malloc_result : Type := { m_ptr : Z; m_usable : Z }.

(** The rounding written in both update macros:
    [if (_n&(sizeof(long)-1)) _n += sizeof(long)-(_n&(sizeof(long)-1));] *)
Definition round_up_long (n : Z) : Z :=
  if Z.land n (sizeof_long - 1) =? 0 then n
  else wrap64 (n + (sizeof_long - Z.land n (sizeof_long - 1))).

(** [update_zmalloc_stat_alloc(__n)]: the macro computes the rounded
    [_n] and then passes [__n] to [atomicIncr]. *)
Definition update_zmalloc_stat_alloc (st : zstate) (__n : Z) : zstate :=
  let _n := round_up_long __n in
  {| used_memory := wrap64 (used_memory st + __n); blocks := blocks st |}.

(** [update_zmalloc_stat_free(__n)]: same shape, with [atomicDecr]. *)
Definition update_zmalloc_stat_free (st : zstate) (__n : Z) : zstate :=
  let _n := round_up_long __n in
  {| used_memory := wrap64 (used_memory st - __n); blocks := blocks st |}.

(** [zmalloc_size(ptr)]: the allocator's own function with
    [HAVE_MALLOC_SIZE]; otherwise the header word, padded to
    [sizeof(long)], plus the header. *)
Definition zmalloc_size (c : config) (st : zstate) (ptr : Z) : res Z :=
  if HAVE_MALLOC_SIZE c then
    match blocks st !! ptr with
    | Some n => Ok n
    | None => Err InvalidPointer
    end
  else
    let realptr := ptr - PREFIX_SIZE c in
    match blocks st !! realptr with
    | Some size => Ok (wrap64 (round_up_long size + PREFIX_SIZE c))
    | None => Err InvalidPointer
    end.

(** [zmalloc(size)], given the answer [m] of [malloc(size+PREFIX_SIZE)]. *)
Definition zmalloc (c : config) (st : zstate) (size : Z) (m : malloc_result)
  : res (zstate * Z) :=
  let ptr := m_ptr m in
  if ptr =? 0 then Err OutOfMemory
  else if HAVE_MALLOC_SIZE c then
    let st1 := {| used_memory := used_memory st;
                  blocks := <[ptr := m_usable m]> (blocks st) |} in
    do n <- zmalloc_size c st1 ptr;
    Ok (update_zmalloc_stat_alloc st1 n, ptr)
  else
    let st1 := {| used_memory := used_memory st;
                  blocks := <[ptr := size]> (blocks st) |} in
    Ok (update_zmalloc_stat_alloc st1 (wrap64 (size + PREFIX_SIZE c)),
        ptr + PREFIX_SIZE c).

(** [zfree(ptr)]. *)
Definition zfree (c : config) (st : zstate) (ptr : Z) : res zstate :=
  if ptr =? 0 then Ok st
  else if HAVE_MALLOC_SIZE c then
    do n <- zmalloc_size c st ptr;
    let st1 := update_zmalloc_stat_free st n in
    Ok {| used_memory := used_memory st1; blocks := delete ptr (blocks st1) |}
  else
    let realptr := ptr - PREFIX_SIZE c in
    match blocks st !! realptr with
    | None => Err InvalidPointer
    | Some oldsize =>
        let st1 := update_zmalloc_stat_free st (wrap64 (oldsize + PREFIX_SIZE c)) in
        Ok {| used_memory := used_memory st1;
              blocks := delete realptr (blocks st1) |}
    end.

(** [zmalloc_used_memory()]. *)
Definition zmalloc_used_memory (st : zstate) : Z := used_memory st.

Definition with_header : config := {| HAVE_MALLOC_SIZE := false |}.
Definition with_malloc_size : config := {| HAVE_MALLOC_SIZE := true |}.
Definition zinit : zstate := {| used_memory := 0; blocks := ∅ |}.

(** *** Properties *)

Lemma wrap64_range x : 0 <= wrap64 x < 2 ^ 64.
Proof. unfold wrap64. apply Z.mod_pos_bound. lia. Qed.

Lemma wrap64_add_sub x n :
  0 <= x < 2 ^ 64 -> wrap64 (wrap64 (x + n) - n) = x.
Proof.
  intros Hx. unfold wrap64.
  rewrite Zminus_mod_idemp_l.
  replace (x + n - n) with x by lia.
  apply Z.mod_small. lia.
Qed.

(** C9 (evaluated at the failing input).  Without [HAVE_MALLOC_SIZE],
    [zmalloc(1)] makes the macro see [__n = 9]; the word-aligned size is
    16, the counter moves by 9. *)
Lemma zmalloc_counter_not_rounded :
  exists st' p,
    zmalloc with_header zinit 1 {| m_ptr := 4096; m_usable := 16 |} = Ok (st', p)
    /\ zmalloc_used_memory st' = 9
    /\ round_up_long (1 + PREFIX_SIZE with_header) = 16.
Proof. eexists _, _. split; [reflexivity | split; reflexivity]. Qed.

(** C10.  [zmalloc(size)] followed by [zfree] of the pointer it returned
    brings [zmalloc_used_memory()] back to its value before the two
    calls, and the [zfree] is well defined. *)
Theorem zmalloc_zfree_used_memory (c : config) (st st1 : zstate)
    (size p : Z) (m : malloc_result) :
  0 <= used_memory st < 2 ^ 64 ->
  0 < m_ptr m ->
  zmalloc c st size m = Ok (st1, p) ->
  exists st2, zfree c st1 p = Ok st2
              /\ zmalloc_used_memory st2 = zmalloc_used_memory st.
Proof.
  intros Hu Hp. unfold zmalloc, zfree, zmalloc_size, PREFIX_SIZE.
  destruct (Z.eqb_spec (m_ptr m) 0) as [?|_]; [lia|].
  destruct c as [[|]]; simpl.
  - rewrite lookup_insert_eq. simpl. intros [= <- <-]. simpl.
    destruct (Z.eqb_spec (m_ptr m) 0) as [?|_]; [lia|].
    rewrite lookup_insert_eq. simpl. eexists. split; [reflexivity|].
    simpl. apply wrap64_add_sub. exact Hu.
  - intros [= <- <-]. simpl.
    destruct (Z.eqb_spec (m_ptr m + sizeof_size_t) 0) as [?|_];
      [unfold sizeof_size_t in *; lia|].
    replace (m_ptr m + sizeof_size_t - sizeof_size_t) with (m_ptr m) by lia.
    rewrite lookup_insert_eq. eexists. split; [reflexivity|].
    simpl. apply wrap64_add_sub. exact Hu.
Qed.

Lemma zmalloc_zfree_used_memory_witness :
  exists st2,
    zfree with_header
          {| used_memory := 9; blocks := <[4096 := 1]> ∅ |} 4104 = Ok st2
    /\ zmalloc_used_memory st2 = zmalloc_used_memory zinit.
Proof.
  apply (zmalloc_zfree_used_memory with_header zinit _ 1 4104
           {| m_ptr := 4096; m_usable := 16 |}).
  - simpl. lia.
  - simpl. lia.
  - reflexivity.
Defined.

(** *** The other entry points *)

(** [zcalloc(size)], given the answer [m] of [calloc(1, size+PREFIX_SIZE)].
    The body is that of [zmalloc]; the zeroed contents are not part of
    the state. *)
Definition zcalloc (c : config) (st : zstate) (size : Z) (m : malloc_result)
  : res (zstate * Z) :=
  let ptr := m_ptr m in
  if ptr =? 0 then Err OutOfMemory
  else if HAVE_MALLOC_SIZE c then
    let st1 := {| used_memory := used_memory st;
                  blocks := <[ptr := m_usable m]> (blocks st) |} in
    do n <- zmalloc_size c st1 ptr;
    Ok (update_zmalloc_stat_alloc st1 n, ptr)
  else
    let st1 := {| used_memory := used_memory st;
                  blocks := <[ptr := size]> (blocks st) |} in
    Ok (update_zmalloc_stat_alloc st1 (wrap64 (size + PREFIX_SIZE c)),
        ptr + PREFIX_SIZE c).

(** [zrealloc(ptr, size)], given the answer [m] of [realloc]: on success
    the old block is gone and the block at [m_ptr m] is live (the two
    addresses may be the same). *)
Definition zrealloc (c : config) (st : zstate) (ptr size : Z)
    (m : malloc_result) : res (zstate * Z) :=
  if ptr =? 0 then zmalloc c st size m
  else if HAVE_MALLOC_SIZE c then
    do oldsize <- zmalloc_size c st ptr;
    let newptr := m_ptr m in
    if newptr =? 0 then Err OutOfMemory
    else
      let st1 := {| used_memory := used_memory st;
                    blocks := <[newptr := m_usable m]> (delete ptr (blocks st)) |} in
      let st2 := update_zmalloc_stat_free st1 oldsize in
      do n <- zmalloc_size c st2 newptr;
      Ok (update_zmalloc_stat_alloc st2 n, newptr)
  else
    let realptr := ptr - PREFIX_SIZE c in
    match blocks st !! realptr with
    | None => Err InvalidPointer
    | Some oldsize =>
        let newptr := m_ptr m in
        if newptr =? 0 then Err OutOfMemory
        else
          let st1 := {| used_memory := used_memory st;
                        blocks := <[newptr := size]> (delete realptr (blocks st)) |} in
          let st2 := update_zmalloc_stat_free st1 (wrap64 (oldsize + PREFIX_SIZE c)) in
          Ok (update_zmalloc_stat_alloc st2 (wrap64 (size + PREFIX_SIZE c)),
              newptr + PREFIX_SIZE c)
    end.

(** [zmalloc_usable(ptr)], which zmalloc.c defines without
    [HAVE_MALLOC_SIZE]: [zmalloc_size(ptr)-PREFIX_SIZE]. *)
Definition zmalloc_usable (c : config) (st : zstate) (ptr : Z) : res Z :=
  do n <- zmalloc_size c st ptr;
  Ok (wrap64 (n - PREFIX_SIZE c)).

(** *** What the counter counts *)

(** What [used_memory] is moved by for a block, from the [size_t] kept
    for it. *)
Definition charge (c : config) (v : Z) : Z :=
  if HAVE_MALLOC_SIZE c then v else wrap64 (v + PREFIX_SIZE c).

(** The sum of the charges of the live blocks. *)
Definition charged_blocks (c : config) (bl : gmap Z Z) : Z :=
  map_fold (fun _ v acc => charge c v + acc) 0 bl.
Definition charged (c : config) (st : zstate) : Z :=
  charged_blocks c (blocks st).

(** The calls a program makes, with the allocator's answers. *)
Inductive zcall : Type :=
| Zmalloc (size : Z) (m : malloc_result)
| Zcalloc (size : Z) (m : malloc_result)
| Zrealloc (ptr size : Z) (m : malloc_result)
| Zfree (ptr : Z).

Definition zstep (c : config) (st : zstate) (op : zcall) : res zstate :=
  match op with
  | Zmalloc size m => do '(st, _) <- zmalloc c st size m; Ok st
  | Zcalloc size m => do '(st, _) <- zcalloc c st size m; Ok st
  | Zrealloc ptr size m => do '(st, _) <- zrealloc c st ptr size m; Ok st
  | Zfree ptr => zfree c st ptr
  end.

(** The allocator hands out an address that is not live; [realloc] may
    hand out the address of the block it was given. *)
Definition fresh_answer (c : config) (st : zstate) (op : zcall) : Prop :=
  match op with
  | Zmalloc _ m | Zcalloc _ m => blocks st !! m_ptr m = None
  | Zrealloc ptr _ m =>
      if ptr =? 0 then blocks st !! m_ptr m = None
      else delete (ptr - PREFIX_SIZE c) (blocks st) !! m_ptr m = None
  | Zfree _ => True
  end.

(** A sequence of calls, run from [st]; the allocator's answers are
    fresh at every call. *)
Fixpoint zrun (c : config) (st : zstate) (ops : list zcall) : res zstate :=
  match ops with
  | [] => Ok st
  | op :: ops => do st <- zstep c st op; zrun c st ops
  end.

Fixpoint fresh_answers (c : config) (st : zstate) (ops : list zcall) : Prop :=
  match ops with
  | [] => True
  | op :: ops =>
      fresh_answer c st op
      /\ match zstep c st op with
         | Ok st' => fresh_answers c st' ops
         | Err _ => True
         end
  end.

Definition accounted (c : config) (st : zstate) : Prop :=
  used_memory st = wrap64 (charged c st).

Lemma charged_insert (c : config) (bl : gmap Z Z) (p v : Z) :
  bl !! p = None ->
  charged_blocks c (<[p := v]> bl) = charge c v + charged_blocks c bl.
Proof.
  intros Hp. unfold charged_blocks.
  apply (map_fold_insert_L (fun _ v acc => charge c v + acc)); [|exact Hp].
  intros. lia.
Qed.

Lemma charged_delete (c : config) (bl : gmap Z Z) (p v : Z) :
  bl !! p = Some v ->
  charged_blocks c bl = charge c v + charged_blocks c (delete p bl).
Proof.
  intros Hp. unfold charged_blocks.
  apply (map_fold_delete_L (fun _ v acc => charge c v + acc)); [|exact Hp].
  intros. lia.
Qed.

Lemma wrap64_plus_l (a b : Z) : wrap64 (wrap64 a + b) = wrap64 (a + b).
Proof. unfold wrap64. apply Zplus_mod_idemp_l. Qed.

Lemma wrap64_plus_r (a b : Z) : wrap64 (a + wrap64 b) = wrap64 (a + b).
Proof. unfold wrap64. apply Zplus_mod_idemp_r. Qed.

Lemma wrap64_minus_l (a b : Z) : wrap64 (wrap64 a - b) = wrap64 (a - b).
Proof. unfold wrap64. apply Zminus_mod_idemp_l. Qed.

Lemma wrap64_minus_r (a b : Z) : wrap64 (a - wrap64 b) = wrap64 (a - b).
Proof. unfold wrap64. apply Zminus_mod_idemp_r. Qed.

Lemma zmalloc_accounted (c : config) (st st' : zstate) (size p : Z)
    (m : malloc_result) :
  accounted c st -> blocks st !! m_ptr m = None ->
  zmalloc c st size m = Ok (st', p) -> accounted c st'.
Proof.
  unfold accounted, charged, zmalloc, zmalloc_size. intros Hacc Hfresh.
  destruct (m_ptr m =? 0); [discriminate|].
  destruct c as [[|]]; simpl.
  - rewrite lookup_insert_eq. simpl. intros [= <- _]. simpl.
    rewrite (charged_insert _ _ _ _ Hfresh). unfold charge at 1. simpl.
    rewrite Hacc, wrap64_plus_l. f_equal. lia.
  - intros [= <- _]. simpl.
    rewrite (charged_insert _ _ _ _ Hfresh). unfold charge at 1. simpl.
    rewrite Hacc, wrap64_plus_l. f_equal. lia.
Qed.

Lemma zcalloc_zmalloc (c : config) (st : zstate) (size : Z) (m : malloc_result) :
  zcalloc c st size m = zmalloc c st size m.
Proof. reflexivity. Qed.

Lemma zfree_accounted (c : config) (st st' : zstate) (ptr : Z) :
  accounted c st -> zfree c st ptr = Ok st' -> accounted c st'.
Proof.
  unfold accounted, charged, zfree, zmalloc_size. intros Hacc.
  destruct (ptr =? 0); [intros [= <-]; exact Hacc|].
  destruct c as [[|]]; simpl.
  - destruct (blocks st !! ptr) as [n|] eqn:Hn; [|simpl; discriminate].
    simpl. intros [= <-]. simpl.
    rewrite Hacc, (charged_delete _ _ _ _ Hn). unfold charge at 1. simpl.
    rewrite wrap64_minus_l. f_equal. lia.
  - destruct (blocks st !! (ptr - PREFIX_SIZE _)) as [n|] eqn:Hn; [|discriminate].
    intros [= <-]. simpl.
    rewrite Hacc, (charged_delete _ _ _ _ Hn). unfold charge at 1. simpl.
    rewrite wrap64_minus_l. f_equal. lia.
Qed.

Lemma zrealloc_accounted (c : config) (st st' : zstate) (ptr size p : Z)
    (m : malloc_result) :
  accounted c st -> fresh_answer c st (Zrealloc ptr size m) ->
  zrealloc c st ptr size m = Ok (st', p) -> accounted c st'.
Proof.
  intros Hacc Hfresh. unfold zrealloc. simpl in Hfresh.
  destruct (ptr =? 0); [apply zmalloc_accounted; assumption|].
  revert Hacc Hfresh.
  unfold accounted, charged, zmalloc_size. intros Hacc Hfresh.
  destruct c as [[|]]; simpl.
  - change (PREFIX_SIZE _) with 0 in Hfresh. rewrite Z.sub_0_r in Hfresh.
    destruct (blocks st !! ptr) as [n|] eqn:Hn; [|simpl; discriminate].
    simpl. destruct (m_ptr m =? 0); [discriminate|].
    rewrite lookup_insert_eq. simpl. intros [= <- _]. simpl.
    rewrite (charged_insert _ _ _ _ Hfresh). unfold charge at 1. simpl.
    rewrite Hacc, (charged_delete _ _ _ _ Hn). unfold charge at 1. simpl.
    rewrite wrap64_minus_l, wrap64_plus_l. f_equal. lia.
  - destruct (blocks st !! (ptr - PREFIX_SIZE _)) as [n|] eqn:Hn; [|discriminate].
    destruct (m_ptr m =? 0); [discriminate|].
    intros [= <- _]. simpl.
    rewrite (charged_insert _ _ _ _ Hfresh). unfold charge at 1. simpl.
    rewrite Hacc, (charged_delete _ _ _ _ Hn). unfold charge at 1. simpl.
    rewrite wrap64_minus_l, wrap64_plus_l. f_equal. lia.
Qed.

Lemma zstep_accounted (c : config) (st st' : zstate) (op : zcall) :
  accounted c st -> fresh_answer c st op -> zstep c st op = Ok st' ->
  accounted c st'.
Proof.
  intros Hacc Hfresh. destruct op as [size m|size m|ptr size m|ptr]; simpl.
  - destruct (zmalloc c st size m) as [[st1 p]|] eqn:E; [|discriminate].
    intros [= <-]. eapply zmalloc_accounted; eauto.
  - rewrite zcalloc_zmalloc.
    destruct (zmalloc c st size m) as [[st1 p]|] eqn:E; [|discriminate].
    intros [= <-]. eapply zmalloc_accounted; eauto.
  - destruct (zrealloc c st ptr size m) as [[st1 p]|] eqn:E; [|discriminate].
    intros [= <-]. eapply zrealloc_accounted; eauto.
  - apply zfree_accounted. exact Hacc.
Qed.

Lemma zrun_accounted (c : config) (ops : list zcall) :
  forall st st',
    accounted c st -> fresh_answers c st ops -> zrun c st ops = Ok st' ->
    accounted c st'.
Proof.
  induction ops as [|op ops IH]; intros st st' Hacc Hfresh; simpl.
  - intros [= <-]. exact Hacc.
  - destruct Hfresh as [Hop Hrest].
    destruct (zstep c st op) as [st1|] eqn:E; [|discriminate]. simpl.
    apply IH; [|exact Hrest]. eapply zstep_accounted; eauto.
Qed.

(** After any sequence of [zmalloc], [zcalloc], [zrealloc] and [zfree]
    calls that went through, on an allocator that hands out addresses
    that are not live, [zmalloc_used_memory()] is the sum of what was
    charged for the blocks that are live, as a [size_t]; it is 0 once
    every block has been freed. *)
Theorem used_memory_counts_live_blocks (c : config) (ops : list zcall)
    (st : zstate) :
  fresh_answers c zinit ops -> zrun c zinit ops = Ok st ->
  zmalloc_used_memory st = wrap64 (charged c st)
  /\ (blocks st = ∅ -> zmalloc_used_memory st = 0).
Proof.
  intros Hfresh Hrun.
  assert (Hacc : accounted c st).
  { apply (zrun_accounted c ops zinit st); [reflexivity | assumption..]. }
  split; [exact Hacc|]. intros He. unfold zmalloc_used_memory.
  rewrite Hacc. unfold charged, charged_blocks. rewrite He, map_fold_empty.
  reflexivity.
Qed.

Definition sample_calls : list zcall :=
  [Zmalloc 10 {| m_ptr := 4096; m_usable := 16 |};
   Zcalloc 3 {| m_ptr := 8192; m_usable := 8 |};
   Zrealloc 4104 100 {| m_ptr := 12288; m_usable := 104 |};
   Zfree 8200;
   Zfree 12296].

Lemma used_memory_counts_live_blocks_witness :
  exists st,
    zrun with_header zinit sample_calls = Ok st
    /\ zmalloc_used_memory st = 0.
Proof.
  assert (Hrun : zrun with_header zinit sample_calls
                 = Ok {| used_memory := 0; blocks := ∅ |})
    by (vm_compute; reflexivity).
  eexists. split; [exact Hrun|].
  apply (used_memory_counts_live_blocks with_header sample_calls _).
  - vm_compute. repeat split.
  - exact Hrun.
  - reflexivity.
Defined.

(** *** The size reported for a block *)

Lemma wrap64_in_range (x : Z) : 0 <= x < 2 ^ 64 -> wrap64 x = x.
Proof. intros H. unfold wrap64. apply Z.mod_small. exact H. Qed.

Lemma round_up_long_spec (n : Z) :
  0 <= n < 2 ^ 64 - 8 ->
  n <= round_up_long n < n + 8 /\ round_up_long n mod 8 = 0.
Proof.
  intros Hn. unfold round_up_long, sizeof_long. change (8 - 1) with (Z.ones 3).
  rewrite Z.land_ones by lia. change (2 ^ 3) with 8.
  pose proof (Z.mod_pos_bound n 8 ltac:(lia)) as Hm.
  pose proof (Z.div_mod n 8 ltac:(lia)) as Hd.
  destruct (Z.eqb_spec (n mod 8) 0) as [H0|H0].
  - split; [lia | exact H0].
  - rewrite wrap64_in_range by lia. split; [lia|].
    replace (n + (8 - n mod 8)) with ((n / 8 + 1) * 8) by lia.
    apply Z.mod_mul. lia.
Qed.

(** Without [HAVE_MALLOC_SIZE], for a block obtained by [zmalloc(size)]
    [zmalloc_usable] reports [size] rounded up to a multiple of 8, and
    [zmalloc_size] that plus the 8 bytes of the header. *)
Theorem zmalloc_usable_rounds_up (st st' : zstate) (size p : Z)
    (m : malloc_result) :
  0 <= size < 2 ^ 64 - 16 ->
  zmalloc with_header st size m = Ok (st', p) ->
  exists u,
    zmalloc_usable with_header st' p = Ok u
    /\ zmalloc_size with_header st' p = Ok (u + 8)
    /\ size <= u < size + 8 /\ u mod 8 = 0.
Proof.
  intros Hs. unfold zmalloc, zmalloc_usable, zmalloc_size, with_header.
  destruct (m_ptr m =? 0); [discriminate|]. simpl.
  intros [= <- <-]. simpl.
  change (PREFIX_SIZE {| HAVE_MALLOC_SIZE := false |}) with 8.
  replace (m_ptr m + 8 - 8) with (m_ptr m) by lia.
  rewrite lookup_insert_eq. simpl.
  destruct (round_up_long_spec size ltac:(lia)) as [Hr Hm].
  exists (round_up_long size).
  rewrite (wrap64_in_range (round_up_long size + 8)) by lia.
  replace (round_up_long size + 8 - 8) with (round_up_long size) by lia.
  rewrite wrap64_in_range by lia. auto.
Qed.

Lemma zmalloc_usable_rounds_up_witness :
  exists u,
    zmalloc_usable with_header
      {| used_memory := 18; blocks := <[4096 := 10]> ∅ |} 4104 = Ok u
    /\ 10 <= u < 18.
Proof.
  destruct (zmalloc_usable_rounds_up zinit
              {| used_memory := 18; blocks := <[4096 := 10]> ∅ |} 10 4104
              {| m_ptr := 4096; m_usable := 16 |})
    as (u & Hu & _ & Hb & _).
  - lia.
  - reflexivity.
  - exists u. split; [exact Hu | exact Hb].
Defined.

End Zmalloc.

(** ** dict.c *)

Module Dict.

Definition DICT_OK : Z := 0.
Definition DICT_ERR : Z := 1.
Definition DICT_HT_INITIAL_SIZE : Z := 4.

(** [dict_force_resize_ratio], a file-level constant of dict.c. *)
Definition dict_force_resize_ratio : Z := 5.

(** A [dictEntry] without its [next] link: a bucket chain is the list of
    its entries, head first.  Keys and values are the [void*] words. *)
Record dictEntry : Type := { key : Z; val : Z }.

(** [dictType]: the callbacks the embedding can observe.  A NULL callback
    is [None].  The two destructors only release memory and are left out. *)
Record dictType : Type := {
  hashFunction : Z -> Z;
  keyDup : option (Z -> Z);
  valDup : option (Z -> Z);
  keyCompare : option (Z -> Z -> bool)
}.

(** [dictht]: [table] is [None] for a NULL array, else the array of
    chains. *)
Record dictht : Type := {
  table : option (list (list dictEntry));
  size : Z;
  sizemask : Z;
  used : Z
}.

(** [dict]: [ht0], [ht1] are [ht[0]], [ht[1]]; [privdata] is only handed
    to callbacks and is left out. *)
Record dict : Type := {
  type : dictType;
  ht0 : dictht;
  ht1 : dictht;
  rehashidx : Z;
  iterators : Z
}.

(** Field updates. *)
Definition set_table (h : dictht) (t : list (list dictEntry)) : dictht :=
  {| table := Some t; size := size h; sizemask := sizemask h; used := used h |}.
Definition set_used (h : dictht) (u : Z) : dictht :=
  {| table := table h; size := size h; sizemask := sizemask h; used := u |}.
Definition set_ht0 (d : dict) (h : dictht) : dict :=
  {| type := type d; ht0 := h; ht1 := ht1 d;
     rehashidx := rehashidx d; iterators := iterators d |}.
Definition set_ht1 (d : dict) (h : dictht) : dict :=
  {| type := type d; ht0 := ht0 d; ht1 := h;
     rehashidx := rehashidx d; iterators := iterators d |}.
Definition set_rehashidx (d : dict) (i : Z) : dict :=
  {| type := type d; ht0 := ht0 d; ht1 := ht1 d;
     rehashidx := i; iterators := iterators d |}.
Definition set_iterators (d : dict) (i : Z) : dict :=
  {| type := type d; ht0 := ht0 d; ht1 := ht1 d;
     rehashidx := rehashidx d; iterators := i |}.

(** [d->ht[t]] for [t] in 0, 1. *)
Definition ht (d : dict) (t : nat) : dictht :=
  match t with O => ht0 d | _ => ht1 d end.
Definition set_ht (d : dict) (t : nat) (h : dictht) : dict :=
  match t with O => set_ht0 d h | _ => set_ht1 d h end.

(** Array access: [t[i]] is defined inside the array only. *)
Definition lookupZ {A : Type} (t : list A) (i : Z) : res A :=
  if i <? 0 then Err OutOfBounds
  else match t !! Z.to_nat i with
       | Some x => Ok x
       | None => Err OutOfBounds
       end.
Definition insertZ {A : Type} (i : Z) (x : A) (t : list A) : list A :=
  <[Z.to_nat i := x]> t.

(** [h->table], which must not be NULL where it is indexed. *)
Definition the_table (h : dictht) : res (list (list dictEntry)) :=
  match table h with
  | Some t => Ok t
  | None => Err NullDeref
  end.

(** Macros of dict.h. *)
Definition dictHashKey (d : dict) (k : Z) : Z :=
  wrap64 (hashFunction (type d) k).
Definition dictCompareKeys (d : dict) (k1 k2 : Z) : bool :=
  match keyCompare (type d) with
  | Some f => f k1 k2
  | None => k1 =? k2
  end.
Definition dictSize (d : dict) : Z := wrap64 (used (ht0 d) + used (ht1 d)).
Definition dictIsRehashing (d : dict) : bool := negb (rehashidx d =? -1).
Definition dictSetKeyOf (d : dict) (k : Z) : Z :=
  match keyDup (type d) with Some f => f k | None => k end.
Definition dictSetValOf (d : dict) (v : Z) : Z :=
  match valDup (type d) with Some f => f v | None => v end.

(** [_dictReset] *)
Definition _dictReset : dictht :=
  {| table := None; size := 0; sizemask := 0; used := 0 |}.

(** [dictCreate] with [_dictInit]: the dictionary of a call that
    returned ([zmalloc] of the header aborts the process otherwise). *)
Definition dictCreate (ty : dictType) : dict :=
  {| type := ty; ht0 := _dictReset; ht1 := _dictReset;
     rehashidx := -1; iterators := 0 |}.

(** [_dictNextPower]: the loop [while(1) { if (i >= size) return i; i *= 2; }]
    on [unsigned long]. *)
Fixpoint _dictNextPower_loop (fuel : nat) (i size : Z) : res Z :=
  match fuel with
  | O => Err OutOfFuel
  | S f => if i >=? size then Ok i
           else _dictNextPower_loop f (wrap64 (i * 2)) size
  end.

Definition _dictNextPower (size : Z) : res Z :=
  if size >=? LONG_MAX then Ok (wrap64 (LONG_MAX + 1))
  else _dictNextPower_loop 64 DICT_HT_INITIAL_SIZE size.

(** What a call finds outside the dictionary: the file-level flag
    [dict_can_resize], and the answers of the allocator to the requests
    the call makes, [true] for memory and [false] for NULL.  A call makes
    at most one request of each kind: [zcalloc] of a bucket array in
    [dictExpand], [zmalloc] of an entry in [dictAddRaw]. *)
Record alloc : Type := { zcalloc_ok : bool; zmalloc_ok : bool }.
Record env : Type := { can_resize : bool; mem : alloc }.

(** [sizeof(dictEntry* )] *)
Definition sizeof_entry_ptr : Z := 8.

(** [zcalloc(n*sizeof(dictEntry* ))] for a bucket array.  The product is a
    [size_t] and wraps; the array has as many NULL heads as the bytes
    asked for hold.  Without memory [zcalloc] runs
    [zmalloc_oom_handler], and the default handler aborts. *)
Definition zcalloc_table (c : env) (n : Z) : res (list (list dictEntry)) :=
  let bytes := wrap64 (n * sizeof_entry_ptr) in
  if zcalloc_ok (mem c)
  then Ok (replicate (Z.to_nat (bytes / sizeof_entry_ptr)) [])
  else Err OutOfMemory.

(** [zmalloc(sizeof(dictEntry))] for an entry of a chain. *)
Definition zmalloc_entry (c : env) : res unit :=
  if zmalloc_ok (mem c) then Ok tt else Err OutOfMemory.

(** [dictExpand] *)
Definition dictExpand (c : env) (d : dict) (size : Z) : res (dict * Z) :=
  if dictIsRehashing d || (used (ht0 d) >? size) then Ok (d, DICT_ERR)
  else
    do realsize <- _dictNextPower size;
    if realsize =? Dict.size (ht0 d) then Ok (d, DICT_ERR)
    else
      do tb <- zcalloc_table c realsize;
      let n := {| table := Some tb;
                  size := realsize;
                  sizemask := wrap64 (realsize - 1);
                  used := 0 |} in
      match table (ht0 d) with
      | None => Ok (set_ht0 d n, DICT_OK)
      | Some _ => Ok (set_rehashidx (set_ht1 d n) 0, DICT_OK)
      end.

(** [dictResize] *)
Definition dictResize (c : env) (d : dict) : res (dict * Z) :=
  if negb (can_resize c) || dictIsRehashing d then Ok (d, DICT_ERR)
  else
    (* int minimal = d->ht[0].used; *)
    let minimal := wrap_int (used (ht0 d)) in
    let minimal := if minimal <? DICT_HT_INITIAL_SIZE
                   then DICT_HT_INITIAL_SIZE else minimal in
    dictExpand c d (wrap64 minimal).

(** *** Incremental rehashing *)

(** The inner loop of [dictRehash]:
    [while(table[rehashidx] == NULL) { rehashidx++; if (--empty_visits == 0) return 1; }]
    [probes] counts the empty buckets visited; it is not a variable of the
    C code. *)
Inductive skip_result : Type :=
| SkipFound (idx ev probes : Z)
| SkipExhausted (idx probes : Z).

Fixpoint skip_empty (fuel : nat) (t0 : list (list dictEntry))
    (idx ev probes : Z) : res skip_result :=
  match fuel with
  | O => Err OutOfFuel
  | S f =>
      do b <- lookupZ t0 idx;
      match b with
      | _ :: _ => Ok (SkipFound idx ev probes)
      | [] =>
          let idx := idx + 1 in
          let ev := wrap_int (ev - 1) in
          if ev =? 0 then Ok (SkipExhausted idx (probes + 1))
          else skip_empty f t0 idx ev (probes + 1)
      end
  end.

(** The loop [while(de) { ... }] of [dictRehash]: every entry of the chain
    is put at the head of its chain in [ht[1]]. *)
Fixpoint move_chain (d : dict) (de : list dictEntry) : res dict :=
  match de with
  | [] => Ok d
  | e :: nextde =>
      let h := Z.land (dictHashKey d (key e)) (sizemask (ht1 d)) in
      do t1 <- the_table (ht1 d);
      do b <- lookupZ t1 h;
      let d := set_ht1 d (set_table (ht1 d) (insertZ h (e :: b) t1)) in
      let d := set_ht0 d (set_used (ht0 d) (wrap64 (used (ht0 d) - 1))) in
      let d := set_ht1 d (set_used (ht1 d) (wrap64 (used (ht1 d) + 1))) in
      move_chain d nextde
  end.

(** How the outer loop of [dictRehash] is left, with the counts of the
    buckets moved and of the empty buckets visited (two counters of the
    embedding, not of the C code). *)
Record rehash_run : Type := {
  r_early : bool;     (* left by [return 1] inside the loop *)
  r_dict : dict;
  r_moved : Z;
  r_probes : Z
}.

(** The outer loop [while(n-- && d->ht[0].used != 0) { ... }]. *)
Fixpoint dictRehash_loop (fuel : nat) (d : dict) (n ev moved probes : Z)
    : res rehash_run :=
  match fuel with
  | O => Err OutOfFuel
  | S f =>
      if (n =? 0) || (used (ht0 d) =? 0)
      then Ok {| r_early := false; r_dict := d;
                 r_moved := moved; r_probes := probes |}
      else
        let n := wrap_int (n - 1) in
        (* assert(d->ht[0].size > (unsigned long)d->rehashidx); *)
        if negb (size (ht0 d) >? wrap64 (rehashidx d)) then Err AssertFail
        else
          do t0 <- the_table (ht0 d);
          do s <- skip_empty (S (length t0)) t0 (rehashidx d) ev probes;
          match s with
          | SkipExhausted idx probes =>
              Ok {| r_early := true; r_dict := set_rehashidx d idx;
                    r_moved := moved; r_probes := probes |}
          | SkipFound idx ev probes =>
              let d := set_rehashidx d idx in
              do de <- lookupZ t0 idx;
              do d <- move_chain d de;
              do t0 <- the_table (ht0 d);
              let d := set_ht0 d (set_table (ht0 d) (insertZ idx [] t0)) in
              let d := set_rehashidx d (idx + 1) in
              dictRehash_loop f d n ev (moved + 1) probes
          end
  end.

(** What [dictRehash] did: the dictionary, the value returned and the two
    counters. *)
Record rehash_report : Type := {
  rr_dict : dict;
  rr_ret : Z;
  rr_moved : Z;
  rr_probes : Z
}.

Definition dictRehash_report (d : dict) (n : Z) : res rehash_report :=
  let empty_visits := wrap_int (n * 10) in
  if negb (dictIsRehashing d)
  then Ok {| rr_dict := d; rr_ret := 0; rr_moved := 0; rr_probes := 0 |}
  else
    do r <- dictRehash_loop (S (length (default [] (table (ht0 d)))))
                            d n empty_visits 0 0;
    if r_early r
    then Ok {| rr_dict := r_dict r; rr_ret := 1;
               rr_moved := r_moved r; rr_probes := r_probes r |}
    else
      let d := r_dict r in
      if used (ht0 d) =? 0 then
        (* zfree(d->ht[0].table); d->ht[0] = d->ht[1]; _dictReset(&d->ht[1]); *)
        let d := set_ht0 d (ht1 d) in
        let d := set_ht1 d _dictReset in
        let d := set_rehashidx d (-1) in
        Ok {| rr_dict := d; rr_ret := 0;
              rr_moved := r_moved r; rr_probes := r_probes r |}
      else
        Ok {| rr_dict := d; rr_ret := 1;
              rr_moved := r_moved r; rr_probes := r_probes r |}.

(** [dictRehash(d, n)]: the dictionary after the call and its result. *)
Definition dictRehash (d : dict) (n : Z) : res (dict * Z) :=
  do r <- dictRehash_report d n;
  Ok (rr_dict r, rr_ret r).

(** [_dictRehashStep] *)
Definition _dictRehashStep (d : dict) : res dict :=
  if iterators d =? 0
  then do '(d, _) <- dictRehash d 1; Ok d
  else Ok d.

(** *** Lookup, insertion and removal *)

(** [_dictExpandIfNeeded] *)
Definition _dictExpandIfNeeded (c : env) (d : dict) : res (dict * Z) :=
  if dictIsRehashing d then Ok (d, DICT_OK)
  else if size (ht0 d) =? 0 then dictExpand c d DICT_HT_INITIAL_SIZE
  else if (used (ht0 d) >=? size (ht0 d))
          && (can_resize c
              || (used (ht0 d) / size (ht0 d) >? dict_force_resize_ratio))
  then dictExpand c d (wrap64 (used (ht0 d) * 2))
  else Ok (d, DICT_OK).

(** The test of every chain walk:
    [key==he->key || dictCompareKeys(d, key, he->key)]. *)
Definition key_matches (d : dict) (k : Z) (e : dictEntry) : bool :=
  (k =? key e) || dictCompareKeys d k (key e).

(** Walk of a chain for [k]: the first matching entry. *)
Fixpoint chain_find (d : dict) (k : Z) (he : list dictEntry) : option dictEntry :=
  match he with
  | [] => None
  | e :: next => if key_matches d k e then Some e else chain_find d k next
  end.

(** The same walk, giving the position of the entry in its chain. *)
Fixpoint chain_index (d : dict) (k : Z) (he : list dictEntry) : option nat :=
  match he with
  | [] => None
  | e :: next => if key_matches d k e then Some O
                 else option_map S (chain_index d k next)
  end.

(** The walk of [dictGenericDelete], which unlinks the first matching
    entry: the entry and the chain without it. *)
Fixpoint chain_unlink (d : dict) (k : Z) (he : list dictEntry)
    : option (dictEntry * list dictEntry) :=
  match he with
  | [] => None
  | e :: next =>
      if key_matches d k e then Some (e, next)
      else match chain_unlink d k next with
           | Some (x, rest) => Some (x, e :: rest)
           | None => None
           end
  end.

(** A [dictEntry*] into the dictionary: table, bucket and position in the
    chain. *)
Record entry_ref : Type := { e_table : nat; e_bucket : Z; e_pos : nat }.

(** The chain [d->ht[t].table[h & d->ht[t].sizemask]]. *)
Definition chain_at (d : dict) (t : nat) (h : Z) : res (Z * list dictEntry) :=
  let idx := Z.land h (sizemask (ht d t)) in
  do tb <- the_table (ht d t);
  do he <- lookupZ tb idx;
  Ok (idx, he).

(** [_dictKeyIndex]: the dictionary (it may have been expanded), the
    index or -1, and [*existing]. *)
Definition _dictKeyIndex (c : env) (d : dict) (k hash : Z)
    : res (dict * Z * option entry_ref) :=
  do '(d, r) <- _dictExpandIfNeeded c d;
  if r =? DICT_ERR then Ok (d, -1, None)
  else
    do '(idx, he) <- chain_at d 0 hash;
    match chain_index d k he with
    | Some p => Ok (d, -1, Some {| e_table := 0; e_bucket := idx; e_pos := p |})
    | None =>
        if negb (dictIsRehashing d) then Ok (d, idx, None)
        else
          do '(idx, he) <- chain_at d 1 hash;
          match chain_index d k he with
          | Some p =>
              Ok (d, -1, Some {| e_table := 1; e_bucket := idx; e_pos := p |})
          | None => Ok (d, idx, None)
          end
    end.

(** [dictAddRaw]: the dictionary, the new entry or NULL, and [*existing].
    The value of the new entry is not set yet; it is written as 0. *)
Definition dictAddRaw (c : env) (d : dict) (k : Z)
    : res (dict * option entry_ref * option entry_ref) :=
  do d <- (if dictIsRehashing d then _dictRehashStep d else Ok d);
  do '(d, index, existing) <- _dictKeyIndex c d k (dictHashKey d k);
  if index =? -1 then Ok (d, None, existing)
  else
    let t := if dictIsRehashing d then 1%nat else 0%nat in
    do _ <- zmalloc_entry c;
    do tb <- the_table (ht d t);
    do b <- lookupZ tb index;
    let entry := {| key := dictSetKeyOf d k; val := 0 |} in
    let h := set_table (ht d t) (insertZ index (entry :: b) tb) in
    let h := set_used h (wrap64 (used h + 1)) in
    Ok (set_ht d t h,
        Some {| e_table := t; e_bucket := index; e_pos := 0 |}, existing).

(** [dictSetVal(d, entry, val)] through an entry pointer. *)
Definition dictSetVal (d : dict) (r : entry_ref) (v : Z) : res dict :=
  do tb <- the_table (ht d (e_table r));
  do b <- lookupZ tb (e_bucket r);
  match b !! e_pos r with
  | None => Err InvalidPointer
  | Some e =>
      let e := {| key := key e; val := dictSetValOf d v |} in
      Ok (set_ht d (e_table r)
            (set_table (ht d (e_table r))
               (insertZ (e_bucket r) (<[e_pos r := e]> b) tb)))
  end.

(** [dictAdd] *)
Definition dictAdd (c : env) (d : dict) (k v : Z) : res (dict * Z) :=
  do '(d, entry, _) <- dictAddRaw c d k;
  match entry with
  | None => Ok (d, DICT_ERR)
  | Some r => do d <- dictSetVal d r v; Ok (d, DICT_OK)
  end.

(** [dictReplace]: 1 if the key was added, 0 if its value was replaced. *)
Definition dictReplace (c : env) (d : dict) (k v : Z) : res (dict * Z) :=
  do '(d, entry, existing) <- dictAddRaw c d k;
  match entry with
  | Some r => do d <- dictSetVal d r v; Ok (d, 1)
  | None =>
      match existing with
      | Some r => do d <- dictSetVal d r v; Ok (d, 0)
      | None => Err NullDeref
      end
  end.

(** One turn of the [for (table = 0; table <= 1; table++)] loop of
    [dictGenericDelete]. *)
Definition unlink_in (d : dict) (t : nat) (h k : Z)
    : res (option (dict * dictEntry)) :=
  do '(idx, he) <- chain_at d t h;
  match chain_unlink d k he with
  | None => Ok None
  | Some (e, rest) =>
      do tb <- the_table (ht d t);
      let h := set_table (ht d t) (insertZ idx rest tb) in
      let h := set_used h (wrap64 (used h - 1)) in
      Ok (Some (set_ht d t h, e))
  end.

(** [dictGenericDelete]; [nofree] only decides whether the entry is
    released, which the embedding does not see. *)
Definition dictGenericDelete (d : dict) (k : Z) (nofree : bool)
    : res (dict * option dictEntry) :=
  if (used (ht0 d) =? 0) && (used (ht1 d) =? 0) then Ok (d, None)
  else
    do d <- (if dictIsRehashing d then _dictRehashStep d else Ok d);
    let h := dictHashKey d k in
    do r <- unlink_in d 0 h k;
    match r with
    | Some (d, e) => Ok (d, Some e)
    | None =>
        if negb (dictIsRehashing d) then Ok (d, None)
        else
          do r <- unlink_in d 1 h k;
          match r with
          | Some (d, e) => Ok (d, Some e)
          | None => Ok (d, None)
          end
    end.

(** [dictDelete] *)
Definition dictDelete (d : dict) (k : Z) : res (dict * Z) :=
  do '(d, he) <- dictGenericDelete d k false;
  Ok (d, match he with Some _ => DICT_OK | None => DICT_ERR end).

(** [dictUnlink] *)
Definition dictUnlink (d : dict) (k : Z) : res (dict * option dictEntry) :=
  dictGenericDelete d k true.

(** [dictFind] *)
Definition dictFind (d : dict) (k : Z) : res (dict * option dictEntry) :=
  if wrap64 (used (ht0 d) + used (ht1 d)) =? 0 then Ok (d, None)
  else
    do d <- (if dictIsRehashing d then _dictRehashStep d else Ok d);
    let h := dictHashKey d k in
    do '(_, he) <- chain_at d 0 h;
    match chain_find d k he with
    | Some e => Ok (d, Some e)
    | None =>
        if negb (dictIsRehashing d) then Ok (d, None)
        else
          do '(_, he) <- chain_at d 1 h;
          Ok (d, chain_find d k he)
    end.

(** The entries reachable from the heads of a table, and of the
    dictionary. *)
Definition tbl (h : dictht) : list (list dictEntry) := default [] (table h).
Definition ht_entries (h : dictht) : list dictEntry := concat (tbl h).
Definition dictEntries (d : dict) : list dictEntry :=
  ht_entries (ht0 d) ++ ht_entries (ht1 d).

(** *** Arrays *)

Lemma lookupZ_Ok {A : Type} (t : list A) (i : Z) (x : A) :
  lookupZ t i = Ok x <-> 0 <= i /\ t !! Z.to_nat i = Some x.
Proof.
  unfold lookupZ. destruct (Z.ltb_spec i 0).
  - split; [discriminate | lia].
  - destruct (t !! Z.to_nat i) eqn:E; split.
    + intros [= ->]. auto.
    + intros [_ [= ->]]. reflexivity.
    + discriminate.
    + intros [_ ?]. discriminate.
Qed.

Lemma lookupZ_lt {A : Type} (t : list A) (i : Z) (x : A) :
  lookupZ t i = Ok x -> 0 <= i < Z.of_nat (length t).
Proof.
  intros [H0 H]%lookupZ_Ok. apply lookup_lt_Some in H. lia.
Qed.

Lemma lookupZ_total {A : Type} (t : list A) (i : Z) :
  0 <= i < Z.of_nat (length t) -> exists x, lookupZ t i = Ok x.
Proof.
  intros H. destruct (lookup_lt_is_Some_2 t (Z.to_nat i)) as [x Hx]; [lia|].
  exists x. apply lookupZ_Ok. split; [lia | exact Hx].
Qed.

Lemma insertZ_length {A : Type} (t : list A) (i : Z) (x : A) :
  length (insertZ i x t) = length t.
Proof. apply length_insert. Qed.

Lemma lookupZ_insertZ_eq {A : Type} (t : list A) (i : Z) (x : A) :
  0 <= i < Z.of_nat (length t) -> lookupZ (insertZ i x t) i = Ok x.
Proof.
  intros H. apply lookupZ_Ok. split; [lia|].
  apply list_lookup_insert_eq. lia.
Qed.

Lemma lookupZ_insertZ_ne {A : Type} (t : list A) (i j : Z) (x : A) :
  0 <= i -> 0 <= j -> i <> j -> lookupZ (insertZ i x t) j = lookupZ t j.
Proof.
  intros Hi Hj Hne. unfold lookupZ, insertZ.
  destruct (Z.ltb_spec j 0); [reflexivity|].
  rewrite list_lookup_insert_ne; [reflexivity | lia].
Qed.

(** The entries of a table outside bucket [i]. *)
Definition others (t : list (list dictEntry)) (i : Z) : list dictEntry :=
  concat (take (Z.to_nat i) t) ++ concat (drop (S (Z.to_nat i)) t).

Lemma concat_bucket (t : list (list dictEntry)) (i : Z) (b : list dictEntry) :
  lookupZ t i = Ok b -> concat t ≡ₚ b ++ others t i.
Proof.
  intros [H0 H]%lookupZ_Ok. unfold others.
  rewrite <- (take_drop_middle t _ _ H) at 1.
  rewrite concat_app, concat_cons.
  apply Permutation_app_swap_app.
Qed.

Lemma concat_insertZ (t : list (list dictEntry)) (i : Z) (b b' : list dictEntry) :
  lookupZ t i = Ok b -> concat (insertZ i b' t) ≡ₚ b' ++ others t i.
Proof.
  intros [H0 H]%lookupZ_Ok. unfold others, insertZ.
  rewrite insert_take_drop by (eapply lookup_lt_Some; eauto).
  rewrite concat_app, concat_cons.
  apply Permutation_app_swap_app.
Qed.

Definition chain_count (t : list (list dictEntry)) : Z :=
  Z.of_nat (length (concat t)).

Lemma chain_count_insertZ (t : list (list dictEntry)) (i : Z) (b b' : list dictEntry) :
  lookupZ t i = Ok b ->
  chain_count (insertZ i b' t)
  = chain_count t - Z.of_nat (length b) + Z.of_nat (length b').
Proof.
  intros H. unfold chain_count.
  rewrite (Permutation_length (concat_insertZ t i b b' H)).
  rewrite (Permutation_length (concat_bucket t i b H)).
  rewrite !length_app. lia.
Qed.

Lemma chain_count_bucket (t : list (list dictEntry)) (i : Z) (b : list dictEntry) :
  lookupZ t i = Ok b -> Z.of_nat (length b) <= chain_count t.
Proof.
  intros H. unfold chain_count.
  rewrite (Permutation_length (concat_bucket t i b H)), length_app. lia.
Qed.

Lemma chain_count_pos (t : list (list dictEntry)) :
  0 < chain_count t ->
  exists j b, lookupZ t j = Ok b /\ b <> [].
Proof.
  unfold chain_count. intros H.
  destruct (decide (Forall (fun x => x = []) t)) as [Hall|Hn].
  - apply concat_nil_Forall in Hall. rewrite Hall in H. simpl in H. lia.
  - apply not_Forall_Exists in Hn; [|intros x; apply _].
    apply Exists_exists in Hn as [b [Hin Hb]].
    apply list_elem_of_lookup in Hin as [j Hj].
    exists (Z.of_nat j), b. split; [|exact Hb].
    apply lookupZ_Ok. split; [lia|]. rewrite Nat2Z.id. exact Hj.
Qed.

Lemma chain_count_replicate (n : nat) : chain_count (replicate n []) = 0.
Proof.
  unfold chain_count. induction n as [|n IH]; simpl; [reflexivity | exact IH].
Qed.

(** *** Well-formed dictionaries *)

Definition is_table_size (n : Z) : Prop := exists k, 2 <= k <= 63 /\ n = 2 ^ k.

(** A table is either unallocated and zeroed, or an array of [size]
    chains with [size] a power of two, [sizemask = size - 1] and [used]
    the number of entries in the chains. *)
Definition ht_inv (h : dictht) : Prop :=
  match table h with
  | None => size h = 0 /\ sizemask h = 0 /\ used h = 0
  | Some t => Z.of_nat (length t) = size h /\ is_table_size (size h)
              /\ sizemask h = size h - 1 /\ used h = chain_count t
  end.

(** The invariant of dict.c.  While rehashing both tables are allocated
    and the buckets of [ht[0]] below [rehashidx] are empty. *)
Definition dict_inv (d : dict) : Prop :=
  ht_inv (ht0 d) /\ ht_inv (ht1 d)
  /\ used (ht0 d) + used (ht1 d) < 2 ^ 64
  /\ (rehashidx d = -1 -> ht1 d = _dictReset)
  /\ (rehashidx d <> -1 ->
        0 <= rehashidx d <= size (ht0 d)
        /\ table (ht0 d) <> None /\ table (ht1 d) <> None
        /\ forall i, 0 <= i < rehashidx d -> lookupZ (tbl (ht0 d)) i = Ok []).

(** What the design document asks of the size of a new table. *)
Definition is_pow2 (n : Z) : Prop := exists k, 0 <= k /\ n = 2 ^ k.
Definition smallest_pow2_ge (s n : Z) : Prop :=
  is_pow2 n /\ s <= n /\ forall m, is_pow2 m -> s <= m -> n <= m.

(** The table [dictExpand] has just allocated: [ht[0]] on first use,
    else [ht[1]]. *)
Definition expanded_table (d d' : dict) : dictht :=
  match table (ht0 d) with None => ht0 d' | Some _ => ht1 d' end.

(** *** Machine arithmetic *)

Lemma wrap64_small (x : Z) : 0 <= x < 2 ^ 64 -> wrap64 x = x.
Proof. intros H. unfold wrap64. apply Z.mod_small. exact H. Qed.

Lemma wrap64_bounds (x : Z) : 0 <= wrap64 x < 2 ^ 64.
Proof. unfold wrap64. apply Z.mod_pos_bound. lia. Qed.

Lemma pow2_le_63 (k : Z) : 0 <= k <= 63 -> 0 < 2 ^ k <= 2 ^ 63.
Proof.
  intros H. split; [apply Z.pow_pos_nonneg; lia|].
  apply Z.pow_le_mono_r; lia.
Qed.

Lemma pow2_lt_mono (a b : Z) : 0 <= a < b -> 2 ^ a < 2 ^ b.
Proof. intros H. apply Z.pow_lt_mono_r; lia. Qed.

Lemma pow2_le_mono (a b : Z) : 0 <= a <= b -> 2 ^ a <= 2 ^ b.
Proof. intros H. apply Z.pow_le_mono_r; lia. Qed.

Lemma is_table_size_bounds (n : Z) : is_table_size n -> 4 <= n <= 2 ^ 63.
Proof.
  intros (k & Hk & ->). split.
  - change 4 with (2 ^ 2). apply pow2_le_mono. lia.
  - apply pow2_le_mono. lia.
Qed.

Lemma land_mask_range (h k : Z) :
  0 <= k -> 0 <= Z.land h (2 ^ k - 1) < 2 ^ k.
Proof.
  intros Hk. replace (2 ^ k - 1) with (Z.ones k)
    by (rewrite Z.ones_equiv; lia).
  rewrite Z.land_ones by lia. apply Z.mod_pos_bound.
  apply Z.pow_pos_nonneg; lia.
Qed.

(** *** [_dictNextPower] *)

Lemma _dictNextPower_loop_spec (fuel : nat) (j size : Z) :
  2 <= j <= 63 -> (Z.to_nat (63 - j) < fuel)%nat -> size <= 2 ^ 63 ->
  (2 < j -> 2 ^ (j - 1) < size) ->
  exists k, j <= k <= 63
            /\ _dictNextPower_loop fuel (2 ^ j) size = Ok (2 ^ k)
            /\ size <= 2 ^ k
            /\ (2 < k -> 2 ^ (k - 1) < size).
Proof.
  revert j. induction fuel as [|fuel IH]; intros j Hj Hf Hs Hlow; [lia|].
  simpl. destruct (Z.geb_spec (2 ^ j) size) as [Hge|Hlt].
  - exists j. repeat split; try lia; try assumption.
  - assert (j < 63).
    { destruct (Z.eq_dec j 63) as [->|]; [lia | lia]. }
    assert (Hw : wrap64 (2 ^ j * 2) = 2 ^ (j + 1)).
    { rewrite Z.pow_add_r by lia. change (2 ^ 1) with 2.
      apply wrap64_small. pose proof (pow2_lt_mono j 63). 
      assert (2 ^ j > 0) by (apply Z.lt_gt, Z.pow_pos_nonneg; lia). lia. }
    rewrite Hw.
    destruct (IH (j + 1)) as (k & Hk & Hr & Hle & Hk2); try lia.
    { intros _. replace (j + 1 - 1) with j by lia. exact Hlt. }
    exists k. repeat split; try lia; assumption.
Qed.

Lemma _dictNextPower_spec (size : Z) :
  exists k, 2 <= k <= 63
            /\ _dictNextPower size = Ok (2 ^ k)
            /\ (size < LONG_MAX -> size <= 2 ^ k /\ (2 < k -> 2 ^ (k - 1) < size))
            /\ (LONG_MAX <= size -> k = 63).
Proof.
  unfold _dictNextPower. destruct (Z.geb_spec size LONG_MAX) as [Hge|Hlt].
  - exists 63. repeat split; try lia. 
  - assert (Hs : size <= 2 ^ 63) by (unfold LONG_MAX in Hlt; lia).
    destruct (_dictNextPower_loop_spec 64 2 size) as (k & Hk & Hr & Hle & Hk2);
      [lia | simpl; lia | exact Hs | lia |].
    exists k. repeat split; try lia; try assumption.
Qed.

Lemma _dictNextPower_table_size (size r : Z) :
  _dictNextPower size = Ok r -> is_table_size r.
Proof.
  destruct (_dictNextPower_spec size) as (k & Hk & Hr & _).
  rewrite Hr. intros [= <-]. exists k. auto.
Qed.

Lemma _dictNextPower_total (size : Z) : exists r, _dictNextPower size = Ok r.
Proof.
  destruct (_dictNextPower_spec size) as (k & Hk & Hr & _). eauto.
Qed.

(** *** [dictExpand] *)

(** A dictionary type for the examples: the key is its own hash, keys are
    compared as pointers, nothing is duplicated. *)
Definition plain_type : dictType :=
  {| hashFunction := fun k => k; keyDup := None; valDup := None;
     keyCompare := None |}.

Lemma concat_replicate_nil (n : nat) :
  concat (replicate n ([] : list dictEntry)) = [].
Proof. induction n as [|n IH]; simpl; [reflexivity | exact IH]. Qed.

Lemma dictIsRehashing_true (d : dict) :
  dictIsRehashing d = true <-> rehashidx d <> -1.
Proof.
  unfold dictIsRehashing. destruct (Z.eqb_spec (rehashidx d) (-1)); simpl;
    split; intros; try discriminate; try lia; reflexivity.
Qed.

Lemma dictIsRehashing_false (d : dict) :
  dictIsRehashing d = false <-> rehashidx d = -1.
Proof.
  unfold dictIsRehashing. destruct (Z.eqb_spec (rehashidx d) (-1)); simpl;
    split; intros; try discriminate; try lia; reflexivity.
Qed.

(** The table built by [dictExpand]. *)
Definition fresh_table (realsize : Z) : dictht :=
  {| table := Some (replicate (Z.to_nat realsize) []);
     size := realsize; sizemask := wrap64 (realsize - 1); used := 0 |}.

Lemma fresh_table_inv (r : Z) : is_table_size r -> ht_inv (fresh_table r).
Proof.
  intros Hr. pose proof (is_table_size_bounds r Hr) as Hb.
  unfold ht_inv, fresh_table. simpl.
  rewrite length_replicate, chain_count_replicate.
  repeat split; try lia; try assumption.
  apply wrap64_small. lia.
Qed.

(** Allocators for the examples, and a call all of whose requests are
    served. *)
Definition plenty : alloc := {| zcalloc_ok := true; zmalloc_ok := true |}.
Definition no_memory : alloc := {| zcalloc_ok := false; zmalloc_ok := false |}.
Definition with_memory (flag : bool) : env :=
  {| can_resize := flag; mem := plenty |}.
Definition without_memory (flag : bool) : env :=
  {| can_resize := flag; mem := no_memory |}.
Definition allocates (c : env) : Prop :=
  zcalloc_ok (mem c) = true /\ zmalloc_ok (mem c) = true.

Lemma with_memory_allocates (flag : bool) : allocates (with_memory flag).
Proof. split; reflexivity. Qed.

(** Below [2^61] heads the byte count does not wrap. *)
Lemma zcalloc_table_spec (c : env) (n : Z) :
  zcalloc_ok (mem c) = true -> 0 <= n < 2 ^ 61 ->
  zcalloc_table c n = Ok (replicate (Z.to_nat n) []).
Proof.
  intros Hc Hn. unfold zcalloc_table, sizeof_entry_ptr. rewrite Hc.
  rewrite wrap64_small by lia. rewrite Z.div_mul by lia. reflexivity.
Qed.

(** The table size computed for a request of at most [2^60]. *)
Lemma _dictNextPower_small (size r : Z) :
  size <= 2 ^ 60 -> _dictNextPower size = Ok r -> 4 <= r <= 2 ^ 60.
Proof.
  intros Hs Hr.
  destruct (_dictNextPower_spec size) as (k & Hk & Hnp & Hlow & _).
  rewrite Hnp in Hr. injection Hr as <-.
  destruct (Hlow ltac:(unfold LONG_MAX; lia)) as [_ Hmin].
  split; [change 4 with (2 ^ 2); apply pow2_le_mono; lia|].
  destruct (Z.le_gt_cases k 60) as [Hle|Hgt]; [apply pow2_le_mono; lia|].
  pose proof (pow2_le_mono 60 (k - 1) ltac:(lia)).
  specialize (Hmin ltac:(lia)). lia.
Qed.

(** [dictExpand], with the table size computed. *)
Lemma dictExpand_unfold (c : env) (d : dict) (size : Z) :
  exists realsize,
    _dictNextPower size = Ok realsize /\ is_table_size realsize
    /\ dictExpand c d size =
       if dictIsRehashing d || (used (ht0 d) >? size) then Ok (d, DICT_ERR)
       else if realsize =? Dict.size (ht0 d) then Ok (d, DICT_ERR)
       else
         do tb <- zcalloc_table c realsize;
         let n := {| table := Some tb; size := realsize;
                     sizemask := wrap64 (realsize - 1); used := 0 |} in
         match table (ht0 d) with
         | None => Ok (set_ht0 d n, DICT_OK)
         | Some _ => Ok (set_rehashidx (set_ht1 d n) 0, DICT_OK)
         end.
Proof.
  destruct (_dictNextPower_total size) as [r Hr].
  exists r. split; [exact Hr|]. split; [eapply _dictNextPower_table_size; eauto|].
  unfold dictExpand. rewrite Hr. simpl. reflexivity.
Qed.

(** The same when the array is allocated and the request is at most
    [2^60]: the new table has [realsize] NULL heads. *)
Lemma dictExpand_cases (c : env) (d : dict) (size : Z) :
  zcalloc_ok (mem c) = true -> size <= 2 ^ 60 ->
  exists realsize,
    _dictNextPower size = Ok realsize /\ is_table_size realsize
    /\ dictExpand c d size =
       if dictIsRehashing d || (used (ht0 d) >? size) then Ok (d, DICT_ERR)
       else if realsize =? Dict.size (ht0 d) then Ok (d, DICT_ERR)
       else match table (ht0 d) with
            | None => Ok (set_ht0 d (fresh_table realsize), DICT_OK)
            | Some _ =>
                Ok (set_rehashidx (set_ht1 d (fresh_table realsize)) 0, DICT_OK)
            end.
Proof.
  intros Hc Hs.
  destruct (dictExpand_unfold c d size) as (r & Hr & Hts & ->).
  exists r. split; [exact Hr|]. split; [exact Hts|].
  pose proof (_dictNextPower_small size r Hs Hr) as Hb.
  rewrite (zcalloc_table_spec c r Hc) by lia. reflexivity.
Qed.

(** C4, as the code has it.  [dictExpand] returns [DICT_ERR], leaving the
    dictionary alone, exactly when a rehash is in progress, or the
    requested size is below [used] of [ht[0]], or the table size computed
    for the request is the size [ht[0]] already has.  In all other cases
    it asks [zcalloc] for the new table: it returns [DICT_OK] when the
    allocator serves the request, and the process is aborted by the
    out-of-memory handler when it does not. *)
Theorem dictExpand_err_iff (c : env) (d : dict) (size : Z) :
  let refused :=
    dictIsRehashing d = true
    \/ size < used (ht0 d)
    \/ _dictNextPower size = Ok (Dict.size (ht0 d)) in
  (refused \/ zcalloc_ok (mem c) = true ->
   exists d' r,
     dictExpand c d size = Ok (d', r)
     /\ (r = DICT_ERR \/ r = DICT_OK)
     /\ (r = DICT_ERR <-> refused)
     /\ (r = DICT_ERR -> d' = d))
  /\ (~ refused -> zcalloc_ok (mem c) = false ->
      dictExpand c d size = Err OutOfMemory).
Proof.
  intros refused. unfold refused.
  destruct (dictExpand_unfold c d size) as (r & Hr & _ & ->).
  unfold zcalloc_table.
  destruct (dictIsRehashing d) eqn:Hre; simpl.
  { split; [|intros H; exfalso; apply H; auto].
    intros _. eexists _, _. split; [reflexivity|]. split; [auto|]. split; [|auto].
    split; auto. }
  destruct (Z.gtb_spec (used (ht0 d)) size) as [Hgt|Hle].
  { split; [|intros H; exfalso; apply H; right; left; lia].
    intros _. eexists _, _. split; [reflexivity|]. split; [auto|]. split; [|auto].
    split; [intros _; right; left; lia | auto]. }
  destruct (Z.eqb_spec r (Dict.size (ht0 d))) as [Heq|Hne].
  { split; [|intros H; exfalso; apply H; right; right; congruence].
    intros _. eexists _, _. split; [reflexivity|]. split; [auto|]. split; [|auto].
    split; [intros _; right; right; congruence | auto]. }
  assert (Hno : ~ (false = true \/ size < used (ht0 d)
                   \/ _dictNextPower size = Ok (Dict.size (ht0 d)))).
  { intros [?|[?|He]]; [discriminate | lia | congruence]. }
  split.
  - intros [H|Hc]; [contradiction|]. rewrite Hc. cbn [bind].
    destruct (table (ht0 d)); eexists _, _; (split; [reflexivity|]);
      (split; [auto|]); (split; [|discriminate]);
      (split; [discriminate | intros ?; contradiction]).
  - intros _ Hc. rewrite Hc. reflexivity.
Qed.

Lemma dictExpand_err_iff_witness :
  (exists d' r,
     dictExpand (with_memory true) (dictCreate plain_type) 4 = Ok (d', r)
     /\ (r = DICT_ERR \/ r = DICT_OK))
  /\ dictExpand (without_memory true) (dictCreate plain_type) 4
     = Err OutOfMemory.
Proof.
  split.
  - destruct (dictExpand_err_iff (with_memory true) (dictCreate plain_type) 4)
      as [Hserved _].
    destruct Hserved as (d' & r & Hx & Hr & _); [right; reflexivity|].
    exists d', r. split; [exact Hx | exact Hr].
  - apply (dictExpand_err_iff (without_memory true) (dictCreate plain_type) 4).
    + intros [H|[H|H]]; [discriminate H | simpl in H; lia | discriminate H].
    + reflexivity.
Defined.

(** C4, as the design document states it: [DICT_ERR] exactly when
    rehashing or when the requested size is at most [used] of [ht[0]]. *)
Definition expand_err_iff_claim (c : env) (d : dict) (size : Z) : Prop :=
  forall d' r, dictExpand c d size = Ok (d', r) ->
    (r = DICT_ERR <-> dictIsRehashing d = true \/ size <= used (ht0 d)).

(** A table of 4 buckets holding the key 1. *)
Definition one_key_dict : dict :=
  {| type := plain_type;
     ht0 := {| table := Some [[]; [{| key := 1; val := 10 |}]; []; []];
               size := 4; sizemask := 3; used := 1 |};
     ht1 := _dictReset; rehashidx := -1; iterators := 0 |}.

(** C4 fails in both directions, with memory to spare: on a fresh
    dictionary [dictExpand(d,0)] succeeds although [0 <= used]; with one
    key in a table of 4, [dictExpand(d,3)] is rejected although no rehash
    is running and [3 > used]. *)
Lemma dictExpand_err_iff_counterexample :
  ~ expand_err_iff_claim (with_memory true) (dictCreate plain_type) 0
  /\ ~ expand_err_iff_claim (with_memory true) one_key_dict 3.
Proof.
  split; intros H.
  - specialize (H _ _ eq_refl). simpl in H.
    destruct H as [_ H]. discriminate H. right. lia.
  - specialize (H _ _ eq_refl). simpl in H.
    destruct H as [H _]. destruct (H eq_refl) as [?|?]; [discriminate | lia].
Qed.

(** C5, as the code has it.  When [dictExpand] succeeds the new table has
    [sizemask = size - 1]; for a request below [LONG_MAX] its size is the
    smallest power of two that is at least the request and at least
    [DICT_HT_INITIAL_SIZE]; from [LONG_MAX] on it is [2^63]. *)
Theorem dictExpand_new_size (c : env) (d d' : dict) (size : Z) :
  dictExpand c d size = Ok (d', DICT_OK) ->
  let h := expanded_table d d' in
  sizemask h = Dict.size h - 1
  /\ (size < LONG_MAX ->
      smallest_pow2_ge (Z.max size DICT_HT_INITIAL_SIZE) (Dict.size h))
  /\ (LONG_MAX <= size -> Dict.size h = 2 ^ 63).
Proof.
  intros H.
  destruct (_dictNextPower_spec size) as (k & Hk & Hr & Hsmall & Hbig).
  assert (Hh : Dict.size (expanded_table d d') = 2 ^ k
               /\ sizemask (expanded_table d d') = wrap64 (2 ^ k - 1)).
  { unfold dictExpand in H. rewrite Hr in H. simpl in H.
    unfold expanded_table.
    destruct (dictIsRehashing d || (used (ht0 d) >? size)); [discriminate|].
    destruct (2 ^ k =? Dict.size (ht0 d)); [discriminate|].
    destruct (zcalloc_table c (2 ^ k)) as [tb|]; [|discriminate].
    cbn [bind] in H.
    destruct (table (ht0 d)); injection H as <-; split; reflexivity. }
  simpl. destruct Hh as [Hsz Hmask]. rewrite Hsz, Hmask.
  pose proof (pow2_le_63 k ltac:(lia)) as Hp.
  split; [apply wrap64_small; lia|]. split.
  - intros Hlt. destruct (Hsmall Hlt) as [Hle Hmin].
    assert (H4 : 4 <= 2 ^ k) by (change 4 with (2 ^ 2); apply pow2_le_mono; lia).
    unfold smallest_pow2_ge, DICT_HT_INITIAL_SIZE. split; [exists k; split; [lia | reflexivity]|].
    split; [lia|].
    intros m (j & Hj & ->) Hm.
    destruct (Z.eq_dec k 2) as [->|Hk2]; [lia|].
    assert (2 ^ (k - 1) < 2 ^ j) by (specialize (Hmin ltac:(lia)); lia).
    apply pow2_le_mono. split; [lia|].
    apply Z.pow_lt_mono_r_iff in H0; lia.
  - intros Hge. rewrite (Hbig Hge). reflexivity.
Qed.

Lemma dictExpand_new_size_witness :
  let h := expanded_table (dictCreate plain_type)
             (set_ht0 (dictCreate plain_type) (fresh_table 8)) in
  sizemask h = Dict.size h - 1
  /\ (5 < LONG_MAX ->
      smallest_pow2_ge (Z.max 5 DICT_HT_INITIAL_SIZE) (Dict.size h))
  /\ (LONG_MAX <= 5 -> Dict.size h = 2 ^ 63).
Proof.
  apply (dictExpand_new_size (with_memory true) (dictCreate plain_type) _ 5).
  reflexivity.
Defined.

(** C5, as the design document states it, fails below the initial size:
    [dictExpand(d,1)] on a fresh dictionary allocates 4 buckets, and 1 is a
    power of two that is at least 1. *)
Lemma dictExpand_new_size_counterexample :
  exists d',
    dictExpand (with_memory true) (dictCreate plain_type) 1 = Ok (d', DICT_OK)
    /\ ~ smallest_pow2_ge 1 (Dict.size (expanded_table (dictCreate plain_type) d')).
Proof.
  eexists. split; [reflexivity|]. simpl.
  intros (_ & _ & Hmin).
  assert (Hp : is_pow2 1) by (exists 0; split; [lia | reflexivity]).
  specialize (Hmin 1 Hp). unfold DICT_HT_INITIAL_SIZE in Hmin. lia.
Qed.

(** *** Placement of the entries *)

(** Every entry of table [h] is in the bucket its key hashes to. *)
Definition ht_placed (d : dict) (h : dictht) : Prop :=
  forall i b e, lookupZ (tbl h) i = Ok b -> e ∈ b ->
    Z.land (dictHashKey d (key e)) (sizemask h) = i.

Definition dict_placed (d : dict) : Prop :=
  ht_placed d (ht0 d) /\ ht_placed d (ht1 d).

Lemma ht_inv_used_nonneg (h : dictht) : ht_inv h -> 0 <= used h.
Proof.
  unfold ht_inv. destruct (table h).
  - intros (_ & _ & _ & ->). unfold chain_count. lia.
  - intros (_ & _ & ->). lia.
Qed.

Lemma ht_inv_index (h : dictht) (t : list (list dictEntry)) (x : Z) :
  ht_inv h -> table h = Some t ->
  0 <= Z.land x (sizemask h) < Z.of_nat (length t).
Proof.
  unfold ht_inv. intros H Ht. rewrite Ht in H.
  destruct H as (Hlen & (k & Hk & Hsz) & Hm & _).
  rewrite Hm, Hlen, Hsz. apply land_mask_range. lia.
Qed.

Lemma ht_placed_ext (d d' : dict) (h : dictht) :
  type d' = type d -> ht_placed d h -> ht_placed d' h.
Proof.
  intros Hty H i b e Hb He. unfold dictHashKey. rewrite Hty.
  exact (H i b e Hb He).
Qed.

(** *** [dictRehash]: moving one chain *)

Lemma move_chain_spec (de : list dictEntry) (d : dict) :
  ht_inv (ht1 d) -> table (ht1 d) <> None ->
  Z.of_nat (length de) <= used (ht0 d) ->
  used (ht0 d) + used (ht1 d) < 2 ^ 64 ->
  exists d',
    move_chain d de = Ok d'
    /\ type d' = type d /\ rehashidx d' = rehashidx d
    /\ iterators d' = iterators d
    /\ table (ht0 d') = table (ht0 d) /\ size (ht0 d') = size (ht0 d)
    /\ sizemask (ht0 d') = sizemask (ht0 d)
    /\ used (ht0 d') = used (ht0 d) - Z.of_nat (length de)
    /\ ht_inv (ht1 d') /\ table (ht1 d') <> None
    /\ size (ht1 d') = size (ht1 d) /\ sizemask (ht1 d') = sizemask (ht1 d)
    /\ used (ht1 d') = used (ht1 d) + Z.of_nat (length de)
    /\ ht_entries (ht1 d') ≡ₚ de ++ ht_entries (ht1 d)
    /\ (ht_placed d (ht1 d) -> ht_placed d' (ht1 d')).
Proof.
  revert d. induction de as [|e de IH]; intros d Hinv Hnn Hlen Hsum.
  { exists d. simpl. repeat split; try lia; auto. }
  pose proof (ht_inv_used_nonneg _ Hinv) as Hu1.
  destruct (table (ht1 d)) as [t1|] eqn:Ht1; [|contradiction].
  pose proof (ht_inv_index _ _ (dictHashKey d (key e)) Hinv Ht1) as Hidx.
  destruct (lookupZ_total t1 _ Hidx) as [b Hb].
  simpl in Hlen. simpl move_chain. unfold the_table. rewrite Ht1. simpl.
  rewrite Hb. simpl.
  set (d1 := set_ht1 _ _).
  assert (Hinv1 : ht_inv (ht1 d1)).
  { pose proof (chain_count_bucket _ _ _ Hb) as Hcb.
    unfold ht_inv in Hinv |- *. rewrite Ht1 in Hinv. subst d1. simpl.
    destruct Hinv as (Hl & Hs & Hm & Hu).
    rewrite insertZ_length. repeat split; try assumption.
    rewrite (chain_count_insertZ _ _ _ _ Hb).
    rewrite wrap64_small by lia. simpl length. lia. }
  destruct (IH d1) as (d' & Hmv & Hty & Hri & Hit & Htb0 & Hsz0 & Hm0 & Hu0
                       & Hi1 & Hn1 & Hsz1 & Hm1 & Hus1 & Hperm & Hpl).
  { exact Hinv1. }
  { subst d1. simpl. discriminate. }
  { subst d1. simpl. rewrite wrap64_small; lia. }
  { subst d1. simpl. rewrite !wrap64_small; lia. }
  exists d'. split; [exact Hmv|].
  subst d1. simpl in *.
  rewrite wrap64_small in Hu0 by lia.
  rewrite wrap64_small in Hus1 by lia.
  repeat split; try assumption; try lia.
  - rewrite Hperm. unfold ht_entries, tbl. simpl. rewrite Ht1. simpl.
    rewrite (concat_insertZ _ _ _ _ Hb), (concat_bucket _ _ _ Hb).
    simpl. symmetry. apply Permutation_middle.
  - intros Hp. apply Hpl. intros i b' e' Hb' He'.
    unfold tbl in Hb'. simpl in Hb'.
    destruct (Z.eq_dec i (Z.land (dictHashKey d (key e)) (sizemask (ht1 d))))
      as [->|Hne].
    + rewrite lookupZ_insertZ_eq in Hb' by exact Hidx.
      injection Hb' as <-. apply elem_of_cons in He' as [->|He'].
      * reflexivity.
      * apply (Hp _ b e'); [|exact He']. unfold tbl. rewrite Ht1. exact Hb.
    + pose proof (lookupZ_lt _ _ _ Hb') as Hi. rewrite insertZ_length in Hi.
      rewrite lookupZ_insertZ_ne in Hb' by lia.
      apply (Hp _ b' e'); [|exact He']. unfold tbl. rewrite Ht1. exact Hb'.
Qed.

(** *** [dictRehash]: skipping empty buckets *)

(** The number of empty buckets that may still be visited before
    [--empty_visits] reaches 0, for [int] arithmetic that wraps. *)
Definition budget (ev : Z) : Z :=
  let r := ev mod 2 ^ 32 in if r =? 0 then 2 ^ 32 else r.

Lemma budget_range (ev : Z) : 1 <= budget ev <= 2 ^ 32.
Proof.
  unfold budget. pose proof (Z.mod_pos_bound ev (2 ^ 32) ltac:(lia)).
  destruct (Z.eqb_spec (ev mod 2 ^ 32) 0); lia.
Qed.

Lemma wrap_int_mod (x : Z) : wrap_int x mod 2 ^ 32 = x mod 2 ^ 32.
Proof.
  unfold wrap_int.
  rewrite Zminus_mod, Z.mod_mod by lia.
  rewrite <- Zminus_mod. f_equal. lia.
Qed.

Lemma wrap_int_zero (x : Z) : wrap_int x = 0 <-> x mod 2 ^ 32 = 0.
Proof.
  split; intros H.
  - rewrite <- wrap_int_mod, H. reflexivity.
  - unfold wrap_int. 
    pose proof (Z.mod_pos_bound (x + 2 ^ 31) (2 ^ 32) ltac:(lia)) as Hb.
    assert (Hm : (x + 2 ^ 31) mod 2 ^ 32 = 2 ^ 31).
    { rewrite Zplus_mod, H. reflexivity. }
    lia.
Qed.

Lemma budget_last (ev : Z) : wrap_int (ev - 1) = 0 <-> budget ev = 1.
Proof.
  rewrite wrap_int_zero. unfold budget.
  pose proof (Z.mod_pos_bound ev (2 ^ 32) ltac:(lia)) as Hb.
  assert (Hm : (ev - 1) mod 2 ^ 32 = (ev mod 2 ^ 32 - 1) mod 2 ^ 32).
  { rewrite Zminus_mod. rewrite (Z.mod_small 1) by lia. reflexivity. }
  rewrite Hm.
  destruct (Z.eqb_spec (ev mod 2 ^ 32) 0) as [E|E].
  - rewrite E. simpl. split; intros; discriminate.
  - split; intros H.
    + destruct (Z.eq_dec (ev mod 2 ^ 32) 1); [assumption|].
      rewrite Z.mod_small in H by lia. lia.
    + rewrite H. reflexivity.
Qed.

Lemma budget_pred (ev : Z) :
  wrap_int (ev - 1) <> 0 -> budget (wrap_int (ev - 1)) = budget ev - 1.
Proof.
  intros Hne. assert (Hb1 : budget ev <> 1) by (rewrite <- budget_last; exact Hne).
  rewrite wrap_int_zero in Hne.
  unfold budget in *. rewrite wrap_int_mod.
  pose proof (Z.mod_pos_bound ev (2 ^ 32) ltac:(lia)) as Hb.
  assert (Hm : (ev - 1) mod 2 ^ 32 = (ev mod 2 ^ 32 - 1) mod 2 ^ 32).
  { rewrite Zminus_mod. rewrite (Z.mod_small 1) by lia. reflexivity. }
  rewrite Hm in *.
  destruct (Z.eqb_spec (ev mod 2 ^ 32) 0) as [E|E].
  - rewrite E. reflexivity.
  - rewrite Z.mod_small in * by lia.
    destruct (Z.eqb_spec (ev mod 2 ^ 32 - 1) 0); lia.
Qed.

Lemma lookupZ_inj {A : Type} (t : list A) (i : Z) (x y : A) :
  lookupZ t i = Ok x -> lookupZ t i = Ok y -> x = y.
Proof. intros H1 H2. rewrite H1 in H2. injection H2. auto. Qed.

Lemma skip_empty_spec (t0 : list (list dictEntry)) (fuel : nat) :
  forall idx ev probes j0 b0,
    0 <= idx <= j0 -> lookupZ t0 j0 = Ok b0 -> b0 <> [] ->
    (Z.to_nat (j0 - idx) < fuel)%nat ->
    exists r,
      skip_empty fuel t0 idx ev probes = Ok r
      /\ match r with
         | SkipFound j ev' probes' =>
             idx <= j <= j0
             /\ (forall i, idx <= i < j -> lookupZ t0 i = Ok [])
             /\ (exists b, lookupZ t0 j = Ok b /\ b <> [])
             /\ probes' = probes + (j - idx)
             /\ budget ev' = budget ev - (j - idx)
             /\ j - idx < budget ev
         | SkipExhausted j probes' =>
             idx < j <= j0
             /\ (forall i, idx <= i < j -> lookupZ t0 i = Ok [])
             /\ probes' = probes + (j - idx)
             /\ j - idx = budget ev
         end.
Proof.
  induction fuel as [|fuel IH]; intros idx ev probes j0 b0 Hidx Hj0 Hb0 Hf; [lia|].
  pose proof (lookupZ_lt _ _ _ Hj0) as Hlt.
  destruct (lookupZ_total t0 idx ltac:(lia)) as [b Hb].
  pose proof (budget_range ev) as Hbr.
  simpl. rewrite Hb. simpl. destruct b as [|e b].
  - assert (idx <> j0).
    { intros ->. apply Hb0. eapply lookupZ_inj; eauto. }
    destruct (Z.eqb_spec (wrap_int (ev - 1)) 0) as [Hz|Hnz].
    + apply budget_last in Hz. eexists. split; [reflexivity|]. simpl.
      repeat split; try lia.
      intros i Hi. replace i with idx by lia. exact Hb.
    + destruct (IH (idx + 1) (wrap_int (ev - 1)) (probes + 1) j0 b0)
        as (r & Hr & Hspec); try lia; try assumption.
      exists r. split; [exact Hr|]. rewrite (budget_pred _ Hnz) in Hspec.
      destruct r as [j ev' p'|j p'].
      * destruct Hspec as (H1 & H2 & H3 & H4 & H5 & H6).
        repeat split; try lia; try assumption.
        intros i Hi. destruct (Z.eq_dec i idx) as [->|]; [exact Hb|].
        apply H2. lia.
      * destruct Hspec as (H1 & H2 & H3 & H4).
        repeat split; try lia; try assumption.
        intros i Hi. destruct (Z.eq_dec i idx) as [->|]; [exact Hb|].
        apply H2. lia.
  - eexists. split; [reflexivity|]. simpl.
    repeat split; try lia.
    exists (e :: b). split; [exact Hb | discriminate].
Qed.

(** *** [dictRehash]: moving one bucket *)

Lemma ht_inv_table (h : dictht) (t : list (list dictEntry)) :
  ht_inv h -> table h = Some t ->
  Z.of_nat (length t) = size h /\ is_table_size (size h)
  /\ sizemask h = size h - 1 /\ used h = chain_count t.
Proof. unfold ht_inv. intros H Ht. rewrite Ht in H. exact H. Qed.

(** The state after the bucket [j] of [ht[0]] has been moved:
    [d2] is the dictionary after the chain walk. *)
Definition bucket_moved (d2 : dict) (t0 : list (list dictEntry)) (j : Z) : dict :=
  set_rehashidx
    (set_ht0 d2 (set_table (ht0 d2) (insertZ j [] t0))) (j + 1).

Lemma migrate_bucket_spec (d : dict) (t0 : list (list dictEntry))
    (j : Z) (b : list dictEntry) :
  dict_inv d -> rehashidx d <> -1 -> table (ht0 d) = Some t0 ->
  rehashidx d <= j ->
  (forall i, rehashidx d <= i < j -> lookupZ t0 i = Ok []) ->
  lookupZ t0 j = Ok b ->
  exists d2,
    move_chain (set_rehashidx d j) b = Ok d2
    /\ table (ht0 d2) = Some t0
    /\ let d4 := bucket_moved d2 t0 j in
       dict_inv d4 /\ rehashidx d4 = j + 1
       /\ type d4 = type d /\ iterators d4 = iterators d
       /\ size (ht0 d4) = size (ht0 d) /\ size (ht1 d4) = size (ht1 d)
       /\ used (ht0 d4) = used (ht0 d) - Z.of_nat (length b)
       /\ dictEntries d4 ≡ₚ dictEntries d
       /\ (dict_placed d -> dict_placed d4).
Proof.
  intros (Hi0 & Hi1 & Hsum & _ & Hre) Hidx Ht0 Hle Hskip Hb.
  destruct (Hre Hidx) as (Hrange & _ & Hn1 & Hprefix).
  unfold tbl in Hprefix. rewrite Ht0 in Hprefix. simpl in Hprefix.
  destruct (ht_inv_table _ _ Hi0 Ht0) as (Hlen0 & Hsz0 & Hm0 & Hu0).
  pose proof (lookupZ_lt _ _ _ Hb) as Hj.
  pose proof (chain_count_bucket _ _ _ Hb) as Hcb.
  destruct (move_chain_spec b (set_rehashidx d j))
    as (d2 & Hmv & Hty & Hri & Hit & Htb0 & Hs0 & Hmk0 & Hus0
        & Hi1' & Hn1' & Hs1 & Hmk1 & Hus1 & Hperm & Hpl);
    simpl; try assumption; try lia.
  simpl in *.
  exists d2. split; [exact Hmv|]. split; [congruence|].
  unfold bucket_moved. simpl.
  split; [|split; [reflexivity|]].
  - (* the invariant *)
    unfold dict_inv. simpl. split; [|split; [exact Hi1'|]].
    + unfold ht_inv. simpl. rewrite insertZ_length.
      repeat split; try congruence.
      rewrite (chain_count_insertZ _ _ _ _ Hb). simpl. lia.
    + split; [lia|]. split; [lia|]. intros _.
      split; [lia|]. split; [discriminate|]. split; [exact Hn1'|].
      intros i Hi. unfold tbl. simpl.
      destruct (Z.eq_dec i j) as [->|Hne].
      * apply lookupZ_insertZ_eq. lia.
      * rewrite lookupZ_insertZ_ne by lia.
        destruct (Z_lt_le_dec i (rehashidx d)).
        -- apply Hprefix. lia.
        -- apply Hskip. lia.
  - repeat split; try assumption; try lia.
    + (* the entries *)
      unfold dictEntries. rewrite Hperm. unfold ht_entries, tbl. simpl.
      rewrite Ht0. simpl.
      rewrite (concat_insertZ _ _ _ _ Hb), (concat_bucket _ _ _ Hb). simpl.
      rewrite !app_assoc. apply Permutation_app_tail.
      apply Permutation_app_comm.
    + (* placement in ht[0] *)
      destruct H as [Hp0 _]. intros i b' e Hb' He.
      unfold tbl in Hb'. simpl in Hb'.
      unfold dictHashKey. simpl. rewrite Hty, Hmk0.
      destruct (Z.eq_dec i j) as [->|Hne].
      * rewrite lookupZ_insertZ_eq in Hb' by lia. injection Hb' as <-.
        apply elem_of_nil in He. contradiction.
      * pose proof (lookupZ_lt _ _ _ Hb') as Hi. rewrite insertZ_length in Hi.
        rewrite lookupZ_insertZ_ne in Hb' by lia.
        apply (Hp0 i b' e); [|exact He]. unfold tbl. rewrite Ht0. exact Hb'.
    + (* placement in ht[1] *)
      destruct H as [_ Hp1]. intros i b' e Hb' He.
      unfold dictHashKey. simpl.
      apply (Hpl Hp1 i b' e Hb' He).
Qed.

(** *** [dictRehash]: the outer loop *)

(** What every operation keeps: the invariant, the type, the iterator
    count and the entries (as a multiset), and the placement of entries. *)
Definition same_content (d d' : dict) : Prop :=
  dict_inv d' /\ type d' = type d /\ iterators d' = iterators d
  /\ dictEntries d' ≡ₚ dictEntries d
  /\ (dict_placed d -> dict_placed d').

Lemma same_content_refl (d : dict) : dict_inv d -> same_content d d.
Proof. intros H. unfold same_content. auto. Qed.

Lemma same_content_trans (d1 d2 d3 : dict) :
  same_content d1 d2 -> same_content d2 d3 -> same_content d1 d3.
Proof.
  intros (Hi & Ht & Hit & Hp & Hpl) (Hi' & Ht' & Hit' & Hp' & Hpl').
  unfold same_content. split; [exact Hi'|]. split; [congruence|].
  split; [congruence|]. split; [etransitivity; eauto | auto].
Qed.

Lemma wrap_int_range (a : Z) : - 2 ^ 31 <= wrap_int a <= INT_MAX.
Proof.
  unfold wrap_int, INT_MAX.
  pose proof (Z.mod_pos_bound (a + 2 ^ 31) (2 ^ 32) ltac:(lia)). lia.
Qed.

Lemma wrap_int_small (x : Z) : - 2 ^ 31 <= x <= INT_MAX -> wrap_int x = x.
Proof.
  unfold wrap_int, INT_MAX. intros H. rewrite Z.mod_small; lia.
Qed.

Lemma nonempty_bucket (d : dict) (t0 : list (list dictEntry)) :
  dict_inv d -> rehashidx d <> -1 -> table (ht0 d) = Some t0 ->
  used (ht0 d) <> 0 ->
  exists j b, rehashidx d <= j /\ lookupZ t0 j = Ok b /\ b <> [].
Proof.
  intros (Hi0 & _ & _ & _ & Hre) Hidx Ht0 Hu.
  destruct (Hre Hidx) as (Hrange & _ & _ & Hprefix).
  unfold tbl in Hprefix. rewrite Ht0 in Hprefix. simpl in Hprefix.
  destruct (ht_inv_table _ _ Hi0 Ht0) as (_ & _ & _ & Hu0).
  destruct (chain_count_pos t0) as (j & b & Hb & Hne).
  { unfold chain_count in *. lia. }
  exists j, b. split; [|auto].
  destruct (Z_lt_le_dec j (rehashidx d)); [|assumption].
  pose proof (lookupZ_lt _ _ _ Hb).
  rewrite Hprefix in Hb by lia. injection Hb as <-. contradiction.
Qed.

Lemma dictRehash_loop_S (fuel : nat) (d : dict) (n ev moved probes : Z) :
  dictRehash_loop (S fuel) d n ev moved probes =
  if (n =? 0) || (used (ht0 d) =? 0)
  then Ok {| r_early := false; r_dict := d;
             r_moved := moved; r_probes := probes |}
  else
    if negb (size (ht0 d) >? wrap64 (rehashidx d)) then Err AssertFail
    else
      do t0 <- the_table (ht0 d);
      do s <- skip_empty (S (length t0)) t0 (rehashidx d) ev probes;
      match s with
      | SkipExhausted idx probes =>
          Ok {| r_early := true; r_dict := set_rehashidx d idx;
                r_moved := moved; r_probes := probes |}
      | SkipFound idx ev probes =>
          do de <- lookupZ t0 idx;
          do d2 <- move_chain (set_rehashidx d idx) de;
          do t0 <- the_table (ht0 d2);
          dictRehash_loop fuel (bucket_moved d2 t0 idx) (wrap_int (n - 1))
                          ev (moved + 1) probes
      end.
Proof. reflexivity. Qed.

Lemma dictRehash_loop_spec (fuel : nat) :
  forall d n ev moved probes,
    dict_inv d -> rehashidx d <> -1 ->
    (Z.to_nat (size (ht0 d) - rehashidx d) < fuel)%nat ->
    exists r,
      dictRehash_loop fuel d n ev moved probes = Ok r
      /\ same_content d (r_dict r)
      /\ rehashidx (r_dict r) <> -1
      /\ size (ht0 (r_dict r)) = size (ht0 d)
      /\ size (ht1 (r_dict r)) = size (ht1 d)
      /\ rehashidx (r_dict r)
         = rehashidx d + (r_moved r - moved) + (r_probes r - probes)
      /\ moved <= r_moved r /\ probes <= r_probes r
      /\ (0 <= n <= INT_MAX -> r_moved r - moved <= n)
      /\ (r_early r = true ->
          used (ht0 (r_dict r)) <> 0 /\ r_probes r - probes = budget ev)
      /\ (r_early r = false -> r_probes r - probes < budget ev).
Proof.
  induction fuel as [|fuel IH]; intros d n ev moved probes Hinv Hidx Hf; [lia|].
  pose proof (budget_range ev) as Hbr.
  rewrite dictRehash_loop_S.
  destruct ((n =? 0) || (used (ht0 d) =? 0)) eqn:Hcond.
  { eexists. split; [reflexivity|]. simpl.
    split; [apply same_content_refl; exact Hinv|].
    repeat split; try lia; try assumption. }
  apply orb_false_iff in Hcond as [Hn Hu].
  apply Z.eqb_neq in Hn, Hu.
  pose proof Hinv as (Hi0 & Hi1 & Hsum & _ & Hre).
  destruct (Hre Hidx) as (Hrange & Hn0 & Hn1 & Hprefix).
  destruct (table (ht0 d)) as [t0|] eqn:Ht0; [|contradiction].
  destruct (ht_inv_table _ _ Hi0 Ht0) as (Hlen0 & Hsz0 & Hm0 & Hu0).
  pose proof (is_table_size_bounds _ Hsz0) as Hszb.
  destruct (nonempty_bucket d t0 Hinv Hidx Ht0 Hu) as (j0 & b0 & Hj0 & Hb0 & Hne0).
  pose proof (lookupZ_lt _ _ _ Hb0) as Hj0lt.
  rewrite wrap64_small by lia.
  destruct (Z.gtb_spec (size (ht0 d)) (rehashidx d)) as [_|?]; [|lia].
  cbn [negb]. unfold the_table at 1. rewrite Ht0. cbn [bind].
  destruct (skip_empty_spec t0 (S (length t0)) (rehashidx d) ev probes j0 b0)
    as (s & Hs & Hspec); try assumption; try lia.
  rewrite Hs. cbn [bind]. destruct s as [j ev' p'|j p'].
  - (* a non-empty bucket was found *)
    destruct Hspec as (Hj & Hskip & (b & Hb & Hbne) & Hp' & Hbud & Hlt).
    rewrite Hb. cbn [bind].
    destruct (migrate_bucket_spec d t0 j b Hinv Hidx Ht0 ltac:(lia) Hskip Hb)
      as (d2 & Hmv & Ht2 & Hinv4 & Hri4 & Hty4 & Hit4 & Hs04 & Hs14 & Hus4
          & Hperm4 & Hpl4).
    rewrite Hmv. cbn [bind]. unfold the_table. rewrite Ht2. cbn [bind].
    destruct (IH (bucket_moved d2 t0 j) (wrap_int (n - 1)) ev' (moved + 1) p')
      as (r & Hr & Hsc & Hrne & Hrs0 & Hrs1 & Hridx & Hrm & Hrp & Hrn & Hre1 & Hre2).
    { exact Hinv4. }
    { rewrite Hri4. lia. }
    { rewrite Hri4, Hs04. lia. }
    exists r. split; [exact Hr|].
    split.
    { eapply same_content_trans; [|exact Hsc].
      unfold same_content. auto. }
    rewrite Hri4 in Hridx.
    split; [exact Hrne|]. split; [congruence|]. split; [congruence|].
    split; [lia|]. split; [lia|]. split; [lia|].
    split.
    { intros Hnr. rewrite wrap_int_small in Hrn by (unfold INT_MAX in *; lia).
      specialize (Hrn ltac:(unfold INT_MAX in *; lia)). lia. }
    split.
    { intros He. destruct (Hre1 He) as [? ?]. split; [assumption | lia]. }
    intros He. specialize (Hre2 He). lia.
  - (* the budget of empty visits is used up *)
    destruct Hspec as (Hj & Hskip & Hp' & Hbud).
    eexists. split; [reflexivity|]. simpl.
    assert (Hinv' : dict_inv (set_rehashidx d j)).
    { unfold dict_inv. simpl. split; [exact Hi0|]. split; [exact Hi1|].
      split; [exact Hsum|]. split; [intros; lia|]. intros _.
      split; [lia|]. split; [congruence|]. split; [exact Hn1|].
      intros i Hi. unfold tbl. rewrite Ht0. simpl.
      destruct (Z_lt_le_dec i (rehashidx d)).
      - specialize (Hprefix i ltac:(lia)). unfold tbl in Hprefix.
        rewrite Ht0 in Hprefix. exact Hprefix.
      - apply Hskip. lia. }
    split.
    { unfold same_content. split; [exact Hinv'|]. simpl.
      split; [reflexivity|]. split; [reflexivity|]. split; [reflexivity|].
      intros [Hp0 Hp1]. split; intros i b e Hb He.
      - apply (Hp0 i b e Hb He).
      - apply (Hp1 i b e Hb He). }
    split; [lia|]. split; [reflexivity|]. split; [reflexivity|].
    split; [lia|]. split; [lia|]. split; [lia|].
    split; [intros; lia|].
    split; [intros _; split; [exact Hu | lia] | discriminate].
Qed.

(** *** [dictRehash] *)

Lemma _dictReset_inv : ht_inv _dictReset.
Proof. unfold ht_inv. simpl. auto. Qed.

Lemma ht_placed_reset (d : dict) : ht_placed d _dictReset.
Proof.
  intros i b e Hb _. unfold tbl in Hb. simpl in Hb.
  apply lookupZ_lt in Hb. simpl in Hb. lia.
Qed.

Lemma ht_entries_used0 (h : dictht) : ht_inv h -> used h = 0 -> ht_entries h = [].
Proof.
  unfold ht_inv, ht_entries, tbl. destruct (table h) as [t|]; simpl.
  - intros (_ & _ & _ & Hu) H0. rewrite Hu in H0. unfold chain_count in H0.
    apply length_zero_iff_nil. lia.
  - reflexivity.
Qed.

Lemma budget_wrap_int (x : Z) : budget (wrap_int x) = budget x.
Proof. unfold budget. rewrite wrap_int_mod. reflexivity. Qed.

Lemma budget_le (x : Z) : 0 < x -> budget x <= x.
Proof.
  intros Hx. unfold budget.
  pose proof (Z.mod_pos_bound x (2 ^ 32) ltac:(lia)) as Hb.
  pose proof (Z.mod_le x (2 ^ 32) ltac:(lia) ltac:(lia)) as Hle.
  destruct (Z.eqb_spec (x mod 2 ^ 32) 0) as [E|E]; [|lia].
  destruct (Z_lt_le_dec x (2 ^ 32)); [|lia].
  rewrite Z.mod_small in E by lia. lia.
Qed.

Lemma dictRehash_report_spec (d : dict) (n : Z) :
  dict_inv d ->
  exists r,
    dictRehash_report d n = Ok r
    /\ same_content d (rr_dict r)
    /\ (rr_ret r = 0 \/ rr_ret r = 1)
    /\ (rr_ret r = 0 ->
        rehashidx (rr_dict r) = -1 /\ ht1 (rr_dict r) = _dictReset
        /\ (rehashidx d <> -1 -> size (ht0 (rr_dict r)) = size (ht1 d)))
    /\ (rr_ret r = 1 ->
        rehashidx d <> -1 /\ rehashidx (rr_dict r) <> -1
        /\ used (ht0 (rr_dict r)) <> 0
        /\ size (ht0 (rr_dict r)) = size (ht0 d)
        /\ size (ht1 (rr_dict r)) = size (ht1 d)
        /\ rehashidx (rr_dict r) = rehashidx d + rr_moved r + rr_probes r)
    /\ 0 <= rr_moved r /\ 0 <= rr_probes r
    /\ (0 <= n <= INT_MAX -> rr_moved r <= n)
    /\ rr_probes r <= budget (n * 10)
    /\ (rr_probes r = budget (n * 10) -> rr_ret r = 1)
    /\ (rehashidx d = -1 -> rr_dict r = d).
Proof.
  intros Hinv. unfold dictRehash_report.
  pose proof (budget_range (n * 10)) as Hbr.
  destruct (dictIsRehashing d) eqn:Hre; cbn [negb].
  2:{ apply dictIsRehashing_false in Hre.
      eexists. split; [reflexivity|]. simpl.
      split; [apply same_content_refl; exact Hinv|].
      split; [auto|].
      split; [intros _; split; [exact Hre|split; [|intros; contradiction]]|].
      { destruct Hinv as (_ & _ & _ & H & _). auto. }
      split; [discriminate|]. repeat split; try lia. }
  apply dictIsRehashing_true in Hre.
  pose proof Hinv as (Hi0 & Hi1 & Hsum & _ & Hr).
  destruct (Hr Hre) as (Hrange & Hn0 & Hn1 & Hprefix).
  destruct (table (ht0 d)) as [t0|] eqn:Ht0; [|contradiction].
  destruct (ht_inv_table _ _ Hi0 Ht0) as (Hlen0 & _).
  simpl default.
  destruct (dictRehash_loop_spec (S (length t0)) d n (wrap_int (n * 10)) 0 0
              Hinv Hre ltac:(lia))
    as (r & Hrun & Hsc & Hrne & Hs0 & Hs1 & Hidx & Hm & Hp & Hn & He1 & He2).
  rewrite budget_wrap_int in He1, He2.
  rewrite Hrun. cbn [bind].
  destruct (r_early r) eqn:Hearly.
  { destruct (He1 eq_refl) as [Hu Hpb].
    eexists. split; [reflexivity|]. simpl.
    split; [exact Hsc|]. split; [auto|]. split; [discriminate|].
    split; [intros _; repeat split; try assumption; lia|].
    split; [lia|]. split; [lia|]. split; [intros; specialize (Hn ltac:(lia)); lia|].
    split; [lia|]. split; [reflexivity|]. intros; contradiction. }
  specialize (He2 eq_refl).
  destruct (Z.eqb_spec (used (ht0 (r_dict r))) 0) as [Hu|Hu].
  - (* the whole table has been moved *)
    eexists. split; [reflexivity|]. simpl.
    destruct Hsc as (Hinv' & Hty & Hit & Hperm & Hpl).
    pose proof Hinv' as (Hi0' & Hi1' & Hsum' & _ & _).
    split.
    { unfold same_content. simpl. split.
      - unfold dict_inv. simpl. split; [exact Hi1'|]. split; [exact _dictReset_inv|].
        split; [pose proof (ht_inv_used_nonneg _ Hi0'); lia|].
        split; [reflexivity|]. intros; contradiction.
      - split; [exact Hty|]. split; [exact Hit|]. split.
        + rewrite <- Hperm. unfold dictEntries. simpl.
          rewrite (ht_entries_used0 _ Hi0' Hu). unfold ht_entries at 2, tbl. simpl.
          rewrite app_nil_r. reflexivity.
        + intros Hp0. destruct (Hpl Hp0) as [_ Hp1]. split.
          * intros i b e Hb He. apply (Hp1 i b e Hb He).
          * apply ht_placed_reset. }
    split; [auto|].
    split; [intros _; auto|].
    split; [discriminate|].
    split; [lia|]. split; [lia|]. split; [intros; specialize (Hn ltac:(lia)); lia|].
    split; [lia|]. split; [lia|]. intros; contradiction.
  - eexists. split; [reflexivity|]. simpl.
    split; [exact Hsc|]. split; [auto|]. split; [discriminate|].
    split; [intros _; repeat split; try assumption; lia|].
    split; [lia|]. split; [lia|]. split; [intros; specialize (Hn ltac:(lia)); lia|].
    split; [lia|]. split; [reflexivity|]. intros; contradiction.
Qed.

(** C3.  On a well-formed dictionary that is rehashing, [dictRehash(d,n)]
    with [n > 0] returns; it moves at most [n] buckets and visits at most
    [10*n] empty ones, and returns 1 when that many were visited.  It
    returns 0 or 1.  With 1, entries remain in [ht[0]] and the cursor has
    advanced by the buckets moved and visited.  With 0, [ht[0]] was
    emptied: the old [ht[1]] has become [ht[0]], [ht[1]] is reset and the
    cursor is -1.  The entries are the same in both cases. *)
Theorem dictRehash_bounds (d : dict) (n : Z) :
  dict_inv d -> dictIsRehashing d = true -> 0 < n <= INT_MAX ->
  exists r,
    dictRehash_report d n = Ok r
    /\ dictRehash d n = Ok (rr_dict r, rr_ret r)
    /\ 0 <= rr_moved r <= n
    /\ 0 <= rr_probes r <= 10 * n
    /\ (rr_probes r = 10 * n -> rr_ret r = 1)
    /\ (rr_ret r = 0 \/ rr_ret r = 1)
    /\ (rr_ret r = 1 ->
        used (ht0 (rr_dict r)) <> 0
        /\ dictIsRehashing (rr_dict r) = true
        /\ rehashidx (rr_dict r) = rehashidx d + rr_moved r + rr_probes r)
    /\ (rr_ret r = 0 ->
        rehashidx (rr_dict r) = -1
        /\ ht1 (rr_dict r) = _dictReset
        /\ size (ht0 (rr_dict r)) = size (ht1 d)
        /\ ht_entries (ht0 (rr_dict r)) ≡ₚ dictEntries d)
    /\ dictEntries (rr_dict r) ≡ₚ dictEntries d
    /\ dict_inv (rr_dict r).
Proof.
  intros Hinv Hre Hn. apply dictIsRehashing_true in Hre.
  destruct (dictRehash_report_spec d n Hinv)
    as (r & Hrun & Hsc & Hret & H0 & H1 & Hm & Hp & Hmn & Hpb & Hpe & _).
  pose proof (budget_le (n * 10) ltac:(lia)) as Hble.
  destruct Hsc as (Hinv' & _ & _ & Hperm & _).
  exists r. split; [exact Hrun|].
  split; [unfold dictRehash; rewrite Hrun; reflexivity|].
  split; [split; [lia | apply Hmn; lia]|].
  split; [lia|].
  split; [intros E; apply Hpe; lia|].
  split; [exact Hret|].
  split.
  { intros E. destruct (H1 E) as (_ & Hne & Hu & _ & _ & Hidx).
    split; [exact Hu|]. split; [apply dictIsRehashing_true; exact Hne | exact Hidx]. }
  split.
  { intros E. destruct (H0 E) as (Hi & Hr1 & Hs).
    split; [exact Hi|]. split; [exact Hr1|]. split; [apply Hs; exact Hre|].
    rewrite <- Hperm. unfold dictEntries. rewrite Hr1.
    unfold ht_entries at 3, tbl. simpl. rewrite app_nil_r. reflexivity. }
  split; [exact Hperm | exact Hinv'].
Qed.

(** *** Updating one bucket *)

Definition update_bucket (h : dictht) (tb : list (list dictEntry)) (i : Z)
    (b' : list dictEntry) (u : Z) : dictht :=
  set_used (set_table h (insertZ i b' tb)) u.

Lemma update_bucket_ht_inv (h : dictht) (tb : list (list dictEntry)) (i : Z)
    (b b' : list dictEntry) :
  ht_inv h -> table h = Some tb -> lookupZ tb i = Ok b ->
  ht_inv (update_bucket h tb i b'
            (used h - Z.of_nat (length b) + Z.of_nat (length b'))).
Proof.
  intros Hinv Ht Hb.
  destruct (ht_inv_table _ _ Hinv Ht) as (Hlen & Hsz & Hm & Hu).
  unfold ht_inv, update_bucket. simpl. rewrite insertZ_length.
  repeat split; try assumption.
  rewrite (chain_count_insertZ _ _ _ _ Hb). lia.
Qed.

Lemma update_bucket_inv (d : dict) (t : nat) (tb : list (list dictEntry))
    (i : Z) (b b' : list dictEntry) :
  dict_inv d -> table (ht d t) = Some tb -> lookupZ tb i = Ok b ->
  (t = 0%nat -> rehashidx d <> -1 -> b = [] -> b' = []) ->
  used (ht0 d) + used (ht1 d) - Z.of_nat (length b) + Z.of_nat (length b')
    < 2 ^ 64 ->
  dict_inv (set_ht d t
              (update_bucket (ht d t) tb i b'
                 (used (ht d t) - Z.of_nat (length b) + Z.of_nat (length b')))).
Proof.
  intros Hinv Ht Hb Hemp Hsum.
  pose proof Hinv as (Hi0 & Hi1 & _ & Hidle & Hre).
  pose proof (lookupZ_lt _ _ _ Hb) as Hi.
  destruct t as [|t]; simpl in Ht |- *.
  - pose proof (update_bucket_ht_inv _ _ _ _ b' Hi0 Ht Hb) as Hi0'.
    unfold dict_inv. simpl. split; [exact Hi0'|]. split; [exact Hi1|].
    split; [lia|]. split; [exact Hidle|]. intros Hne.
    destruct (Hre Hne) as (Hr & _ & Hn1 & Hprefix).
    split; [exact Hr|]. split; [discriminate|]. split; [exact Hn1|].
    intros j Hj. specialize (Hprefix j Hj). unfold tbl in Hprefix |- *.
    rewrite Ht in Hprefix. simpl in *.
    destruct (Z.eq_dec j i) as [->|Hji].
    + rewrite lookupZ_insertZ_eq by lia.
      rewrite (Hemp eq_refl Hne); [reflexivity|].
      eapply lookupZ_inj; eauto.
    + rewrite lookupZ_insertZ_ne by lia. exact Hprefix.
  - pose proof (update_bucket_ht_inv _ _ _ _ b' Hi1 Ht Hb) as Hi1'.
    unfold dict_inv. simpl. split; [exact Hi0|]. split; [exact Hi1'|].
    split; [lia|]. split.
    + intros Hm1. rewrite (Hidle Hm1) in Ht. discriminate.
    + intros Hne. destruct (Hre Hne) as (Hr & Hn0 & _ & Hprefix).
      split; [exact Hr|]. split; [exact Hn0|]. split; [discriminate|].
      exact Hprefix.
Qed.

Lemma update_bucket_entries (d : dict) (t : nat) (tb : list (list dictEntry))
    (i : Z) (b b' : list dictEntry) (u : Z) :
  table (ht d t) = Some tb -> lookupZ tb i = Ok b ->
  exists R,
    dictEntries d ≡ₚ b ++ R
    /\ dictEntries (set_ht d t (update_bucket (ht d t) tb i b' u)) ≡ₚ b' ++ R.
Proof.
  intros Ht Hb. destruct t as [|t]; simpl in Ht |- *.
  - exists (others tb i ++ ht_entries (ht1 d)). unfold dictEntries. simpl.
    assert (E1 : ht_entries (ht0 d) = concat tb)
      by (unfold ht_entries, tbl; rewrite Ht; reflexivity).
    assert (E2 : ht_entries (update_bucket (ht0 d) tb i b' u)
                 = concat (insertZ i b' tb)) by reflexivity.
    rewrite E1, E2.
    rewrite (concat_insertZ _ _ _ _ Hb), (concat_bucket _ _ _ Hb).
    rewrite <- !app_assoc. split; reflexivity.
  - exists (ht_entries (ht0 d) ++ others tb i). unfold dictEntries. simpl.
    assert (E1 : ht_entries (ht1 d) = concat tb)
      by (unfold ht_entries, tbl; rewrite Ht; reflexivity).
    assert (E2 : ht_entries (update_bucket (ht1 d) tb i b' u)
                 = concat (insertZ i b' tb)) by reflexivity.
    rewrite E1, E2.
    rewrite (concat_insertZ _ _ _ _ Hb), (concat_bucket _ _ _ Hb).
    split; rewrite !app_assoc; apply Permutation_app_tail,
      Permutation_app_comm.
Qed.

Lemma update_bucket_placed (d : dict) (t : nat) (tb : list (list dictEntry))
    (i : Z) (b' : list dictEntry) (u : Z) :
  table (ht d t) = Some tb -> 0 <= i < Z.of_nat (length tb) ->
  (forall e, e ∈ b' ->
     Z.land (dictHashKey d (key e)) (sizemask (ht d t)) = i) ->
  dict_placed d ->
  dict_placed (set_ht d t (update_bucket (ht d t) tb i b' u)).
Proof.
  intros Ht Hi Hnew [Hp0 Hp1].
  assert (Hgen : forall h, table h = Some tb ->
            (forall e, e ∈ b' -> Z.land (dictHashKey d (key e)) (sizemask h) = i) ->
            ht_placed d h ->
            forall d', type d' = type d ->
            ht_placed d' (update_bucket h tb i b' u)).
  { intros h Hh Hn Hp d' Hty j bj e Hbj He. unfold tbl in Hbj. simpl in Hbj.
    unfold dictHashKey. rewrite Hty. change (sizemask (update_bucket h tb i b' u))
      with (sizemask h).
    destruct (Z.eq_dec j i) as [->|Hji].
    - rewrite lookupZ_insertZ_eq in Hbj by lia. injection Hbj as <-.
      apply Hn. exact He.
    - pose proof (lookupZ_lt _ _ _ Hbj) as Hj. rewrite insertZ_length in Hj.
      rewrite lookupZ_insertZ_ne in Hbj by lia.
      apply (Hp j bj e); [|exact He]. unfold tbl. rewrite Hh. exact Hbj. }
  destruct t as [|t]; simpl in *; split.
  - apply Hgen; auto.
  - intros j bj e Hbj He. apply (Hp1 j bj e Hbj He).
  - intros j bj e Hbj He. apply (Hp0 j bj e Hbj He).
  - apply Hgen; auto.
Qed.

(** *** Expansion keeps the invariant *)

Lemma fresh_table_entries (r : Z) : ht_entries (fresh_table r) = [].
Proof. unfold ht_entries, tbl. simpl. apply concat_replicate_nil. Qed.

Lemma fresh_table_placed (d : dict) (r : Z) : ht_placed d (fresh_table r).
Proof.
  intros i b e Hb He. unfold tbl in Hb. simpl in Hb.
  apply lookupZ_Ok in Hb as [_ Hb].
  apply lookup_replicate in Hb as [-> _]. apply elem_of_nil in He. contradiction.
Qed.

Lemma ht_entries_none (h : dictht) : table h = None -> ht_entries h = [].
Proof. intros H. unfold ht_entries, tbl. rewrite H. reflexivity. Qed.

Lemma dictExpand_inv (c : env) (d : dict) (size : Z) :
  dict_inv d -> zcalloc_ok (mem c) = true -> size <= 2 ^ 60 ->
  exists d' r,
    dictExpand c d size = Ok (d', r)
    /\ same_content d d'
    /\ (r = DICT_OK \/ r = DICT_ERR)
    /\ (r = DICT_ERR -> d' = d)
    /\ (r = DICT_OK -> table (ht0 d') <> None)
    /\ (table (ht0 d) <> None -> table (ht0 d') <> None).
Proof.
  intros Hinv Hmem Hsize.
  destruct (dictExpand_cases c d size Hmem Hsize) as (r & Hr & Hts & ->).
  pose proof Hinv as (Hi0 & Hi1 & Hsum & Hidle & Hre).
  destruct (dictIsRehashing d) eqn:Hreh; simpl.
  { exists d, DICT_ERR. split; [reflexivity|].
    split; [apply same_content_refl; exact Hinv|].
    repeat split; auto; discriminate. }
  apply dictIsRehashing_false in Hreh.
  destruct (used (ht0 d) >? size).
  { exists d, DICT_ERR. split; [reflexivity|].
    split; [apply same_content_refl; exact Hinv|].
    repeat split; auto; discriminate. }
  destruct (r =? Dict.size (ht0 d)).
  { exists d, DICT_ERR. split; [reflexivity|].
    split; [apply same_content_refl; exact Hinv|].
    repeat split; auto; discriminate. }
  pose proof (fresh_table_inv r Hts) as Hf.
  pose proof (ht_inv_used_nonneg _ Hi0) as Hu0.
  pose proof (ht_inv_used_nonneg _ Hi1) as Hu1.
  destruct (table (ht0 d)) as [t0|] eqn:Ht0.
  - eexists _, DICT_OK. split; [reflexivity|].
    split.
    { unfold same_content. simpl. split.
      - unfold dict_inv. simpl. split; [exact Hi0|]. split; [exact Hf|].
        split; [lia|]. split; [discriminate|]. intros _.
        destruct (ht_inv_table _ _ Hi0 Ht0) as (_ & Hsz & _).
        pose proof (is_table_size_bounds _ Hsz).
        split; [lia|]. split; [congruence|]. split; [discriminate|].
        intros; lia.
      - split; [reflexivity|]. split; [reflexivity|]. split.
        + unfold dictEntries. simpl. rewrite fresh_table_entries.
          rewrite (Hidle Hreh). reflexivity.
        + intros [Hp0 _]. split.
          * intros i b e Hb He. apply (Hp0 i b e Hb He).
          * apply fresh_table_placed. }
    split; [auto|]. split; [discriminate|].
    split; intros _; simpl; congruence.
  - eexists _, DICT_OK. split; [reflexivity|].
    split.
    { unfold same_content. simpl. split.
      - unfold dict_inv. simpl. split; [exact Hf|]. split; [exact Hi1|].
        unfold ht_inv in Hi0. rewrite Ht0 in Hi0.
        split; [lia|]. split; [exact Hidle|]. intros; contradiction.
      - split; [reflexivity|]. split; [reflexivity|]. split.
        + unfold dictEntries. simpl. rewrite fresh_table_entries.
          rewrite (ht_entries_none _ Ht0). reflexivity.
        + intros [_ Hp1]. split.
          * apply fresh_table_placed.
          * intros i b e Hb He. apply (Hp1 i b e Hb He). }
    split; [auto|]. split; [discriminate|].
    split; intros _; simpl; discriminate.
Qed.

Lemma _dictRehashStep_spec (d : dict) :
  dict_inv d ->
  exists d',
    _dictRehashStep d = Ok d'
    /\ same_content d d'
    /\ (iterators d <> 0 -> d' = d)
    /\ (rehashidx d = -1 -> d' = d).
Proof.
  intros Hinv. unfold _dictRehashStep, dictRehash.
  destruct (Z.eqb_spec (iterators d) 0) as [Hit|Hit].
  - destruct (dictRehash_report_spec d 1 Hinv) as (r & Hr & Hsc & H).
    rewrite Hr. simpl. exists (rr_dict r). split; [reflexivity|].
    split; [exact Hsc|]. split; [intros; contradiction|].
    apply H.
  - exists d. split; [reflexivity|].
    split; [apply same_content_refl; exact Hinv|]. auto.
Qed.

Lemma _dictExpandIfNeeded_spec (c : env) (d : dict) :
  dict_inv d -> zcalloc_ok (mem c) = true -> used (ht0 d) < 2 ^ 59 ->
  exists d' r,
    _dictExpandIfNeeded c d = Ok (d', r)
    /\ same_content d d'
    /\ (r = DICT_OK \/ r = DICT_ERR)
    /\ (r = DICT_ERR -> d' = d)
    /\ (r = DICT_OK -> table (ht0 d') <> None)
    /\ (used (ht0 d) < 2 ^ 62 -> r = DICT_OK).
Proof.
  intros Hinv Hmem Hfew. unfold _dictExpandIfNeeded.
  pose proof Hinv as (Hi0 & Hi1 & Hsum & Hidle & Hre).
  pose proof (ht_inv_used_nonneg _ Hi0) as Hpos0.
  destruct (dictIsRehashing d) eqn:Hreh.
  { apply dictIsRehashing_true in Hreh. destruct (Hre Hreh) as (_ & Hn0 & _).
    exists d, DICT_OK. split; [reflexivity|].
    split; [apply same_content_refl; exact Hinv|].
    repeat split; auto; discriminate. }
  destruct (Z.eqb_spec (Dict.size (ht0 d)) 0) as [Hz|Hnz].
  { destruct (dictExpand_inv c d DICT_HT_INITIAL_SIZE Hinv Hmem
                ltac:(unfold DICT_HT_INITIAL_SIZE; lia))
      as (d' & r & Hx & Hsc & Hr & He & Ho & _).
    exists d', r. split; [exact Hx|]. split; [exact Hsc|].
    split; [exact Hr|]. split; [exact He|]. split; [exact Ho|].
    intros _.
    assert (Hn : table (ht0 d) = None).
    { destruct (table (ht0 d)) as [t0|] eqn:Ht0; [|reflexivity].
      destruct (ht_inv_table _ _ Hi0 Ht0) as (_ & Hsz & _).
      pose proof (is_table_size_bounds _ Hsz). lia. }
    unfold ht_inv in Hi0. rewrite Hn in Hi0. destruct Hi0 as (_ & _ & Hu).
    unfold dictExpand, zcalloc_table in Hx.
    rewrite Hreh, Hu, Hz, Hmem in Hx. simpl in Hx.
    rewrite Hn in Hx. injection Hx as _ <-. reflexivity. }
  assert (Hsome : table (ht0 d) <> None).
  { destruct (table (ht0 d)) as [t0|] eqn:Ht0; [discriminate|].
    unfold ht_inv in Hi0. rewrite Ht0 in Hi0. lia. }
  destruct ((used (ht0 d) >=? Dict.size (ht0 d))
            && (can_resize c
                || (used (ht0 d) / Dict.size (ht0 d) >? dict_force_resize_ratio)))
    eqn:Hgrow.
  2:{ exists d, DICT_OK. split; [reflexivity|].
      split; [apply same_content_refl; exact Hinv|].
      repeat split; auto; discriminate. }
  apply andb_true_iff in Hgrow as [Hge _].
  destruct (Z.geb_spec (used (ht0 d)) (Dict.size (ht0 d))) as [Hge'|]; [|discriminate].
  destruct (dictExpand_inv c d (wrap64 (used (ht0 d) * 2)) Hinv Hmem
              ltac:(rewrite wrap64_small by lia; lia))
    as (d' & r & Hx & Hsc & Hr & He & Ho & Hk).
  exists d', r. split; [exact Hx|]. split; [exact Hsc|].
  split; [exact Hr|]. split; [exact He|]. split; [exact Ho|].
  intros Hsmall.
  destruct (table (ht0 d)) as [t0|] eqn:Ht0; [|contradiction].
  destruct (ht_inv_table _ _ Hi0 Ht0) as (_ & Hsz & _).
  pose proof (is_table_size_bounds _ Hsz) as Hb.
  pose proof (ht_inv_used_nonneg _ Hi0) as Hu0.
  destruct (dictExpand_cases c d (wrap64 (used (ht0 d) * 2)) Hmem
              ltac:(rewrite wrap64_small by lia; lia)) as (rs & Hrs & _ & Hc).
  rewrite Hc in Hx. rewrite Hreh in Hx. simpl in Hx.
  rewrite wrap64_small in Hx, Hrs by lia.
  destruct (Z.gtb_spec (used (ht0 d)) (used (ht0 d) * 2)); [lia|].
  destruct (_dictNextPower_spec (used (ht0 d) * 2)) as (k & Hk2 & Hnp & Hlt & _).
  rewrite Hnp in Hrs. injection Hrs as <-.
  destruct (Hlt ltac:(unfold LONG_MAX; lia)) as [Hle _].
  destruct (Z.eqb_spec (2 ^ k) (Dict.size (ht0 d))); [lia|].
  rewrite Ht0 in Hx. injection Hx as _ <-. reflexivity.
Qed.

(** *** Chain walks *)

Lemma key_matches_ext (d d' : dict) (k : Z) (e : dictEntry) :
  type d' = type d -> key_matches d' k e = key_matches d k e.
Proof.
  intros H. unfold key_matches, dictCompareKeys. rewrite H. reflexivity.
Qed.

Lemma chain_index_ext (d d' : dict) (k : Z) (he : list dictEntry) :
  type d' = type d -> chain_index d' k he = chain_index d k he.
Proof.
  intros H. induction he as [|e he IH]; simpl; [reflexivity|].
  rewrite (key_matches_ext d d' k e H), IH. reflexivity.
Qed.

Lemma chain_index_None (d : dict) (k : Z) (he : list dictEntry) :
  chain_index d k he = None <->
  forall e, e ∈ he -> key_matches d k e = false.
Proof.
  induction he as [|e he IH]; simpl.
  - split; [intros _ e He; apply elem_of_nil in He; contradiction | reflexivity].
  - destruct (key_matches d k e) eqn:Hm.
    + split; [discriminate|]. intros H.
      rewrite (H e) in Hm by apply list_elem_of_here. discriminate.
    + destruct (chain_index d k he) eqn:Hc; simpl.
      * split; [discriminate|]. intros H. destruct IH as [_ IH].
        assert (Hx : Some n = None).
        { apply IH. intros e' He'. apply H. apply list_elem_of_further.
          exact He'. }
        discriminate Hx.
      * split; [|reflexivity]. intros _ e' He'.
        apply elem_of_cons in He' as [->|He']; [exact Hm|].
        apply (proj1 IH eq_refl). exact He'.
Qed.

Lemma chain_index_Some (d : dict) (k : Z) (he : list dictEntry) (p : nat) :
  chain_index d k he = Some p ->
  exists e, he !! p = Some e /\ key_matches d k e = true.
Proof.
  revert p. induction he as [|e he IH]; intros p; simpl; [discriminate|].
  destruct (key_matches d k e) eqn:Hm.
  - intros [= <-]. exists e. auto.
  - destruct (chain_index d k he) as [q|]; simpl; [|discriminate].
    intros [= <-]. destruct (IH q eq_refl) as (e' & He' & Hm').
    exists e'. auto.
Qed.

Lemma chain_find_index (d : dict) (k : Z) (he : list dictEntry) :
  chain_find d k he = None <-> chain_index d k he = None.
Proof.
  induction he as [|e he IH]; simpl; [tauto|].
  destruct (key_matches d k e); [split; discriminate|].
  rewrite IH. destruct (chain_index d k he); simpl; split; auto; discriminate.
Qed.

Lemma chain_find_Some (d : dict) (k : Z) (he : list dictEntry) (e : dictEntry) :
  chain_find d k he = Some e -> e ∈ he /\ key_matches d k e = true.
Proof.
  induction he as [|x he IH]; simpl; [discriminate|].
  destruct (key_matches d k x) eqn:Hm.
  - intros [= <-]. split; [apply list_elem_of_here | exact Hm].
  - intros H. destruct (IH H). split; [apply list_elem_of_further|]; assumption.
Qed.

Lemma chain_unlink_None (d : dict) (k : Z) (he : list dictEntry) :
  chain_unlink d k he = None <-> chain_index d k he = None.
Proof.
  induction he as [|e he IH]; simpl; [tauto|].
  destruct (key_matches d k e); [split; discriminate|].
  destruct (chain_unlink d k he) as [[x rest]|], (chain_index d k he);
    simpl; split; auto; try discriminate.
  - intros _. destruct IH as [_ IH]. discriminate (IH eq_refl).
  - intros _. destruct IH as [IH _]. discriminate (IH eq_refl).
Qed.

Lemma chain_unlink_Some (d : dict) (k : Z) (he rest : list dictEntry)
    (e : dictEntry) :
  chain_unlink d k he = Some (e, rest) ->
  he ≡ₚ e :: rest /\ key_matches d k e = true
  /\ length he = S (length rest)
  /\ (forall x, x ∈ rest -> x ∈ he).
Proof.
  revert rest. induction he as [|x he IH]; intros rest; simpl; [discriminate|].
  destruct (key_matches d k x) eqn:Hm.
  - intros [= <- <-]. repeat split; auto.
    intros y Hy. apply list_elem_of_further. exact Hy.
  - destruct (chain_unlink d k he) as [[y r]|]; [|discriminate].
    intros [= <- <-]. destruct (IH r eq_refl) as (Hp & Hk & Hl & Hin).
    split; [rewrite Hp; apply perm_swap|]. split; [exact Hk|].
    split; [simpl; lia|].
    intros z Hz. apply elem_of_cons in Hz as [->|Hz].
    + apply list_elem_of_here.
    + apply list_elem_of_further. apply Hin. exact Hz.
Qed.

(** *** Chains of a well-formed dictionary *)

Lemma chain_at_spec (d : dict) (t : nat) (h : Z) :
  dict_inv d -> table (ht d t) <> None ->
  exists tb idx he,
    chain_at d t h = Ok (idx, he)
    /\ table (ht d t) = Some tb
    /\ idx = Z.land h (sizemask (ht d t))
    /\ lookupZ tb idx = Ok he.
Proof.
  intros Hinv Hn.
  assert (Hi : ht_inv (ht d t)).
  { destruct Hinv as (H0 & H1 & _). destruct t; assumption. }
  destruct (table (ht d t)) as [tb|] eqn:Ht; [|contradiction].
  pose proof (ht_inv_index _ _ h Hi Ht) as Hidx.
  destruct (lookupZ_total tb _ Hidx) as [he Hhe].
  exists tb, (Z.land h (sizemask (ht d t))), he.
  unfold chain_at, the_table. rewrite Ht. simpl. rewrite Hhe. simpl. auto.
Qed.

(** A [dictEntry*] that points into the dictionary. *)
Definition ref_valid (d : dict) (r : entry_ref) : Prop :=
  exists tb b e,
    table (ht d (e_table r)) = Some tb
    /\ lookupZ tb (e_bucket r) = Ok b
    /\ b !! e_pos r = Some e.

(** *** The rehash cursor *)

(** The cursor was not moved along [ht[0]]: it is unchanged, or a rehash
    was started ([-1] became [0]). *)
Definition cursor_kept (d d' : dict) : Prop :=
  rehashidx d' = rehashidx d \/ (rehashidx d = -1 /\ rehashidx d' = 0).

Lemma cursor_kept_refl (d : dict) : cursor_kept d d.
Proof. left. reflexivity. Qed.

Lemma cursor_kept_eq (d d1 d2 : dict) :
  cursor_kept d d1 -> rehashidx d2 = rehashidx d1 -> cursor_kept d d2.
Proof. unfold cursor_kept. intros [H|[H H']] E; [left | right]; lia. Qed.

Lemma dictExpand_cursor (c : env) (d d' : dict) (size r : Z) :
  dictExpand c d size = Ok (d', r) -> cursor_kept d d'.
Proof.
  destruct (dictExpand_unfold c d size) as (rs & _ & _ & ->).
  destruct (dictIsRehashing d) eqn:Hre; simpl.
  { intros [= <- _]. apply cursor_kept_refl. }
  apply dictIsRehashing_false in Hre.
  destruct (used (ht0 d) >? size); [intros [= <- _]; apply cursor_kept_refl|].
  destruct (rs =? Dict.size (ht0 d)); [intros [= <- _]; apply cursor_kept_refl|].
  destruct (zcalloc_table c rs) as [tb|]; [|discriminate]. cbn [bind].
  destruct (table (ht0 d)); intros [= <- _].
  - right. simpl. auto.
  - left. reflexivity.
Qed.

Lemma _dictExpandIfNeeded_cursor (c : env) (d d' : dict) (r : Z) :
  _dictExpandIfNeeded c d = Ok (d', r) ->
  cursor_kept d d' /\ (rehashidx d <> -1 -> d' = d).
Proof.
  unfold _dictExpandIfNeeded.
  destruct (dictIsRehashing d) eqn:Hre.
  { intros [= <- _]. split; [apply cursor_kept_refl | auto]. }
  apply dictIsRehashing_false in Hre.
  assert (Hx : forall s, dictExpand c d s = Ok (d', r) ->
                 cursor_kept d d' /\ (rehashidx d <> -1 -> d' = d)).
  { intros s Hs. split; [eapply dictExpand_cursor; eauto | intros; contradiction]. }
  destruct (Dict.size (ht0 d) =? 0); [apply Hx|].
  destruct ((used (ht0 d) >=? Dict.size (ht0 d))
            && (can_resize c
                || (used (ht0 d) / Dict.size (ht0 d) >? dict_force_resize_ratio)));
    [apply Hx|].
  intros [= <- _]. split; [apply cursor_kept_refl | auto].
Qed.

(** *** [dictSetVal] *)

Lemma dict_inv_count (d : dict) :
  dict_inv d ->
  used (ht0 d) + used (ht1 d) = Z.of_nat (length (dictEntries d)).
Proof.
  intros (Hi0 & Hi1 & _).
  assert (H : forall h, ht_inv h -> used h = Z.of_nat (length (ht_entries h))).
  { intros h. unfold ht_inv, ht_entries, tbl. destruct (table h); simpl.
    - intros (_ & _ & _ & ->). reflexivity.
    - intros (_ & _ & ->). reflexivity. }
  unfold dictEntries. rewrite length_app, (H _ Hi0), (H _ Hi1). lia.
Qed.

Lemma same_content_count (d d' : dict) :
  dict_inv d -> same_content d d' ->
  used (ht0 d') + used (ht1 d') = used (ht0 d) + used (ht1 d).
Proof.
  intros Hinv (Hinv' & _ & _ & Hperm & _).
  rewrite (dict_inv_count _ Hinv), (dict_inv_count _ Hinv').
  rewrite (Permutation_length Hperm). reflexivity.
Qed.

Lemma dictSetVal_spec (d : dict) (r : entry_ref) (v : Z) :
  dict_inv d -> ref_valid d r ->
  exists d',
    dictSetVal d r v = Ok d'
    /\ dict_inv d' /\ type d' = type d /\ iterators d' = iterators d
    /\ rehashidx d' = rehashidx d
    /\ key <$> dictEntries d' ≡ₚ key <$> dictEntries d
    /\ (dict_placed d -> dict_placed d').
Proof.
  intros Hinv (tb & b & e & Ht & Hb & He).
  unfold dictSetVal, the_table. rewrite Ht. cbn [bind]. rewrite Hb. cbn [bind].
  rewrite He.
  set (e' := {| key := key e; val := dictSetValOf d v |}).
  set (b' := <[e_pos r := e']> b).
  assert (Hlen : length b' = length b) by apply length_insert.
  change (set_table (ht d (e_table r)) (insertZ (e_bucket r) b' tb))
    with (update_bucket (ht d (e_table r)) tb (e_bucket r) b'
            (used (ht d (e_table r)))).
  pose proof Hinv as (_ & _ & Hsum & _).
  pose proof (update_bucket_inv d (e_table r) tb (e_bucket r) b b' Hinv Ht Hb) as Hu.
  rewrite Hlen in Hu.
  replace (used (ht d (e_table r)) - Z.of_nat (length b) + Z.of_nat (length b))
    with (used (ht d (e_table r))) in Hu by lia.
  eexists. split; [reflexivity|].
  split.
  { apply Hu; [|lia]. intros _ _ ->. reflexivity. }
  split; [destruct (e_table r); reflexivity|].
  split; [destruct (e_table r); reflexivity|].
  split; [destruct (e_table r); reflexivity|].
  split.
  - destruct (update_bucket_entries d (e_table r) tb (e_bucket r) b b'
                (used (ht d (e_table r))) Ht Hb) as (R & H1 & H2).
    rewrite H1, H2, !fmap_app. apply Permutation_app_tail.
    subst b'. rewrite list_fmap_insert. subst e'. simpl.
    rewrite list_insert_id; [reflexivity|].
    rewrite list_lookup_fmap, He. reflexivity.
  - intros Hp. pose proof (lookupZ_lt _ _ _ Hb) as Hi.
    apply update_bucket_placed; try assumption.
    intros x Hx.
    assert (Hpl : ht_placed d (ht d (e_table r))).
    { destruct Hp as [H0 H1]. destruct (e_table r); assumption. }
    assert (Hold : forall y, y ∈ b ->
              Z.land (dictHashKey d (key y)) (sizemask (ht d (e_table r)))
              = e_bucket r).
    { intros y Hy. apply (Hpl _ b y); [|exact Hy]. unfold tbl. rewrite Ht. exact Hb. }
    apply list_elem_of_lookup in Hx as [i Hi'].
    subst b'. destruct (decide (i = e_pos r)) as [->|Hne].
    + rewrite list_lookup_insert_eq in Hi' by (eapply lookup_lt_Some; eauto).
      injection Hi' as <-. subst e'. simpl. apply Hold.
      apply list_elem_of_lookup. eauto.
    + rewrite list_lookup_insert_ne in Hi' by auto.
      apply Hold. apply list_elem_of_lookup. eauto.
Qed.

(** *** [_dictKeyIndex] *)

(** The tables a lookup walks: [ht[0]], and [ht[1]] while rehashing. *)
Definition searched (d : dict) (t : nat) : Prop :=
  t = 0%nat \/ (t = 1%nat /\ rehashidx d <> -1).

(** No entry of the chains a lookup of hash [h] walks matches [k]. *)
Definition no_match (d : dict) (k h : Z) : Prop :=
  forall t tb he e,
    searched d t -> table (ht d t) = Some tb ->
    lookupZ tb (Z.land h (sizemask (ht d t))) = Ok he ->
    e ∈ he -> key_matches d k e = false.

(** The table an insertion goes to. *)
Definition target_table (d : dict) : nat :=
  if dictIsRehashing d then 1%nat else 0%nat.

Lemma _dictKeyIndex_spec (c : env) (d : dict) (k h : Z) :
  dict_inv d -> zcalloc_ok (mem c) = true -> used (ht0 d) < 2 ^ 59 ->
  exists d' idx ex,
    _dictKeyIndex c d k h = Ok (d', idx, ex)
    /\ same_content d d' /\ cursor_kept d d'
    /\ (rehashidx d <> -1 -> d' = d)
    /\ ((idx = -1 /\ ex = None /\ 2 ^ 62 <= used (ht0 d))
        \/ (idx = -1 /\ exists r, ex = Some r /\ ref_valid d' r)
        \/ (ex = None /\ no_match d' k h
            /\ exists tb b,
                 table (ht d' (target_table d')) = Some tb
                 /\ lookupZ tb idx = Ok b
                 /\ idx = Z.land h (sizemask (ht d' (target_table d'))))).
Proof.
  intros Hinv Hmem Hfew. unfold _dictKeyIndex.
  destruct (_dictExpandIfNeeded_spec c d Hinv Hmem Hfew)
    as (d' & r & Hx & Hsc & Hr & He & Ho & Hsmall).
  destruct (_dictExpandIfNeeded_cursor c d d' r Hx) as [Hck Hsame].
  rewrite Hx. cbn [bind].
  pose proof Hsc as (Hinv' & Hty & _).
  destruct Hr as [->| ->]; simpl.
  2:{ exists d', (-1), None. split; [reflexivity|]. split; [exact Hsc|].
      split; [exact Hck|]. split; [exact Hsame|]. left.
      split; [reflexivity|]. split; [reflexivity|].
      destruct (Z_lt_le_dec (used (ht0 d)) (2 ^ 62)) as [Hlt|]; [|assumption].
      discriminate (Hsmall Hlt). }
  destruct (chain_at_spec d' 0 h Hinv' (Ho eq_refl))
    as (tb0 & idx0 & he0 & Hc0 & Ht0 & Hi0 & Hl0).
  rewrite Hc0. cbn [bind].
  destruct (chain_index d' k he0) as [p|] eqn:Hci0.
  { destruct (chain_index_Some _ _ _ _ Hci0) as (e & Hp & _).
    eexists d', (-1), _. split; [reflexivity|]. split; [exact Hsc|].
    split; [exact Hck|]. split; [exact Hsame|]. right. left.
    split; [reflexivity|]. eexists. split; [reflexivity|].
    exists tb0, he0, e. simpl. auto. }
  destruct (dictIsRehashing d') eqn:Hre; cbn [negb].
  2:{ apply dictIsRehashing_false in Hre.
      exists d', idx0, None. split; [reflexivity|]. split; [exact Hsc|].
      split; [exact Hck|]. split; [exact Hsame|]. right. right.
      split; [reflexivity|]. split.
      - intros t tb he e [->|[_ Hne]] Ht Hl Hin; [|contradiction].
        rewrite Ht0 in Ht. injection Ht as <-.
        rewrite <- Hi0, Hl0 in Hl. injection Hl as <-.
        eapply chain_index_None; eauto.
      - unfold target_table, dictIsRehashing. rewrite Hre. simpl.
        exists tb0, he0. auto. }
  pose proof Hre as Hre'. apply dictIsRehashing_true in Hre'.
  assert (Hn1 : table (ht d' 1) <> None).
  { destruct Hinv' as (_ & _ & _ & _ & H). destruct (H Hre') as (_ & _ & ? & _).
    assumption. }
  destruct (chain_at_spec d' 1 h Hinv' Hn1)
    as (tb1 & idx1 & he1 & Hc1 & Ht1 & Hi1 & Hl1).
  rewrite Hc1. cbn [bind].
  destruct (chain_index d' k he1) as [p|] eqn:Hci1.
  { destruct (chain_index_Some _ _ _ _ Hci1) as (e & Hp & _).
    eexists d', (-1), _. split; [reflexivity|]. split; [exact Hsc|].
    split; [exact Hck|]. split; [exact Hsame|]. right. left.
    split; [reflexivity|]. eexists. split; [reflexivity|].
    exists tb1, he1, e. simpl. auto. }
  exists d', idx1, None. split; [reflexivity|]. split; [exact Hsc|].
  split; [exact Hck|]. split; [exact Hsame|]. right. right.
  split; [reflexivity|]. split.
  - intros t tb he e [->|[-> _]] Ht Hl Hin.
    + rewrite Ht0 in Ht. injection Ht as <-.
      rewrite <- Hi0, Hl0 in Hl. injection Hl as <-.
      exact (proj1 (chain_index_None d' k he0) Hci0 e Hin).
    + rewrite Ht1 in Ht. injection Ht as <-.
      rewrite <- Hi1, Hl1 in Hl. injection Hl as <-.
      exact (proj1 (chain_index_None d' k he1) Hci1 e Hin).
  - unfold target_table. rewrite Hre. exists tb1, he1. auto.
Qed.

(** *** [dictAddRaw] *)

Lemma ht_set_ht (d : dict) (t : nat) (h : dictht) : ht (set_ht d t h) t = h.
Proof. destruct t; reflexivity. Qed.

Lemma set_ht_fields (d : dict) (t : nat) (h : dictht) :
  type (set_ht d t h) = type d /\ iterators (set_ht d t h) = iterators d
  /\ rehashidx (set_ht d t h) = rehashidx d.
Proof. destruct t; simpl; auto. Qed.

Lemma dictHashKey_ext (d d' : dict) (k : Z) :
  type d' = type d -> dictHashKey d' k = dictHashKey d k.
Proof. intros H. unfold dictHashKey. rewrite H. reflexivity. Qed.

(** The entry [dictAddRaw] links in. *)
Definition new_entry (d : dict) (k : Z) : dictEntry :=
  {| key := dictSetKeyOf d k; val := 0 |}.

Lemma rehash_step_if (d : dict) :
  dict_inv d ->
  exists d1,
    (if dictIsRehashing d then _dictRehashStep d else Ok d) = Ok d1
    /\ same_content d d1
    /\ (iterators d <> 0 -> d1 = d)
    /\ (rehashidx d = -1 -> d1 = d).
Proof.
  intros Hinv. destruct (dictIsRehashing d) eqn:Hre.
  - apply _dictRehashStep_spec. exact Hinv.
  - exists d. split; [reflexivity|].
    split; [apply same_content_refl; exact Hinv | auto].
Qed.

Lemma dictAddRaw_spec (c : env) (d : dict) (k : Z) :
  dict_inv d -> allocates c -> used (ht0 d) + used (ht1 d) < 2 ^ 59 ->
  exists d' en ex,
    dictAddRaw c d k = Ok (d', en, ex)
    /\ dict_inv d' /\ type d' = type d /\ iterators d' = iterators d
    /\ (iterators d <> 0 \/ rehashidx d = -1 -> cursor_kept d d')
    /\ ((en = None /\ same_content d d'
         /\ ((ex = None /\ 2 ^ 62 <= used (ht0 d) + used (ht1 d))
             \/ exists r, ex = Some r /\ ref_valid d' r))
        \/ (exists r d1,
              en = Some r /\ ex = None /\ ref_valid d' r
              /\ same_content d d1 /\ no_match d1 k (dictHashKey d k)
              /\ dictEntries d' ≡ₚ new_entry d k :: dictEntries d
              /\ (dict_placed d ->
                  dictHashKey d (dictSetKeyOf d k) = dictHashKey d k ->
                  dict_placed d'))).
Proof.
  intros Hinv [Hmem Hmem'] Hroom. unfold dictAddRaw.
  destruct (rehash_step_if d Hinv) as (d1 & Hstep & Hsc1 & Hit1 & Hidle1).
  rewrite Hstep. cbn [bind].
  pose proof Hsc1 as (Hinv1 & Hty1 & Hits1 & Hperm1 & Hpl1).
  pose proof (same_content_count _ _ Hinv Hsc1) as Hcnt1.
  assert (Hfew1 : used (ht0 d1) < 2 ^ 59).
  { destruct Hinv1 as (_ & H1 & _). apply ht_inv_used_nonneg in H1. lia. }
  destruct (_dictKeyIndex_spec c d1 k (dictHashKey d1 k) Hinv1 Hmem Hfew1)
    as (d2 & idx & ex & Hki & Hsc2 & Hck2 & Hsame2 & Hcases).
  rewrite Hki. cbn [bind].
  pose proof Hsc2 as (Hinv2 & Hty2 & Hits2 & Hperm2 & Hpl2).
  pose proof (same_content_trans _ _ _ Hsc1 Hsc2) as Hsc.
  pose proof (same_content_count _ _ Hinv1 Hsc2) as Hcnt2.
  assert (Hck : iterators d <> 0 \/ rehashidx d = -1 -> cursor_kept d d2).
  { intros [H|H]; [rewrite <- (Hit1 H) | rewrite <- (Hidle1 H)]; exact Hck2. }
  destruct Hcases as [(-> & -> & Hbig)|[(-> & r & -> & Hrv)|(-> & Hnm & tb & b & Ht & Hb & Hidx)]].
  - simpl. exists d2, None, None. split; [reflexivity|].
    split; [exact Hinv2|]. split; [congruence|]. split; [congruence|].
    split; [exact Hck|]. left. split; [reflexivity|]. split; [exact Hsc|].
    left. split; [reflexivity|].
    destruct Hinv1 as (_ & H1 & _). apply ht_inv_used_nonneg in H1. lia.
  - simpl. exists d2, None, (Some r). split; [reflexivity|].
    split; [exact Hinv2|]. split; [congruence|]. split; [congruence|].
    split; [exact Hck|]. left. split; [reflexivity|]. split; [exact Hsc|].
    right. eauto.
  - pose proof (lookupZ_lt _ _ _ Hb) as Hi.
    destruct (Z.eqb_spec idx (-1)) as [?|_]; [lia|].
    fold (target_table d2). set (t := target_table d2) in *.
    unfold zmalloc_entry. rewrite Hmem'. cbn [bind].
    unfold the_table. rewrite Ht. cbn [bind]. rewrite Hb. cbn [bind].
    set (entry := {| key := dictSetKeyOf d2 k; val := 0 |}).
    assert (Hentry : entry = new_entry d k).
    { unfold entry, new_entry, dictSetKeyOf. rewrite Hty2, Hty1. reflexivity. }
    assert (Hu0 : 0 <= used (ht0 d2))
      by (destruct Hinv2 as (H & _); apply ht_inv_used_nonneg in H; exact H).
    assert (Hu1 : 0 <= used (ht1 d2))
      by (destruct Hinv2 as (_ & H & _); apply ht_inv_used_nonneg in H; exact H).
    assert (Hut : 0 <= used (ht d2 t) < 2 ^ 64 - 1) by (destruct t; simpl; lia).
    change (set_used (set_table (ht d2 t) (insertZ idx (entry :: b) tb))
              (wrap64 (used (set_table (ht d2 t) (insertZ idx (entry :: b) tb)) + 1)))
      with (update_bucket (ht d2 t) tb idx (entry :: b)
              (wrap64 (used (ht d2 t) + 1))).
    rewrite wrap64_small by lia.
    replace (used (ht d2 t) + 1)
      with (used (ht d2 t) - Z.of_nat (length b) + Z.of_nat (length (entry :: b)))
      by (simpl length; lia).
    set (d' := set_ht d2 t _).
    assert (Hinv' : dict_inv d').
    { apply update_bucket_inv; try assumption.
      - intros Ht0 Hne. exfalso. unfold t, target_table in Ht0.
        apply dictIsRehashing_true in Hne. rewrite Hne in Ht0. discriminate.
      - simpl length. lia. }
    destruct (set_ht_fields d2 t
                (update_bucket (ht d2 t) tb idx (entry :: b)
                   (used (ht d2 t) - Z.of_nat (length b)
                    + Z.of_nat (length (entry :: b)))))
      as (Hty' & Hits' & Hri').
    fold d' in Hty', Hits', Hri'.
    eexists d', _, None. split; [reflexivity|].
    split; [exact Hinv'|]. split; [congruence|]. split; [congruence|].
    split; [intros H; eapply cursor_kept_eq; [apply Hck; exact H | exact Hri']|].
    right. eexists _, d2. split; [reflexivity|]. split; [reflexivity|].
    split.
    { exists (insertZ idx (entry :: b) tb), (entry :: b), entry. simpl.
      unfold d'. rewrite ht_set_ht. simpl.
      split; [reflexivity|]. split; [apply lookupZ_insertZ_eq; lia | reflexivity]. }
    split; [exact Hsc|].
    split.
    { rewrite <- (dictHashKey_ext d d1 k Hty1). 
      intros t' tb' he e Hs Ht' Hl Hin.
      exact (Hnm t' tb' he e Hs Ht' Hl Hin). }
    split.
    { destruct (update_bucket_entries d2 t tb idx b (entry :: b)
                  (used (ht d2 t) - Z.of_nat (length b)
                   + Z.of_nat (length (entry :: b))) Ht Hb) as (R & H1 & H2).
      fold d' in H2. rewrite H2. simpl. rewrite Hentry.
      apply perm_skip. rewrite <- H1. 
      destruct Hsc as (_ & _ & _ & Hp & _). exact Hp. }
    intros Hp Hh. unfold d'. apply update_bucket_placed; try assumption.
    + intros e He. apply elem_of_cons in He as [->|He].
      * rewrite Hentry. unfold new_entry. simpl.
        rewrite (dictHashKey_ext d d2) by congruence. rewrite Hh.
        rewrite Hidx. rewrite (dictHashKey_ext d d1) by congruence.
        reflexivity.
      * destruct (Hpl2 (Hpl1 Hp)) as [H0 H1].
        assert (Hpt : ht_placed d2 (ht d2 t)) by (destruct t; assumption).
        apply (Hpt idx b e); [|exact He]. unfold tbl. rewrite Ht. exact Hb.
    + apply Hpl2, Hpl1, Hp.
Qed.

(** *** [dictAdd] and [dictReplace] *)

Lemma dictAdd_spec (c : env) (d : dict) (k v : Z) :
  dict_inv d -> allocates c -> used (ht0 d) + used (ht1 d) < 2 ^ 59 ->
  exists d' r,
    dictAdd c d k v = Ok (d', r)
    /\ dict_inv d' /\ type d' = type d /\ iterators d' = iterators d
    /\ (iterators d <> 0 \/ rehashidx d = -1 -> cursor_kept d d')
    /\ ((r = DICT_ERR /\ same_content d d')
        \/ (r = DICT_OK
            /\ (exists d1, same_content d d1 /\ no_match d1 k (dictHashKey d k))
            /\ key <$> dictEntries d'
               ≡ₚ dictSetKeyOf d k :: (key <$> dictEntries d))).
Proof.
  intros Hinv Hmem Hroom. unfold dictAdd.
  destruct (dictAddRaw_spec c d k Hinv Hmem Hroom)
    as (d1 & en & ex & Hadd & Hinv1 & Hty1 & Hit1 & Hck1 & Hcases).
  rewrite Hadd. cbn [bind].
  destruct Hcases as [(-> & Hsc & _)|(r & d0 & -> & -> & Hrv & Hsc0 & Hnm & Hperm & _)].
  - exists d1, DICT_ERR. split; [reflexivity|]. split; [exact Hinv1|].
    split; [exact Hty1|]. split; [exact Hit1|]. split; [exact Hck1|].
    left. auto.
  - destruct (dictSetVal_spec d1 r v Hinv1 Hrv)
      as (d2 & Hset & Hinv2 & Hty2 & Hit2 & Hri2 & Hkeys & _).
    rewrite Hset. cbn [bind].
    exists d2, DICT_OK. split; [reflexivity|]. split; [exact Hinv2|].
    split; [congruence|]. split; [congruence|].
    split; [intros H; eapply cursor_kept_eq; [apply Hck1; exact H | exact Hri2]|].
    right. split; [reflexivity|]. split; [eauto|].
    rewrite Hkeys, Hperm. reflexivity.
Qed.

Lemma dictReplace_spec (c : env) (d : dict) (k v : Z) :
  dict_inv d -> allocates c -> used (ht0 d) + used (ht1 d) < 2 ^ 59 ->
  exists d' r,
    dictReplace c d k v = Ok (d', r)
    /\ dict_inv d' /\ type d' = type d /\ iterators d' = iterators d
    /\ (iterators d <> 0 \/ rehashidx d = -1 -> cursor_kept d d')
    /\ ((r = 0 /\ key <$> dictEntries d' ≡ₚ key <$> dictEntries d)
        \/ (r = 1
            /\ key <$> dictEntries d'
               ≡ₚ dictSetKeyOf d k :: (key <$> dictEntries d))).
Proof.
  intros Hinv Hmem Hroom. unfold dictReplace.
  destruct (dictAddRaw_spec c d k Hinv Hmem Hroom)
    as (d1 & en & ex & Hadd & Hinv1 & Hty1 & Hit1 & Hck1 & Hcases).
  rewrite Hadd. cbn [bind].
  destruct Hcases
    as [(-> & Hsc & [[_ Hbig]|(r & -> & Hrv)])
       |(r & d0 & -> & -> & Hrv & Hsc0 & Hnm & Hperm & _)]; [lia| |].
  - destruct (dictSetVal_spec d1 r v Hinv1 Hrv)
      as (d2 & Hset & Hinv2 & Hty2 & Hit2 & Hri2 & Hkeys & _).
    rewrite Hset. cbn [bind].
    exists d2, 0. split; [reflexivity|]. split; [exact Hinv2|].
    split; [congruence|]. split; [congruence|].
    split; [intros H; eapply cursor_kept_eq; [apply Hck1; exact H | exact Hri2]|].
    left. split; [reflexivity|]. rewrite Hkeys.
    destruct Hsc as (_ & _ & _ & Hp & _). rewrite Hp. reflexivity.
  - destruct (dictSetVal_spec d1 r v Hinv1 Hrv)
      as (d2 & Hset & Hinv2 & Hty2 & Hit2 & Hri2 & Hkeys & _).
    rewrite Hset. cbn [bind].
    exists d2, 1. split; [reflexivity|]. split; [exact Hinv2|].
    split; [congruence|]. split; [congruence|].
    split; [intros H; eapply cursor_kept_eq; [apply Hck1; exact H | exact Hri2]|].
    right. split; [reflexivity|]. rewrite Hkeys, Hperm. reflexivity.
Qed.

(** *** [dictGenericDelete] and [dictFind] *)

Lemma dict_inv_table0 (d : dict) :
  dict_inv d -> used (ht0 d) + used (ht1 d) <> 0 -> table (ht0 d) <> None.
Proof.
  intros (Hi0 & Hi1 & _ & Hidle & Hre) Hne Hnone.
  unfold ht_inv in Hi0. rewrite Hnone in Hi0. destruct Hi0 as (_ & _ & Hu0).
  destruct (Z.eq_dec (rehashidx d) (-1)) as [E|E].
  - rewrite (Hidle E) in Hne. simpl in Hne. lia.
  - destruct (Hre E) as (_ & H & _). contradiction.
Qed.

Lemma unlink_in_spec (d : dict) (t : nat) (h k : Z) :
  dict_inv d -> table (ht d t) <> None ->
  exists r,
    unlink_in d t h k = Ok r
    /\ match r with
       | None =>
           forall tb he e, table (ht d t) = Some tb ->
             lookupZ tb (Z.land h (sizemask (ht d t))) = Ok he ->
             e ∈ he -> key_matches d k e = false
       | Some (d', e) =>
           dict_inv d' /\ type d' = type d /\ iterators d' = iterators d
           /\ rehashidx d' = rehashidx d
           /\ key_matches d k e = true
           /\ dictEntries d ≡ₚ e :: dictEntries d'
           /\ (dict_placed d -> dict_placed d')
       end.
Proof.
  intros Hinv Hn. unfold unlink_in.
  destruct (chain_at_spec d t h Hinv Hn) as (tb & idx & he & Hc & Ht & Hi & Hl).
  rewrite Hc. cbn [bind].
  destruct (chain_unlink d k he) as [[e rest]|] eqn:Hu.
  - destruct (chain_unlink_Some _ _ _ _ _ Hu) as (Hperm & Hm & Hlen & Hsub).
    unfold the_table. rewrite Ht. cbn [bind].
    pose proof (chain_count_bucket _ _ _ Hl) as Hcb.
    assert (Hit : ht_inv (ht d t))
      by (destruct Hinv as (H0 & H1 & _); destruct t; assumption).
    destruct (ht_inv_table _ _ Hit Ht) as (_ & _ & _ & Hused).
    pose proof Hinv as (_ & _ & Hsum & _).
    assert (Hu0 : 0 <= used (ht0 d))
      by (destruct Hinv as (H & _); apply ht_inv_used_nonneg in H; exact H).
    assert (Hu1 : 0 <= used (ht1 d))
      by (destruct Hinv as (_ & H & _); apply ht_inv_used_nonneg in H; exact H).
    assert (Hut : used (ht d t) < 2 ^ 64) by (destruct t; simpl; lia).
    change (set_used (set_table (ht d t) (insertZ idx rest tb))
              (wrap64 (used (set_table (ht d t) (insertZ idx rest tb)) - 1)))
      with (update_bucket (ht d t) tb idx rest (wrap64 (used (ht d t) - 1))).
    rewrite wrap64_small by lia.
    replace (used (ht d t) - 1)
      with (used (ht d t) - Z.of_nat (length he) + Z.of_nat (length rest)) by lia.
    destruct (set_ht_fields d t
                (update_bucket (ht d t) tb idx rest
                   (used (ht d t) - Z.of_nat (length he)
                    + Z.of_nat (length rest))))
      as (Hty' & Hits' & Hri').
    eexists. split; [reflexivity|]. simpl.
    split.
    { apply update_bucket_inv; try assumption; [|lia].
      intros _ _ ->. discriminate. }
    split; [exact Hty'|]. split; [exact Hits'|]. split; [exact Hri'|].
    split; [exact Hm|]. split.
    + destruct (update_bucket_entries d t tb idx he rest
                  (used (ht d t) - Z.of_nat (length he)
                   + Z.of_nat (length rest)) Ht Hl) as (R & H1 & H2).
      rewrite H1, H2, Hperm. reflexivity.
    + intros Hp. pose proof (lookupZ_lt _ _ _ Hl).
      apply update_bucket_placed; try assumption.
      intros x Hx.
      assert (Hpt : ht_placed d (ht d t))
        by (destruct Hp; destruct t; assumption).
      apply (Hpt idx he x); [unfold tbl; rewrite Ht; exact Hl|].
      apply Hsub. exact Hx.
  - eexists. split; [reflexivity|]. simpl.
    intros tb' he' e Ht' Hl' Hin.
    rewrite Ht in Ht'. injection Ht' as <-.
    rewrite <- Hi, Hl in Hl'. injection Hl' as <-.
    apply chain_unlink_None in Hu.
    exact (proj1 (chain_index_None d k he) Hu e Hin).
Qed.

Lemma dictGenericDelete_spec (d : dict) (k : Z) (nofree : bool) :
  dict_inv d ->
  exists d' he,
    dictGenericDelete d k nofree = Ok (d', he)
    /\ dict_inv d' /\ type d' = type d /\ iterators d' = iterators d
    /\ (iterators d <> 0 \/ rehashidx d = -1 -> rehashidx d' = rehashidx d)
    /\ match he with
       | None => same_content d d'
       | Some e =>
           key_matches d k e = true
           /\ dictEntries d ≡ₚ e :: dictEntries d'
       end.
Proof.
  intros Hinv. unfold dictGenericDelete.
  pose proof Hinv as (Hi0 & Hi1 & _).
  pose proof (ht_inv_used_nonneg _ Hi0) as Hu0.
  pose proof (ht_inv_used_nonneg _ Hi1) as Hu1.
  destruct ((used (ht0 d) =? 0) && (used (ht1 d) =? 0)) eqn:Hempty.
  { exists d, None. split; [reflexivity|]. split; [exact Hinv|].
    split; [reflexivity|]. split; [reflexivity|]. split; [reflexivity|].
    apply same_content_refl. exact Hinv. }
  assert (Hne : used (ht0 d) + used (ht1 d) <> 0).
  { apply andb_false_iff in Hempty as [H|H]; apply Z.eqb_neq in H; lia. }
  destruct (rehash_step_if d Hinv) as (d1 & Hstep & Hsc1 & Hit1 & Hidle1).
  rewrite Hstep. cbn [bind].
  pose proof Hsc1 as (Hinv1 & Hty1 & Hits1 & Hperm1 & Hpl1).
  pose proof (same_content_count _ _ Hinv Hsc1) as Hcnt1.
  assert (Hck : iterators d <> 0 \/ rehashidx d = -1 -> rehashidx d1 = rehashidx d).
  { intros [H|H]; [rewrite (Hit1 H) | rewrite (Hidle1 H)]; reflexivity. }
  destruct (unlink_in_spec d1 0 (dictHashKey d1 k) k Hinv1
              (dict_inv_table0 d1 Hinv1 ltac:(lia))) as (r0 & Hr0 & Hs0).
  rewrite Hr0. cbn [bind].
  destruct r0 as [[d2 e]|].
  { destruct Hs0 as (Hinv2 & Hty2 & Hits2 & Hri2 & Hm & Hperm2 & _).
    exists d2, (Some e). split; [reflexivity|]. split; [exact Hinv2|].
    split; [congruence|]. split; [congruence|].
    split; [intros H; rewrite Hri2; apply Hck; exact H|].
    split; [rewrite <- (key_matches_ext d d1 k e Hty1); exact Hm|].
    rewrite <- Hperm1, Hperm2. reflexivity. }
  destruct (dictIsRehashing d1) eqn:Hre; cbn [negb].
  2:{ exists d1, None. split; [reflexivity|]. split; [exact Hinv1|].
      split; [exact Hty1|]. split; [exact Hits1|]. split; [exact Hck|].
      exact Hsc1. }
  apply dictIsRehashing_true in Hre.
  assert (Hn1 : table (ht d1 1) <> None).
  { destruct Hinv1 as (_ & _ & _ & _ & H). destruct (H Hre) as (_ & _ & ? & _).
    assumption. }
  destruct (unlink_in_spec d1 1 (dictHashKey d1 k) k Hinv1 Hn1) as (r1 & Hr1 & Hs1).
  rewrite Hr1. cbn [bind].
  destruct r1 as [[d2 e]|].
  { destruct Hs1 as (Hinv2 & Hty2 & Hits2 & Hri2 & Hm & Hperm2 & _).
    exists d2, (Some e). split; [reflexivity|]. split; [exact Hinv2|].
    split; [congruence|]. split; [congruence|].
    split; [intros H; rewrite Hri2; apply Hck; exact H|].
    split; [rewrite <- (key_matches_ext d d1 k e Hty1); exact Hm|].
    rewrite <- Hperm1, Hperm2. reflexivity. }
  exists d1, None. split; [reflexivity|]. split; [exact Hinv1|].
  split; [exact Hty1|]. split; [exact Hits1|]. split; [exact Hck|].
  exact Hsc1.
Qed.

Lemma dictDelete_spec (d : dict) (k : Z) :
  dict_inv d ->
  exists d' r,
    dictDelete d k = Ok (d', r)
    /\ dict_inv d' /\ type d' = type d /\ iterators d' = iterators d
    /\ (iterators d <> 0 \/ rehashidx d = -1 -> rehashidx d' = rehashidx d)
    /\ ((r = DICT_ERR /\ same_content d d')
        \/ (r = DICT_OK
            /\ exists e, key_matches d k e = true
                         /\ dictEntries d ≡ₚ e :: dictEntries d')).
Proof.
  intros Hinv. unfold dictDelete.
  destruct (dictGenericDelete_spec d k false Hinv)
    as (d' & he & Hdel & Hinv' & Hty & Hit & Hck & Hcase).
  rewrite Hdel. cbn [bind].
  exists d'. eexists. split; [reflexivity|].
  split; [exact Hinv'|]. split; [exact Hty|]. split; [exact Hit|].
  split; [exact Hck|].
  destruct he as [e|]; [right | left]; split; try reflexivity; eauto.
Qed.

Lemma dictFind_spec (d : dict) (k : Z) :
  dict_inv d ->
  exists d' r,
    dictFind d k = Ok (d', r)
    /\ same_content d d'
    /\ (iterators d <> 0 \/ rehashidx d = -1 -> d' = d)
    /\ (forall e, r = Some e -> e ∈ dictEntries d' /\ key_matches d k e = true).
Proof.
  intros Hinv. unfold dictFind.
  pose proof Hinv as (Hi0 & Hi1 & Hsum & _).
  pose proof (ht_inv_used_nonneg _ Hi0) as Hu0.
  pose proof (ht_inv_used_nonneg _ Hi1) as Hu1.
  rewrite wrap64_small by lia.
  destruct (Z.eqb_spec (used (ht0 d) + used (ht1 d)) 0) as [Hz|Hne].
  { exists d, None. split; [reflexivity|].
    split; [apply same_content_refl; exact Hinv|]. split; [auto|]. discriminate. }
  destruct (rehash_step_if d Hinv) as (d1 & Hstep & Hsc1 & Hit1 & Hidle1).
  rewrite Hstep. cbn [bind].
  pose proof Hsc1 as (Hinv1 & Hty1 & Hits1 & Hperm1 & Hpl1).
  pose proof (same_content_count _ _ Hinv Hsc1) as Hcnt1.
  assert (Hsame : iterators d <> 0 \/ rehashidx d = -1 -> d1 = d)
    by (intros [H|H]; auto).
  assert (Hin : forall t tb i he e,
            table (ht d1 t) = Some tb -> lookupZ tb i = Ok he -> e ∈ he ->
            e ∈ dictEntries d1).
  { intros t tb i he e Ht Hl He. unfold dictEntries.
    apply elem_of_app. destruct t as [|t]; [left | right];
      unfold ht_entries, tbl; simpl in Ht; rewrite Ht; simpl;
      rewrite (concat_bucket _ _ _ Hl); apply elem_of_app; left; exact He. }
  destruct (chain_at_spec d1 0 (dictHashKey d1 k) Hinv1
              (dict_inv_table0 d1 Hinv1 ltac:(lia)))
    as (tb0 & idx0 & he0 & Hc0 & Ht0 & Hi0' & Hl0).
  rewrite Hc0. cbn [bind].
  destruct (chain_find d1 k he0) as [e|] eqn:Hf0.
  { exists d1, (Some e). split; [reflexivity|]. split; [exact Hsc1|].
    split; [exact Hsame|]. intros e' [= <-].
    destruct (chain_find_Some _ _ _ _ Hf0) as [He Hm].
    split; [eapply Hin; eauto|].
    rewrite <- (key_matches_ext d d1 k e Hty1). exact Hm. }
  destruct (dictIsRehashing d1) eqn:Hre; cbn [negb].
  2:{ exists d1, None. split; [reflexivity|]. split; [exact Hsc1|].
      split; [exact Hsame|]. discriminate. }
  apply dictIsRehashing_true in Hre.
  assert (Hn1 : table (ht d1 1) <> None).
  { destruct Hinv1 as (_ & _ & _ & _ & H). destruct (H Hre) as (_ & _ & ? & _).
    assumption. }
  destruct (chain_at_spec d1 1 (dictHashKey d1 k) Hinv1 Hn1)
    as (tb1 & idx1 & he1 & Hc1 & Ht1 & Hi1' & Hl1).
  rewrite Hc1. cbn [bind].
  exists d1, (chain_find d1 k he1). split; [reflexivity|]. split; [exact Hsc1|].
  split; [exact Hsame|]. intros e Hf1.
  destruct (chain_find_Some _ _ _ _ Hf1) as [He Hm].
  split; [eapply Hin; eauto|].
  rewrite <- (key_matches_ext d d1 k e Hty1). exact Hm.
Qed.

(** *** Sequences of operations *)

(** The calls a client makes on one dictionary.  [dict_can_resize] is
    the flag set by [dictEnableResize] and [dictDisableResize]. *)
Inductive op : Type :=
| OpExpand (size : Z)
| OpResize
| OpAdd (k v : Z)
| OpReplace (k v : Z)
| OpDelete (k : Z)
| OpUnlink (k : Z)
| OpFind (k : Z)
| OpRehash (n : Z)
| OpEnableResize
| OpDisableResize.

Record world : Type := { dict_can_resize : bool; the_dict : dict }.

(** One call, with the answers [a] of the allocator during it. *)
Definition step (w : world) (a : alloc) (o : op) : res world :=
  let flag := dict_can_resize w in
  let c := {| can_resize := flag; mem := a |} in
  let d := the_dict w in
  match o with
  | OpExpand size =>
      do '(d, _) <- dictExpand c d size;
      Ok {| dict_can_resize := flag; the_dict := d |}
  | OpResize =>
      do '(d, _) <- dictResize c d;
      Ok {| dict_can_resize := flag; the_dict := d |}
  | OpAdd k v =>
      do '(d, _) <- dictAdd c d k v;
      Ok {| dict_can_resize := flag; the_dict := d |}
  | OpReplace k v =>
      do '(d, _) <- dictReplace c d k v;
      Ok {| dict_can_resize := flag; the_dict := d |}
  | OpDelete k =>
      do '(d, _) <- dictDelete d k;
      Ok {| dict_can_resize := flag; the_dict := d |}
  | OpUnlink k =>
      do '(d, _) <- dictUnlink d k;
      Ok {| dict_can_resize := flag; the_dict := d |}
  | OpFind k =>
      do '(d, _) <- dictFind d k;
      Ok {| dict_can_resize := flag; the_dict := d |}
  | OpRehash n =>
      do '(d, _) <- dictRehash d n;
      Ok {| dict_can_resize := flag; the_dict := d |}
  | OpEnableResize => Ok {| dict_can_resize := true; the_dict := d |}
  | OpDisableResize => Ok {| dict_can_resize := false; the_dict := d |}
  end.

(** A sequence of calls, each with the answers of the allocator. *)
Fixpoint run (w : world) (ops : list (op * alloc)) : res world :=
  match ops with
  | [] => Ok w
  | (o, a) :: ops => do w <- step w a o; run w ops
  end.

(** A process starts with [dict_can_resize = 1]; [dictCreate] gives the
    dictionary. *)
Definition start (ty : dictType) : world :=
  {| dict_can_resize := true; the_dict := dictCreate ty |}.

Definition dict_count (d : dict) : Z := Z.of_nat (length (dictEntries d)).

Lemma dictCreate_inv (ty : dictType) : dict_inv (dictCreate ty).
Proof.
  unfold dict_inv, dictCreate. simpl.
  split; [exact _dictReset_inv|]. split; [exact _dictReset_inv|].
  split; [lia|]. split; [reflexivity|]. intros H. contradiction.
Qed.

Lemma same_content_dict_count (d d' : dict) :
  same_content d d' -> dict_count d' = dict_count d.
Proof.
  intros (_ & _ & _ & Hp & _). unfold dict_count.
  rewrite (Permutation_length Hp). reflexivity.
Qed.

Lemma keys_perm_count (d d' : dict) (k : Z) :
  key <$> dictEntries d' ≡ₚ k :: (key <$> dictEntries d) ->
  dict_count d' = dict_count d + 1.
Proof.
  intros H. apply Permutation_length in H. simpl in H.
  rewrite !length_fmap in H. unfold dict_count. lia.
Qed.

Lemma keys_perm_count_same (d d' : dict) :
  key <$> dictEntries d' ≡ₚ key <$> dictEntries d ->
  dict_count d' = dict_count d.
Proof.
  intros H. apply Permutation_length in H.
  rewrite !length_fmap in H. unfold dict_count. lia.
Qed.

Lemma dictResize_inv (c : env) (d : dict) :
  dict_inv d -> zcalloc_ok (mem c) = true ->
  exists d' r, dictResize c d = Ok (d', r) /\ same_content d d'.
Proof.
  intros Hinv Hmem. unfold dictResize.
  destruct (negb (can_resize c) || dictIsRehashing d).
  - exists d, DICT_ERR. split; [reflexivity | apply same_content_refl; exact Hinv].
  - match goal with |- context [dictExpand c d ?s] =>
      destruct (dictExpand_inv c d s Hinv Hmem) as (d' & r & Hx & Hsc & _) end.
    { pose proof (wrap_int_range (used (ht0 d))) as Hr. unfold INT_MAX in Hr.
      unfold DICT_HT_INITIAL_SIZE.
      destruct (Z.ltb_spec (wrap_int (used (ht0 d))) 4);
        rewrite wrap64_small; lia. }
    exists d', r. auto.
Qed.

Ltac finish_same Hsc :=
  rewrite (same_content_dict_count _ _ Hsc);
  destruct Hsc as (? & ? & _);
  split; [assumption|]; split; [lia | assumption].

(** A request [dictExpand] serves with an array of the size it records:
    at most [2^60] buckets. *)
Definition modest (o : op) : Prop :=
  match o with
  | OpExpand size => size <= 2 ^ 60
  | _ => True
  end.

(** One call whose requests are served keeps the invariant and adds at
    most one entry. *)
Lemma step_inv (w : world) (o : op) :
  dict_inv (the_dict w) -> dict_count (the_dict w) < 2 ^ 59 -> modest o ->
  exists w',
    step w plenty o = Ok w'
    /\ dict_inv (the_dict w')
    /\ dict_count (the_dict w') <= dict_count (the_dict w) + 1
    /\ type (the_dict w') = type (the_dict w).
Proof.
  intros Hinv Hcnt Hmod. destruct w as [flag d]. simpl in *.
  set (c := {| can_resize := flag; mem := plenty |}).
  assert (Hmem : allocates c) by (split; reflexivity).
  pose proof (dict_inv_count d Hinv) as Hused. fold (dict_count d) in Hused.
  destruct o as [size| |k v|k v|k|k|k|n| |];
    unfold step; cbn [dict_can_resize the_dict]; fold c.
  - destruct (dictExpand_inv c d size Hinv (proj1 Hmem) Hmod)
      as (d' & r & Hx & Hsc & _).
    rewrite Hx. simpl. eexists. split; [reflexivity|]. simpl.
    finish_same Hsc.
  - destruct (dictResize_inv c d Hinv (proj1 Hmem)) as (d' & r & Hx & Hsc).
    rewrite Hx. simpl. eexists. split; [reflexivity|]. simpl.
    finish_same Hsc.
  - destruct (dictAdd_spec c d k v Hinv Hmem ltac:(lia))
      as (d' & r & Hx & Hinv' & Hty & _ & _ & Hcase).
    rewrite Hx. simpl. eexists. split; [reflexivity|]. simpl.
    split; [exact Hinv'|]. split; [|exact Hty].
    destruct Hcase as [[_ Hsc]|(_ & _ & Hk)].
    + rewrite (same_content_dict_count _ _ Hsc). lia.
    + rewrite (keys_perm_count _ _ _ Hk). lia.
  - destruct (dictReplace_spec c d k v Hinv Hmem ltac:(lia))
      as (d' & r & Hx & Hinv' & Hty & _ & _ & Hcase).
    rewrite Hx. simpl. eexists. split; [reflexivity|]. simpl.
    split; [exact Hinv'|]. split; [|exact Hty].
    destruct Hcase as [[_ Hk]|[_ Hk]].
    + rewrite (keys_perm_count_same _ _ Hk). lia.
    + rewrite (keys_perm_count _ _ _ Hk). lia.
  - destruct (dictDelete_spec d k Hinv)
      as (d' & r & Hx & Hinv' & Hty & _ & _ & Hcase).
    rewrite Hx. simpl. eexists. split; [reflexivity|]. simpl.
    split; [exact Hinv'|]. split; [|exact Hty].
    destruct Hcase as [[_ Hsc]|(_ & e & _ & Hp)].
    + rewrite (same_content_dict_count _ _ Hsc). lia.
    + unfold dict_count. rewrite (Permutation_length Hp). simpl. lia.
  - unfold dictUnlink.
    destruct (dictGenericDelete_spec d k true Hinv)
      as (d' & he & Hx & Hinv' & Hty & _ & _ & Hcase).
    rewrite Hx. simpl. eexists. split; [reflexivity|]. simpl.
    split; [exact Hinv'|]. split; [|exact Hty].
    destruct he as [e|].
    + destruct Hcase as [_ Hp]. unfold dict_count.
      rewrite (Permutation_length Hp). simpl. lia.
    + rewrite (same_content_dict_count _ _ Hcase). lia.
  - destruct (dictFind_spec d k Hinv) as (d' & r & Hx & Hsc & _).
    rewrite Hx. simpl. eexists. split; [reflexivity|]. simpl.
    finish_same Hsc.
  - unfold dictRehash.
    destruct (dictRehash_report_spec d n Hinv) as (r & Hx & Hsc & _).
    rewrite Hx. simpl. eexists. split; [reflexivity|]. simpl.
    finish_same Hsc.
  - eexists. split; [reflexivity|]. simpl.
    split; [exact Hinv|]. split; [lia | reflexivity].
  - eexists. split; [reflexivity|]. simpl.
    split; [exact Hinv|]. split; [lia | reflexivity].
Qed.

(** The calls of a sequence, and the sequence in which every request is
    served. *)
Definition calls (ops : list (op * alloc)) : list op := fst <$> ops.
Definition served (ops : list (op * alloc)) : list (op * alloc) :=
  (fun oa => (fst oa, plenty)) <$> ops.
Definition all_served (ops : list (op * alloc)) : Prop :=
  Forall (fun oa => snd oa = plenty) ops.

Lemma served_all_served (ops : list (op * alloc)) : all_served ops -> served ops = ops.
Proof.
  unfold all_served, served. induction ops as [|[o a] ops IH]; [reflexivity|].
  intros H. apply Forall_cons in H as [Ha H]. simpl in Ha. subst a.
  rewrite fmap_cons. f_equal. apply IH. exact H.
Qed.


(** *** Calls that run out of memory *)

(** The same call with every request served. *)
Definition plentiful (c : env) : env :=
  {| can_resize := can_resize c; mem := plenty |}.

(** A call either is aborted for lack of memory, or goes as it does with
    every request served. *)
Definition aborts_or_served {A : Type} (f : env -> res A) (c : env) : Prop :=
  f c = Err OutOfMemory \/ f c = f (plentiful c).

Lemma dictExpand_served (c : env) (d : dict) (size : Z) :
  aborts_or_served (fun c => dictExpand c d size) c.
Proof.
  unfold aborts_or_served, dictExpand, zcalloc_table, plentiful. simpl.
  destruct (zcalloc_ok (mem c)); [right; reflexivity|].
  destruct (dictIsRehashing d || (used (ht0 d) >? size)); [right; reflexivity|].
  destruct (_dictNextPower size) as [r|]; [|right; reflexivity]. cbn [bind].
  destruct (r =? Dict.size (ht0 d)); [right | left]; reflexivity.
Qed.

Lemma dictResize_served (c : env) (d : dict) :
  aborts_or_served (fun c => dictResize c d) c.
Proof.
  unfold aborts_or_served, dictResize.
  change (can_resize (plentiful c)) with (can_resize c).
  destruct (negb (can_resize c) || dictIsRehashing d); [right; reflexivity|].
  apply dictExpand_served.
Qed.

Lemma _dictExpandIfNeeded_served (c : env) (d : dict) :
  aborts_or_served (fun c => _dictExpandIfNeeded c d) c.
Proof.
  unfold aborts_or_served, _dictExpandIfNeeded.
  change (can_resize (plentiful c)) with (can_resize c).
  destruct (dictIsRehashing d); [right; reflexivity|].
  destruct (Dict.size (ht0 d) =? 0); [apply dictExpand_served|].
  destruct ((used (ht0 d) >=? Dict.size (ht0 d)) && _);
    [apply dictExpand_served | right; reflexivity].
Qed.

Lemma _dictKeyIndex_served (c : env) (d : dict) (k h : Z) :
  aborts_or_served (fun c => _dictKeyIndex c d k h) c.
Proof.
  unfold aborts_or_served, _dictKeyIndex.
  destruct (_dictExpandIfNeeded_served c d) as [H|H]; rewrite H;
    [left | right]; reflexivity.
Qed.

Lemma dictAddRaw_served (c : env) (d : dict) (k : Z) :
  aborts_or_served (fun c => dictAddRaw c d k) c.
Proof.
  unfold aborts_or_served, dictAddRaw.
  destruct (if dictIsRehashing d then _dictRehashStep d else Ok d) as [d1|];
    [|right; reflexivity].
  cbn [bind].
  destruct (_dictKeyIndex_served c d1 k (dictHashKey d1 k)) as [H|H]; rewrite H;
    [left; reflexivity|].
  destruct (_dictKeyIndex (plentiful c) d1 k (dictHashKey d1 k))
    as [[[d2 idx] ex]|]; [|right; reflexivity].
  cbn [bind]. destruct (idx =? -1); [right; reflexivity|].
  unfold zmalloc_entry. simpl.
  destruct (zmalloc_ok (mem c)); [right | left]; reflexivity.
Qed.

Lemma dictAdd_served (c : env) (d : dict) (k v : Z) :
  aborts_or_served (fun c => dictAdd c d k v) c.
Proof.
  unfold aborts_or_served, dictAdd.
  destruct (dictAddRaw_served c d k) as [H|H]; rewrite H;
    [left | right]; reflexivity.
Qed.

Lemma dictReplace_served (c : env) (d : dict) (k v : Z) :
  aborts_or_served (fun c => dictReplace c d k v) c.
Proof.
  unfold aborts_or_served, dictReplace.
  destruct (dictAddRaw_served c d k) as [H|H]; rewrite H;
    [left | right]; reflexivity.
Qed.

Lemma step_served (w : world) (a : alloc) (o : op) :
  step w a o = Err OutOfMemory \/ step w a o = step w plenty o.
Proof.
  destruct w as [flag d]. unfold step. cbn [dict_can_resize the_dict].
  set (c := {| can_resize := flag; mem := a |}).
  change {| can_resize := flag; mem := plenty |} with (plentiful c).
  destruct o as [size| |k v|k v|k|k|k|n| |]; try (right; reflexivity).
  - destruct (dictExpand_served c d size) as [H|H]; rewrite H;
      [left | right]; reflexivity.
  - destruct (dictResize_served c d) as [H|H]; rewrite H;
      [left | right]; reflexivity.
  - destruct (dictAdd_served c d k v) as [H|H]; rewrite H;
      [left | right]; reflexivity.
  - destruct (dictReplace_served c d k v) as [H|H]; rewrite H;
      [left | right]; reflexivity.
Qed.

Lemma run_served (ops : list (op * alloc)) :
  forall w, run w ops = Err OutOfMemory \/ run w ops = run w (served ops).
Proof.
  induction ops as [|[o a] ops IH]; intros w; [right; reflexivity|].
  simpl. destruct (step_served w a o) as [H|H]; rewrite H; [left; reflexivity|].
  destruct (step w plenty o) as [w1|]; [|right; reflexivity].
  cbn [bind]. apply IH.
Qed.


(** The calls of the examples, with memory for every request. *)
Definition with_plenty (ops : list op) : list (op * alloc) :=
  (fun o => (o, plenty)) <$> ops.




(** *** Iterators *)

Definition wrap_long (x : Z) : Z := (x + 2 ^ 63) mod 2 ^ 64 - 2 ^ 63.

(** [dictIterator].  [entry] and [nextEntry] point into the chain of
    bucket [index] of table [itable].  The embedding has no addresses: a
    pointer into a chain is kept as the chain from the entry pointed to
    onwards, as it was when the pointer was taken, [[]] for NULL; it is
    read through the dictionary, with [follow]. *)
Record dictIterator : Type := {
  index : Z;
  itable : nat;
  safe : bool;
  entry : list dictEntry;
  nextEntry : list dictEntry;
  fingerprint : Z
}.

(** One round of the mixing in [dictFingerprint], on [long long]. *)
Definition fingerprint_mix (hash x : Z) : Z :=
  let hash := wrap_long (hash + x) in
  let hash := wrap_long (Z.lnot hash + wrap_long (Z.shiftl hash 21)) in
  let hash := Z.lxor hash (Z.shiftr hash 24) in
  let hash := wrap_long (wrap_long (hash + wrap_long (Z.shiftl hash 3))
                         + wrap_long (Z.shiftl hash 8)) in
  let hash := Z.lxor hash (Z.shiftr hash 14) in
  let hash := wrap_long (wrap_long (hash + wrap_long (Z.shiftl hash 2))
                         + wrap_long (Z.shiftl hash 4)) in
  let hash := Z.lxor hash (Z.shiftr hash 28) in
  wrap_long (hash + wrap_long (Z.shiftl hash 31)).

(** [dictFingerprint].  The addresses of the two arrays are not part of
    the embedding; [addr] gives them. *)
Definition dictFingerprint (addr : dictht -> Z) (d : dict) : Z :=
  fold_left fingerprint_mix
    [wrap_long (addr (ht0 d)); wrap_long (size (ht0 d)); wrap_long (used (ht0 d));
     wrap_long (addr (ht1 d)); wrap_long (size (ht1 d)); wrap_long (used (ht1 d))]
    0.

(** [dictGetIterator] and [dictGetSafeIterator]: the iterator of a call
    that returned ([zmalloc] of the iterator aborts the process
    otherwise); the dictionary is returned to show that it is not written
    to. *)
Definition dictGetIterator (d : dict) : dict * dictIterator :=
  (d, {| index := -1; itable := 0; safe := false;
         entry := []; nextEntry := []; fingerprint := 0 |}).

Definition dictGetSafeIterator (d : dict) : dict * dictIterator :=
  let '(d, i) := dictGetIterator d in
  (d, {| index := index i; itable := itable i; safe := true;
         entry := entry i; nextEntry := nextEntry i;
         fingerprint := fingerprint i |}).

Definition set_position (it : dictIterator) (t : nat) (i : Z)
    (e : list dictEntry) : dictIterator :=
  {| index := i; itable := t; safe := safe it;
     entry := e; nextEntry := nextEntry it; fingerprint := fingerprint it |}.

(** The first half of the body of the [while (1)] of [dictNext]: the
    iterator is moved; [true] stands for [break]. *)
Definition dictNext_advance (addr : dictht -> Z) (d : dict) (it : dictIterator)
    : res (dict * dictIterator * bool) :=
  match entry it with
  | _ :: _ => Ok (d, set_position it (itable it) (index it) (nextEntry it), false)
  | [] =>
      let t := itable it in
      let first := (index it =? -1) && Nat.eqb t 0 in
      let d := if first && safe it
               then set_iterators d (wrap64 (iterators d + 1)) else d in
      let it := if first && negb (safe it)
                then {| index := index it; itable := t; safe := safe it;
                        entry := entry it; nextEntry := nextEntry it;
                        fingerprint := dictFingerprint addr d |}
                else it in
      let i := index it + 1 in
      if i >=? wrap_long (size (ht d t)) then
        if dictIsRehashing d && Nat.eqb t 0 then
          do tb <- the_table (ht1 d);
          do b <- lookupZ tb 0;
          Ok (d, set_position it 1 0 b, false)
        else Ok (d, set_position it t i [], true)
      else
        do tb <- the_table (ht d t);
        do b <- lookupZ tb i;
        Ok (d, set_position it t i b, false)
  end.

(** The chain [he] from its first entry with key [k] onwards. *)
Fixpoint chain_from (k : Z) (he : list dictEntry) : list dictEntry :=
  match he with
  | [] => []
  | e :: next => if key e =? k then he else chain_from k next
  end.

(** What the pointer [p] into a chain gives now that the chain is [b]:
    the entry with the key [p] had, at most as far from the end of the
    chain as it was ([dictAddRaw] inserts at the head), with the value and
    the successors it has now; [[]] when that entry has left the chain. *)
Definition follow (b p : list dictEntry) : list dictEntry :=
  match p with
  | [] => []
  | e :: _ => chain_from (key e) (drop (length b - length p) b)
  end.

(** [iter->entry] read through the dictionary, for [iter->entry->next]
    and for the caller.  An entry that is no longer in its chain has been
    freed, or moved by a rehash step, which the embedding does not
    follow. *)
Definition dictNext_entry (d : dict) (it : dictIterator)
    : res (list dictEntry) :=
  match entry it with
  | [] => Ok []
  | _ :: _ =>
      do tb <- the_table (ht d (itable it));
      do b <- lookupZ tb (index it);
      match follow b (entry it) with
      | [] => Err InvalidPointer
      | he => Ok he
      end
  end.

Fixpoint dictNext_loop (fuel : nat) (addr : dictht -> Z) (d : dict)
    (it : dictIterator) : res (dict * dictIterator * option dictEntry) :=
  match fuel with
  | O => Err OutOfFuel
  | S f =>
      do '(d, it, stop) <- dictNext_advance addr d it;
      if (stop : bool) then Ok (d, it, None)
      else
        do he <- dictNext_entry d it;
        match he with
        | e :: next =>
            Ok (d, {| index := index it; itable := itable it;
                      safe := safe it; entry := he;
                      nextEntry := next; fingerprint := fingerprint it |},
                Some e)
        | [] => dictNext_loop f addr d it
        end
  end.

(** [dictNext]: the dictionary, the iterator and the entry returned. *)
Definition dictNext (addr : dictht -> Z) (d : dict) (it : dictIterator)
    : res (dict * dictIterator * option dictEntry) :=
  dictNext_loop (length (tbl (ht0 d)) + length (tbl (ht1 d)) + 5) addr d it.

(** [dictReleaseIterator] *)
Definition dictReleaseIterator (addr : dictht -> Z) (d : dict)
    (it : dictIterator) : res dict :=
  if negb ((index it =? -1) && Nat.eqb (itable it) 0) then
    if safe it then Ok (set_iterators d (wrap64 (iterators d - 1)))
    else if fingerprint it =? dictFingerprint addr d then Ok d
         else Err AssertFail
  else Ok d.

(** *** The iterator counter *)

(** An iterator on which [dictNext] has not been called. *)
Definition is_fresh (it : dictIterator) : bool :=
  (index it =? -1) && Nat.eqb (itable it) 0.

(** The iterators [dictNext] is called on: fresh ones, and started ones. *)
Definition iter_ok (it : dictIterator) : Prop :=
  (is_fresh it = true /\ entry it = []) \/ 0 <= index it.

(** The dictionary apart from its iterator count. *)
Definition same_tables (d d' : dict) : Prop :=
  type d' = type d /\ ht0 d' = ht0 d /\ ht1 d' = ht1 d
  /\ rehashidx d' = rehashidx d.

Lemma dictNext_advance_counter (addr : dictht -> Z) (d d' : dict)
    (it it' : dictIterator) (stop : bool) :
  iter_ok it ->
  dictNext_advance addr d it = Ok (d', it', stop) ->
  0 <= index it' /\ safe it' = safe it /\ same_tables d d'
  /\ iterators d'
     = (if is_fresh it && safe it then wrap64 (iterators d + 1) else iterators d).
Proof.
  intros Hok. unfold dictNext_advance.
  destruct (entry it) as [|e el] eqn:He.
  - fold (is_fresh it).
    assert (Hidx : 0 <= index it + 1).
    { destruct Hok as [[Hf _]|H]; [|lia]. unfold is_fresh in Hf.
      apply andb_true_iff in Hf as [Hf _]. apply Z.eqb_eq in Hf. lia. }
    set (d1 := if is_fresh it && safe it then _ else d).
    assert (Hd1 : same_tables d d1
                  /\ iterators d1 = (if is_fresh it && safe it
                                     then wrap64 (iterators d + 1) else iterators d)).
    { subst d1. destruct (is_fresh it && safe it); unfold same_tables; simpl; auto. }
    destruct Hd1 as [Hst Hit].
    set (it1 := if is_fresh it && negb (safe it) then _ else it).
    assert (Hit1 : index it1 = index it /\ safe it1 = safe it)
      by (subst it1; destruct (is_fresh it && negb (safe it)); simpl; auto).
    destruct Hit1 as [Hi1 Hs1]. rewrite Hi1.
    destruct (index it + 1 >=? wrap_long (size (ht d1 (itable it)))).
    + destruct (dictIsRehashing d1 && Nat.eqb (itable it) 0).
      * destruct (the_table (ht1 d1)) as [tb|]; [|discriminate]. cbn [bind].
        destruct (lookupZ tb 0) as [b|]; [|discriminate]. cbn [bind].
        intros [= <- <- <-]. simpl.
        split; [lia|]. split; [exact Hs1|]. split; [exact Hst | exact Hit].
      * intros [= <- <- <-]. simpl.
        split; [lia|]. split; [exact Hs1|]. split; [exact Hst | exact Hit].
    + destruct (the_table (ht d1 (itable it))) as [tb|]; [|discriminate].
      cbn [bind].
      destruct (lookupZ tb (index it + 1)) as [b|]; [|discriminate]. cbn [bind].
      intros [= <- <- <-]. simpl.
      split; [lia|]. split; [exact Hs1|]. split; [exact Hst | exact Hit].
  - intros [= <- <- <-]. simpl.
    destruct Hok as [[_ Hn]|Hi]; [rewrite He in Hn; discriminate|].
    assert (Hnf : is_fresh it = false).
    { unfold is_fresh. destruct (Z.eqb_spec (index it) (-1)); [lia | reflexivity]. }
    rewrite Hnf. simpl.
    split; [exact Hi|]. split; [reflexivity|].
    split; [unfold same_tables; auto | reflexivity].
Qed.

Lemma dictNext_loop_counter (addr : dictht -> Z) (fuel : nat) :
  forall d it d' it' r,
    iter_ok it ->
    dictNext_loop fuel addr d it = Ok (d', it', r) ->
    0 <= index it' /\ safe it' = safe it /\ same_tables d d'
    /\ iterators d'
       = (if is_fresh it && safe it then wrap64 (iterators d + 1) else iterators d).
Proof.
  induction fuel as [|fuel IH]; intros d it d' it' r Hok; [discriminate|].
  simpl. destruct (dictNext_advance addr d it) as [[[d1 it1] stop]|] eqn:Ha;
    [|discriminate]. cbn [bind].
  destruct (dictNext_advance_counter addr d d1 it it1 stop Hok Ha)
    as (Hi1 & Hs1 & Hst1 & Hc1).
  destruct stop.
  { intros [= <- <- <-]. auto. }
  destruct (dictNext_entry d1 it1) as [he|]; [|discriminate]. cbn [bind].
  destruct he as [|e el].
  - intros Hl. destruct (IH d1 it1 d' it' r (or_intror Hi1) Hl)
      as (Hi' & Hs' & Hst' & Hc').
    assert (Hnf : is_fresh it1 = false).
    { unfold is_fresh. destruct (Z.eqb_spec (index it1) (-1)); [lia | reflexivity]. }
    rewrite Hnf in Hc'. simpl in Hc'.
    split; [exact Hi'|]. split; [congruence|]. split; [|congruence].
    destruct Hst1 as (? & ? & ? & ?), Hst' as (? & ? & ? & ?).
    unfold same_tables. repeat split; congruence.
  - intros [= <- <- <-]. simpl. auto.
Qed.

(** The pointers of an iterator are good in [d]: they point into the
    chain the iterator stands on. *)
Definition points_into (d : dict) (it : dictIterator)
    (p : list dictEntry) : Prop :=
  p = [] \/ exists tb b,
              table (ht d (itable it)) = Some tb
              /\ lookupZ tb (index it) = Ok b /\ p `suffix_of` b.

Definition entry_points (d : dict) (it : dictIterator) : Prop :=
  points_into d it (entry it).

Definition iter_points (d : dict) (it : dictIterator) : Prop :=
  entry it = [] \/ points_into d it (nextEntry it).

Lemma the_table_Some (h : dictht) (tb : list (list dictEntry)) :
  the_table h = Ok tb -> table h = Some tb.
Proof. unfold the_table. destruct (table h); [intros [= ->]; reflexivity | discriminate]. Qed.

Lemma chain_from_suffix (k : Z) (he : list dictEntry) :
  chain_from k he `suffix_of` he.
Proof.
  induction he as [|e next IH]; simpl; [reflexivity|].
  destruct (key e =? k); [reflexivity|]. apply suffix_cons_r. exact IH.
Qed.

Lemma follow_suffix (b p : list dictEntry) : follow b p `suffix_of` b.
Proof.
  unfold follow. destruct p as [|e p]; [apply suffix_nil|].
  etransitivity; [apply chain_from_suffix | apply suffix_drop].
Qed.

(** A pointer into a chain that has not changed gives what it gave. *)
Lemma follow_same (b p : list dictEntry) :
  p `suffix_of` b -> follow b p = p.
Proof.
  intros [l ->]. unfold follow. destruct p as [|e p]; [reflexivity|].
  rewrite drop_app_length' by (rewrite length_app; lia).
  simpl. rewrite Z.eqb_refl. reflexivity.
Qed.

Lemma dictNext_entry_same (d : dict) (it : dictIterator) :
  entry_points d it -> dictNext_entry d it = Ok (entry it).
Proof.
  unfold entry_points, points_into, dictNext_entry.
  destruct (entry it) as [|e he] eqn:He; [reflexivity|].
  intros [H|(tb & b & Ht & Hb & Hs)]; [discriminate|].
  unfold the_table. rewrite Ht. cbn [bind]. rewrite Hb. cbn [bind].
  rewrite (follow_same _ _ Hs). reflexivity.
Qed.

(** After the first half of a turn, [entry] points into the chain the
    iterator stands on. *)
Lemma dictNext_advance_points (addr : dictht -> Z) (d d1 : dict)
    (it it1 : dictIterator) (stop : bool) :
  iter_points d it ->
  dictNext_advance addr d it = Ok (d1, it1, stop) ->
  entry_points d1 it1.
Proof.
  intros Hp. unfold dictNext_advance, entry_points, points_into.
  destruct (entry it) as [|e el] eqn:He.
  - set (d0 := if _ && safe it then _ else d).
    set (it0 := if _ && negb (safe it) then _ else it).
    destruct (index it0 + 1 >=? wrap_long (size (ht d0 (itable it)))).
    + destruct (dictIsRehashing d0 && Nat.eqb (itable it) 0).
      * destruct (the_table (ht1 d0)) as [tb|] eqn:Ht; [|discriminate].
        cbn [bind].
        destruct (lookupZ tb 0) as [b|] eqn:Hb; [|discriminate]. cbn [bind].
        intros [= <- <- <-]. simpl. right. exists tb, b.
        split; [exact (the_table_Some _ _ Ht)|]. split; [exact Hb | reflexivity].
      * intros [= <- <- <-]. left. reflexivity.
    + destruct (the_table (ht d0 (itable it))) as [tb|] eqn:Ht; [|discriminate].
      cbn [bind].
      destruct (lookupZ tb (index it0 + 1)) as [b|] eqn:Hb; [|discriminate].
      cbn [bind]. intros [= <- <- <-]. simpl. right. exists tb, b.
      split; [exact (the_table_Some _ _ Ht)|]. split; [exact Hb | reflexivity].
  - intros [= <- <- <-]. simpl.
    destruct Hp as [H|H]; [rewrite He in H; discriminate | exact H].
Qed.

(** [dictNext] leaves an iterator whose pointers are good. *)
Lemma dictNext_loop_points (addr : dictht -> Z) (fuel : nat) :
  forall d it d' it' r,
    iter_points d it ->
    dictNext_loop fuel addr d it = Ok (d', it', r) ->
    iter_points d' it'.
Proof.
  induction fuel as [|fuel IH]; intros d it d' it' r Hp; [discriminate|].
  simpl. destruct (dictNext_advance addr d it) as [[[d1 it1] stop]|] eqn:Ha;
    [|discriminate]. cbn [bind].
  pose proof (dictNext_advance_points addr d d1 it it1 stop Hp Ha) as Hp1.
  destruct stop.
  { intros [= <- <- <-]. unfold dictNext_advance in Ha.
    destruct (entry it); [|discriminate].
    match type of Ha with context [if ?c then _ else _] => destruct c end.
    - match type of Ha with context [if ?c then _ else _] => destruct c end.
      + destruct (the_table _); [|discriminate]. cbn [bind] in Ha.
        destruct (lookupZ _ _); discriminate.
      + injection Ha as <- <-. left. reflexivity.
    - destruct (the_table _); [|discriminate]. cbn [bind] in Ha.
      destruct (lookupZ _ _); discriminate. }
  rewrite (dictNext_entry_same d1 it1 Hp1). cbn [bind].
  destruct (entry it1) as [|e el] eqn:He1.
  - apply IH. left. exact He1.
  - intros [= <- <- <-]. right. simpl.
    destruct Hp1 as [H|(tb & b & Ht & Hb & Hs)]; [rewrite He1 in H; discriminate|].
    right. exists tb, b. split; [exact Ht|]. split; [exact Hb|].
    rewrite He1 in Hs. exact (suffix_cons_l _ _ _ Hs).
Qed.

(** The number of turns of the [while (1)] of [dictNext] still to come. *)
Definition turns_left (d : dict) (it : dictIterator) : Z :=
  let len0 := Z.of_nat (length (tbl (ht0 d))) in
  let len1 := Z.of_nat (length (tbl (ht1 d))) in
  (match entry it with [] => 0 | _ => 1 end)
  + (if Nat.eqb (itable it) 0
     then Z.max 0 (len0 - (index it + 1)) + len1 + 2
     else Z.max 0 (len1 - (index it + 1)))
  + 1.

Lemma ht_inv_tbl (h : dictht) :
  ht_inv h ->
  Z.of_nat (length (tbl h)) = size h
  /\ (0 < size h -> table h = Some (tbl h))
  /\ (size h = 0 \/ 4 <= size h <= 2 ^ 63).
Proof.
  unfold ht_inv, tbl. destruct (table h) as [t|]; simpl.
  - intros (Hl & Hs & _). pose proof (is_table_size_bounds _ Hs).
    split; [exact Hl|]. split; [reflexivity | lia].
  - intros (-> & _). split; [reflexivity|]. split; [lia | auto].
Qed.

Lemma wrap_long_size (s : Z) :
  0 <= s <= 2 ^ 63 -> wrap_long s = s \/ wrap_long s < 0.
Proof.
  intros H. unfold wrap_long.
  destruct (Z.eq_dec s (2 ^ 63)) as [->|Hne].
  - right. reflexivity.
  - left. rewrite Z.mod_small; lia.
Qed.

Lemma dictNext_loop_total (addr : dictht -> Z) (fuel : nat) :
  forall d it,
    dict_inv d -> iter_ok it -> iter_points d it ->
    turns_left d it <= Z.of_nat fuel ->
    exists r, dictNext_loop fuel addr d it = Ok r.
Proof.
  induction fuel as [|fuel IH]; intros d it Hinv Hok Hpt Hfuel.
  { unfold turns_left in Hfuel. destruct (entry it), (Nat.eqb (itable it) 0); lia. }
  simpl. unfold dictNext_advance.
  destruct (entry it) as [|e el] eqn:He.
  - fold (is_fresh it).
    assert (Hidx : 0 <= index it + 1).
    { destruct Hok as [[Hf _]|H]; [|lia]. unfold is_fresh in Hf.
      apply andb_true_iff in Hf as [Hf _]. apply Z.eqb_eq in Hf. lia. }
    set (d1 := if is_fresh it && safe it then _ else d).
    assert (Hd1 : ht0 d1 = ht0 d /\ ht1 d1 = ht1 d /\ rehashidx d1 = rehashidx d)
      by (subst d1; destruct (is_fresh it && safe it); simpl; auto).
    destruct Hd1 as (H0 & H1 & Hr).
    assert (Hinv1 : dict_inv d1).
    { unfold dict_inv. rewrite H0, H1, Hr. exact Hinv. }
    assert (Htl : forall x, turns_left d1 x = turns_left d x)
      by (intros x; unfold turns_left; rewrite H0, H1; reflexivity).
    set (it1 := if is_fresh it && negb (safe it) then _ else it).
    assert (Hit1 : index it1 = index it)
      by (subst it1; destruct (is_fresh it && negb (safe it)); reflexivity).
    rewrite Hit1.
    assert (Hht : forall t, ht d1 t = ht d t)
      by (intros [|t]; simpl; assumption).
    assert (Hreh1 : dictIsRehashing d1 = dictIsRehashing d)
      by (unfold dictIsRehashing; rewrite Hr; reflexivity).
    rewrite Hht, Hreh1, H1.
    pose proof Hinv as (Hi0 & Hi1 & _ & _ & Hre).
    assert (Hcont : forall t i tb b,
              (b = [] ->
               turns_left d (set_position it1 t i b) < turns_left d it) ->
              0 <= i ->
              table (ht d t) = Some tb -> lookupZ tb i = Ok b ->
              exists r,
                (if (false : bool) then Ok (d1, set_position it1 t i b, None)
                 else
                   do he <- dictNext_entry d1 (set_position it1 t i b);
                   match he with
                   | [] => dictNext_loop fuel addr d1 (set_position it1 t i b)
                   | e :: next =>
                       Ok (d1, {| index := index (set_position it1 t i b);
                                  itable := itable (set_position it1 t i b);
                                  safe := safe (set_position it1 t i b);
                                  entry := he;
                                  nextEntry := next;
                                  fingerprint := fingerprint (set_position it1 t i b) |},
                           Some e)
                   end) = Ok r).
    { intros t i tb b Hless Hi Htb Hb.
      rewrite dictNext_entry_same.
      2:{ right. exists tb, b. simpl. rewrite Hht.
          split; [exact Htb|]. split; [exact Hb | reflexivity]. }
      cbn [bind]. simpl. destruct b as [|x b]; [|eexists; reflexivity].
      specialize (Hless eq_refl).
      apply IH; [exact Hinv1 | right; simpl; lia | left; reflexivity
                | rewrite Htl; lia]. }
    destruct (Z.geb_spec (index it + 1) (wrap_long (size (ht d (itable it)))))
      as [Hge|Hlt].
    + destruct (dictIsRehashing d && Nat.eqb (itable it) 0) eqn:Hsw.
      * apply andb_true_iff in Hsw as [Hreh Ht].
        apply dictIsRehashing_true in Hreh.
        destruct (Hre Hreh) as (_ & _ & Hn1 & _).
        destruct (table (ht1 d)) as [tb|] eqn:Htb; [|contradiction].
        unfold the_table. rewrite Htb. cbn [bind].
        assert (Hlen : 4 <= Z.of_nat (length tb)).
        { destruct (ht_inv_table _ _ Hi1 Htb) as (Hl & Hs & _).
          pose proof (is_table_size_bounds _ Hs). lia. }
        destruct (lookupZ_total tb 0 ltac:(lia)) as [b Hb].
        rewrite Hb. cbn [bind].
        apply (Hcont 1%nat 0 tb b); [|lia|exact Htb|exact Hb].
        intros ->. unfold turns_left. simpl. rewrite He, Ht.
        assert (Z.of_nat (length (tbl (ht1 d))) = Z.of_nat (length tb)).
        { unfold tbl. rewrite Htb. reflexivity. }
        lia.
      * cbn [bind]. eexists. reflexivity.
    + assert (Hsz : 0 <= size (ht d (itable it)) <= 2 ^ 63
                    /\ Z.of_nat (length (tbl (ht d (itable it))))
                       = size (ht d (itable it))
                    /\ (0 < size (ht d (itable it)) ->
                        table (ht d (itable it))
                        = Some (tbl (ht d (itable it))))).
      { destruct (itable it); simpl.
        - destruct (ht_inv_tbl _ Hi0) as (? & ? & ?). repeat split; auto; lia.
        - destruct (ht_inv_tbl _ Hi1) as (? & ? & ?). repeat split; auto; lia. }
      destruct Hsz as (Hsz & Hlen & Hsome).
      destruct (wrap_long_size _ Hsz) as [Hw|Hw]; [|lia].
      rewrite Hw in Hlt.
      unfold the_table. rewrite (Hsome ltac:(lia)). cbn [bind].
      destruct (lookupZ_total (tbl (ht d (itable it))) (index it + 1) ltac:(lia))
        as [b Hb].
      rewrite Hb. cbn [bind].
      apply (Hcont (itable it) (index it + 1) (tbl (ht d (itable it))) b);
        [|lia|exact (Hsome ltac:(lia))|exact Hb].
      intros ->. unfold turns_left. simpl. rewrite He.
      destruct (itable it) as [|t]; simpl in Hlen, Hlt |- *; lia.
  - cbn [bind]. simpl.
    destruct Hok as [[_ Hn]|Hi]; [rewrite He in Hn; discriminate|].
    destruct Hpt as [Hn|Hpt]; [rewrite He in Hn; discriminate|].
    rewrite dictNext_entry_same by exact Hpt.
    cbn [bind]. simpl.
    destruct (nextEntry it) as [|x b] eqn:Hn; [|eexists; reflexivity].
    apply IH; [exact Hinv | right; simpl; lia | left; reflexivity|].
    unfold turns_left in *. simpl. rewrite He in Hfuel. lia.
Qed.

Lemma dictNext_total (addr : dictht -> Z) (d : dict) (it : dictIterator) :
  dict_inv d -> iter_ok it -> iter_points d it ->
  exists r, dictNext addr d it = Ok r.
Proof.
  intros Hinv Hok Hpt. unfold dictNext. apply dictNext_loop_total; try assumption.
  assert (Hidx : -1 <= index it).
  { destruct Hok as [[Hf _]|H]; [|lia]. unfold is_fresh in Hf.
    apply andb_true_iff in Hf as [Hf _]. apply Z.eqb_eq in Hf. lia. }
  unfold turns_left. destruct (entry it), (Nat.eqb (itable it) 0); lia.
Qed.

(** Table addresses for the examples. *)
Definition no_addr (h : dictht) : Z := 0.

(** *** Safe iterators and the rehash cursor *)

(** What [dictAdd] leaves alone, whatever the allocator answers. *)
Lemma dictExpand_iterators (c : env) (d d' : dict) (size r : Z) :
  dictExpand c d size = Ok (d', r) -> iterators d' = iterators d.
Proof.
  destruct (dictExpand_unfold c d size) as (rs & _ & _ & ->).
  destruct (dictIsRehashing d || (used (ht0 d) >? size)); [intros [= <- _]; reflexivity|].
  destruct (rs =? Dict.size (ht0 d)); [intros [= <- _]; reflexivity|].
  destruct (zcalloc_table c rs) as [tb|]; [|discriminate]. cbn [bind].
  destruct (table (ht0 d)); intros [= <- _]; reflexivity.
Qed.

Lemma _dictExpandIfNeeded_iterators (c : env) (d d' : dict) (r : Z) :
  _dictExpandIfNeeded c d = Ok (d', r) -> iterators d' = iterators d.
Proof.
  unfold _dictExpandIfNeeded.
  destruct (dictIsRehashing d); [intros [= <- _]; reflexivity|].
  destruct (Dict.size (ht0 d) =? 0); [apply dictExpand_iterators|].
  destruct ((used (ht0 d) >=? Dict.size (ht0 d)) && _);
    [apply dictExpand_iterators | intros [= <- _]; reflexivity].
Qed.

Lemma _dictKeyIndex_cursor (c : env) (d d' : dict) (k h idx : Z)
    (ex : option entry_ref) :
  _dictKeyIndex c d k h = Ok (d', idx, ex) ->
  cursor_kept d d' /\ iterators d' = iterators d.
Proof.
  unfold _dictKeyIndex.
  destruct (_dictExpandIfNeeded c d) as [[d1 r]|] eqn:Hx; [|discriminate].
  cbn [bind].
  pose proof (proj1 (_dictExpandIfNeeded_cursor c d d1 r Hx)) as Hck.
  pose proof (_dictExpandIfNeeded_iterators c d d1 r Hx) as Hit.
  assert (Hd : forall x : dict * Z * option entry_ref,
            fst (fst x) = d1 -> Ok x = Ok (d', idx, ex) ->
            cursor_kept d d' /\ iterators d' = iterators d).
  { intros [[d2 i2] e2] Hd [= <- _ _]. simpl in Hd. subst d2. auto. }
  destruct (r =? DICT_ERR); [apply Hd; reflexivity|].
  destruct (chain_at d1 0 h) as [[i0 he0]|]; [|discriminate]. cbn [bind].
  destruct (chain_index d1 k he0); [apply Hd; reflexivity|].
  destruct (negb (dictIsRehashing d1)); [apply Hd; reflexivity|].
  destruct (chain_at d1 1 h) as [[i1 he1]|]; [|discriminate]. cbn [bind].
  destruct (chain_index d1 k he1); apply Hd; reflexivity.
Qed.

Lemma dictAddRaw_cursor (c : env) (d d' : dict) (k : Z)
    (en ex : option entry_ref) :
  iterators d <> 0 ->
  dictAddRaw c d k = Ok (d', en, ex) ->
  cursor_kept d d' /\ iterators d' = iterators d.
Proof.
  intros Hit. unfold dictAddRaw.
  assert (Hstep : (if dictIsRehashing d then _dictRehashStep d else Ok d) = Ok d).
  { destruct (dictIsRehashing d); [|reflexivity]. unfold _dictRehashStep.
    destruct (Z.eqb_spec (iterators d) 0); [contradiction | reflexivity]. }
  rewrite Hstep. cbn [bind].
  destruct (_dictKeyIndex c d k (dictHashKey d k)) as [[[d1 idx] e1]|] eqn:Hki;
    [|discriminate].
  cbn [bind].
  destruct (_dictKeyIndex_cursor c d d1 k _ idx e1 Hki) as [Hck Hit1].
  destruct (idx =? -1); [intros [= <- _ _]; auto|].
  destruct (zmalloc_entry c); [|discriminate]. cbn [bind].
  destruct (the_table _) as [tb|]; [|discriminate]. cbn [bind].
  destruct (lookupZ tb idx) as [b|]; [|discriminate]. cbn [bind].
  intros [= <- _ _].
  match goal with |- context [set_ht d1 ?t ?h] =>
    destruct (set_ht_fields d1 t h) as (_ & Hi & Hr) end.
  split; [eapply cursor_kept_eq; [exact Hck | exact Hr] | congruence].
Qed.

Lemma dictSetVal_fields (d d' : dict) (r : entry_ref) (v : Z) :
  dictSetVal d r v = Ok d' ->
  rehashidx d' = rehashidx d /\ iterators d' = iterators d.
Proof.
  unfold dictSetVal.
  destruct (the_table _) as [tb|]; [|discriminate]. cbn [bind].
  destruct (lookupZ tb _) as [b|]; [|discriminate]. cbn [bind].
  destruct (b !! e_pos r); [|discriminate]. intros [= <-].
  match goal with |- context [set_ht d ?t ?h] =>
    destruct (set_ht_fields d t h) as (_ & Hi & Hr) end.
  auto.
Qed.

Lemma dictAdd_cursor (c : env) (d d' : dict) (k v r : Z) :
  iterators d <> 0 ->
  dictAdd c d k v = Ok (d', r) ->
  cursor_kept d d' /\ iterators d' = iterators d.
Proof.
  intros Hit. unfold dictAdd.
  destruct (dictAddRaw c d k) as [[[d1 en] ex]|] eqn:Hadd; [|discriminate].
  cbn [bind].
  destruct (dictAddRaw_cursor c d d1 k en ex Hit Hadd) as [Hck Hit1].
  destruct en as [ref|]; [|intros [= <- _]; auto].
  destruct (dictSetVal d1 ref v) as [d2|] eqn:Hset; [|discriminate].
  cbn [bind]. intros [= <- _].
  destruct (dictSetVal_fields d1 d2 ref v Hset) as [Hr Hi].
  split; [eapply cursor_kept_eq; [exact Hck | exact Hr] | congruence].
Qed.

(** C6, as the code has it.  [dictGetSafeIterator] does not touch the
    dictionary, and releasing an iterator that was never advanced does not
    either.  The first [dictNext] on a safe iterator adds 1 to
    [iterators]; later calls leave it; [dictReleaseIterator] then takes 1
    off.  While [iterators] is not 0, [dictFind] changes nothing, and
    [dictAdd] and [dictDelete] leave the rehash cursor where it is
    ([dictAdd] may start a rehash, which sets the cursor from -1 to 0):
    that holds of every [dictAdd] that returns, whatever the allocator
    answers, and [dictAdd] returns when its requests are served. *)
Theorem safe_iterator_counter (addr : dictht -> Z) (c : env) (d : dict)
    (k v : Z) :
  dict_inv d -> used (ht0 d) + used (ht1 d) + 1 < 2 ^ 64 ->
  let it := snd (dictGetSafeIterator d) in
  fst (dictGetSafeIterator d) = d
  /\ dictReleaseIterator addr d it = Ok d
  /\ (exists d1 it1 r,
        dictNext addr d it = Ok (d1, it1, r)
        /\ iterators d1 = wrap64 (iterators d + 1)
        /\ same_tables d d1
        /\ (exists d2 it2 r2,
              dictNext addr d1 it1 = Ok (d2, it2, r2)
              /\ iterators d2 = iterators d1)
        /\ dictReleaseIterator addr d1 it1
           = Ok (set_iterators d1 (wrap64 (iterators d1 - 1))))
  /\ (iterators d <> 0 ->
      (exists r, dictFind d k = Ok (d, r))
      /\ (forall d' r,
            dictAdd c d k v = Ok (d', r) ->
            cursor_kept d d' /\ iterators d' = iterators d)
      /\ (allocates c -> used (ht0 d) + used (ht1 d) < 2 ^ 59 ->
          exists d' r,
            dictAdd c d k v = Ok (d', r)
            /\ cursor_kept d d' /\ iterators d' = iterators d)
      /\ (exists d' r,
            dictDelete d k = Ok (d', r)
            /\ rehashidx d' = rehashidx d /\ iterators d' = iterators d)).
Proof.
  intros Hinv Hroom. simpl.
  split; [reflexivity|]. split; [reflexivity|].
  set (it := {| index := -1; itable := 0; safe := true; entry := [];
                nextEntry := []; fingerprint := 0 |}).
  assert (Hok : iter_ok it) by (left; split; reflexivity).
  assert (Hpt : iter_points d it) by (left; reflexivity).
  split.
  - destruct (dictNext_total addr d it Hinv Hok Hpt) as [[[d1 it1] r] Hn].
    destruct (dictNext_loop_counter addr _ d it d1 it1 r Hok Hn)
      as (Hi1 & Hs1 & Hst & Hc).
    pose proof (dictNext_loop_points addr _ d it d1 it1 r Hpt Hn) as Hpt1.
    simpl in Hc, Hs1.
    exists d1, it1, r. split; [exact Hn|]. split; [exact Hc|].
    split; [exact Hst|].
    assert (Hinv1 : dict_inv d1).
    { destruct Hst as (_ & H0 & H1 & Hr). unfold dict_inv.
      rewrite H0, H1, Hr. exact Hinv. }
    assert (Hnf : is_fresh it1 = false).
    { unfold is_fresh. destruct (Z.eqb_spec (index it1) (-1)); [lia | reflexivity]. }
    split.
    + destruct (dictNext_total addr d1 it1 Hinv1 (or_intror Hi1) Hpt1)
        as [[[d2 it2] r2] Hn2].
      destruct (dictNext_loop_counter addr _ d1 it1 d2 it2 r2 (or_intror Hi1) Hn2)
        as (_ & _ & _ & Hc2).
      rewrite Hnf in Hc2. simpl in Hc2. exists d2, it2, r2. auto.
    + unfold dictReleaseIterator. fold (is_fresh it1). rewrite Hnf, Hs1.
      reflexivity.
  - intros Hit. split; [|split; [|split]].
    + destruct (dictFind_spec d k Hinv) as (d' & r & Hf & _ & Hsame & _).
      rewrite (Hsame (or_introl Hit)) in Hf. eauto.
    + intros d' r Ha. exact (dictAdd_cursor c d d' k v r Hit Ha).
    + intros Hmem Hfew.
      destruct (dictAdd_spec c d k v Hinv Hmem Hfew)
        as (d' & r & Ha & _ & _ & Hi & Hck & _).
      exists d', r. auto.
    + destruct (dictDelete_spec d k Hinv)
        as (d' & r & Hd & _ & _ & Hi & Hck & _).
      exists d', r. auto.
Qed.

(** A dictionary in the middle of a rehash, with a safe iterator live:
    four keys in a table of 4, one already in the new table of 8. *)
Definition rehashing_dict : dict :=
  {| type := plain_type;
     ht0 := {| table := Some [[]; [{| key := 1; val := 11 |}];
                              [{| key := 2; val := 12 |}];
                              [{| key := 3; val := 13 |}]];
               size := 4; sizemask := 3; used := 3 |};
     ht1 := {| table := Some [[{| key := 0; val := 10 |}]; []; []; [];
                              [{| key := 4; val := 14 |}]; []; []; []];
               size := 8; sizemask := 7; used := 2 |};
     rehashidx := 1; iterators := 1 |}.

Lemma rehashing_dict_inv : dict_inv rehashing_dict.
Proof.
  unfold dict_inv, rehashing_dict, ht_inv. simpl.
  split; [repeat split; try reflexivity; exists 2; split; [lia | reflexivity]|].
  split; [repeat split; try reflexivity; exists 3; split; [lia | reflexivity]|].
  split; [lia|]. split; [discriminate|]. intros _.
  split; [lia|]. split; [discriminate|]. split; [discriminate|].
  intros i Hi. replace i with 0 by lia. reflexivity.
Qed.

Lemma rehashing_dict_placed : dict_placed rehashing_dict.
Proof.
  assert (H : forall (t : list (list dictEntry)) m,
            (forall j b e, t !! j = Some b -> e ∈ b ->
               Z.land (wrap64 (key e)) m = Z.of_nat j) ->
            forall i b e, lookupZ t i = Ok b -> e ∈ b ->
              Z.land (wrap64 (key e)) m = i).
  { intros t m Hj i b e Hb He. apply lookupZ_Ok in Hb as [Hi Hb].
    rewrite (Hj _ _ _ Hb He). lia. }
  split; unfold ht_placed, dictHashKey, tbl; simpl; apply H;
    intros j b e Hb He;
    repeat (destruct j as [|j]; simpl in Hb;
            [injection Hb as <-;
             repeat (apply elem_of_cons in He as [->|He]; [reflexivity|]);
             apply elem_of_nil in He; contradiction|]);
    discriminate.
Qed.

Lemma safe_iterator_counter_witness :
  exists d' r,
    dictAdd (with_memory true) rehashing_dict 7 17 = Ok (d', r)
    /\ cursor_kept rehashing_dict d' /\ iterators d' = iterators rehashing_dict.
Proof.
  destruct (safe_iterator_counter no_addr (with_memory true) rehashing_dict 7 17
              rehashing_dict_inv) as (_ & _ & _ & H); [simpl; lia|].
  apply H; [simpl; lia | apply with_memory_allocates | simpl; lia].
Defined.

(** C6, as the design document states it, fails at creation:
    [dictGetSafeIterator] leaves the counter at 0, and releasing the
    iterator right away leaves it too, instead of first adding and then
    taking off 1. *)
Lemma safe_iterator_creation_counterexample :
  iterators (fst (dictGetSafeIterator (dictCreate plain_type)))
  <> iterators (dictCreate plain_type) + 1
  /\ dictReleaseIterator no_addr (dictCreate plain_type)
       (snd (dictGetSafeIterator (dictCreate plain_type)))
     = Ok (dictCreate plain_type).
Proof. split; [simpl; lia | reflexivity]. Qed.

(** *** Error codes *)

Lemma dictEntries_bucket (d : dict) (e : dictEntry) :
  e ∈ dictEntries d ->
  exists t tb i b,
    (t = 0%nat \/ t = 1%nat) /\ table (ht d t) = Some tb
    /\ lookupZ tb i = Ok b /\ e ∈ b.
Proof.
  assert (H : forall h, e ∈ ht_entries h ->
            exists tb i b, table h = Some tb /\ lookupZ tb i = Ok b /\ e ∈ b).
  { intros h. unfold ht_entries, tbl. destruct (table h) as [tb|]; simpl.
    - intros He. apply list_elem_of_In, in_concat in He as (b & Hb & He).
      apply list_elem_of_In, list_elem_of_lookup in Hb as [j Hj].
      exists tb, (Z.of_nat j), b. split; [reflexivity|]. split.
      + apply lookupZ_Ok. rewrite Nat2Z.id. split; [lia | exact Hj].
      + apply list_elem_of_In. exact He.
    - intros He. apply elem_of_nil in He. contradiction. }
  unfold dictEntries. intros He. apply elem_of_app in He as [He|He].
  - destruct (H _ He) as (tb & i & b & ?). exists 0%nat, tb, i, b. auto.
  - destruct (H _ He) as (tb & i & b & ?). exists 1%nat, tb, i, b. auto.
Qed.






(** A table of 4 buckets holding 4 keys: the next call of
    [_dictExpandIfNeeded] starts a rehash. *)
Definition full_dict : dict :=
  {| type := plain_type;
     ht0 := {| table := Some [[{| key := 0; val := 10 |}];
                              [{| key := 1; val := 11 |}];
                              [{| key := 2; val := 12 |}];
                              [{| key := 3; val := 13 |}]];
               size := 4; sizemask := 3; used := 4 |};
     ht1 := _dictReset; rehashidx := -1; iterators := 0 |}.

(** The value a call returned. *)
Definition returned {A : Type} (r : res (A * Z)) : option Z :=
  match r with Ok (_, x) => Some x | Err _ => None end.


Lemma dictRehash_bounds_witness :
  exists r,
    dictRehash_report rehashing_dict 1 = Ok r
    /\ 0 <= rr_moved r <= 1 /\ 0 <= rr_probes r <= 10 * 1.
Proof.
  destruct (dictRehash_bounds rehashing_dict 1 rehashing_dict_inv)
    as (r & Hr & _ & Hm & Hp & _); [reflexivity | unfold INT_MAX; lia |].
  exists r. auto.
Defined.

(** *** [dictScan] *)

(** One turn of the loop of [rev]:
    [v = ((v >> s) & mask) | ((v << s) & ~mask)] on [unsigned long]. *)
Definition rev_stage (s mask v : Z) : Z :=
  Z.lor (Z.land (Z.shiftr v s) mask)
        (Z.land (wrap64 (Z.shiftl v s)) (wrap64 (Z.lnot mask))).

(** The loop [while ((s >>= 1) > 0) { mask ^= (mask << s); ... }] of
    [rev]. *)
Fixpoint rev_loop (fuel : nat) (s mask v : Z) : Z :=
  match fuel with
  | O => v
  | S f =>
      let s := Z.shiftr s 1 in
      if s >? 0 then
        let mask := Z.lxor mask (wrap64 (Z.shiftl mask s)) in
        rev_loop f s mask (rev_stage s mask v)
      else v
  end.

(** [rev]: [s] starts at 64 and is halved, so the loop runs 6 times. *)
Definition rev (v : Z) : Z := rev_loop 7 64 ULONG_MAX v.

(** The cursor update of [dictScan]:
    [v |= ~m; v = rev(v); v++; v = rev(v);] *)
Definition next_cursor (v m : Z) : Z :=
  let v := Z.lor v (wrap64 (Z.lnot m)) in
  let v := rev v in
  let v := wrap64 (v + 1) in
  rev v.

(** The [do ... while (v & (m0 ^ m1))] loop of [dictScan]: the entries
    handed to [fn], in order, and the cursor. *)
Fixpoint dictScan_expand (fuel : nat) (t1 : list (list dictEntry))
    (m0 m1 v : Z) (out : list dictEntry) : res (list dictEntry * Z) :=
  match fuel with
  | O => Err OutOfFuel
  | S f =>
      do b <- lookupZ t1 (Z.land v m1);
      let out := out ++ b in
      let v := next_cursor v m1 in
      if negb (Z.land v (Z.lxor m0 m1) =? 0)
      then dictScan_expand f t1 m0 m1 v out
      else Ok (out, v)
  end.

(** [dictScan(d, v, fn, bucketfn, privdata)]: the entries [fn] is called
    on, in order, and the cursor returned. *)
Definition dictScan (d : dict) (v : Z) : res (list dictEntry * Z) :=
  if dictSize d =? 0 then Ok ([], 0)
  else if negb (dictIsRehashing d) then
    let t0 := ht0 d in
    let m0 := sizemask t0 in
    do tb <- the_table t0;
    do b <- lookupZ tb (Z.land v m0);
    Ok (b, next_cursor v m0)
  else
    let '(t0, t1) := if size (ht0 d) >? size (ht1 d)
                     then (ht1 d, ht0 d) else (ht0 d, ht1 d) in
    let m0 := sizemask t0 in
    let m1 := sizemask t1 in
    do tb0 <- the_table t0;
    do b <- lookupZ tb0 (Z.land v m0);
    do tb1 <- the_table t1;
    dictScan_expand (S (length tb1)) tb1 m0 m1 v b.

(** *** Bit reversal *)

Lemma rev_fuel (n : nat) (v : Z) : rev_loop (7 + n) 64 ULONG_MAX v = rev v.
Proof. reflexivity. Qed.

Lemma rev_unfold (v : Z) :
  rev v =
  rev_stage 1 6148914691236517205
    (rev_stage 2 3689348814741910323
       (rev_stage 4 1085102592571150095
          (rev_stage 8 71777214294589695
             (rev_stage 16 281470681808895
                (rev_stage 32 4294967295 v))))).
Proof. reflexivity. Qed.

Lemma testbit_wrap64 (x j : Z) :
  Z.testbit (wrap64 x) j = if j <? 64 then Z.testbit x j else false.
Proof.
  unfold wrap64. destruct (Z.ltb_spec j 64).
  - destruct (Z_lt_le_dec j 0).
    + rewrite !Z.testbit_neg_r by lia. reflexivity.
    + apply Z.mod_pow2_bits_low. lia.
  - apply Z.mod_pow2_bits_high. lia.
Qed.

Lemma testbit_high (x j : Z) :
  0 <= x < 2 ^ 64 -> 64 <= j -> Z.testbit x j = false.
Proof.
  intros Hx Hj. rewrite <- (wrap64_small x Hx), testbit_wrap64.
  destruct (Z.ltb_spec j 64); [lia | reflexivity].
Qed.

Lemma range_of_bits (x : Z) :
  0 <= x -> (forall j, 64 <= j -> Z.testbit x j = false) -> x < 2 ^ 64.
Proof.
  intros Hx Hb. destruct (Z_lt_le_dec x (2 ^ 64)) as [|Hge]; [assumption|].
  exfalso. assert (Hpos : 0 < x) by lia.
  pose proof (Z.bit_log2 x Hpos) as Hl.
  rewrite Hb in Hl; [discriminate|].
  apply Z.log2_le_pow2; lia.
Qed.

Lemma rev_stage_testbit (s mask v j : Z) :
  0 <= s -> 0 <= j < 64 ->
  Z.testbit (rev_stage s mask v) j
  = Z.testbit v (if Z.testbit mask j then j + s else j - s).
Proof.
  intros Hs Hj. unfold rev_stage.
  rewrite Z.lor_spec, !Z.land_spec, !testbit_wrap64.
  destruct (Z.ltb_spec j 64); [|lia].
  rewrite Z.shiftr_spec, Z.shiftl_spec, Z.lnot_spec by lia.
  destruct (Z.testbit mask j); simpl.
  - rewrite andb_true_r, andb_false_r, orb_false_r. reflexivity.
  - rewrite andb_false_r, andb_true_r. reflexivity.
Qed.

Lemma rev_stage_range (s mask v : Z) :
  0 <= mask < 2 ^ 64 -> 0 <= rev_stage s mask v < 2 ^ 64.
Proof.
  intros Hm. unfold rev_stage. split.
  - apply Z.lor_nonneg. split; apply Z.land_nonneg; right.
    + lia.
    + apply wrap64_bounds.
  - apply range_of_bits.
    + apply Z.lor_nonneg. split; apply Z.land_nonneg; right;
        [lia | apply wrap64_bounds].
    + intros j Hj. rewrite Z.lor_spec, !Z.land_spec, !testbit_wrap64.
      rewrite (testbit_high mask j Hm Hj).
      destruct (Z.ltb_spec j 64); [lia|].
      rewrite !andb_false_r. reflexivity.
Qed.

(** The bit of the argument that the bit [j] of [rev] comes from, through
    the six turns of the loop, with the bound of every index on the way. *)
Definition rev_source (j : Z) : Z * bool :=
  let step s mask (p : Z * bool) :=
    let '(i, ok) := p in
    ((if Z.testbit mask i then i + s else i - s),
     ok && (0 <=? i) && (i <? 64)) in
  step 32 4294967295
    (step 16 281470681808895
       (step 8 71777214294589695
          (step 4 1085102592571150095
             (step 2 3689348814741910323
                (step 1 6148914691236517205 (j, true)))))).

Definition rev_source_check (j : Z) : bool :=
  (fst (rev_source j) =? 63 - j) && snd (rev_source j).

Lemma rev_source_ok (j : Z) :
  0 <= j < 64 -> rev_source j = (63 - j, true).
Proof.
  intros Hj.
  assert (Hall : forallb (fun n => rev_source_check (Z.of_nat n)) (seq 0 64)
                 = true) by (vm_compute; reflexivity).
  rewrite forallb_forall in Hall.
  assert (Hin : In (Z.to_nat j) (seq 0 64)) by (apply in_seq; lia).
  apply Hall in Hin. rewrite Z2Nat.id in Hin by lia.
  unfold rev_source_check in Hin.
  remember (rev_source j) as p eqn:Hp. clear Hp. destruct p as [i ok].
  simpl in Hin. apply andb_true_iff in Hin as [Hi Hok].
  apply Z.eqb_eq in Hi. subst. reflexivity.
Qed.

Lemma rev_testbit (v j : Z) :
  0 <= j < 64 -> Z.testbit (rev v) j = Z.testbit v (63 - j).
Proof.
  intros Hj. pose proof (rev_source_ok j Hj) as Hsrc.
  unfold rev_source in Hsrc. rewrite rev_unfold.
  set (i1 := if Z.testbit 6148914691236517205 j then j + 1 else j - 1) in *.
  set (i2 := if Z.testbit 3689348814741910323 i1 then i1 + 2 else i1 - 2) in *.
  set (i3 := if Z.testbit 1085102592571150095 i2 then i2 + 4 else i2 - 4) in *.
  set (i4 := if Z.testbit 71777214294589695 i3 then i3 + 8 else i3 - 8) in *.
  set (i5 := if Z.testbit 281470681808895 i4 then i4 + 16 else i4 - 16) in *.
  injection Hsrc as Hi Hok.
  repeat (apply andb_true_iff in Hok as [Hok ?]).
  repeat match goal with H : (_ <=? _) = true |- _ => apply Z.leb_le in H end.
  repeat match goal with H : (_ <? _) = true |- _ => apply Z.ltb_lt in H end.
  rewrite (rev_stage_testbit 1) by lia. fold i1.
  rewrite (rev_stage_testbit 2) by lia. fold i2.
  rewrite (rev_stage_testbit 4) by lia. fold i3.
  rewrite (rev_stage_testbit 8) by lia. fold i4.
  rewrite (rev_stage_testbit 16) by lia. fold i5.
  rewrite (rev_stage_testbit 32) by lia.
  rewrite Hi. reflexivity.
Qed.

Lemma rev_range (v : Z) : 0 <= rev v < 2 ^ 64.
Proof. rewrite rev_unfold. apply rev_stage_range. lia. Qed.

Lemma rev_involutive (v : Z) : 0 <= v < 2 ^ 64 -> rev (rev v) = v.
Proof.
  intros Hv. apply Z.bits_inj'. intros j Hj.
  destruct (Z_lt_le_dec j 64).
  - rewrite !rev_testbit by lia. f_equal. lia.
  - rewrite (testbit_high v j Hv) by lia.
    apply testbit_high; [apply rev_range | lia].
Qed.

(** From here on [rev] is used through the lemmas above; conversion
    unfolds it last. *)
Strategy 1000 [rev].

(** *** The cursor in reversed bit order *)

(** The first multiple of [2^w] above [R]: where the reversed cursor goes
    when the [w] low bits are filled with ones and 1 is added. *)
Definition bump (R w : Z) : Z := (R / 2 ^ w + 1) * 2 ^ w.

Lemma rev_0 : rev 0 = 0.
Proof. reflexivity. Qed.

Lemma rev_eq_0 (v : Z) : 0 <= v < 2 ^ 64 -> rev v = 0 -> v = 0.
Proof.
  intros Hv H. rewrite <- (rev_involutive v Hv), H. reflexivity.
Qed.

Lemma mask_ones (k : Z) : 2 ^ k - 1 = Z.ones k.
Proof. rewrite Z.ones_equiv. lia. Qed.

Lemma testbit_ones_Z (k j : Z) :
  0 <= k -> 0 <= j -> Z.testbit (Z.ones k) j = (j <? k).
Proof.
  intros Hk Hj. destruct (Z.ltb_spec j k).
  - apply Z.ones_spec_low. lia.
  - apply Z.ones_spec_high. lia.
Qed.

Lemma lor_ones (r w : Z) :
  0 <= w -> Z.lor r (Z.ones w) = bump r w - 1.
Proof.
  intros Hw. pose proof (Z.add_lor_land r (Z.ones w)) as H.
  rewrite Z.land_ones in H by lia. unfold bump.
  assert (Hp : 0 < 2 ^ w) by (apply Z.pow_pos_nonneg; lia).
  pose proof (Z.div_mod r (2 ^ w) ltac:(lia)) as Hdm.
  rewrite Z.ones_equiv in *. lia.
Qed.

Lemma rev_lor_high (v k : Z) :
  0 <= v < 2 ^ 64 -> 0 <= k <= 64 ->
  rev (Z.lor v (wrap64 (Z.lnot (2 ^ k - 1))))
  = Z.lor (rev v) (Z.ones (64 - k)).
Proof.
  intros Hv Hk. apply Z.bits_inj'. intros j Hj.
  rewrite Z.lor_spec, testbit_ones_Z by lia.
  destruct (Z_lt_le_dec j 64) as [Hlt|Hge].
  - rewrite !rev_testbit by lia.
    rewrite Z.lor_spec, testbit_wrap64, Z.lnot_spec, mask_ones,
      testbit_ones_Z by lia.
    destruct (Z.ltb_spec (63 - j) 64); [|lia].
    f_equal. destruct (Z.ltb_spec (63 - j) k), (Z.ltb_spec j (64 - k));
      simpl; try reflexivity; lia.
  - rewrite (testbit_high (rev _) j) by (try apply rev_range; lia).
    rewrite (testbit_high (rev v) j) by (try apply rev_range; lia).
    destruct (Z.ltb_spec j (64 - k)); [lia | reflexivity].
Qed.

Lemma next_cursor_rev (v k : Z) :
  0 <= v < 2 ^ 64 -> 0 <= k <= 64 ->
  0 <= next_cursor v (2 ^ k - 1) < 2 ^ 64
  /\ rev (next_cursor v (2 ^ k - 1)) = bump (rev v) (64 - k) mod 2 ^ 64.
Proof.
  intros Hv Hk. unfold next_cursor. split; [apply rev_range|].
  rewrite rev_involutive by apply wrap64_bounds.
  rewrite rev_lor_high, lor_ones by lia.
  unfold wrap64. f_equal. lia.
Qed.

Lemma same_bucket (h v k : Z) :
  0 <= h < 2 ^ 64 -> 0 <= v < 2 ^ 64 -> 0 <= k <= 64 ->
  rev h / 2 ^ (64 - k) = rev v / 2 ^ (64 - k) ->
  Z.land h (2 ^ k - 1) = Z.land v (2 ^ k - 1).
Proof.
  intros Hh Hv Hk Heq. rewrite mask_ones. apply Z.bits_inj'. intros j Hj.
  rewrite !Z.land_spec, testbit_ones_Z by lia.
  destruct (Z.ltb_spec j k); [|rewrite !andb_false_r; reflexivity].
  rewrite !andb_true_r.
  rewrite <- (rev_involutive h Hh), <- (rev_involutive v Hv).
  rewrite !(rev_testbit (rev _)) by lia.
  replace (63 - j) with ((k - 1 - j) + (64 - k)) by lia.
  rewrite <- !Z.div_pow2_bits by lia. rewrite Heq. reflexivity.
Qed.

Lemma scan_loop_condition (v k0 k1 : Z) :
  0 <= v < 2 ^ 64 -> 0 <= k0 <= k1 -> k1 <= 64 ->
  Z.land v (Z.lxor (2 ^ k0 - 1) (2 ^ k1 - 1)) = 0
  <-> (rev v / 2 ^ (64 - k1)) mod 2 ^ (k1 - k0) = 0.
Proof.
  intros Hv Hk0 Hk1. rewrite !mask_ones.
  assert (Hbit : forall j, k0 <= j < k1 ->
            Z.testbit v j
            = Z.testbit ((rev v / 2 ^ (64 - k1)) mod 2 ^ (k1 - k0)) (k1 - 1 - j)).
  { intros j Hj. rewrite Z.mod_pow2_bits_low by lia.
    rewrite Z.div_pow2_bits by lia.
    rewrite rev_testbit by lia. f_equal. lia. }
  split; intros H.
  - apply Z.bits_inj_0. intros i.
    destruct (Z_lt_le_dec i 0); [apply Z.testbit_neg_r; lia|].
    destruct (Z_lt_le_dec i (k1 - k0)).
    + replace i with (k1 - 1 - (k1 - 1 - i)) by lia.
      rewrite <- Hbit by lia.
      assert (Hz : Z.testbit (Z.land v (Z.lxor (Z.ones k0) (Z.ones k1)))
                     (k1 - 1 - i) = false) by (rewrite H; apply Z.bits_0).
      rewrite Z.land_spec, Z.lxor_spec, !testbit_ones_Z in Hz by lia.
      destruct (Z.ltb_spec (k1 - 1 - i) k0), (Z.ltb_spec (k1 - 1 - i) k1);
        try lia. simpl in Hz. rewrite andb_true_r in Hz. exact Hz.
    + apply Z.mod_pow2_bits_high. lia.
  - apply Z.bits_inj_0. intros j.
    destruct (Z_lt_le_dec j 0); [apply Z.testbit_neg_r; lia|].
    rewrite Z.land_spec, Z.lxor_spec, !testbit_ones_Z by lia.
    destruct (Z.ltb_spec j k0), (Z.ltb_spec j k1); simpl;
      try (rewrite andb_false_r; reflexivity); try lia.
    rewrite andb_true_r, Hbit by lia. rewrite H. apply Z.bits_0.
Qed.

(** *** One turn of the inner loop, as arithmetic on the reversed cursor

    [R] is the reversed cursor, [W1] the weight of the lowest bit the mask
    of the larger table keeps, [C] the ratio of the two sizes and [K0] the
    size of the smaller table. *)
Lemma scan_step_arith (W1 C K0 R : Z) :
  0 < W1 -> 0 < C -> 0 < K0 -> 0 <= R < K0 * C * W1 ->
  let B := K0 * C * W1 in
  let a := R / W1 in
  let R1 := ((a + 1) * W1) mod B in
  let T := ((R / (W1 * C) + 1) * (W1 * C)) mod B in
  ((R1 / W1) mod C = 0 ->
     R1 = T
     /\ forall H, R <= H < B -> H / (W1 * C) = R / (W1 * C) -> H / W1 = a)
  /\ ((R1 / W1) mod C <> 0 ->
        R1 = (a + 1) * W1
        /\ C - (R1 / W1) mod C < C - a mod C
        /\ R1 / (W1 * C) = R / (W1 * C)
        /\ forall H, R <= H -> H / W1 = a \/ R1 <= H).
Proof.
  intros HW HC HK HR B a R1 T.
  assert (Ha : 0 <= a < K0 * C).
  { subst a. split; [apply Z.div_pos; lia|].
    apply Z.div_lt_upper_bound; lia. }
  assert (Hdd : forall x, x / (W1 * C) = x / W1 / C).
  { intros x. rewrite Z.div_div by lia. reflexivity. }
  assert (HaC : R / (W1 * C) = a / C) by apply Hdd.
  pose proof (Z.div_mod a C ltac:(lia)) as Hdm.
  pose proof (Z.mod_pos_bound a C HC) as Hr.
  set (q := a / C) in *. set (r := a mod C) in *.
  assert (Hq : 0 <= q < K0).
  { split; [subst q; apply Z.div_pos; lia|].
    subst q. apply Z.div_lt_upper_bound; lia. }
  assert (Hmono : forall H, R <= H -> a <= H / W1).
  { intros H HH. subst a. apply Z.div_le_mono; lia. }
  destruct (Z.eq_dec (a + 1) (K0 * C)) as [Hwrap|Hin].
  - (* the cursor wraps to 0 *)
    assert (HR1 : R1 = 0).
    { subst R1 B. rewrite Hwrap. apply Z_mod_same_full. }
    assert (Hq' : q = K0 - 1) by nia.
    assert (HT : T = 0).
    { subst T B. rewrite HaC. fold q. rewrite Hq'.
      replace ((K0 - 1 + 1) * (W1 * C)) with (K0 * C * W1) by ring.
      apply Z_mod_same_full. }
    split.
    + intros _. split; [congruence|].
      intros H HH _. pose proof (Hmono H ltac:(lia)).
      assert (H / W1 < K0 * C) by (apply Z.div_lt_upper_bound; subst B; lia).
      lia.
    + intros Hne. exfalso. apply Hne. rewrite HR1.
      rewrite Z.div_0_l by lia. apply Z.mod_0_l. lia.
  - assert (HR1 : R1 = (a + 1) * W1).
    { subst R1 B. apply Z.mod_small. nia. }
    assert (HR1d : R1 / W1 = a + 1).
    { rewrite HR1. apply Z.div_mul. lia. }
    rewrite HR1d.
    destruct (Z.eq_dec (r + 1) C) as [Hc|Hc].
    + (* the end of the block of the smaller table *)
      assert (Hm : (a + 1) mod C = 0).
      { replace (a + 1) with ((q + 1) * C) by lia. apply Z.mod_mul. lia. }
      split; [|intros Hne; exfalso; apply Hne; exact Hm].
      intros _. split.
      * rewrite HR1. subst T B. rewrite HaC. fold q.
        rewrite Z.mod_small by nia. nia.
      * intros H HH Hblk. rewrite HaC, Hdd in Hblk. fold q in Hblk.
        pose proof (Hmono H ltac:(lia)).
        pose proof (Z.div_mod (H / W1) C ltac:(lia)).
        pose proof (Z.mod_pos_bound (H / W1) C HC).
        rewrite Hblk in *. nia.
    + assert (Hm : (a + 1) mod C = r + 1).
      { symmetry. apply (Z.mod_unique_pos _ _ q); lia. }
      assert (Hd : (a + 1) / C = q).
      { symmetry. apply (Z.div_unique_pos _ _ _ (r + 1)); lia. }
      split; [intros Hz; rewrite Hm in Hz; lia|].
      intros _. split; [exact HR1|]. split; [rewrite Hm; lia|].
      split.
      * rewrite Hdd, HR1d, Hd, HaC. reflexivity.
      * intros H HH. pose proof (Hmono H HH).
        destruct (Z.eq_dec (H / W1) a) as [|Hne]; [left; assumption|right].
        rewrite HR1.
        pose proof (Z.div_mod H W1 ltac:(lia)).
        pose proof (Z.mod_pos_bound H W1 HW). nia.
Qed.

Lemma scan_pow_split (k0 k1 : Z) :
  0 <= k0 <= k1 -> k1 <= 64 ->
  2 ^ 64 = 2 ^ k0 * 2 ^ (k1 - k0) * 2 ^ (64 - k1)
  /\ 2 ^ (64 - k0) = 2 ^ (64 - k1) * 2 ^ (k1 - k0)
  /\ 0 < 2 ^ k0 /\ 0 < 2 ^ (k1 - k0) /\ 0 < 2 ^ (64 - k1).
Proof.
  intros H0 H1.
  rewrite <- !Z.pow_add_r by lia.
  replace (k0 + (k1 - k0) + (64 - k1)) with 64 by lia.
  replace (64 - k1 + (k1 - k0)) with (64 - k0) by lia.
  repeat split; apply Z.pow_pos_nonneg; lia.
Qed.

(** The inner loop of [dictScan]: started at [v] it ends, on the cursor
    whose reversal is the next multiple of the block of the smaller
    table, and it has visited every bucket of the larger table whose
    index expands the bucket of [v] in the smaller one and is not before
    [v] in reversed order. *)
Lemma dictScan_expand_spec (t1 : list (list dictEntry)) (k0 k1 : Z) :
  0 <= k0 <= k1 -> k1 <= 64 ->
  Z.of_nat (length t1) = 2 ^ k1 ->
  forall (fuel : nat) (v : Z) (out : list dictEntry),
    0 <= v < 2 ^ 64 ->
    2 ^ (k1 - k0) - (rev v / 2 ^ (64 - k1)) mod 2 ^ (k1 - k0) <= Z.of_nat fuel ->
    exists out' v',
      dictScan_expand fuel t1 (2 ^ k0 - 1) (2 ^ k1 - 1) v out = Ok (out', v')
      /\ 0 <= v' < 2 ^ 64
      /\ rev v' = bump (rev v) (64 - k0) mod 2 ^ 64
      /\ (forall e, e ∈ out -> e ∈ out')
      /\ (forall h b e,
            0 <= h < 2 ^ 64 -> rev v <= rev h ->
            rev h / 2 ^ (64 - k0) = rev v / 2 ^ (64 - k0) ->
            lookupZ t1 (Z.land h (2 ^ k1 - 1)) = Ok b -> e ∈ b -> e ∈ out').
Proof.
  intros Hk0 Hk1 Hlen.
  destruct (scan_pow_split k0 k1 Hk0 Hk1) as (HB & HW0 & HK & HC & HW).
  induction fuel as [|fuel IH]; intros v out Hv Hfuel.
  { pose proof (Z.mod_pos_bound (rev v / 2 ^ (64 - k1)) _ HC). lia. }
  cbn [dictScan_expand].
  destruct (lookupZ_total t1 (Z.land v (2 ^ k1 - 1))) as [b0 Hb0].
  { rewrite Hlen. apply land_mask_range. lia. }
  rewrite Hb0. cbn [bind].
  destruct (next_cursor_rev v k1 Hv ltac:(lia)) as [Hv1 Hr1].
  set (v1 := next_cursor v (2 ^ k1 - 1)) in *.
  pose proof (rev_range v) as HR.
  pose proof (scan_step_arith (2 ^ (64 - k1)) (2 ^ (k1 - k0)) (2 ^ k0) (rev v)
                HW HC HK ltac:(rewrite <- HB; exact HR)) as Harith.
  cbv zeta in Harith. rewrite <- HB, <- HW0 in Harith.
  unfold bump in Hr1. rewrite <- Hr1 in Harith.
  destruct Harith as [Hstop Hgo].
  assert (Hhere : forall h b e,
            0 <= h < 2 ^ 64 ->
            rev h / 2 ^ (64 - k1) = rev v / 2 ^ (64 - k1) ->
            lookupZ t1 (Z.land h (2 ^ k1 - 1)) = Ok b -> e ∈ b ->
            e ∈ out ++ b0).
  { intros h b e Hh Heq Hb He.
    rewrite (same_bucket h v k1 Hh Hv ltac:(lia) Heq), Hb0 in Hb.
    injection Hb as <-. apply elem_of_app. right. exact He. }
  destruct (Z.eqb_spec (Z.land v1 (Z.lxor (2 ^ k0 - 1) (2 ^ k1 - 1))) 0)
    as [Hz|Hnz]; cbn [negb].
  - apply (scan_loop_condition v1 k0 k1 Hv1 Hk0 Hk1) in Hz.
    destruct (Hstop Hz) as [HT Hcov].
    exists (out ++ b0), v1. split; [reflexivity|]. split; [exact Hv1|].
    split; [unfold bump; exact HT|]. split.
    + intros e He. apply elem_of_app. left. exact He.
    + intros h b e Hh Hle Hblk Hb He.
      apply (Hhere h b e Hh); [|exact Hb|exact He].
      apply Hcov; [|exact Hblk]. pose proof (rev_range h). lia.
  - assert (Hnz' : (rev v1 / 2 ^ (64 - k1)) mod 2 ^ (k1 - k0) <> 0).
    { intros Hz. apply Hnz.
      apply (scan_loop_condition v1 k0 k1 Hv1 Hk0 Hk1). exact Hz. }
    destruct (Hgo Hnz') as (HR1 & Hdec & Hblk1 & Hcov).
    destruct (IH v1 (out ++ b0) Hv1 ltac:(lia))
      as (out' & v' & Hrun & Hv' & Hrev' & Hout & Hrest).
    exists out', v'. split; [exact Hrun|]. split; [exact Hv'|].
    split; [rewrite Hrev'; unfold bump; rewrite Hblk1; reflexivity|].
    split.
    + intros e He. apply Hout, elem_of_app. left. exact He.
    + intros h b e Hh Hle Hblk Hb He.
      destruct (Hcov (rev h) Hle) as [Hsame|Hlater].
      * apply Hout. exact (Hhere h b e Hh Hsame Hb He).
      * apply (Hrest h b e Hh Hlater); [|exact Hb|exact He].
        rewrite Hblk1. exact Hblk.
Qed.

(** *** One call of [dictScan] *)

Lemma ht_entries_bucket (h : dictht) (e : dictEntry) :
  e ∈ ht_entries h ->
  exists i b, lookupZ (tbl h) i = Ok b /\ e ∈ b.
Proof.
  unfold ht_entries. intros He.
  apply list_elem_of_In, in_concat in He as (b & Hb & He).
  apply list_elem_of_In, list_elem_of_lookup in Hb as [j Hj].
  exists (Z.of_nat j), b. split.
  - apply lookupZ_Ok. rewrite Nat2Z.id. split; [lia | exact Hj].
  - apply list_elem_of_In. exact He.
Qed.

Lemma ht_shape (h : dictht) (t : list (list dictEntry)) :
  ht_inv h -> table h = Some t ->
  exists k, 2 <= k <= 63 /\ Z.of_nat (length t) = 2 ^ k
            /\ size h = 2 ^ k /\ sizemask h = 2 ^ k - 1 /\ tbl h = t.
Proof.
  intros Hinv Ht. destruct (ht_inv_table h t Hinv Ht) as (Hl & (k & Hk & Hs) & Hm & _).
  exists k. split; [exact Hk|]. split; [lia|]. split; [exact Hs|].
  split; [lia|]. unfold tbl. rewrite Ht. reflexivity.
Qed.

(** Where the cursor is after the block of [2^(64-k0)] reversed cursors it
    was in: either the hash [h] is in that block, or the cursor is still
    not after [h]; and the reversed cursor has grown unless the cursor is
    back to 0. *)
Lemma cursor_bump_cases (v h k0 v' : Z) :
  0 <= v < 2 ^ 64 -> 0 <= h < 2 ^ 64 -> 0 <= k0 <= 64 ->
  0 <= v' < 2 ^ 64 ->
  rev v' = bump (rev v) (64 - k0) mod 2 ^ 64 ->
  (v' = 0 \/ rev v < rev v')
  /\ (rev v <= rev h ->
      rev h / 2 ^ (64 - k0) = rev v / 2 ^ (64 - k0)
      \/ (v' <> 0 /\ rev v' <= rev h)).
Proof.
  intros Hv Hh Hk Hv' Hrev. unfold bump in Hrev.
  pose proof (rev_range v) as HR. pose proof (rev_range h) as HH.
  assert (HW : 0 < 2 ^ (64 - k0)) by (apply Z.pow_pos_nonneg; lia).
  assert (HK : 0 < 2 ^ k0) by (apply Z.pow_pos_nonneg; lia).
  assert (HB : 2 ^ 64 = 2 ^ k0 * 2 ^ (64 - k0)).
  { rewrite <- Z.pow_add_r by lia. f_equal. lia. }
  set (W := 2 ^ (64 - k0)) in *. set (K := 2 ^ k0) in *.
  pose proof (Z.div_mod (rev v) W ltac:(lia)) as Hdm.
  pose proof (Z.mod_pos_bound (rev v) W HW) as Hmb.
  set (q := rev v / W) in *.
  assert (Hq : 0 <= q < K).
  { split; [subst q; apply Z.div_pos; lia|].
    subst q. apply Z.div_lt_upper_bound; lia. }
  split.
  - destruct (Z.eq_dec (q + 1) K) as [Hw|Hn].
    + left. apply rev_eq_0; [exact Hv'|]. rewrite Hrev, Hw, HB.
      apply Z_mod_same_full.
    + right. rewrite Hrev, Z.mod_small by nia. nia.
  - intros Hle.
    assert (Hmono : q <= rev h / W) by (subst q; apply Z.div_le_mono; lia).
    destruct (Z.eq_dec (rev h / W) q) as [Heq|Hne]; [left; exact Heq|right].
    pose proof (Z.div_mod (rev h) W ltac:(lia)) as Hdm'.
    pose proof (Z.mod_pos_bound (rev h) W HW) as Hmb'.
    assert (Hb : (q + 1) * W <= rev h) by nia.
    rewrite Z.mod_small in Hrev by nia.
    split; [|lia]. intros ->. rewrite rev_0 in Hrev. nia.
Qed.

(** The two tables of a rehashing dictionary, the smaller first. *)
Lemma dictScan_two_tables (d : dict) (s l : dictht)
    (ts tl : list (list dictEntry)) (v k : Z) :
  ht_inv s -> ht_inv l -> table s = Some ts -> table l = Some tl ->
  size s <= size l -> ht_placed d s -> ht_placed d l ->
  0 <= v < 2 ^ 64 ->
  exists b out v',
    lookupZ ts (Z.land v (sizemask s)) = Ok b
    /\ dictScan_expand (S (length tl)) tl (sizemask s) (sizemask l) v b
       = Ok (out, v')
    /\ 0 <= v' < 2 ^ 64
    /\ (v' = 0 \/ rev v < rev v')
    /\ (rev v <= rev (dictHashKey d k) ->
        (forall e, e ∈ ht_entries s ++ ht_entries l -> key e = k -> e ∈ out)
        \/ (v' <> 0 /\ rev v' <= rev (dictHashKey d k))).
Proof.
  intros His Hil Hts Htl Hsz Hps Hpl Hv.
  destruct (ht_shape s ts His Hts) as (k0 & Hk0 & Hl0 & Hs0 & Hm0 & Ht0).
  destruct (ht_shape l tl Hil Htl) as (k1 & Hk1 & Hl1 & Hs1 & Hm1 & Ht1).
  assert (Hkk : k0 <= k1).
  { destruct (Z_le_gt_dec k0 k1) as [|Hgt]; [assumption|].
    pose proof (pow2_lt_mono k1 k0 ltac:(lia)). lia. }
  assert (Hh : 0 <= dictHashKey d k < 2 ^ 64) by apply wrap64_bounds.
  set (h := dictHashKey d k) in *.
  destruct (lookupZ_total ts (Z.land v (sizemask s))) as [b Hb].
  { rewrite Hm0, Hl0. apply land_mask_range. lia. }
  rewrite Hm0, Hm1 in *.
  destruct (scan_pow_split k0 k1 ltac:(lia) ltac:(lia)) as (_ & _ & _ & HC & _).
  destruct (dictScan_expand_spec tl k0 k1 ltac:(lia) ltac:(lia) Hl1
              (S (length tl)) v b Hv)
    as (out & v' & Hrun & Hv' & Hrev & Hout & Hcov).
  { pose proof (Z.mod_pos_bound (rev v / 2 ^ (64 - k1)) _ HC).
    pose proof (pow2_le_mono (k1 - k0) k1 ltac:(lia)). lia. }
  exists b, out, v'. split; [exact Hb|]. split; [exact Hrun|].
  split; [exact Hv'|].
  destruct (cursor_bump_cases v h k0 v' Hv Hh ltac:(lia) Hv' Hrev)
    as [Hprog Hcases].
  split; [exact Hprog|]. intros Hle.
  destruct (Hcases Hle) as [Hsame|Hlater].
  - left. intros e He Hkey.
    apply elem_of_app in He as [He|He];
      apply ht_entries_bucket in He as (i & be & Hbe & Hin).
    + pose proof (Hps i be e Hbe Hin) as Hi. rewrite Hkey, Hm0 in Hi.
      fold h in Hi.
      rewrite (same_bucket h v k0 Hh Hv ltac:(lia) Hsame) in Hi.
      rewrite Ht0, <- Hi, Hb in Hbe. injection Hbe as <-.
      apply Hout. exact Hin.
    + pose proof (Hpl i be e Hbe Hin) as Hi. rewrite Hkey, Hm1 in Hi.
      fold h in Hi. rewrite Ht1, <- Hi in Hbe.
      exact (Hcov h be e Hh Hle Hsame Hbe Hin).
  - right. exact Hlater.
Qed.

(** One call of [dictScan] with the cursor [v]: the call returns; the
    reversed cursor has grown unless the cursor returned is 0; and if [v]
    is not after the hash of the key [k] in reversed order, then either
    every entry of key [k] was visited, or the cursor returned is not 0
    and still not after the hash of [k]. *)
Lemma dictScan_call (d : dict) (v k : Z) :
  dict_inv d -> dict_placed d -> 0 <= v < 2 ^ 64 ->
  exists vis v',
    dictScan d v = Ok (vis, v')
    /\ 0 <= v' < 2 ^ 64
    /\ (v' = 0 \/ rev v < rev v')
    /\ (rev v <= rev (dictHashKey d k) ->
        (forall e, e ∈ dictEntries d -> key e = k -> e ∈ vis)
        \/ (v' <> 0 /\ rev v' <= rev (dictHashKey d k))).
Proof.
  intros Hinv [Hp0 Hp1] Hv.
  pose proof (dict_inv_count d Hinv) as Hcnt.
  destruct Hinv as (Hi0 & Hi1 & Hsum & Hidle & Hreh).
  assert (Hh : 0 <= dictHashKey d k < 2 ^ 64) by apply wrap64_bounds.
  unfold dictScan, dictSize. rewrite wrap64_small by lia.
  destruct (Z.eqb_spec (used (ht0 d) + used (ht1 d)) 0) as [Hz|Hnz].
  { exists [], 0. split; [reflexivity|]. split; [lia|]. split; [left; reflexivity|].
    intros _. left. intros e He _.
    destruct (dictEntries d); [exact He | simpl in Hcnt; lia]. }
  destruct (dictIsRehashing d) eqn:Hr; cbn [negb].
  - apply dictIsRehashing_true in Hr.
    destruct (Hreh Hr) as (_ & Ht0 & Ht1 & _).
    destruct (table (ht0 d)) as [tb0|] eqn:E0; [|contradiction].
    destruct (table (ht1 d)) as [tb1|] eqn:E1; [|contradiction].
    destruct (Z.gtb_spec (size (ht0 d)) (size (ht1 d))) as [Hgt|Hle'].
    + destruct (dictScan_two_tables d (ht1 d) (ht0 d) tb1 tb0 v k
                  Hi1 Hi0 E1 E0 ltac:(lia) Hp1 Hp0 Hv)
        as (b & out & v' & Hb & Hrun & Hv' & Hprog & Hres).
      unfold the_table. rewrite E0, E1. cbn [bind]. rewrite Hb. cbn [bind].
      exists out, v'. split; [exact Hrun|]. split; [exact Hv'|].
      split; [exact Hprog|]. intros Hle.
      destruct (Hres Hle) as [Hall|Hlater]; [left|right; exact Hlater].
      intros e He Hk. apply Hall; [|exact Hk].
      unfold dictEntries in He. apply elem_of_app in He.
      apply elem_of_app. tauto.
    + destruct (dictScan_two_tables d (ht0 d) (ht1 d) tb0 tb1 v k
                  Hi0 Hi1 E0 E1 Hle' Hp0 Hp1 Hv)
        as (b & out & v' & Hb & Hrun & Hv' & Hprog & Hres).
      unfold the_table. rewrite E0, E1. cbn [bind]. rewrite Hb. cbn [bind].
      exists out, v'. split; [exact Hrun|]. split; [exact Hv'|].
      split; [exact Hprog|]. exact Hres.
  - apply dictIsRehashing_false in Hr. pose proof (Hidle Hr) as H1.
    assert (Hu1 : used (ht1 d) = 0) by (rewrite H1; reflexivity).
    assert (Hne : table (ht0 d) <> None).
    { intros Hn. unfold ht_inv in Hi0. rewrite Hn in Hi0. lia. }
    destruct (table (ht0 d)) as [tb0|] eqn:E0; [|contradiction].
    destruct (ht_shape (ht0 d) tb0 Hi0 E0) as (k0 & Hk0 & Hl0 & Hs0 & Hm0 & Htbl).
    destruct (lookupZ_total tb0 (Z.land v (sizemask (ht0 d)))) as [b Hb].
    { rewrite Hm0, Hl0. apply land_mask_range. lia. }
    unfold the_table. rewrite E0. cbn [bind]. rewrite Hb. cbn [bind].
    rewrite Hm0 in *.
    destruct (next_cursor_rev v k0 Hv ltac:(lia)) as [Hv' Hrev].
    exists b, (next_cursor v (2 ^ k0 - 1)). split; [reflexivity|].
    split; [exact Hv'|].
    destruct (cursor_bump_cases v (dictHashKey d k) k0 _ Hv Hh ltac:(lia)
                Hv' Hrev) as [Hprog Hcases].
    split; [exact Hprog|]. intros Hle.
    destruct (Hcases Hle) as [Hsame|Hlater]; [left|right; exact Hlater].
    intros e He Hk.
    unfold dictEntries in He. rewrite (ht_entries_used0 (ht1 d) Hi1 Hu1) in He.
    rewrite app_nil_r in He.
    apply ht_entries_bucket in He as (i & be & Hbe & Hin).
    pose proof (Hp0 i be e Hbe Hin) as Hi. rewrite Hk, Hm0 in Hi.
    rewrite (same_bucket _ v k0 Hh Hv ltac:(lia) Hsame) in Hi.
    rewrite Htbl, <- Hi, Hb in Hbe. injection Hbe as <-. exact Hin.
Qed.

(** *** A traversal *)

(** The loop of a caller, [do { v = dictScan(d, v, ...); } while (v);],
    from the cursor [v].  The dictionary may change between two calls:
    [ds] gives the dictionary each call finds.  The result is what the
    calls visited, in order, and the last cursor returned. *)
Fixpoint scan_calls (ds : list dict) (v : Z) : res (list dictEntry * Z) :=
  match ds with
  | [] => Ok ([], v)
  | d :: ds =>
      do '(vis, v1) <- dictScan d v;
      if v1 =? 0 then Ok (vis, 0)
      else do '(rest, v2) <- scan_calls ds v1;
           Ok (vis ++ rest, v2)
  end.

(** A dictionary of type [ty] in a state the functions of dict.c keep it
    in: the invariant holds and every entry is in the bucket of its
    hash. *)
Definition scan_state (ty : dictType) (d : dict) : Prop :=
  type d = ty /\ dict_inv d /\ dict_placed d.

Lemma scan_calls_spec (ty : dictType) (k : Z) (ds : list dict) :
  Forall (scan_state ty) ds ->
  forall v,
    0 <= v < 2 ^ 64 ->
    exists out v',
      scan_calls ds v = Ok (out, v')
      /\ (rev v <= rev (wrap64 (hashFunction ty k)) ->
          (exists d, d ∈ ds
             /\ forall e, e ∈ dictEntries d -> key e = k -> e ∈ out)
          \/ (ds = [] /\ v' = v)
          \/ (ds <> [] /\ v' <> 0)).
Proof.
  induction 1 as [|d ds (Hty & Hinv & Hpl) _ IH]; intros v Hv.
  - exists [], v. split; [reflexivity|]. intros _. right. left. auto.
  - assert (Hhash : dictHashKey d k = wrap64 (hashFunction ty k)).
    { unfold dictHashKey. rewrite Hty. reflexivity. }
    destruct (dictScan_call d v k Hinv Hpl Hv)
      as (vis & v1 & Hrun & Hv1 & _ & Hres).
    rewrite Hhash in Hres.
    cbn [scan_calls]. rewrite Hrun. cbn [bind].
    destruct (Z.eqb_spec v1 0) as [Hz|Hnz].
    + exists vis, 0. split; [reflexivity|]. intros Hle. left. exists d.
      split; [apply list_elem_of_here|].
      destruct (Hres Hle) as [Hall|[Hne _]]; [exact Hall | contradiction].
    + destruct (IH v1 Hv1) as (rest & v2 & Hrest & Hcase).
      rewrite Hrest. cbn [bind]. exists (vis ++ rest), v2.
      split; [reflexivity|]. intros Hle.
      destruct (Hres Hle) as [Hall|[_ Hle1]].
      * left. exists d. split; [apply list_elem_of_here|].
        intros e He Hk. apply elem_of_app. left. exact (Hall e He Hk).
      * destruct (Hcase Hle1) as [(d' & Hd' & Hall)|[[-> ->]|[Hne Hv2]]].
        -- left. exists d'. split; [apply list_elem_of_further; exact Hd'|].
           intros e He Hk. apply elem_of_app. right. exact (Hall e He Hk).
        -- right. right. split; [discriminate | exact Hnz].
        -- right. right. split; [discriminate | exact Hv2].
Qed.

(** The reversed cursor grows at every call until the cursor is 0 again:
    a traversal ends. *)
Lemma scan_calls_ends (ty : dictType) (ds : list dict) :
  Forall (scan_state ty) ds ->
  forall v,
    0 <= v < 2 ^ 64 -> ds <> [] ->
    2 ^ 64 - rev v <= Z.of_nat (length ds) ->
    exists out, scan_calls ds v = Ok (out, 0).
Proof.
  induction 1 as [|d ds (Hty & Hinv & Hpl) _ IH]; intros v Hv Hne Hlen.
  - contradiction.
  - destruct (dictScan_call d v 0 Hinv Hpl Hv)
      as (vis & v1 & Hrun & Hv1 & Hprog & _).
    cbn [scan_calls]. rewrite Hrun. cbn [bind].
    destruct (Z.eqb_spec v1 0) as [Hz|Hnz].
    + exists vis. reflexivity.
    + destruct Hprog as [|Hprog]; [contradiction|].
      pose proof (rev_range v1) as Hr1.
      cbn [length] in Hlen.
      destruct (IH v1 Hv1) as (rest & Hrest).
      * intros ->. simpl in Hlen. lia.
      * lia.
      * rewrite Hrest. cbn [bind]. exists (vis ++ rest). reflexivity.
Qed.

(** C2.  A caller starts [dictScan] at cursor 0 and calls it again with
    the cursor returned until that cursor is 0, while the dictionary
    changes between the calls in any way the functions of dict.c allow
    (tables of any power-of-two sizes, larger or smaller than before,
    rehashing or not).  Every call returns, and the cursor is 0 again
    after [2^64] calls at most.  When the cursor is 0 again, every entry
    that was in the dictionary at each call has been visited, and for
    every key that was in the dictionary at each call an entry of that key
    has been visited. *)
Theorem dictScan_full_traversal (ty : dictType) (ds : list dict) :
  ds <> [] ->
  Forall (scan_state ty) ds ->
  exists out v,
    scan_calls ds 0 = Ok (out, v)
    /\ (2 ^ 64 <= Z.of_nat (length ds) -> v = 0)
    /\ (v = 0 ->
        (forall e, Forall (fun d => e ∈ dictEntries d) ds -> e ∈ out)
        /\ (forall k,
              Forall (fun d => exists e, e ∈ dictEntries d /\ key e = k) ds ->
              exists e, e ∈ out /\ key e = k)).
Proof.
  intros Hne Hds.
  assert (Hcov : forall k, exists out v,
            scan_calls ds 0 = Ok (out, v)
            /\ (v = 0 -> exists d, d ∈ ds
                  /\ forall e, e ∈ dictEntries d -> key e = k -> e ∈ out)).
  { intros k.
    destruct (scan_calls_spec ty k ds Hds 0 ltac:(lia)) as (out & v & Hrun & Hc).
    exists out, v. split; [exact Hrun|]. intros Hv.
    rewrite rev_0 in Hc. pose proof (rev_range (wrap64 (hashFunction ty k))).
    destruct (Hc ltac:(lia)) as [Hd|[[Hnil _]|[_ Hnz]]];
      [exact Hd | contradiction | contradiction]. }
  destruct (Hcov 0) as (out & v & Hrun & _).
  exists out, v. split; [exact Hrun|]. split; [|intros Hv; split].
  - intros Hlen.
    destruct (scan_calls_ends ty ds Hds 0 ltac:(lia) Hne) as (out' & Hrun').
    { rewrite rev_0. lia. }
    rewrite Hrun in Hrun'. injection Hrun' as _ ->. reflexivity.
  - intros e He.
    destruct (Hcov (key e)) as (out' & v' & Hrun' & Hc).
    rewrite Hrun in Hrun'. injection Hrun' as <- <-.
    destruct (Hc Hv) as (d & Hd & Hall).
    apply Hall; [|reflexivity].
    rewrite Forall_forall in He. exact (He d Hd).
  - intros k Hk.
    destruct (Hcov k) as (out' & v' & Hrun' & Hc).
    rewrite Hrun in Hrun'. injection Hrun' as <- <-.
    destruct (Hc Hv) as (d & Hd & Hall).
    rewrite Forall_forall in Hk. destruct (Hk d Hd) as (e & He & Hke).
    exists e. split; [exact (Hall e He Hke) | exact Hke].
Qed.

(** *** A traversal during which the table grows *)

(** [full_dict] after [dictAdd(d,4,14)], which starts the growth to 8
    buckets, and one [dictFind], which moves bucket 0. *)
Definition scan_d1 : dict :=
  {| type := plain_type;
     ht0 := {| table := Some [[]; [{| key := 1; val := 11 |}];
                              [{| key := 2; val := 12 |}];
                              [{| key := 3; val := 13 |}]];
               size := 4; sizemask := 3; used := 3 |};
     ht1 := {| table := Some [[{| key := 0; val := 10 |}]; []; []; [];
                              [{| key := 4; val := 14 |}]; []; []; []];
               size := 8; sizemask := 7; used := 2 |};
     rehashidx := 1; iterators := 0 |}.

(** After one more [dictFind]: bucket 1 has moved. *)
Definition scan_d2 : dict :=
  {| type := plain_type;
     ht0 := {| table := Some [[]; []; [{| key := 2; val := 12 |}];
                              [{| key := 3; val := 13 |}]];
               size := 4; sizemask := 3; used := 2 |};
     ht1 := {| table := Some [[{| key := 0; val := 10 |}];
                              [{| key := 1; val := 11 |}]; []; [];
                              [{| key := 4; val := 14 |}]; []; []; []];
               size := 8; sizemask := 7; used := 3 |};
     rehashidx := 2; iterators := 0 |}.

(** After two more: the rehash is over. *)
Definition scan_d3 : dict :=
  {| type := plain_type;
     ht0 := {| table := Some [[{| key := 0; val := 10 |}];
                              [{| key := 1; val := 11 |}];
                              [{| key := 2; val := 12 |}];
                              [{| key := 3; val := 13 |}];
                              [{| key := 4; val := 14 |}]; []; []; []];
               size := 8; sizemask := 7; used := 5 |};
     ht1 := _dictReset; rehashidx := -1; iterators := 0 |}.

Lemma scan_growth_run :
  let w0 := {| dict_can_resize := true; the_dict := full_dict |} in
  let w1 := {| dict_can_resize := true; the_dict := scan_d1 |} in
  let w2 := {| dict_can_resize := true; the_dict := scan_d2 |} in
  let w3 := {| dict_can_resize := true; the_dict := scan_d3 |} in
  run w0 (with_plenty [OpAdd 4 14; OpFind 0]) = Ok w1
  /\ run w1 (with_plenty [OpFind 0]) = Ok w2
  /\ run w2 (with_plenty [OpFind 0; OpFind 0]) = Ok w3.
Proof. repeat split; vm_compute; reflexivity. Qed.

Lemma placed_by_index (d : dict) (h : dictht) :
  (forall j b e, tbl h !! j = Some b -> e ∈ b ->
     Z.land (dictHashKey d (key e)) (sizemask h) = Z.of_nat j) ->
  ht_placed d h.
Proof.
  intros Hj i b e Hb He. apply lookupZ_Ok in Hb as [Hi Hb].
  rewrite (Hj _ _ _ Hb He). lia.
Qed.

Ltac placed_by_cases :=
  apply placed_by_index; unfold tbl, dictHashKey; simpl;
  let j := fresh "j" in let b := fresh "b" in let e := fresh "e" in
  let Hb := fresh "Hb" in let He := fresh "He" in
  intros j b e Hb He;
  repeat (destruct j as [|j]; simpl in Hb;
          [injection Hb as <-;
           repeat (apply elem_of_cons in He as [->|He]; [reflexivity|]);
           apply elem_of_nil in He; contradiction|]);
  discriminate.

Ltac table_inv k :=
  unfold ht_inv; simpl;
  split; [reflexivity|]; split; [exists k; split; [lia | reflexivity]|];
  split; reflexivity.

Lemma full_dict_state : scan_state plain_type full_dict.
Proof.
  split; [reflexivity|]. split.
  - split; [table_inv 2|]. split; [exact _dictReset_inv|].
    split; [simpl; lia|]. split; [reflexivity|]. intros H. contradiction.
  - split; [placed_by_cases|]. intros i b e Hb. unfold tbl in Hb. simpl in Hb.
    apply lookupZ_lt in Hb. simpl in Hb. lia.
Qed.

Lemma scan_d1_state : scan_state plain_type scan_d1.
Proof.
  split; [reflexivity|]. split.
  - split; [table_inv 2|]. split; [table_inv 3|].
    split; [simpl; lia|]. split; [discriminate|]. intros _.
    split; [simpl; lia|]. split; [discriminate|]. split; [discriminate|].
    simpl. intros i Hi. replace i with 0 by lia. reflexivity.
  - split; placed_by_cases.
Qed.

Lemma scan_d2_state : scan_state plain_type scan_d2.
Proof.
  split; [reflexivity|]. split.
  - split; [table_inv 2|]. split; [table_inv 3|].
    split; [simpl; lia|]. split; [discriminate|]. intros _.
    split; [simpl; lia|]. split; [discriminate|]. split; [discriminate|].
    simpl. intros i Hi.
    assert (Hc : i = 0 \/ i = 1) by lia. destruct Hc as [->| ->]; reflexivity.
  - split; placed_by_cases.
Qed.

Lemma scan_d3_state : scan_state plain_type scan_d3.
Proof.
  split; [reflexivity|]. split.
  - split; [table_inv 3|]. split; [exact _dictReset_inv|].
    split; [simpl; lia|]. split; [reflexivity|]. intros H. contradiction.
  - split; [placed_by_cases|]. intros i b e Hb. unfold tbl in Hb. simpl in Hb.
    apply lookupZ_lt in Hb. simpl in Hb. lia.
Qed.

Lemma dictScan_full_traversal_witness :
  exists out,
    scan_calls [full_dict; scan_d1; scan_d2; scan_d3; scan_d3] 0 = Ok (out, 0)
    /\ {| key := 3; val := 13 |} ∈ out.
Proof.
  destruct (dictScan_full_traversal plain_type
              [full_dict; scan_d1; scan_d2; scan_d3; scan_d3])
    as (out & v & Hrun & _ & Hcov).
  - discriminate.
  - repeat apply Forall_cons_2; [exact full_dict_state | exact scan_d1_state
      | exact scan_d2_state | exact scan_d3_state | exact scan_d3_state
      | apply Forall_nil_2].
  - assert (Hv : scan_calls [full_dict; scan_d1; scan_d2; scan_d3; scan_d3] 0
                 = Ok ([{| key := 0; val := 10 |}; {| key := 2; val := 12 |};
                        {| key := 1; val := 11 |}; {| key := 3; val := 13 |}], 0))
      by (vm_compute; reflexivity).
    rewrite Hv in Hrun. injection Hrun as <- <-.
    exists [{| key := 0; val := 10 |}; {| key := 2; val := 12 |};
            {| key := 1; val := 11 |}; {| key := 3; val := 13 |}].
    split; [exact Hv|].
    apply (proj1 (Hcov eq_refl)).
    repeat apply Forall_cons_2; try apply Forall_nil_2;
      apply list_elem_of_In; simpl; tauto.
Defined.

(** ** The dictionary as a set of entries *)

(** The comparison every chain walk makes between the key looked for and
    the key of an entry, as a relation on keys. *)
Definition key_eq (ty : dictType) (k1 k2 : Z) : bool :=
  (k1 =? k2)
  || match keyCompare ty with Some f => f k1 k2 | None => k1 =? k2 end.

Lemma key_matches_key_eq (d : dict) (k : Z) (e : dictEntry) :
  key_matches d k e = key_eq (type d) k (key e).
Proof. reflexivity. Qed.

(** What dict.c expects of the callbacks of a [dictType]: keys that
    compare equal have the same hash, the comparison is symmetric and
    transitive, and the copy [keyDup] makes of a key compares equal to
    it. *)
Record lawful (ty : dictType) : Prop := {
  law_hash : forall k1 k2,
    key_eq ty k1 k2 = true ->
    wrap64 (hashFunction ty k1) = wrap64 (hashFunction ty k2);
  law_sym : forall k1 k2, key_eq ty k1 k2 = true -> key_eq ty k2 k1 = true;
  law_trans : forall k1 k2 k3,
    key_eq ty k1 k2 = true -> key_eq ty k2 k3 = true -> key_eq ty k1 k3 = true;
  law_dup : forall k,
    key_eq ty k (match keyDup ty with Some f => f k | None => k end) = true
}.

(** Keys compared by identity and not copied are lawful. *)
Lemma identity_lawful (ty : dictType) :
  keyCompare ty = None -> keyDup ty = None -> lawful ty.
Proof.
  intros Hc Hd.
  assert (H : forall k1 k2, key_eq ty k1 k2 = true <-> k1 = k2).
  { intros k1 k2. unfold key_eq. rewrite Hc, orb_diag. apply Z.eqb_eq. }
  split.
  - intros k1 k2 Hk. apply H in Hk. subst. reflexivity.
  - intros k1 k2 Hk. apply H in Hk. apply H. auto.
  - intros k1 k2 k3 H1 H2. apply H in H1. apply H in H2. apply H. congruence.
  - intros k. rewrite Hd. apply H. reflexivity.
Qed.

(** No entry of the dictionary has a key equal to [k]. *)
Definition absent (d : dict) (k : Z) : Prop :=
  forall e, e ∈ dictEntries d -> key_eq (type d) k (key e) = false.

Lemma absent_perm (d d' : dict) (k : Z) :
  type d' = type d -> dictEntries d' ≡ₚ dictEntries d ->
  absent d k -> absent d' k.
Proof.
  intros Hty Hp Ha e He. rewrite Hty. apply Ha. rewrite <- Hp. exact He.
Qed.

Lemma bucket_entries (d : dict) (t : nat) (tb : list (list dictEntry))
    (i : Z) (he : list dictEntry) (e : dictEntry) :
  table (ht d t) = Some tb -> lookupZ tb i = Ok he -> e ∈ he ->
  e ∈ dictEntries d.
Proof.
  intros Ht Hl He. unfold dictEntries.
  apply elem_of_app. destruct t as [|t]; [left | right];
    unfold ht_entries, tbl; simpl in Ht; rewrite Ht; simpl;
    rewrite (concat_bucket _ _ _ Hl); apply elem_of_app; left; exact He.
Qed.

(** With every entry in the bucket of its hash, a key that matches no
    entry of the chains a lookup walks matches no entry at all. *)
Lemma no_match_absent (d : dict) (k : Z) :
  dict_inv d -> dict_placed d -> lawful (type d) ->
  no_match d k (dictHashKey d k) -> absent d k.
Proof.
  intros Hinv [Hp0 Hp1] Hlaw Hnm e He.
  destruct (key_eq (type d) k (key e)) eqn:Hk; [|reflexivity].
  destruct (dictEntries_bucket d e He) as (t & tb & i & b & Ht01 & Ht & Hb & Hin).
  assert (Hs : searched d t).
  { destruct Ht01 as [->| ->]; [left; reflexivity|]. right.
    split; [reflexivity|]. intros Hidle.
    destruct Hinv as (_ & _ & _ & H1 & _). simpl in Ht.
    rewrite (H1 Hidle) in Ht. discriminate. }
  assert (Hi : Z.land (dictHashKey d (key e)) (sizemask (ht d t)) = i).
  { destruct Ht01 as [->| ->]; [apply (Hp0 i b e) | apply (Hp1 i b e)];
      try exact Hin; unfold tbl; simpl in Ht |- *; rewrite Ht; exact Hb. }
  assert (Hh : dictHashKey d k = dictHashKey d (key e)).
  { unfold dictHashKey. apply (law_hash _ Hlaw). exact Hk. }
  rewrite <- Hh in Hi. rewrite <- Hi in Hb.
  pose proof (Hnm t tb b e Hs Ht Hb Hin) as Hf.
  rewrite key_matches_key_eq in Hf. congruence.
Qed.

Lemma chain_find_None (d : dict) (k : Z) (he : list dictEntry) :
  chain_find d k he = None <-> forall e, e ∈ he -> key_matches d k e = false.
Proof. rewrite chain_find_index. apply chain_index_None. Qed.

(** [dictFind], exactly: NULL when no entry has a key equal to [k], an
    entry of the dictionary with a key equal to [k] otherwise. *)
Lemma dictFind_sem (d : dict) (k : Z) :
  dict_inv d -> dict_placed d -> lawful (type d) ->
  exists d' r,
    dictFind d k = Ok (d', r)
    /\ same_content d d'
    /\ (iterators d <> 0 \/ rehashidx d = -1 -> d' = d)
    /\ match r with
       | None => absent d k
       | Some e => e ∈ dictEntries d /\ key_eq (type d) k (key e) = true
       end.
Proof.
  intros Hinv Hpl Hlaw.
  destruct (dictFind_spec d k Hinv) as (d' & r & Hrun & Hsc & Hsame & Hsome).
  exists d', r. split; [exact Hrun|]. split; [exact Hsc|]. split; [exact Hsame|].
  pose proof Hsc as (Hinv' & Hty & _ & Hperm & Hpl').
  destruct r as [e|].
  { destruct (Hsome e eq_refl) as [He Hm]. rewrite Hperm in He. auto. }
  (* the lookup found nothing *)
  unfold dictFind in Hrun.
  pose proof Hinv as (Hi0 & Hi1 & Hsum & _).
  pose proof (ht_inv_used_nonneg _ Hi0) as Hu0.
  pose proof (ht_inv_used_nonneg _ Hi1) as Hu1.
  rewrite wrap64_small in Hrun by lia.
  destruct (Z.eqb_spec (used (ht0 d) + used (ht1 d)) 0) as [Hz|Hne].
  { intros e He. pose proof (dict_inv_count d Hinv) as Hc.
    destruct (dictEntries d); [apply elem_of_nil in He; contradiction|].
    simpl in Hc. lia. }
  destruct (rehash_step_if d Hinv) as (d1 & Hstep & Hsc1 & _).
  rewrite Hstep in Hrun. cbn [bind] in Hrun.
  pose proof Hsc1 as (Hinv1 & Hty1 & _ & Hperm1 & Hpl1).
  pose proof (same_content_count _ _ Hinv Hsc1) as Hcnt1.
  apply (absent_perm d1 d k); [congruence | symmetry; exact Hperm1 |].
  apply no_match_absent; [exact Hinv1 | exact (Hpl1 Hpl) | rewrite Hty1; exact Hlaw |].
  destruct (chain_at_spec d1 0 (dictHashKey d1 k) Hinv1
              (dict_inv_table0 d1 Hinv1 ltac:(lia)))
    as (tb0 & idx0 & he0 & Hc0 & Ht0 & Hi0' & Hl0).
  rewrite Hc0 in Hrun. cbn [bind] in Hrun.
  destruct (chain_find d1 k he0) as [e|] eqn:Hf0; [discriminate|].
  destruct (dictIsRehashing d1) eqn:Hre; cbn [negb] in Hrun.
  2:{ apply dictIsRehashing_false in Hre.
      intros t tb he e [->|[_ Hn]] Ht Hl Hin; [|contradiction].
      rewrite Ht0 in Ht. injection Ht as <-.
      rewrite <- Hi0', Hl0 in Hl. injection Hl as <-.
      exact (proj1 (chain_find_None d1 k he0) Hf0 e Hin). }
  apply dictIsRehashing_true in Hre.
  assert (Hn1 : table (ht d1 1) <> None).
  { destruct Hinv1 as (_ & _ & _ & _ & H). destruct (H Hre) as (_ & _ & ? & _).
    assumption. }
  destruct (chain_at_spec d1 1 (dictHashKey d1 k) Hinv1 Hn1)
    as (tb1 & idx1 & he1 & Hc1 & Ht1 & Hi1' & Hl1).
  rewrite Hc1 in Hrun. cbn [bind] in Hrun.
  destruct (chain_find d1 k he1) as [e|] eqn:Hf1; [discriminate|].
  intros t tb he e [->|[-> _]] Ht Hl Hin.
  - rewrite Ht0 in Ht. injection Ht as <-.
    rewrite <- Hi0', Hl0 in Hl. injection Hl as <-.
    exact (proj1 (chain_find_None d1 k he0) Hf0 e Hin).
  - rewrite Ht1 in Ht. injection Ht as <-.
    rewrite <- Hi1', Hl1 in Hl. injection Hl as <-.
    exact (proj1 (chain_find_None d1 k he1) Hf1 e Hin).
Qed.

(** *** Entry pointers *)

(** The [dictEntry*] [r] points to the entry [e] of [d]. *)
Definition ref_at (d : dict) (r : entry_ref) (e : dictEntry) : Prop :=
  exists tb b,
    table (ht d (e_table r)) = Some tb
    /\ lookupZ tb (e_bucket r) = Ok b
    /\ b !! e_pos r = Some e.

Lemma ref_at_valid (d : dict) (r : entry_ref) (e : dictEntry) :
  ref_at d r e -> ref_valid d r.
Proof. intros (tb & b & H). exists tb, b, e. exact H. Qed.

Lemma ref_at_entry (d : dict) (r : entry_ref) (e : dictEntry) :
  ref_at d r e -> e ∈ dictEntries d.
Proof.
  intros (tb & b & Ht & Hb & He).
  apply (bucket_entries d (e_table r) tb (e_bucket r) b e Ht Hb).
  apply list_elem_of_lookup. eauto.
Qed.

Lemma chain_at_Ok (d : dict) (t : nat) (h idx : Z) (he : list dictEntry) :
  chain_at d t h = Ok (idx, he) ->
  exists tb, table (ht d t) = Some tb /\ lookupZ tb idx = Ok he.
Proof.
  unfold chain_at, the_table. destruct (table (ht d t)) as [tb|]; [|discriminate].
  cbn [bind]. destruct (lookupZ tb _) as [b|] eqn:Hb; [|discriminate].
  cbn [bind]. intros [= <- <-]. eauto.
Qed.

(** The entry [_dictKeyIndex] reports in [*existing] is an entry of the
    dictionary whose key is equal to [k]. *)
Lemma _dictKeyIndex_existing (c : env) (d d' : dict) (k h idx : Z)
    (r : entry_ref) :
  _dictKeyIndex c d k h = Ok (d', idx, Some r) ->
  exists e, ref_at d' r e /\ key_matches d' k e = true.
Proof.
  unfold _dictKeyIndex.
  destruct (_dictExpandIfNeeded c d) as [[d1 r1]|] eqn:Hx; [|discriminate].
  cbn [bind]. destruct (r1 =? DICT_ERR); [discriminate|].
  destruct (chain_at d1 0 h) as [[idx0 he0]|] eqn:Hc0; [|discriminate].
  cbn [bind]. destruct (chain_at_Ok _ _ _ _ _ Hc0) as (tb0 & Ht0 & Hl0).
  destruct (chain_index d1 k he0) as [p|] eqn:Hi0.
  { intros [= <- <- <-].
    destruct (chain_index_Some _ _ _ _ Hi0) as (e & Hp & Hm).
    exists e. split; [|exact Hm]. exists tb0, he0. auto. }
  destruct (negb (dictIsRehashing d1)); [discriminate|].
  destruct (chain_at d1 1 h) as [[idx1 he1]|] eqn:Hc1; [|discriminate].
  cbn [bind]. destruct (chain_at_Ok _ _ _ _ _ Hc1) as (tb1 & Ht1 & Hl1).
  destruct (chain_index d1 k he1) as [p|] eqn:Hi1; [|discriminate].
  intros [= <- <- <-].
  destruct (chain_index_Some _ _ _ _ Hi1) as (e & Hp & Hm).
  exists e. split; [|exact Hm]. exists tb1, he1. auto.
Qed.

Lemma dictAddRaw_existing (c : env) (d d' : dict) (k : Z) (r : entry_ref) :
  dictAddRaw c d k = Ok (d', None, Some r) ->
  exists e, ref_at d' r e /\ key_matches d' k e = true.
Proof.
  unfold dictAddRaw.
  destruct (if dictIsRehashing d then _dictRehashStep d else Ok d) as [d1|];
    [|discriminate].
  cbn [bind].
  destruct (_dictKeyIndex c d1 k (dictHashKey d1 k)) as [[[d2 idx] ex]|] eqn:Hk;
    [|discriminate].
  cbn [bind]. destruct (idx =? -1).
  - intros [= <- ->]. exact (_dictKeyIndex_existing _ _ _ _ _ _ _ Hk).
  - destruct (zmalloc_entry c); [|discriminate]. cbn [bind].
    destruct (the_table _) as [tb|]; [|discriminate]. cbn [bind].
    destruct (lookupZ tb idx) as [b|]; [|discriminate]. cbn [bind].
    discriminate.
Qed.

(** The entry [dictAddRaw] returns is the one it linked in. *)
Lemma dictAddRaw_new (c : env) (d d' : dict) (k : Z) (r : entry_ref)
    (ex : option entry_ref) :
  dictAddRaw c d k = Ok (d', Some r, ex) ->
  ref_at d' r {| key := dictSetKeyOf d' k; val := 0 |}.
Proof.
  unfold dictAddRaw.
  destruct (if dictIsRehashing d then _dictRehashStep d else Ok d) as [d1|];
    [|discriminate].
  cbn [bind].
  destruct (_dictKeyIndex c d1 k (dictHashKey d1 k)) as [[[d2 idx] ex']|];
    [|discriminate].
  cbn [bind]. destruct (idx =? -1); [discriminate|].
  destruct (zmalloc_entry c); [|discriminate]. cbn [bind].
  unfold the_table.
  destruct (table (ht d2 (if dictIsRehashing d2 then 1%nat else 0%nat)))
    as [tb|] eqn:Ht; [|discriminate].
  cbn [bind]. destruct (lookupZ tb idx) as [b|] eqn:Hb; [|discriminate].
  cbn [bind]. intros [= <- <- <-].
  set (t := if dictIsRehashing d2 then 1%nat else 0%nat) in *.
  pose proof (lookupZ_lt _ _ _ Hb) as Hi.
  exists (insertZ idx ({| key := dictSetKeyOf d2 k; val := 0 |} :: b) tb),
         ({| key := dictSetKeyOf d2 k; val := 0 |} :: b).
  simpl. rewrite ht_set_ht. simpl.
  split; [reflexivity|]. split; [apply lookupZ_insertZ_eq; lia|].
  clearbody t. destruct t; reflexivity.
Qed.

(** [dictSetVal] through a pointer to [e]: the entry keeps its key and
    takes the new value; the others are untouched. *)
Lemma dictSetVal_sem (d : dict) (r : entry_ref) (v : Z) (e : dictEntry) :
  dict_inv d -> ref_at d r e ->
  exists d' rest,
    dictSetVal d r v = Ok d'
    /\ dict_inv d' /\ type d' = type d /\ iterators d' = iterators d
    /\ rehashidx d' = rehashidx d
    /\ (dict_placed d -> dict_placed d')
    /\ dictEntries d ≡ₚ e :: rest
    /\ dictEntries d' ≡ₚ {| key := key e; val := dictSetValOf d v |} :: rest.
Proof.
  intros Hinv Hat.
  destruct (dictSetVal_spec d r v Hinv (ref_at_valid _ _ _ Hat))
    as (d' & Hrun & Hinv' & Hty & Hit & Hri & _ & Hpl).
  destruct Hat as (tb & b & Ht & Hb & He).
  pose proof Hrun as Hrun'.
  unfold dictSetVal, the_table in Hrun'. rewrite Ht in Hrun'.
  cbn [bind] in Hrun'. rewrite Hb in Hrun'. cbn [bind] in Hrun'.
  rewrite He in Hrun'. injection Hrun' as Hd'.
  set (e' := {| key := key e; val := dictSetValOf d v |}) in *.
  destruct (update_bucket_entries d (e_table r) tb (e_bucket r) b
              (<[e_pos r := e']> b) (used (ht d (e_table r))) Ht Hb)
    as (R & H1 & H2).
  change (set_ht d (e_table r)
            (update_bucket (ht d (e_table r)) tb (e_bucket r)
               (<[e_pos r := e']> b) (used (ht d (e_table r)))))
    with (set_ht d (e_table r)
            (set_table (ht d (e_table r))
               (insertZ (e_bucket r) (<[e_pos r := e']> b) tb))) in H2.
  rewrite Hd' in H2.
  exists d', (take (e_pos r) b ++ drop (S (e_pos r)) b ++ R).
  split; [exact Hrun|]. split; [exact Hinv'|]. split; [exact Hty|].
  split; [exact Hit|]. split; [exact Hri|]. split; [exact Hpl|].
  pose proof (lookup_lt_Some _ _ _ He) as Hlt.
  split.
  - rewrite H1. rewrite <- (take_drop_middle b (e_pos r) e He) at 1.
    rewrite <- app_assoc. simpl. symmetry. apply Permutation_middle.
  - rewrite H2. rewrite insert_take_drop by exact Hlt.
    rewrite <- app_assoc. simpl. symmetry. apply Permutation_middle.
Qed.

(** *** Insertion, replacement and removal on the set of entries *)

Lemma lawful_dup_hash (d : dict) (k : Z) :
  lawful (type d) -> dictHashKey d (dictSetKeyOf d k) = dictHashKey d k.
Proof.
  intros Hlaw. unfold dictHashKey, dictSetKeyOf. symmetry.
  apply (law_hash _ Hlaw). apply (law_dup _ Hlaw).
Qed.

Lemma no_match_absent_from (d d1 : dict) (k : Z) :
  dict_placed d -> lawful (type d) ->
  same_content d d1 -> no_match d1 k (dictHashKey d k) -> absent d k.
Proof.
  intros Hpl Hlaw (Hinv1 & Hty1 & _ & Hperm1 & Hpl1) Hnm.
  apply (absent_perm d1 d k); [congruence | symmetry; exact Hperm1|].
  apply no_match_absent; [exact Hinv1 | exact (Hpl1 Hpl) | rewrite Hty1; exact Hlaw|].
  rewrite (dictHashKey_ext d d1 k Hty1). exact Hnm.
Qed.

(** [dictAdd]: the key is either present, and the call returns
    [DICT_ERR] with the entries as they were, or absent, and the call
    returns [DICT_OK] with one entry more, of key [keyDup(k)] and value
    [valDup(v)]. *)
Lemma dictAdd_sem (c : env) (d : dict) (k v : Z) :
  dict_inv d -> dict_placed d -> lawful (type d) -> allocates c ->
  used (ht0 d) + used (ht1 d) < 2 ^ 59 ->
  exists d' r,
    dictAdd c d k v = Ok (d', r)
    /\ dict_inv d' /\ dict_placed d' /\ type d' = type d
    /\ iterators d' = iterators d
    /\ ((r = DICT_ERR /\ ~ absent d k /\ dictEntries d' ≡ₚ dictEntries d)
        \/ (r = DICT_OK /\ absent d k
            /\ dictEntries d'
               ≡ₚ {| key := dictSetKeyOf d k; val := dictSetValOf d v |}
                  :: dictEntries d)).
Proof.
  intros Hinv Hpl Hlaw Hmem Hroom. unfold dictAdd.
  destruct (dictAddRaw_spec c d k Hinv Hmem Hroom)
    as (d1 & en & ex & Hadd & Hinv1 & Hty1 & Hit1 & _ & Hcases).
  rewrite Hadd. cbn [bind].
  destruct Hcases
    as [(-> & Hsc & [[_ Hbig]|(r & -> & _)])
       |(r & d0 & -> & -> & _ & Hsc0 & Hnm & Hperm & Hplaced)]; [lia| |].
  - destruct (dictAddRaw_existing _ _ _ _ _ Hadd) as (e & Hat & Hm).
    destruct Hsc as (_ & _ & _ & Hp & Hpl1).
    exists d1, DICT_ERR. split; [reflexivity|]. split; [exact Hinv1|].
    split; [exact (Hpl1 Hpl)|]. split; [exact Hty1|]. split; [exact Hit1|].
    left. split; [reflexivity|]. split; [|exact Hp].
    intros Hab. apply ref_at_entry in Hat. rewrite Hp in Hat.
    rewrite key_matches_key_eq, Hty1, (Hab e Hat) in Hm. discriminate.
  - pose proof (dictAddRaw_new _ _ _ _ _ _ Hadd) as Hat.
    destruct (dictSetVal_sem d1 r v _ Hinv1 Hat)
      as (d2 & rest & Hset & Hinv2 & Hty2 & Hit2 & _ & Hpl2 & Hp1 & Hp2).
    rewrite Hset. cbn [bind].
    exists d2, DICT_OK. split; [reflexivity|]. split; [exact Hinv2|].
    split; [exact (Hpl2 (Hplaced Hpl (lawful_dup_hash d k Hlaw)))|].
    split; [congruence|]. split; [congruence|].
    right. split; [reflexivity|].
    split; [exact (no_match_absent_from d d0 k Hpl Hlaw Hsc0 Hnm)|].
    rewrite Hp2. simpl.
    assert (Hk : dictSetKeyOf d1 k = dictSetKeyOf d k)
      by (unfold dictSetKeyOf; rewrite Hty1; reflexivity).
    assert (Hv : dictSetValOf d1 v = dictSetValOf d v)
      by (unfold dictSetValOf; rewrite Hty1; reflexivity).
    rewrite Hk, Hv. apply perm_skip.
    rewrite Hperm, Hk in Hp1. unfold new_entry in Hp1.
    symmetry. exact (Permutation_cons_inv Hp1).
Qed.

(** [dictReplace]: for an absent key it returns 1 and adds the entry; for
    a present key it returns 0 and writes the value into the entry found,
    which keeps its own key. *)
Lemma dictReplace_sem (c : env) (d : dict) (k v : Z) :
  dict_inv d -> dict_placed d -> lawful (type d) -> allocates c ->
  used (ht0 d) + used (ht1 d) < 2 ^ 59 ->
  exists d' r,
    dictReplace c d k v = Ok (d', r)
    /\ dict_inv d' /\ dict_placed d' /\ type d' = type d
    /\ iterators d' = iterators d
    /\ ((r = 0
         /\ exists e rest,
              key_eq (type d) k (key e) = true
              /\ dictEntries d ≡ₚ e :: rest
              /\ dictEntries d'
                 ≡ₚ {| key := key e; val := dictSetValOf d v |} :: rest)
        \/ (r = 1 /\ absent d k
            /\ dictEntries d'
               ≡ₚ {| key := dictSetKeyOf d k; val := dictSetValOf d v |}
                  :: dictEntries d)).
Proof.
  intros Hinv Hpl Hlaw Hmem Hroom. unfold dictReplace.
  destruct (dictAddRaw_spec c d k Hinv Hmem Hroom)
    as (d1 & en & ex & Hadd & Hinv1 & Hty1 & Hit1 & _ & Hcases).
  rewrite Hadd. cbn [bind].
  assert (Hv : dictSetValOf d1 v = dictSetValOf d v)
    by (unfold dictSetValOf; rewrite Hty1; reflexivity).
  destruct Hcases
    as [(-> & Hsc & [[_ Hbig]|(r & -> & _)])
       |(r & d0 & -> & -> & _ & Hsc0 & Hnm & Hperm & Hplaced)]; [lia| |].
  - destruct (dictAddRaw_existing _ _ _ _ _ Hadd) as (e & Hat & Hm).
    destruct Hsc as (_ & _ & _ & Hp & Hpl1).
    destruct (dictSetVal_sem d1 r v _ Hinv1 Hat)
      as (d2 & rest & Hset & Hinv2 & Hty2 & Hit2 & _ & Hpl2 & Hp1 & Hp2).
    rewrite Hset. cbn [bind].
    exists d2, 0. split; [reflexivity|]. split; [exact Hinv2|].
    split; [exact (Hpl2 (Hpl1 Hpl))|]. split; [congruence|]. split; [congruence|].
    left. split; [reflexivity|]. exists e, rest.
    split; [rewrite key_matches_key_eq, Hty1 in Hm; exact Hm|].
    split; [rewrite <- Hp; exact Hp1|]. rewrite <- Hv. exact Hp2.
  - pose proof (dictAddRaw_new _ _ _ _ _ _ Hadd) as Hat.
    destruct (dictSetVal_sem d1 r v _ Hinv1 Hat)
      as (d2 & rest & Hset & Hinv2 & Hty2 & Hit2 & _ & Hpl2 & Hp1 & Hp2).
    rewrite Hset. cbn [bind].
    exists d2, 1. split; [reflexivity|]. split; [exact Hinv2|].
    split; [exact (Hpl2 (Hplaced Hpl (lawful_dup_hash d k Hlaw)))|].
    split; [congruence|]. split; [congruence|].
    right. split; [reflexivity|].
    split; [exact (no_match_absent_from d d0 k Hpl Hlaw Hsc0 Hnm)|].
    rewrite Hp2. simpl.
    assert (Hk : dictSetKeyOf d1 k = dictSetKeyOf d k)
      by (unfold dictSetKeyOf; rewrite Hty1; reflexivity).
    rewrite Hk, Hv. apply perm_skip.
    rewrite Hperm, Hk in Hp1. unfold new_entry in Hp1.
    symmetry. exact (Permutation_cons_inv Hp1).
Qed.

(** [dictGenericDelete]: NULL with the entries as they were when the key
    is absent; otherwise an entry of that key, which has left the
    dictionary. *)
Lemma dictGenericDelete_sem (d : dict) (k : Z) (nofree : bool) :
  dict_inv d -> dict_placed d -> lawful (type d) ->
  exists d' he,
    dictGenericDelete d k nofree = Ok (d', he)
    /\ dict_inv d' /\ dict_placed d' /\ type d' = type d
    /\ iterators d' = iterators d
    /\ match he with
       | None => absent d k /\ dictEntries d' ≡ₚ dictEntries d
       | Some e =>
           key_eq (type d) k (key e) = true
           /\ dictEntries d ≡ₚ e :: dictEntries d'
       end.
Proof.
  intros Hinv Hpl Hlaw. unfold dictGenericDelete.
  pose proof Hinv as (Hi0 & Hi1 & _).
  pose proof (ht_inv_used_nonneg _ Hi0) as Hu0.
  pose proof (ht_inv_used_nonneg _ Hi1) as Hu1.
  destruct ((used (ht0 d) =? 0) && (used (ht1 d) =? 0)) eqn:Hempty.
  { exists d, None. split; [reflexivity|]. split; [exact Hinv|].
    split; [exact Hpl|]. split; [reflexivity|]. split; [reflexivity|].
    split; [|reflexivity].
    apply andb_true_iff in Hempty as [H0 H1].
    apply Z.eqb_eq in H0. apply Z.eqb_eq in H1.
    intros e He. pose proof (dict_inv_count d Hinv) as Hc.
    destruct (dictEntries d); [apply elem_of_nil in He; contradiction|].
    simpl in Hc. lia. }
  assert (Hne : used (ht0 d) + used (ht1 d) <> 0).
  { apply andb_false_iff in Hempty as [H|H]; apply Z.eqb_neq in H; lia. }
  destruct (rehash_step_if d Hinv) as (d1 & Hstep & Hsc1 & _).
  rewrite Hstep. cbn [bind].
  pose proof Hsc1 as (Hinv1 & Hty1 & Hits1 & Hperm1 & Hpl1).
  pose proof (same_content_count _ _ Hinv Hsc1) as Hcnt1.
  pose proof (dict_inv_table0 d1 Hinv1 ltac:(lia)) as Hn0.
  destruct (unlink_in_spec d1 0 (dictHashKey d1 k) k Hinv1 Hn0)
    as (r0 & Hr0 & Hs0).
  rewrite Hr0. cbn [bind].
  destruct r0 as [[d2 e]|].
  { destruct Hs0 as (Hinv2 & Hty2 & Hits2 & _ & Hm & Hperm2 & Hpl2).
    exists d2, (Some e). split; [reflexivity|]. split; [exact Hinv2|].
    split; [exact (Hpl2 (Hpl1 Hpl))|]. split; [congruence|]. split; [congruence|].
    split; [rewrite key_matches_key_eq, Hty1 in Hm; exact Hm|].
    rewrite <- Hperm1, Hperm2. reflexivity. }
  destruct (dictIsRehashing d1) eqn:Hre; cbn [negb].
  2:{ apply dictIsRehashing_false in Hre.
      exists d1, None. split; [reflexivity|]. split; [exact Hinv1|].
      split; [exact (Hpl1 Hpl)|]. split; [exact Hty1|]. split; [exact Hits1|].
      split; [|exact Hperm1].
      apply (no_match_absent_from d d1 k Hpl Hlaw Hsc1).
      rewrite <- (dictHashKey_ext d d1 k Hty1).
      intros t tb he e [->|[_ Hn]] Ht Hl Hin; [|contradiction].
      exact (Hs0 tb he e Ht Hl Hin). }
  apply dictIsRehashing_true in Hre.
  assert (Hn1 : table (ht d1 1) <> None).
  { destruct Hinv1 as (_ & _ & _ & _ & H). destruct (H Hre) as (_ & _ & ? & _).
    assumption. }
  destruct (unlink_in_spec d1 1 (dictHashKey d1 k) k Hinv1 Hn1)
    as (r1 & Hr1 & Hs1).
  rewrite Hr1. cbn [bind].
  destruct r1 as [[d2 e]|].
  { destruct Hs1 as (Hinv2 & Hty2 & Hits2 & _ & Hm & Hperm2 & Hpl2).
    exists d2, (Some e). split; [reflexivity|]. split; [exact Hinv2|].
    split; [exact (Hpl2 (Hpl1 Hpl))|]. split; [congruence|]. split; [congruence|].
    split; [rewrite key_matches_key_eq, Hty1 in Hm; exact Hm|].
    rewrite <- Hperm1, Hperm2. reflexivity. }
  exists d1, None. split; [reflexivity|]. split; [exact Hinv1|].
  split; [exact (Hpl1 Hpl)|]. split; [exact Hty1|]. split; [exact Hits1|].
  split; [|exact Hperm1].
  apply (no_match_absent_from d d1 k Hpl Hlaw Hsc1).
  rewrite <- (dictHashKey_ext d d1 k Hty1).
  intros t tb he e [->|[-> _]] Ht Hl Hin.
  - exact (Hs0 tb he e Ht Hl Hin).
  - exact (Hs1 tb he e Ht Hl Hin).
Qed.

(** *** Distinct keys *)

(** No two entries of the list have equal keys. *)
Fixpoint distinct_keys (ty : dictType) (l : list dictEntry) : Prop :=
  match l with
  | [] => True
  | e :: l => (forall x, x ∈ l -> key_eq ty (key e) (key x) = false)
              /\ distinct_keys ty l
  end.

Lemma key_eq_refl (ty : dictType) (k : Z) : key_eq ty k k = true.
Proof. unfold key_eq. rewrite Z.eqb_refl. reflexivity. Qed.

Lemma key_eq_false_sym (ty : dictType) (k1 k2 : Z) :
  lawful ty -> key_eq ty k1 k2 = false -> key_eq ty k2 k1 = false.
Proof.
  intros Hlaw H. destruct (key_eq ty k2 k1) eqn:E; [|reflexivity].
  rewrite (law_sym _ Hlaw _ _ E) in H. discriminate.
Qed.

Lemma distinct_keys_perm (ty : dictType) (l l' : list dictEntry) :
  lawful ty -> l ≡ₚ l' -> distinct_keys ty l -> distinct_keys ty l'.
Proof.
  intros Hlaw Hp. induction Hp as [|x l l' Hp IH|x y l|l l' l'' _ IH1 _ IH2].
  - auto.
  - intros [Hx Hd]. split; [|auto].
    intros z Hz. apply Hx. rewrite Hp. exact Hz.
  - intros [Hy [Hx Hd]]. split; [|split].
    + intros z Hz. apply elem_of_cons in Hz as [->|Hz]; [|auto].
      apply key_eq_false_sym; [exact Hlaw|]. apply Hy. apply list_elem_of_here.
    + intros z Hz. apply Hy. apply list_elem_of_further. exact Hz.
    + exact Hd.
  - auto.
Qed.

(** Two entries of a list of distinct keys whose keys are both equal to
    [k] are one entry. *)
Lemma distinct_keys_unique (ty : dictType) (l : list dictEntry) (k : Z)
    (e1 e2 : dictEntry) :
  lawful ty -> distinct_keys ty l ->
  e1 ∈ l -> e2 ∈ l ->
  key_eq ty k (key e1) = true -> key_eq ty k (key e2) = true -> e1 = e2.
Proof.
  intros Hlaw Hd H1 H2 Hk1 Hk2.
  assert (H12 : key_eq ty (key e1) (key e2) = true)
    by (eapply (law_trans _ Hlaw); [apply (law_sym _ Hlaw); exact Hk1 | exact Hk2]).
  assert (H21 : key_eq ty (key e2) (key e1) = true)
    by (apply (law_sym _ Hlaw); exact H12).
  induction l as [|x l IH]; [apply elem_of_nil in H1; contradiction|].
  destruct Hd as [Hx Hd].
  apply elem_of_cons in H1 as [->|H1]; apply elem_of_cons in H2 as [->|H2].
  - reflexivity.
  - rewrite (Hx e2 H2) in H12. discriminate.
  - rewrite (Hx e1 H1) in H21. discriminate.
  - auto.
Qed.

(** A dictionary as the functions of dict.c keep it, with callbacks they
    can rely on: the invariant, every entry in the bucket of its hash,
    and no two entries of equal keys. *)
Definition dict_ok (d : dict) : Prop :=
  dict_inv d /\ dict_placed d /\ lawful (type d)
  /\ distinct_keys (type d) (dictEntries d).

Lemma dict_ok_same (d d' : dict) :
  dict_ok d -> same_content d d' -> dict_ok d'.
Proof.
  intros (Hinv & Hpl & Hlaw & Hd) (Hinv' & Hty & _ & Hp & Hpl').
  split; [exact Hinv'|]. split; [exact (Hpl' Hpl)|]. rewrite Hty.
  split; [exact Hlaw|]. apply (distinct_keys_perm _ (dictEntries d)); auto.
  symmetry. exact Hp.
Qed.

Lemma dictCreate_ok (ty : dictType) : lawful ty -> dict_ok (dictCreate ty).
Proof.
  intros Hlaw. split; [apply dictCreate_inv|]. split.
  - split; apply ht_placed_reset.
  - split; [exact Hlaw | exact I].
Qed.

Lemma absent_dup (d : dict) (k : Z) :
  lawful (type d) -> absent d k ->
  forall x, x ∈ dictEntries d ->
    key_eq (type d) (dictSetKeyOf d k) (key x) = false.
Proof.
  intros Hlaw Hab x Hx.
  destruct (key_eq (type d) (dictSetKeyOf d k) (key x)) eqn:E; [|reflexivity].
  rewrite <- (Hab x Hx). symmetry.
  apply (law_trans _ Hlaw _ (dictSetKeyOf d k)); [apply (law_dup _ Hlaw) | exact E].
Qed.

Lemma dictAdd_ok (c : env) (d : dict) (k v : Z) :
  dict_ok d -> allocates c -> used (ht0 d) + used (ht1 d) < 2 ^ 59 ->
  exists d' r,
    dictAdd c d k v = Ok (d', r) /\ dict_ok d'
    /\ Z.of_nat (length (dictEntries d'))
       <= Z.of_nat (length (dictEntries d)) + 1.
Proof.
  intros (Hinv & Hpl & Hlaw & Hd) Hmem Hroom.
  destruct (dictAdd_sem c d k v Hinv Hpl Hlaw Hmem Hroom)
    as (d' & r & Hrun & Hinv' & Hpl' & Hty & _ & Hcase).
  exists d', r. split; [exact Hrun|].
  destruct Hcase as [(_ & _ & Hp)|(_ & Hab & Hp)].
  - split; [|rewrite (Permutation_length Hp); lia].
    split; [exact Hinv'|]. split; [exact Hpl'|]. rewrite Hty.
    split; [exact Hlaw|]. apply (distinct_keys_perm _ (dictEntries d)); auto.
    symmetry. exact Hp.
  - split; [|rewrite (Permutation_length Hp); simpl; lia].
    split; [exact Hinv'|]. split; [exact Hpl'|]. rewrite Hty.
    split; [exact Hlaw|].
    apply (distinct_keys_perm _ _ _ Hlaw (symmetry Hp)).
    split; [exact (absent_dup d k Hlaw Hab) | exact Hd].
Qed.

Lemma dictReplace_ok (c : env) (d : dict) (k v : Z) :
  dict_ok d -> allocates c -> used (ht0 d) + used (ht1 d) < 2 ^ 59 ->
  exists d' r,
    dictReplace c d k v = Ok (d', r) /\ dict_ok d'
    /\ Z.of_nat (length (dictEntries d'))
       <= Z.of_nat (length (dictEntries d)) + 1.
Proof.
  intros (Hinv & Hpl & Hlaw & Hd) Hmem Hroom.
  destruct (dictReplace_sem c d k v Hinv Hpl Hlaw Hmem Hroom)
    as (d' & r & Hrun & Hinv' & Hpl' & Hty & _ & Hcase).
  exists d', r. split; [exact Hrun|].
  destruct Hcase as [(_ & e & rest & _ & Hp & Hp')|(_ & Hab & Hp)].
  - split; [|rewrite (Permutation_length Hp), (Permutation_length Hp'); simpl; lia].
    split; [exact Hinv'|]. split; [exact Hpl'|]. rewrite Hty.
    split; [exact Hlaw|].
    apply (distinct_keys_perm _ _ _ Hlaw (symmetry Hp')).
    apply (distinct_keys_perm _ _ _ Hlaw Hp) in Hd. exact Hd.
  - split; [|rewrite (Permutation_length Hp); simpl; lia].
    split; [exact Hinv'|]. split; [exact Hpl'|]. rewrite Hty.
    split; [exact Hlaw|].
    apply (distinct_keys_perm _ _ _ Hlaw (symmetry Hp)).
    split; [exact (absent_dup d k Hlaw Hab) | exact Hd].
Qed.

Lemma dictGenericDelete_ok (d : dict) (k : Z) (nofree : bool) :
  dict_ok d ->
  exists d' he,
    dictGenericDelete d k nofree = Ok (d', he) /\ dict_ok d'
    /\ Z.of_nat (length (dictEntries d')) <= Z.of_nat (length (dictEntries d)).
Proof.
  intros (Hinv & Hpl & Hlaw & Hd).
  destruct (dictGenericDelete_sem d k nofree Hinv Hpl Hlaw)
    as (d' & he & Hrun & Hinv' & Hpl' & Hty & _ & Hcase).
  exists d', he. split; [exact Hrun|].
  destruct he as [e|].
  - destruct Hcase as [_ Hp].
    split; [|rewrite (Permutation_length Hp); simpl; lia].
    split; [exact Hinv'|]. split; [exact Hpl'|]. rewrite Hty.
    split; [exact Hlaw|].
    apply (distinct_keys_perm _ _ _ Hlaw Hp) in Hd. exact (proj2 Hd).
  - destruct Hcase as [_ Hp].
    split; [|rewrite (Permutation_length Hp); lia].
    split; [exact Hinv'|]. split; [exact Hpl'|]. rewrite Hty.
    split; [exact Hlaw|].
    apply (distinct_keys_perm _ _ _ Hlaw (symmetry Hp)). exact Hd.
Qed.

Ltac finish_ok Hok Hsc :=
  split; [exact (dict_ok_same _ _ Hok Hsc)|];
  rewrite (same_content_dict_count _ _ Hsc); lia.

Lemma step_ok (w : world) (o : op) :
  dict_ok (the_dict w) -> dict_count (the_dict w) < 2 ^ 59 -> modest o ->
  exists w',
    step w plenty o = Ok w' /\ dict_ok (the_dict w')
    /\ dict_count (the_dict w') <= dict_count (the_dict w) + 1.
Proof.
  intros Hok Hcnt Hmod. destruct w as [flag d]. simpl in *.
  set (c := {| can_resize := flag; mem := plenty |}).
  assert (Hmem : allocates c) by (split; reflexivity).
  pose proof Hok as (Hinv & _).
  pose proof (dict_inv_count d Hinv) as Hused. fold (dict_count d) in Hused.
  destruct o as [size| |k v|k v|k|k|k|n| |];
    unfold step; cbn [dict_can_resize the_dict]; fold c.
  - destruct (dictExpand_inv c d size Hinv (proj1 Hmem) Hmod)
      as (d' & r & Hx & Hsc & _).
    rewrite Hx. simpl. eexists. split; [reflexivity|]. simpl. finish_ok Hok Hsc.
  - destruct (dictResize_inv c d Hinv (proj1 Hmem)) as (d' & r & Hx & Hsc).
    rewrite Hx. simpl. eexists. split; [reflexivity|]. simpl. finish_ok Hok Hsc.
  - destruct (dictAdd_ok c d k v Hok Hmem ltac:(lia)) as (d' & r & Hx & Hok' & Hlen).
    rewrite Hx. simpl. eexists. split; [reflexivity|]. simpl.
    split; [exact Hok' | exact Hlen].
  - destruct (dictReplace_ok c d k v Hok Hmem ltac:(lia)) as (d' & r & Hx & Hok' & Hlen).
    rewrite Hx. simpl. eexists. split; [reflexivity|]. simpl.
    split; [exact Hok' | exact Hlen].
  - unfold dictDelete.
    destruct (dictGenericDelete_ok d k false Hok) as (d' & he & Hx & Hok' & Hlen).
    rewrite Hx. simpl. eexists. split; [reflexivity|]. simpl.
    split; [exact Hok' | unfold dict_count; lia].
  - unfold dictUnlink.
    destruct (dictGenericDelete_ok d k true Hok) as (d' & he & Hx & Hok' & Hlen).
    rewrite Hx. simpl. eexists. split; [reflexivity|]. simpl.
    split; [exact Hok' | unfold dict_count; lia].
  - destruct (dictFind_spec d k Hinv) as (d' & r & Hx & Hsc & _).
    rewrite Hx. simpl. eexists. split; [reflexivity|]. simpl. finish_ok Hok Hsc.
  - unfold dictRehash.
    destruct (dictRehash_report_spec d n Hinv) as (r & Hx & Hsc & _).
    rewrite Hx. simpl. eexists. split; [reflexivity|]. simpl. finish_ok Hok Hsc.
  - eexists. split; [reflexivity|]. simpl. split; [exact Hok | lia].
  - eexists. split; [reflexivity|]. simpl. split; [exact Hok | lia].
Qed.

Lemma run_ok (ops : list (op * alloc)) :
  forall w,
    dict_ok (the_dict w) ->
    dict_count (the_dict w) + Z.of_nat (length ops) <= 2 ^ 59 ->
    Forall modest (calls ops) ->
    exists w', run w (served ops) = Ok w' /\ dict_ok (the_dict w')
               /\ type (the_dict w') = type (the_dict w).
Proof.
  induction ops as [|[o a] ops IH]; intros w Hok Hcnt Hmod.
  - exists w. split; [reflexivity|]. split; [exact Hok | reflexivity].
  - simpl length in Hcnt. simpl in Hmod. apply Forall_cons in Hmod as [Ho Hmod].
    destruct (step_ok w o Hok ltac:(lia) Ho) as (w1 & Hs & Hok1 & Hc1).
    destruct (step_inv w o (proj1 Hok) ltac:(lia) Ho) as (w2 & Hs2 & _ & _ & Hty).
    rewrite Hs in Hs2. injection Hs2 as <-.
    simpl. rewrite Hs. cbn [bind].
    destruct (IH w1 Hok1 ltac:(lia) Hmod) as (w' & Hrun & Hok' & Hty').
    exists w'. split; [exact Hrun|]. split; [exact Hok' | congruence].
Qed.

(** *** Lookups *)

(** [dictFetchValue] *)
Definition dictFetchValue (d : dict) (k : Z) : res (dict * Z) :=
  do '(d, he) <- dictFind d k;
  Ok (d, match he with Some e => val e | None => 0 end).

(** [dictAddOrFind] *)
Definition dictAddOrFind (c : env) (d : dict) (k : Z)
    : res (dict * option entry_ref) :=
  do '(d, entry, existing) <- dictAddRaw c d k;
  Ok (d, match entry with Some r => Some r | None => existing end).

(** [e] is an entry of [d] whose key is equal to [k]. *)
Definition found (d : dict) (k : Z) (e : dictEntry) : Prop :=
  e ∈ dictEntries d /\ key_eq (type d) k (key e) = true.

Lemma found_unique (d : dict) (k : Z) (e1 e2 : dictEntry) :
  dict_ok d -> found d k e1 -> found d k e2 -> e1 = e2.
Proof.
  intros (_ & _ & Hlaw & Hd) [H1 K1] [H2 K2].
  exact (distinct_keys_unique _ _ k e1 e2 Hlaw Hd H1 H2 K1 K2).
Qed.

Lemma found_not_absent (d : dict) (k : Z) (e : dictEntry) :
  found d k e -> absent d k -> False.
Proof. intros [He Hk] Ha. rewrite (Ha e He) in Hk. discriminate. Qed.

(** What [dictFind] returns is fixed by the entries of the dictionary. *)
Lemma dictFind_char (d : dict) (k : Z) :
  dict_ok d ->
  exists d' r,
    dictFind d k = Ok (d', r)
    /\ same_content d d'
    /\ (r = None <-> absent d k)
    /\ (forall e, r = Some e <-> found d k e).
Proof.
  intros Hok. pose proof Hok as (Hinv & Hpl & Hlaw & Hd).
  destruct (dictFind_sem d k Hinv Hpl Hlaw) as (d' & r & Hrun & Hsc & _ & Hr).
  exists d', r. split; [exact Hrun|]. split; [exact Hsc|].
  destruct r as [e|].
  - split.
    + split; [discriminate|]. intros Ha. exfalso.
      exact (found_not_absent d k e Hr Ha).
    + intros e'. split.
      * intros [= <-]. exact Hr.
      * intros Hf. f_equal. exact (found_unique d k e e' Hok Hr Hf).
  - split; [tauto|]. intros e. split; [discriminate|].
    intros Hf. exfalso. exact (found_not_absent d k e Hf Hr).
Qed.

(** The result of a lookup in [d'] from the result in [d], when the
    entries of key equal to [k] are the same in both. *)
Lemma dictFind_transfer (d d' : dict) (k : Z) :
  dict_ok d -> dict_ok d' ->
  (forall e, found d' k e <-> found d k e) ->
  exists r da db, dictFind d k = Ok (da, r) /\ dictFind d' k = Ok (db, r).
Proof.
  intros Hok Hok' Hiff.
  destruct (dictFind_char d k Hok) as (da & r & Hrun & _ & Hn & Hs).
  destruct (dictFind_char d' k Hok') as (db & r' & Hrun' & _ & Hn' & Hs').
  exists r, da, db. split; [exact Hrun|].
  replace r with r'; [exact Hrun'|].
  destruct r' as [e'|], r as [e|]; try reflexivity.
  - f_equal. apply (found_unique d k e' e Hok).
    + apply Hiff. apply Hs'. reflexivity.
    + apply Hs. reflexivity.
  - exfalso. apply (found_not_absent d k e').
    + apply Hiff. apply Hs'. reflexivity.
    + apply Hn. reflexivity.
  - exfalso. apply (found_not_absent d' k e).
    + apply Hiff. apply Hs. reflexivity.
    + apply Hn'. reflexivity.
Qed.

Lemma key_eq_other (ty : dictType) (k k2 x : Z) :
  lawful ty -> key_eq ty k k2 = false -> key_eq ty k x = true ->
  key_eq ty k2 x = false.
Proof.
  intros Hlaw Hne Hx. destruct (key_eq ty k2 x) eqn:E; [|reflexivity].
  rewrite <- Hne. symmetry.
  apply (law_trans _ Hlaw _ x); [exact Hx | apply (law_sym _ Hlaw); exact E].
Qed.

(** Entries of key equal to [k2] in two lists that differ in entries of
    other keys only. *)
Lemma found_frame (ty : dictType) (k2 : Z) (l l' rest : list dictEntry)
    (xs ys : list dictEntry) :
  l ≡ₚ xs ++ rest -> l' ≡ₚ ys ++ rest ->
  (forall x, x ∈ xs -> key_eq ty k2 (key x) = false) ->
  (forall y, y ∈ ys -> key_eq ty k2 (key y) = false) ->
  forall e, (e ∈ l' /\ key_eq ty k2 (key e) = true)
            <-> (e ∈ l /\ key_eq ty k2 (key e) = true).
Proof.
  intros Hl Hl' Hx Hy e. rewrite Hl, Hl', !elem_of_app.
  split; intros [[H|H] Hk]; (split; [|exact Hk]); try (right; exact H).
  - rewrite (Hy e H) in Hk. discriminate.
  - rewrite (Hx e H) in Hk. discriminate.
Qed.

(** *** The dictionary as a map from keys to values *)

Lemma plain_type_lawful : lawful plain_type.
Proof. apply identity_lawful; reflexivity. Qed.

Ltac distinct_by_cases :=
  repeat (split;
          [let x := fresh "x" in let Hx := fresh "Hx" in
           intros x Hx;
           repeat (apply elem_of_cons in Hx as [->|Hx]; [reflexivity|]);
           apply elem_of_nil in Hx; contradiction|]);
  exact I.

Lemma full_dict_ok : dict_ok full_dict.
Proof.
  destruct full_dict_state as (_ & Hinv & Hpl).
  split; [exact Hinv|]. split; [exact Hpl|].
  split; [exact plain_type_lawful|]. simpl. distinct_by_cases.
Qed.

(** [dictFind] and [dictFetchValue] return on every well-formed
    dictionary and keep its entries.  [dictFind] returns NULL exactly
    when no entry has a key equal to [k]; otherwise it returns the one
    entry whose key is equal to [k], and [dictFetchValue] its value. *)
Theorem dictFind_exact (d : dict) (k : Z) :
  dict_ok d ->
  exists d' r,
    dictFind d k = Ok (d', r)
    /\ dictFetchValue d k
       = Ok (d', match r with Some e => val e | None => 0 end)
    /\ dict_ok d' /\ dictEntries d' ≡ₚ dictEntries d
    /\ (r = None <-> absent d k)
    /\ (forall e, r = Some e
                  <-> e ∈ dictEntries d /\ key_eq (type d) k (key e) = true).
Proof.
  intros Hok.
  destruct (dictFind_char d k Hok) as (d' & r & Hrun & Hsc & Hn & Hs).
  exists d', r. split; [exact Hrun|].
  split; [unfold dictFetchValue; rewrite Hrun; reflexivity|].
  split; [exact (dict_ok_same _ _ Hok Hsc)|].
  destruct Hsc as (_ & _ & _ & Hp & _). auto.
Qed.

Lemma dictFind_exact_witness :
  exists d',
    dictFind full_dict 2 = Ok (d', Some {| key := 2; val := 12 |})
    /\ dictFetchValue full_dict 2 = Ok (d', 12).
Proof.
  destruct (dictFind_exact full_dict 2 full_dict_ok)
    as (d' & r & Hrun & Hfetch & _ & _ & _ & Hs).
  assert (Hr : r = Some {| key := 2; val := 12 |}).
  { apply Hs. split; [|reflexivity]. apply list_elem_of_In. simpl. tauto. }
  subst r. exists d'. split; [exact Hrun | exact Hfetch].
Defined.

(** [dictAdd] on a well-formed dictionary of fewer than [2^59] entries.
    If an entry has a key equal to [k], it returns [DICT_ERR] and the
    entries are as before (the value is not written).  Otherwise it
    returns [DICT_OK] and the dictionary has one entry more, of key
    [keyDup(k)] and value [valDup(v)]. *)
Theorem dictAdd_exact (c : env) (d : dict) (k v : Z) :
  dict_ok d -> allocates c -> used (ht0 d) + used (ht1 d) < 2 ^ 59 ->
  exists d' r,
    dictAdd c d k v = Ok (d', r) /\ dict_ok d'
    /\ ((r = DICT_ERR /\ ~ absent d k /\ dictEntries d' ≡ₚ dictEntries d)
        \/ (r = DICT_OK /\ absent d k
            /\ dictEntries d'
               ≡ₚ {| key := dictSetKeyOf d k; val := dictSetValOf d v |}
                  :: dictEntries d)).
Proof.
  intros Hok Hmem Hroom. pose proof Hok as (Hinv & Hpl & Hlaw & _).
  destruct (dictAdd_ok c d k v Hok Hmem Hroom) as (d' & r & Hrun & Hok' & _).
  destruct (dictAdd_sem c d k v Hinv Hpl Hlaw Hmem Hroom)
    as (d1 & r1 & Hrun1 & _ & _ & _ & _ & Hcase).
  rewrite Hrun in Hrun1. injection Hrun1 as <- <-.
  exists d', r. auto.
Qed.

Lemma dictAdd_exact_witness :
  (exists d', dictAdd (with_memory true) full_dict 2 99 = Ok (d', DICT_ERR)
              /\ dictEntries d' ≡ₚ dictEntries full_dict)
  /\ (exists d', dictAdd (with_memory true) full_dict 4 14 = Ok (d', DICT_OK)
                 /\ dictEntries d'
                    ≡ₚ {| key := 4; val := 14 |} :: dictEntries full_dict).
Proof.
  assert (Hroom : used (ht0 full_dict) + used (ht1 full_dict) < 2 ^ 59)
    by (simpl; lia).
  split.
  - destruct (dictAdd_exact (with_memory true) full_dict 2 99 full_dict_ok (with_memory_allocates true) Hroom)
      as (d' & r & Hrun & _ & [(-> & _ & Hp)|(_ & Ha & _)]).
    + exists d'. auto.
    + exfalso. assert (He : {| key := 2; val := 12 |} ∈ dictEntries full_dict)
        by (apply list_elem_of_In; simpl; tauto).
      specialize (Ha _ He). discriminate Ha.
  - destruct (dictAdd_exact (with_memory true) full_dict 4 14 full_dict_ok (with_memory_allocates true) Hroom)
      as (d' & r & Hrun & _ & [(_ & Hn & _)|(-> & _ & Hp)]).
    + exfalso. apply Hn. intros e He. apply list_elem_of_In in He. simpl in He.
      destruct He as [<-|[<-|[<-|[<-|[]]]]]; reflexivity.
    + exists d'. auto.
Defined.

(** [dictReplace] on a well-formed dictionary of fewer than [2^59]
    entries.  If no entry has a key equal to [k], it returns 1 and the
    dictionary has one entry more, of key [keyDup(k)] and value
    [valDup(v)].  Otherwise it returns 0 and the entry of that key has
    the value [valDup(v)] and the key it had; the other entries are as
    before. *)
Theorem dictReplace_exact (c : env) (d : dict) (k v : Z) :
  dict_ok d -> allocates c -> used (ht0 d) + used (ht1 d) < 2 ^ 59 ->
  exists d' r,
    dictReplace c d k v = Ok (d', r) /\ dict_ok d'
    /\ ((r = 0
         /\ exists e rest,
              key_eq (type d) k (key e) = true
              /\ dictEntries d ≡ₚ e :: rest
              /\ dictEntries d'
                 ≡ₚ {| key := key e; val := dictSetValOf d v |} :: rest)
        \/ (r = 1 /\ absent d k
            /\ dictEntries d'
               ≡ₚ {| key := dictSetKeyOf d k; val := dictSetValOf d v |}
                  :: dictEntries d)).
Proof.
  intros Hok Hmem Hroom. pose proof Hok as (Hinv & Hpl & Hlaw & _).
  destruct (dictReplace_ok c d k v Hok Hmem Hroom) as (d' & r & Hrun & Hok' & _).
  destruct (dictReplace_sem c d k v Hinv Hpl Hlaw Hmem Hroom)
    as (d1 & r1 & Hrun1 & _ & _ & _ & _ & Hcase).
  rewrite Hrun in Hrun1. injection Hrun1 as <- <-.
  exists d', r. auto.
Qed.

Lemma dictReplace_exact_witness :
  exists d',
    dictReplace (with_memory true) full_dict 2 99 = Ok (d', 0)
    /\ Z.of_nat (length (dictEntries d'))
       = Z.of_nat (length (dictEntries full_dict)).
Proof.
  assert (Hroom : used (ht0 full_dict) + used (ht1 full_dict) < 2 ^ 59)
    by (simpl; lia).
  destruct (dictReplace_exact (with_memory true) full_dict 2 99 full_dict_ok (with_memory_allocates true) Hroom)
    as (d' & r & Hrun & _ & [(-> & e & rest & _ & Hp & Hp')|(_ & Ha & _)]).
  - exists d'. split; [exact Hrun|].
    rewrite (Permutation_length Hp), (Permutation_length Hp'). reflexivity.
  - exfalso. assert (He : {| key := 2; val := 12 |} ∈ dictEntries full_dict)
      by (apply list_elem_of_In; simpl; tauto).
    specialize (Ha _ He). discriminate Ha.
Defined.

(** [dictDelete] and [dictUnlink] on a well-formed dictionary.  If no
    entry has a key equal to [k], [dictDelete] returns [DICT_ERR],
    [dictUnlink] returns NULL and the entries are as before.  Otherwise
    [dictDelete] returns [DICT_OK], [dictUnlink] returns the entry of
    that key, and that entry, and no other, has left the dictionary. *)
Theorem dictDelete_exact (d : dict) (k : Z) :
  dict_ok d ->
  exists d' he,
    dictUnlink d k = Ok (d', he)
    /\ dictDelete d k
       = Ok (d', match he with Some _ => DICT_OK | None => DICT_ERR end)
    /\ dict_ok d'
    /\ match he with
       | None => absent d k /\ dictEntries d' ≡ₚ dictEntries d
       | Some e => key_eq (type d) k (key e) = true
                   /\ dictEntries d ≡ₚ e :: dictEntries d'
       end.
Proof.
  intros Hok. pose proof Hok as (Hinv & Hpl & Hlaw & _).
  destruct (dictGenericDelete_ok d k true Hok) as (d' & he & Hrun & Hok' & _).
  destruct (dictGenericDelete_sem d k true Hinv Hpl Hlaw)
    as (d1 & he1 & Hrun1 & _ & _ & _ & _ & Hcase).
  rewrite Hrun in Hrun1. injection Hrun1 as <- <-.
  exists d', he. split; [exact Hrun|].
  split; [unfold dictDelete; change (dictGenericDelete d k false)
            with (dictGenericDelete d k true); rewrite Hrun; reflexivity|].
  auto.
Qed.

Lemma dictDelete_exact_witness :
  exists d',
    dictDelete full_dict 2 = Ok (d', DICT_OK)
    /\ dictEntries full_dict ≡ₚ {| key := 2; val := 12 |} :: dictEntries d'.
Proof.
  destruct (dictDelete_exact full_dict 2 full_dict_ok)
    as (d' & he & _ & Hrun & _ & Hcase).
  destruct he as [e|].
  - destruct Hcase as [Hk Hp]. exists d'. split; [exact Hrun|].
    assert (He : e ∈ dictEntries full_dict)
      by (rewrite Hp; apply list_elem_of_here).
    apply list_elem_of_In in He. simpl in He.
    destruct He as [<-|[<-|[<-|[<-|[]]]]]; try discriminate Hk. exact Hp.
  - exfalso. destruct Hcase as [Ha _].
    assert (He : {| key := 2; val := 12 |} ∈ dictEntries full_dict)
      by (apply list_elem_of_In; simpl; tauto).
    specialize (Ha _ He). discriminate Ha.
Defined.

(** Take fewer than [2^59] calls of the functions of dict.c on a
    dictionary created with lawful callbacks, no [dictExpand] asking for
    more than [2^60] buckets.  If a call does not return, the process
    was aborted for lack of memory.  Otherwise every entry is in the
    bucket of the hash of its key, and no two entries have equal keys. *)
Theorem dict_ops_keep_keys_distinct (ty : dictType) (ops : list (op * alloc)) :
  lawful ty -> Z.of_nat (length ops) < 2 ^ 59 -> Forall modest (calls ops) ->
  match run (start ty) ops with
  | Ok w =>
      dict_inv (the_dict w) /\ dict_placed (the_dict w)
      /\ distinct_keys ty (dictEntries (the_dict w))
  | Err f => f = OutOfMemory /\ ~ all_served ops
  end.
Proof.
  intros Hlaw Hlen Hmod.
  destruct (run_ok ops (start ty) (dictCreate_ok ty Hlaw))
    as (w & Hrun & Hok & Hty); [|exact Hmod|].
  { unfold dict_count. simpl. lia. }
  destruct (run_served ops (start ty)) as [H|H]; rewrite H.
  - split; [reflexivity|]. intros Hall.
    rewrite <- (served_all_served ops Hall), Hrun in H. discriminate H.
  - rewrite Hrun. destruct Hok as (Hinv & Hpl & _ & Hd).
    rewrite Hty in Hd. auto.
Qed.

Lemma dict_ops_keep_keys_distinct_witness :
  exists w,
    run (start plain_type)
        (with_plenty [OpAdd 1 10; OpAdd 5 50; OpAdd 1 11; OpDelete 5;
                      OpReplace 1 12; OpAdd 9 90]) = Ok w
    /\ distinct_keys plain_type (dictEntries (the_dict w)).
Proof.
  pose proof (dict_ops_keep_keys_distinct plain_type
                (with_plenty [OpAdd 1 10; OpAdd 5 50; OpAdd 1 11; OpDelete 5;
                              OpReplace 1 12; OpAdd 9 90]) plain_type_lawful) as H.
  destruct (run (start plain_type) _) as [w|f] eqn:Hrun.
  - exists w. split; [reflexivity|]. apply H.
    + simpl. lia.
    + repeat constructor.
  - vm_compute in Hrun. discriminate Hrun.
Defined.

(** *** One operation after another *)

Lemma absent_or_found (d : dict) (k : Z) :
  absent d k \/ exists e, found d k e.
Proof.
  unfold absent, found. induction (dictEntries d) as [|x l IH].
  - left. intros e He. apply elem_of_nil in He. contradiction.
  - destruct (key_eq (type d) k (key x)) eqn:Hx.
    + right. exists x. split; [apply list_elem_of_here | exact Hx].
    + destruct IH as [Ha|(e & He & Hk)].
      * left. intros e He. apply elem_of_cons in He as [->|He]; auto.
      * right. exists e. split; [apply list_elem_of_further; exact He | exact Hk].
Qed.

Lemma found_perm (d d' : dict) (k : Z) (e : dictEntry) :
  type d' = type d -> dictEntries d' ≡ₚ dictEntries d ->
  found d k e -> found d' k e.
Proof.
  intros Hty Hp [He Hk]. split; [rewrite Hp; exact He | rewrite Hty; exact Hk].
Qed.

(** After [dictAdd], whatever it returned, [dictFind] finds the key: the
    entry added when the call returned [DICT_OK], an entry that was there
    before when it returned [DICT_ERR]. *)
Theorem dictAdd_then_dictFind (c : env) (d : dict) (k v : Z) :
  dict_ok d -> allocates c -> used (ht0 d) + used (ht1 d) < 2 ^ 59 ->
  exists d1 r d2 e,
    dictAdd c d k v = Ok (d1, r)
    /\ dictFind d1 k = Ok (d2, Some e)
    /\ key_eq (type d) k (key e) = true
    /\ ((r = DICT_OK
         /\ e = {| key := dictSetKeyOf d k; val := dictSetValOf d v |})
        \/ (r = DICT_ERR /\ e ∈ dictEntries d)).
Proof.
  intros Hok Hmem Hroom. pose proof Hok as (Hinv & Hpl & Hlaw & _).
  destruct (dictAdd_ok c d k v Hok Hmem Hroom) as (d1 & r & Hrun & Hok1 & _).
  destruct (dictAdd_sem c d k v Hinv Hpl Hlaw Hmem Hroom)
    as (d1' & r' & Hrun' & _ & _ & Hty & _ & Hcase).
  rewrite Hrun in Hrun'. injection Hrun' as <- <-.
  destruct (dictFind_char d1 k Hok1) as (d2 & rf & Hfind & _ & _ & Hs).
  destruct Hcase as [(-> & Hn & Hp)|(-> & Ha & Hp)].
  - destruct (absent_or_found d k) as [Ha|(e & Hf)]; [contradiction|].
    exists d1, DICT_ERR, d2, e.
    pose proof (proj2 (Hs e) (found_perm d d1 k e Hty Hp Hf)) as Hrf.
    rewrite Hrf in Hfind.
    split; [exact Hrun|]. split; [exact Hfind|].
    split; [exact (proj2 Hf)|]. right. split; [reflexivity | exact (proj1 Hf)].
  - set (e := {| key := dictSetKeyOf d k; val := dictSetValOf d v |}) in *.
    assert (Hf : found d1 k e).
    { split; [rewrite Hp; apply list_elem_of_here|]. rewrite Hty.
      apply (law_dup _ Hlaw). }
    exists d1, DICT_OK, d2, e. rewrite (proj2 (Hs e) Hf) in Hfind.
    split; [exact Hrun|]. split; [exact Hfind|].
    split; [apply (law_dup _ Hlaw)|]. left. auto.
Qed.

Lemma dictAdd_then_dictFind_witness :
  exists d1 d2,
    dictAdd (with_memory true) full_dict 4 14 = Ok (d1, DICT_OK)
    /\ dictFind d1 4 = Ok (d2, Some {| key := 4; val := 14 |}).
Proof.
  destruct (dictAdd_then_dictFind (with_memory true) full_dict 4 14 full_dict_ok
              (with_memory_allocates true))
    as (d1 & r & d2 & e & Hadd & Hfind & Hk & [[-> ->]|[-> He]]).
  - simpl. lia.
  - exists d1, d2. split; [exact Hadd | exact Hfind].
  - exfalso. apply list_elem_of_In in He. simpl in He.
    destruct He as [<-|[<-|[<-|[<-|[]]]]]; discriminate Hk.
Defined.

(** After [dictReplace], [dictFetchValue] of the key gives the value
    written; the call returned 1 exactly when the key was absent. *)
Theorem dictReplace_then_dictFetchValue (c : env) (d : dict) (k v : Z) :
  dict_ok d -> allocates c -> used (ht0 d) + used (ht1 d) < 2 ^ 59 ->
  exists d1 r d2,
    dictReplace c d k v = Ok (d1, r)
    /\ dictFetchValue d1 k = Ok (d2, dictSetValOf d v)
    /\ (r = 0 \/ r = 1)
    /\ (r = 1 <-> absent d k).
Proof.
  intros Hok Hmem Hroom. pose proof Hok as (Hinv & Hpl & Hlaw & _).
  destruct (dictReplace_ok c d k v Hok Hmem Hroom) as (d1 & r & Hrun & Hok1 & _).
  destruct (dictReplace_sem c d k v Hinv Hpl Hlaw Hmem Hroom)
    as (d1' & r' & Hrun' & _ & _ & Hty & _ & Hcase).
  rewrite Hrun in Hrun'. injection Hrun' as <- <-.
  destruct (dictFind_char d1 k Hok1) as (d2 & rf & Hfind & _ & _ & Hs).
  exists d1, r, d2. split; [exact Hrun|].
  unfold dictFetchValue. rewrite Hfind. cbn [bind].
  destruct Hcase as [(-> & e & rest & Hk & Hp & Hp')|(-> & Ha & Hp)].
  - set (e' := {| key := key e; val := dictSetValOf d v |}) in *.
    assert (Hf : found d1 k e').
    { split; [rewrite Hp'; apply list_elem_of_here|]. rewrite Hty. exact Hk. }
    rewrite (proj2 (Hs e') Hf). split; [reflexivity|]. split; [auto|].
    split; [discriminate|]. intros Ha. exfalso.
    apply (found_not_absent d k e); [|exact Ha].
    split; [rewrite Hp; apply list_elem_of_here | exact Hk].
  - set (e := {| key := dictSetKeyOf d k; val := dictSetValOf d v |}) in *.
    assert (Hf : found d1 k e).
    { split; [rewrite Hp; apply list_elem_of_here|]. rewrite Hty.
      apply (law_dup _ Hlaw). }
    rewrite (proj2 (Hs e) Hf). split; [reflexivity|]. split; [auto|]. tauto.
Qed.

Lemma dictReplace_then_dictFetchValue_witness :
  exists d1 d2,
    dictReplace (with_memory true) full_dict 2 99 = Ok (d1, 0)
    /\ dictFetchValue d1 2 = Ok (d2, 99).
Proof.
  destruct (dictReplace_then_dictFetchValue (with_memory true) full_dict 2 99 full_dict_ok
              (with_memory_allocates true))
    as (d1 & r & d2 & Hrep & Hfetch & [->| ->] & Hiff).
  - simpl. lia.
  - exists d1, d2. split; [exact Hrep | exact Hfetch].
  - exfalso. pose proof (proj1 Hiff eq_refl) as Ha.
    assert (He : {| key := 2; val := 12 |} ∈ dictEntries full_dict)
      by (apply list_elem_of_In; simpl; tauto).
    specialize (Ha _ He). discriminate Ha.
Defined.

(** After [dictDelete], whatever it returned, no entry has a key equal
    to [k] and [dictFind] returns NULL; the call returned [DICT_OK]
    exactly when there was such an entry, and then the dictionary has
    one entry less. *)
Theorem dictDelete_then_dictFind (d : dict) (k : Z) :
  dict_ok d ->
  exists d1 r d2,
    dictDelete d k = Ok (d1, r)
    /\ absent d1 k
    /\ dictFind d1 k = Ok (d2, None)
    /\ ((r = DICT_ERR /\ absent d k
         /\ length (dictEntries d1) = length (dictEntries d))
        \/ (r = DICT_OK /\ ~ absent d k
            /\ S (length (dictEntries d1)) = length (dictEntries d))).
Proof.
  intros Hok. pose proof Hok as (Hinv & Hpl & Hlaw & Hd).
  destruct (dictGenericDelete_ok d k false Hok) as (d1 & he & Hrun & Hok1 & _).
  destruct (dictGenericDelete_sem d k false Hinv Hpl Hlaw)
    as (d1' & he' & Hrun' & _ & _ & Hty & _ & Hcase).
  rewrite Hrun in Hrun'. injection Hrun' as <- <-.
  destruct (dictFind_char d1 k Hok1) as (d2 & rf & Hfind & _ & Hn & _).
  assert (Ha1 : absent d1 k).
  { destruct he as [e|].
    - destruct Hcase as [Hk Hp]. intros x Hx. rewrite Hty.
      destruct (key_eq (type d) k (key x)) eqn:Hkx; [|reflexivity].
      apply (distinct_keys_perm _ _ _ Hlaw Hp) in Hd. destruct Hd as [Hex _].
      rewrite <- (Hex x Hx). symmetry.
      apply (law_trans _ Hlaw _ k); [apply (law_sym _ Hlaw); exact Hk | exact Hkx].
    - destruct Hcase as [Ha Hp]. exact (absent_perm d d1 k Hty Hp Ha). }
  exists d1, (match he with Some _ => DICT_OK | None => DICT_ERR end), d2.
  split; [unfold dictDelete; rewrite Hrun; reflexivity|].
  split; [exact Ha1|].
  split; [rewrite (proj2 Hn Ha1) in Hfind; exact Hfind|].
  destruct he as [e|].
  - destruct Hcase as [Hk Hp]. right. split; [reflexivity|]. split.
    + intros Ha. apply (found_not_absent d k e); [|exact Ha].
      split; [rewrite Hp; apply list_elem_of_here | exact Hk].
    + rewrite (Permutation_length Hp). reflexivity.
  - destruct Hcase as [Ha Hp]. left. split; [reflexivity|].
    split; [exact Ha | exact (Permutation_length Hp)].
Qed.

Lemma dictDelete_then_dictFind_witness :
  exists d1 d2,
    dictDelete full_dict 2 = Ok (d1, DICT_OK)
    /\ dictFind d1 2 = Ok (d2, None).
Proof.
  destruct (dictDelete_then_dictFind full_dict 2 full_dict_ok)
    as (d1 & r & d2 & Hdel & _ & Hfind & [(_ & Ha & _)|(-> & _)]).
  - exfalso. assert (He : {| key := 2; val := 12 |} ∈ dictEntries full_dict)
      by (apply list_elem_of_In; simpl; tauto).
    specialize (Ha _ He). discriminate Ha.
  - exists d1, d2. split; [exact Hdel | exact Hfind].
Defined.

Lemma found_frame_dict (d d1 : dict) (k2 : Z) (xs ys rest : list dictEntry) :
  type d1 = type d ->
  dictEntries d ≡ₚ xs ++ rest -> dictEntries d1 ≡ₚ ys ++ rest ->
  (forall x, x ∈ xs -> key_eq (type d) k2 (key x) = false) ->
  (forall y, y ∈ ys -> key_eq (type d) k2 (key y) = false) ->
  forall e, found d1 k2 e <-> found d k2 e.
Proof.
  intros Hty Hl Hl' Hx Hy e. unfold found. rewrite Hty.
  exact (found_frame (type d) k2 _ _ rest xs ys Hl Hl' Hx Hy e).
Qed.

Lemma only_one (ty : dictType) (k2 : Z) (x : dictEntry) :
  key_eq ty k2 (key x) = false ->
  forall y, y ∈ [x] -> key_eq ty k2 (key y) = false.
Proof.
  intros H y Hy. apply elem_of_cons in Hy as [->|Hy]; [exact H|].
  apply elem_of_nil in Hy. contradiction.
Qed.

Lemma none_of_nil (ty : dictType) (k2 : Z) :
  forall y : dictEntry, y ∈ [] -> key_eq ty k2 (key y) = false.
Proof. intros y Hy. apply elem_of_nil in Hy. contradiction. Qed.

(** [dictAdd], [dictReplace] and [dictDelete] of the key [k] leave what
    [dictFind] returns for every key not equal to [k] as it was. *)
Theorem dict_update_other_keys (c : env) (d : dict) (k v k2 : Z) :
  dict_ok d -> allocates c -> used (ht0 d) + used (ht1 d) < 2 ^ 59 ->
  key_eq (type d) k k2 = false ->
  exists r da,
    dictFind d k2 = Ok (da, r)
    /\ (exists d1 x d2, dictAdd c d k v = Ok (d1, x)
                        /\ dictFind d1 k2 = Ok (d2, r))
    /\ (exists d1 x d2, dictReplace c d k v = Ok (d1, x)
                        /\ dictFind d1 k2 = Ok (d2, r))
    /\ (exists d1 x d2, dictDelete d k = Ok (d1, x)
                        /\ dictFind d1 k2 = Ok (d2, r)).
Proof.
  intros Hok Hmem Hroom Hne. pose proof Hok as (Hinv & Hpl & Hlaw & _).
  destruct (dictFind_char d k2 Hok) as (da & r & Hfind & _).
  exists r, da. split; [exact Hfind|].
  assert (Hdone : forall d1, dict_ok d1 ->
            (forall e, found d1 k2 e <-> found d k2 e) ->
            exists d2, dictFind d1 k2 = Ok (d2, r)).
  { intros d1 Hok1 Hiff.
    destruct (dictFind_transfer d d1 k2 Hok Hok1 Hiff)
      as (r' & da' & db & H1 & H2).
    rewrite Hfind in H1. injection H1 as <- <-. exists db. exact H2. }
  assert (Hdup : key_eq (type d) k2 (dictSetKeyOf d k) = false).
  { apply (key_eq_other _ k); [exact Hlaw | exact Hne | apply (law_dup _ Hlaw)]. }
  split; [|split].
  - destruct (dictAdd_ok c d k v Hok Hmem Hroom) as (d1 & x & Hrun & Hok1 & _).
    destruct (dictAdd_sem c d k v Hinv Hpl Hlaw Hmem Hroom)
      as (d1' & x' & Hrun' & _ & _ & Hty & _ & Hcase).
    rewrite Hrun in Hrun'. injection Hrun' as <- <-.
    destruct (Hdone d1 Hok1) as (d2 & H2); [|exists d1, x, d2; auto].
    destruct Hcase as [(_ & _ & Hp)|(_ & _ & Hp)].
    + apply (found_frame_dict d d1 k2 [] [] (dictEntries d) Hty);
        [reflexivity | exact Hp | apply none_of_nil | apply none_of_nil].
    + apply (found_frame_dict d d1 k2 []
             [{| key := dictSetKeyOf d k; val := dictSetValOf d v |}]
             (dictEntries d) Hty);
        [reflexivity | exact Hp | apply none_of_nil | apply only_one; exact Hdup].
  - destruct (dictReplace_ok c d k v Hok Hmem Hroom) as (d1 & x & Hrun & Hok1 & _).
    destruct (dictReplace_sem c d k v Hinv Hpl Hlaw Hmem Hroom)
      as (d1' & x' & Hrun' & _ & _ & Hty & _ & Hcase).
    rewrite Hrun in Hrun'. injection Hrun' as <- <-.
    destruct (Hdone d1 Hok1) as (d2 & H2); [|exists d1, x, d2; auto].
    destruct Hcase as [(_ & e & rest & Hk & Hp & Hp')|(_ & _ & Hp)].
    + pose proof (key_eq_other _ k k2 (key e) Hlaw Hne Hk) as Hke.
      apply (found_frame_dict d d1 k2 [e]
             [{| key := key e; val := dictSetValOf d v |}] rest Hty);
        [exact Hp | exact Hp' | apply only_one; exact Hke
         | apply only_one; exact Hke].
    + apply (found_frame_dict d d1 k2 []
             [{| key := dictSetKeyOf d k; val := dictSetValOf d v |}]
             (dictEntries d) Hty);
        [reflexivity | exact Hp | apply none_of_nil | apply only_one; exact Hdup].
  - destruct (dictGenericDelete_ok d k false Hok) as (d1 & he & Hrun & Hok1 & _).
    destruct (dictGenericDelete_sem d k false Hinv Hpl Hlaw)
      as (d1' & he' & Hrun' & _ & _ & Hty & _ & Hcase).
    rewrite Hrun in Hrun'. injection Hrun' as <- <-.
    destruct (Hdone d1 Hok1) as (d2 & H2).
    2:{ exists d1, (match he with Some _ => DICT_OK | None => DICT_ERR end), d2.
        split; [unfold dictDelete; rewrite Hrun; reflexivity | exact H2]. }
    destruct he as [e|].
    + destruct Hcase as [Hk Hp].
      pose proof (key_eq_other _ k k2 (key e) Hlaw Hne Hk) as Hke.
      apply (found_frame_dict d d1 k2 [e] [] (dictEntries d1) Hty);
        [exact Hp | reflexivity | apply only_one; exact Hke | apply none_of_nil].
    + destruct Hcase as [_ Hp].
      apply (found_frame_dict d d1 k2 [] [] (dictEntries d) Hty);
        [reflexivity | exact Hp | apply none_of_nil | apply none_of_nil].
Qed.

Lemma dict_update_other_keys_witness :
  exists da d1 x d2,
    dictFind full_dict 3 = Ok (da, Some {| key := 3; val := 13 |})
    /\ dictDelete full_dict 2 = Ok (d1, x)
    /\ dictFind d1 3 = Ok (d2, Some {| key := 3; val := 13 |}).
Proof.
  destruct (dict_update_other_keys (with_memory true) full_dict 2 99 3 full_dict_ok
              (with_memory_allocates true))
    as (r & da & Hfind & _ & _ & (d1 & x & d2 & Hdel & Hfind2)).
  - simpl. lia.
  - reflexivity.
  - assert (Hr : dictFind full_dict 3
                 = Ok (full_dict, Some {| key := 3; val := 13 |}))
      by (vm_compute; reflexivity).
    rewrite Hr in Hfind. injection Hfind as <- <-.
    exists full_dict, d1, x, d2. auto.
Defined.

(** [dictAddOrFind] on a well-formed dictionary of fewer than [2^59]
    entries always returns an entry of the dictionary whose key is equal
    to [k]: one that was there, with the keys as they were, or one it
    linked in, of key [keyDup(k)]. *)
Theorem dictAddOrFind_entry (c : env) (d : dict) (k : Z) :
  dict_ok d -> allocates c -> used (ht0 d) + used (ht1 d) < 2 ^ 59 ->
  exists d1 r e,
    dictAddOrFind c d k = Ok (d1, Some r)
    /\ ref_at d1 r e /\ key_eq (type d) k (key e) = true
    /\ dict_inv d1
    /\ ((~ absent d k /\ dictEntries d1 ≡ₚ dictEntries d)
        \/ (absent d k /\ key e = dictSetKeyOf d k
            /\ key <$> dictEntries d1
               ≡ₚ dictSetKeyOf d k :: (key <$> dictEntries d))).
Proof.
  intros Hok Hmem Hroom. pose proof Hok as (Hinv & Hpl & Hlaw & _).
  unfold dictAddOrFind.
  destruct (dictAddRaw_spec c d k Hinv Hmem Hroom)
    as (d1 & en & ex & Hadd & Hinv1 & Hty1 & _ & _ & Hcases).
  rewrite Hadd. cbn [bind].
  destruct Hcases
    as [(-> & Hsc & [[_ Hbig]|(r & -> & _)])
       |(r & d0 & -> & -> & _ & Hsc0 & Hnm & Hperm & _)]; [lia| |].
  - destruct (dictAddRaw_existing _ _ _ _ _ Hadd) as (e & Hat & Hm).
    destruct Hsc as (_ & _ & _ & Hp & _).
    rewrite key_matches_key_eq, Hty1 in Hm.
    exists d1, r, e. split; [reflexivity|]. split; [exact Hat|].
    split; [exact Hm|]. split; [exact Hinv1|]. left. split; [|exact Hp].
    intros Ha. apply (found_not_absent d k e); [|exact Ha].
    split; [|exact Hm]. rewrite <- Hp. exact (ref_at_entry _ _ _ Hat).
  - pose proof (dictAddRaw_new _ _ _ _ _ _ Hadd) as Hat.
    assert (Hk : dictSetKeyOf d1 k = dictSetKeyOf d k)
      by (unfold dictSetKeyOf; rewrite Hty1; reflexivity).
    rewrite Hk in Hat.
    exists d1, r, {| key := dictSetKeyOf d k; val := 0 |}.
    split; [reflexivity|]. split; [exact Hat|].
    split; [apply (law_dup _ Hlaw)|]. split; [exact Hinv1|]. right.
    split; [exact (no_match_absent_from d d0 k Hpl Hlaw Hsc0 Hnm)|].
    split; [reflexivity|]. rewrite Hperm. reflexivity.
Qed.

Lemma dictAddOrFind_entry_witness :
  exists d1 r,
    dictAddOrFind (with_memory true) full_dict 2 = Ok (d1, Some r)
    /\ ref_at d1 r {| key := 2; val := 12 |}.
Proof.
  destruct (dictAddOrFind_entry (with_memory true) full_dict 2 full_dict_ok
              (with_memory_allocates true))
    as (d1 & r & e & Hrun & Hat & Hk & _ & [(_ & Hp)|(Ha & _)]).
  - simpl. lia.
  - exists d1, r. split; [exact Hrun|].
    assert (He : e ∈ dictEntries full_dict)
      by (rewrite <- Hp; exact (ref_at_entry _ _ _ Hat)).
    apply list_elem_of_In in He. simpl in He.
    destruct He as [<-|[<-|[<-|[<-|[]]]]]; try discriminate Hk. exact Hat.
  - exfalso. assert (He : {| key := 2; val := 12 |} ∈ dictEntries full_dict)
      by (apply list_elem_of_In; simpl; tauto).
    specialize (Ha _ He). discriminate Ha.
Defined.

(** *** The scan of a table that does not change *)


















(** [rev] reverses the order of the 64 bits of its argument, and is its
    own inverse. *)
Theorem rev_reverses_bits (v : Z) :
  0 <= v < 2 ^ 64 ->
  0 <= rev v < 2 ^ 64
  /\ (forall j, 0 <= j < 64 -> Z.testbit (rev v) j = Z.testbit v (63 - j))
  /\ rev (rev v) = v.
Proof.
  intros Hv. split; [apply rev_range|].
  split; [intros j Hj; apply rev_testbit; exact Hj|].
  apply rev_involutive. exact Hv.
Qed.

Lemma rev_reverses_bits_witness :
  rev 1 = 2 ^ 63 /\ rev (rev 1) = 1.
Proof.
  destruct (rev_reverses_bits 1 ltac:(lia)) as (_ & _ & Hinv).
  split; [vm_compute; reflexivity | exact Hinv].
Defined.

(** *** A whole iteration *)

(** The entries an iterator has still to return: the rest of its chain,
    the buckets after its index, and [ht[1]] when it is in [ht[0]] of a
    rehashing dictionary. *)
Definition rest_tables (d : dict) (t : nat) (i : Z) : list dictEntry :=
  concat (drop (Z.to_nat (i + 1)) (tbl (ht d t)))
  ++ (if dictIsRehashing d && Nat.eqb t 0 then ht_entries (ht1 d) else []).

Definition remaining (d : dict) (it : dictIterator) : list dictEntry :=
  match entry it with [] => [] | _ :: _ => nextEntry it end
  ++ rest_tables d (itable it) (index it).

(** Where an iterator can be. *)
Definition iter_pos (d : dict) (it : dictIterator) : Prop :=
  (itable it = 0%nat \/ (itable it = 1%nat /\ rehashidx d <> -1))
  /\ -1 <= index it
  /\ (index it = -1 -> itable it = 0%nat /\ entry it = [])
  /\ iter_points d it.

Lemma iter_pos_ok (d : dict) (it : dictIterator) : iter_pos d it -> iter_ok it.
Proof.
  intros (_ & Hi & Hf & _). destruct (Z.eq_dec (index it) (-1)) as [E|E].
  - left. destruct (Hf E) as [Ht He]. unfold is_fresh. rewrite E, Ht. auto.
  - right. lia.
Qed.

Lemma same_tables_rest (d d' : dict) (t : nat) (i : Z) :
  same_tables d d' -> rest_tables d' t i = rest_tables d t i.
Proof.
  intros (_ & H0 & H1 & Hr). unfold rest_tables, dictIsRehashing.
  rewrite Hr, H1. destruct t; simpl; rewrite ?H0, ?H1; reflexivity.
Qed.

Lemma wrap_long_small (s : Z) : 0 <= s < 2 ^ 63 -> wrap_long s = s.
Proof. intros H. unfold wrap_long. rewrite Z.mod_small; lia. Qed.

Lemma concat_drop_bucket (tb : list (list dictEntry)) (i : Z)
    (b : list dictEntry) :
  lookupZ tb i = Ok b ->
  concat (drop (Z.to_nat i) tb) = b ++ concat (drop (Z.to_nat (i + 1)) tb).
Proof.
  intros Hb. apply lookupZ_Ok in Hb as [Hi Hb].
  replace (Z.to_nat (i + 1)) with (S (Z.to_nat i)) by lia.
  rewrite (drop_S _ _ _ Hb). reflexivity.
Qed.

(** The first half of a turn of [dictNext]: either it stops, and nothing
    was left, or the chain it stands on followed by what comes after is
    what was left. *)
Lemma dictNext_advance_remaining (addr : dictht -> Z) (d d1 : dict)
    (it it1 : dictIterator) (stop : bool) :
  dict_inv d -> size (ht0 d) < 2 ^ 63 -> size (ht1 d) < 2 ^ 63 ->
  iter_pos d it ->
  dictNext_advance addr d it = Ok (d1, it1, stop) ->
  fingerprint it1
  = (if is_fresh it && negb (safe it) then dictFingerprint addr d
     else fingerprint it)
  /\ if stop then remaining d it = []
     else entry it1 ++ rest_tables d (itable it1) (index it1) = remaining d it
          /\ (itable it1 = 0%nat \/ (itable it1 = 1%nat /\ rehashidx d <> -1)).
Proof.
  intros Hinv Hs0 Hs1 (Htab & Hidx & Hfresh & _). unfold dictNext_advance, remaining.
  pose proof Hinv as (Hi0 & Hi1 & _ & _ & Hre).
  destruct (entry it) as [|e el] eqn:He.
  - fold (is_fresh it).
    set (d0 := if is_fresh it && safe it then _ else d).
    assert (Hd0 : ht0 d0 = ht0 d /\ ht1 d0 = ht1 d /\ rehashidx d0 = rehashidx d)
      by (subst d0; destruct (is_fresh it && safe it); simpl; auto).
    destruct Hd0 as (H0 & H1 & Hr).
    assert (Hht : forall t, ht d0 t = ht d t)
      by (intros [|t]; simpl; assumption).
    assert (Hreh : dictIsRehashing d0 = dictIsRehashing d)
      by (unfold dictIsRehashing; rewrite Hr; reflexivity).
    assert (Hfp : dictFingerprint addr d0 = dictFingerprint addr d \/ safe it = true).
    { subst d0. destruct (safe it); [right; reflexivity|].
      rewrite andb_false_r. left. reflexivity. }
    set (it0 := if is_fresh it && negb (safe it) then _ else it).
    assert (Hit0 : index it0 = index it
                   /\ fingerprint it0
                      = (if is_fresh it && negb (safe it)
                         then dictFingerprint addr d else fingerprint it)).
    { subst it0. destruct (is_fresh it && negb (safe it)) eqn:E; simpl; [|auto].
      split; [reflexivity|]. destruct Hfp as [->|Hsafe]; [reflexivity|].
      rewrite Hsafe, andb_false_r in E. discriminate. }
    destruct Hit0 as [Hi Hf]. rewrite Hi, Hht, Hreh, H1.
    assert (Hsz : 0 <= size (ht d (itable it)) < 2 ^ 63
                  /\ Z.of_nat (length (tbl (ht d (itable it))))
                     = size (ht d (itable it))
                  /\ (0 < size (ht d (itable it)) ->
                      table (ht d (itable it)) = Some (tbl (ht d (itable it))))).
    { destruct (itable it); simpl.
      - destruct (ht_inv_tbl _ Hi0) as (? & ? & ?). repeat split; auto; lia.
      - destruct (ht_inv_tbl _ Hi1) as (? & ? & ?). repeat split; auto; lia. }
    destruct Hsz as (Hsz & Hlen & Hsome).
    rewrite (wrap_long_small _ Hsz).
    destruct (Z.geb_spec (index it + 1) (size (ht d (itable it)))) as [Hge|Hlt].
    + assert (Hnil : concat (drop (Z.to_nat (index it + 1))
                               (tbl (ht d (itable it)))) = []).
      { rewrite drop_ge by lia. reflexivity. }
      unfold rest_tables. rewrite Hnil.
      destruct (dictIsRehashing d && Nat.eqb (itable it) 0) eqn:Hsw.
      * apply andb_true_iff in Hsw as [Hreh' Ht].
        apply dictIsRehashing_true in Hreh'.
        destruct (Hre Hreh') as (_ & _ & Hn1 & _).
        destruct (table (ht1 d)) as [tb|] eqn:Htb; [|contradiction].
        unfold the_table. rewrite Htb. cbn [bind].
        destruct (lookupZ tb 0) as [b|] eqn:Hb; [|discriminate]. cbn [bind].
        intros [= <- <- <-]. simpl. split; [exact Hf|].
        split; [|right; auto].
        rewrite andb_false_r, app_nil_r.
        unfold ht_entries, tbl. rewrite Htb. simpl.
        symmetry. exact (concat_drop_bucket tb 0 b Hb).
      * intros [= <- <- <-]. split; [exact Hf | reflexivity].
    + unfold the_table. rewrite (Hsome ltac:(lia)). cbn [bind].
      destruct (lookupZ (tbl (ht d (itable it))) (index it + 1)) as [b|] eqn:Hb;
        [|discriminate].
      cbn [bind]. intros [= <- <- <-]. simpl. split; [exact Hf|].
      split; [|exact Htab].
      unfold rest_tables. rewrite app_assoc. f_equal.
      symmetry. exact (concat_drop_bucket _ _ _ Hb).
  - intros [= <- <- <-]. simpl.
    assert (Hnf : is_fresh it = false).
    { unfold is_fresh. destruct (Z.eqb_spec (index it) (-1)) as [E|]; [|reflexivity].
      destruct (Hfresh E) as [_ Hn]. discriminate. }
    rewrite Hnf. simpl. split; [reflexivity|]. split; [reflexivity | exact Htab].
Qed.

Lemma same_tables_trans (d1 d2 d3 : dict) :
  same_tables d1 d2 -> same_tables d2 d3 -> same_tables d1 d3.
Proof.
  intros (? & ? & ? & ?) (? & ? & ? & ?). unfold same_tables.
  repeat split; congruence.
Qed.

Lemma same_tables_remaining (d d' : dict) (it : dictIterator) :
  same_tables d d' -> remaining d' it = remaining d it.
Proof.
  intros H. unfold remaining. rewrite (same_tables_rest d d' _ _ H). reflexivity.
Qed.

Lemma same_tables_inv (d d' : dict) :
  same_tables d d' -> dict_inv d -> dict_inv d'.
Proof.
  intros (_ & H0 & H1 & Hr). unfold dict_inv. rewrite H0, H1, Hr. auto.
Qed.

(** [dictNext] returns the first of the entries left and keeps the
    others, in order; it returns NULL when none is left. *)
Lemma dictNext_loop_remaining (addr : dictht -> Z) (fuel : nat) :
  forall d it d' it' r,
    dict_inv d -> size (ht0 d) < 2 ^ 63 -> size (ht1 d) < 2 ^ 63 ->
    iter_pos d it ->
    dictNext_loop fuel addr d it = Ok (d', it', r) ->
    fingerprint it'
    = (if is_fresh it && negb (safe it) then dictFingerprint addr d
       else fingerprint it)
    /\ match r with
       | None => remaining d it = []
       | Some e => remaining d it = e :: remaining d' it' /\ iter_pos d' it'
       end.
Proof.
  induction fuel as [|fuel IH]; intros d it d' it' r Hinv Hs0 Hs1 Hpos;
    [discriminate|].
  simpl. destruct (dictNext_advance addr d it) as [[[d1 it1] stop]|] eqn:Ha;
    [|discriminate]. cbn [bind].
  destruct (dictNext_advance_counter addr d d1 it it1 stop
              (iter_pos_ok d it Hpos) Ha) as (Hi1 & _ & Hst1 & _).
  destruct (dictNext_advance_remaining addr d d1 it it1 stop Hinv Hs0 Hs1 Hpos Ha)
    as (Hfp1 & Hrem).
  pose proof (dictNext_advance_points addr d d1 it it1 stop
                (proj2 (proj2 (proj2 Hpos))) Ha) as Hp1.
  destruct stop.
  { intros [= <- <- <-]. auto. }
  destruct Hrem as [Hrem Htab1].
  assert (Hr1 : rehashidx d1 = rehashidx d) by (destruct Hst1 as (_ & _ & _ & ?); auto).
  rewrite (dictNext_entry_same d1 it1 Hp1). cbn [bind].
  destruct (entry it1) as [|e el] eqn:He1.
  - intros Hl.
    assert (Hpos1 : iter_pos d1 it1).
    { split; [rewrite Hr1; exact Htab1|]. split; [lia|].
      split; [intros E; lia | left; exact He1]. }
    destruct Hst1 as (Ht & H0 & H1 & Hr).
    destruct (IH d1 it1 d' it' r) as (Hfp' & Hres); try assumption.
    { apply (same_tables_inv d); [unfold same_tables; auto | exact Hinv]. }
    { rewrite H0. exact Hs0. }
    { rewrite H1. exact Hs1. }
    assert (Hnf : is_fresh it1 = false).
    { unfold is_fresh. destruct (Z.eqb_spec (index it1) (-1)); [lia | reflexivity]. }
    rewrite Hnf in Hfp'. simpl in Hfp'.
    split; [congruence|].
    assert (Hsame : remaining d it = remaining d1 it1).
    { rewrite (same_tables_remaining d d1) by (unfold same_tables; auto).
      unfold remaining at 2. rewrite He1. exact (eq_sym Hrem). }
    rewrite Hsame. exact Hres.
  - intros [= <- <- <-]. simpl. split; [exact Hfp1|].
    split.
    + rewrite <- Hrem. unfold remaining. simpl.
      rewrite (same_tables_rest d d1 _ _ Hst1). reflexivity.
    + split; [simpl; rewrite Hr1; exact Htab1|]. simpl. split; [lia|].
      split; [intros E; lia|].
      right. destruct Hp1 as [H|(tb & b & Ht & Hb & Hs)];
        [rewrite He1 in H; discriminate|].
      right. exists tb, b. split; [exact Ht|]. split; [exact Hb|].
      rewrite He1 in Hs. exact (suffix_cons_l _ _ _ Hs).
Qed.

(** The loop of a caller,
    [while ((de = dictNext(di)) != NULL) ...]: the entries returned. *)
Fixpoint dict_iterate (fuel : nat) (addr : dictht -> Z) (d : dict)
    (it : dictIterator) : res (dict * dictIterator * list dictEntry) :=
  match fuel with
  | O => Err OutOfFuel
  | S f =>
      do '(d, it, r) <- dictNext addr d it;
      match r with
      | None => Ok (d, it, [])
      | Some e =>
          do '(d, it, l) <- dict_iterate f addr d it;
          Ok (d, it, e :: l)
      end
  end.

Lemma dict_iterate_spec (addr : dictht -> Z) (fuel : nat) :
  forall d it,
    dict_inv d -> size (ht0 d) < 2 ^ 63 -> size (ht1 d) < 2 ^ 63 ->
    iter_pos d it ->
    (length (remaining d it) < fuel)%nat ->
    exists d' it',
      dict_iterate fuel addr d it = Ok (d', it', remaining d it)
      /\ same_tables d d'
      /\ 0 <= index it' /\ safe it' = safe it
      /\ iterators d'
         = (if is_fresh it && safe it then wrap64 (iterators d + 1)
            else iterators d)
      /\ fingerprint it'
         = (if is_fresh it && negb (safe it) then dictFingerprint addr d
            else fingerprint it).
Proof.
  induction fuel as [|fuel IH]; intros d it Hinv Hs0 Hs1 Hpos Hlen; [lia|].
  cbn [dict_iterate].
  destruct (dictNext_total addr d it Hinv (iter_pos_ok d it Hpos)
              (proj2 (proj2 (proj2 Hpos))))
    as [[[d1 it1] r] Hn].
  rewrite Hn. cbn [bind].
  destruct (dictNext_loop_counter addr _ d it d1 it1 r (iter_pos_ok d it Hpos) Hn)
    as (Hi1 & Hsafe1 & Hst1 & Hc1).
  destruct (dictNext_loop_remaining addr _ d it d1 it1 r Hinv Hs0 Hs1 Hpos Hn)
    as (Hfp1 & Hres).
  destruct r as [e|].
  - destruct Hres as [Hrem Hpos1]. rewrite Hrem in Hlen |- *. simpl in Hlen.
    pose proof Hst1 as (Ht & H0 & H1 & Hr).
    destruct (IH d1 it1) as (d' & it' & Hrun & Hst' & Hi' & Hsafe' & Hc' & Hfp');
      try assumption.
    { exact (same_tables_inv d d1 Hst1 Hinv). }
    { rewrite H0. exact Hs0. }
    { rewrite H1. exact Hs1. }
    { lia. }
    rewrite Hrun. cbn [bind].
    assert (Hnf : is_fresh it1 = false).
    { unfold is_fresh. destruct (Z.eqb_spec (index it1) (-1)); [lia | reflexivity]. }
    rewrite Hnf in Hc', Hfp'. simpl in Hc', Hfp'.
    exists d', it'. split; [reflexivity|].
    split; [exact (same_tables_trans _ _ _ Hst1 Hst')|].
    split; [exact Hi'|]. split; [congruence|]. split; congruence.
  - rewrite Hres. exists d1, it1. split; [reflexivity|]. auto.
Qed.

Lemma remaining_fresh (d : dict) (it : dictIterator) :
  dict_inv d -> index it = -1 -> itable it = 0%nat -> entry it = [] ->
  remaining d it = dictEntries d.
Proof.
  intros Hinv Hi Ht He. unfold remaining, rest_tables. rewrite He, Hi, Ht.
  simpl. unfold dictEntries, ht_entries at 1. f_equal.
  rewrite andb_true_r. destruct (dictIsRehashing d) eqn:Hre; [reflexivity|].
  apply dictIsRehashing_false in Hre.
  destruct Hinv as (_ & _ & _ & H1 & _). rewrite (H1 Hre). reflexivity.
Qed.

Lemma set_iterators_back (d : dict) :
  0 <= iterators d < 2 ^ 64 ->
  forall d', same_tables d d' ->
    set_iterators d' (wrap64 (wrap64 (iterators d + 1) - 1)) = d.
Proof.
  intros Hit d' (Ht & H0 & H1 & Hr).
  rewrite Zmalloc.wrap64_add_sub by exact Hit.
  destruct d, d'. simpl in *. unfold set_iterators. simpl. congruence.
Qed.

Lemma if_true_eq (b : bool) (x y z : Z) :
  b = true -> z = (if b then x else y) -> z = x.
Proof. intros -> H. exact H. Qed.

Lemma if_false_eq (b : bool) (x y z : Z) :
  b = false -> z = (if b then x else y) -> z = y.
Proof. intros -> H. exact H. Qed.

Lemma release_unsafe (addr : dictht -> Z) (d : dict) (it : dictIterator) :
  0 <= index it -> safe it = false ->
  fingerprint it = dictFingerprint addr d ->
  dictReleaseIterator addr d it = Ok d.
Proof.
  intros Hi Hs Hfp. unfold dictReleaseIterator.
  destruct (Z.eqb_spec (index it) (-1)) as [E|_]; [lia|]. cbn [andb negb].
  rewrite Hs, <- Hfp, Z.eqb_refl. reflexivity.
Qed.

Lemma release_safe (addr : dictht -> Z) (d d' : dict) (it : dictIterator) :
  0 <= index it -> safe it = true ->
  0 <= iterators d < 2 ^ 64 -> same_tables d d' ->
  iterators d' = wrap64 (iterators d + 1) ->
  dictReleaseIterator addr d' it = Ok d.
Proof.
  intros Hi Hs Hit Hst Hc. unfold dictReleaseIterator.
  destruct (Z.eqb_spec (index it) (-1)) as [E|_]; [lia|]. cbn [andb negb].
  rewrite Hs, Hc. f_equal. exact (set_iterators_back d Hit d' Hst).
Qed.

Lemma dict_iteration_fresh (addr : dictht -> Z) (d : dict) (it : dictIterator) :
  dict_inv d -> size (ht0 d) < 2 ^ 63 -> size (ht1 d) < 2 ^ 63 ->
  0 <= iterators d < 2 ^ 64 ->
  index it = -1 -> itable it = 0%nat -> entry it = [] ->
  exists d' it',
    dict_iterate (S (length (dictEntries d))) addr d it
    = Ok (d', it', dictEntries d)
    /\ same_tables d d'
    /\ dictReleaseIterator addr d' it' = Ok d.
Proof.
  intros Hinv Hs0 Hs1 Hit Hi Ht He.
  assert (Hpos : iter_pos d it).
  { split; [left; exact Ht|]. split; [lia|]. split; [auto | left; exact He]. }
  pose proof (remaining_fresh d it Hinv Hi Ht He) as Hrem.
  destruct (dict_iterate_spec addr (S (length (dictEntries d))) d it
              Hinv Hs0 Hs1 Hpos ltac:(rewrite Hrem; lia))
    as (d' & it' & Hrun & Hst & Hi' & Hsafe' & Hc & Hfp).
  rewrite Hrem in Hrun. exists d', it'. split; [exact Hrun|].
  split; [exact Hst|].
  assert (Hf : is_fresh it = true) by (unfold is_fresh; rewrite Hi, Ht; reflexivity).
  destruct (safe it) eqn:Hsf.
  - apply (if_true_eq (is_fresh it && true)) in Hc; [|rewrite Hf; reflexivity].
    exact (release_safe addr d d' it' Hi' Hsafe' Hit Hst Hc).
  - apply (if_false_eq (is_fresh it && false)) in Hc; [|rewrite Hf; reflexivity].
    apply (if_true_eq (is_fresh it && negb false)) in Hfp;
      [|rewrite Hf; reflexivity].
    assert (Hd' : d' = d).
    { destruct Hst as (Ht' & H0 & H1 & Hr). clear - Ht' H0 H1 Hr Hc.
      destruct d, d'. cbn in *. congruence. }
    rewrite Hd'. exact (release_unsafe addr d it' Hi' Hsafe' Hfp).
Qed.

(** An iterator, safe or not, run to the end over a dictionary that is
    not modified returns every entry exactly once, [ht[0]] before
    [ht[1]] and each table in the order of its buckets and chains; and
    [dictReleaseIterator] then leaves the dictionary as it was before the
    iteration. *)
Theorem dict_iteration_complete (addr : dictht -> Z) (d : dict) (sf : bool) :
  dict_inv d -> size (ht0 d) < 2 ^ 63 -> size (ht1 d) < 2 ^ 63 ->
  0 <= iterators d < 2 ^ 64 ->
  let it := snd (if sf then dictGetSafeIterator d else dictGetIterator d) in
  exists d' it',
    dict_iterate (S (length (dictEntries d))) addr d it
    = Ok (d', it', dictEntries d)
    /\ same_tables d d'
    /\ dictReleaseIterator addr d' it' = Ok d.
Proof.
  intros Hinv Hs0 Hs1 Hit it.
  apply dict_iteration_fresh; try assumption;
    subst it; destruct sf; reflexivity.
Qed.

Lemma dict_iteration_complete_witness :
  exists d' it',
    dict_iterate 6 no_addr rehashing_dict (snd (dictGetIterator rehashing_dict))
    = Ok (d', it',
          [{| key := 1; val := 11 |}; {| key := 2; val := 12 |};
           {| key := 3; val := 13 |}; {| key := 0; val := 10 |};
           {| key := 4; val := 14 |}])
    /\ dictReleaseIterator no_addr d' it' = Ok rehashing_dict.
Proof.
  destruct (dict_iteration_complete no_addr rehashing_dict false)
    as (d' & it' & Hrun & _ & Hrel).
  - exact rehashing_dict_inv.
  - simpl. lia.
  - simpl. lia.
  - simpl. lia.
  - exists d', it'. split; [exact Hrun | exact Hrel].
Defined.

(** *** Clearing a dictionary *)

(** The inner loop of [_dictClear], [while(he) { ... ht->used--; ... }]:
    [used] after the chain has been released. *)
Fixpoint free_chain (he : list dictEntry) (used : Z) : Z :=
  match he with
  | [] => used
  | _ :: nextHe => free_chain nextHe (wrap64 (used - 1))
  end.

(** What [_dictClear] did besides resetting the table: the entries it
    released, in order, and the number of calls of [callback] (two
    records of the embedding, not of the C code). *)
Record clear_log : Type := { freed : list dictEntry; callbacks : Z }.

(** The loop [for (i = 0; i < ht->size && ht->used > 0; i++)] of
    [_dictClear]; [has_cb] says whether [callback] is not NULL. *)
Fixpoint _dictClear_loop (fuel : nat) (h : dictht) (has_cb : bool)
    (i used : Z) (log : clear_log) : res clear_log :=
  match fuel with
  | O => Err OutOfFuel
  | S f =>
      if (i <? size h) && (used >? 0) then
        let log := if has_cb && (Z.land i 65535 =? 0)
                   then {| freed := freed log; callbacks := callbacks log + 1 |}
                   else log in
        do tb <- the_table h;
        do he <- lookupZ tb i;
        _dictClear_loop f h has_cb (i + 1) (free_chain he used)
          {| freed := freed log ++ he; callbacks := callbacks log |}
      else Ok log
  end.

(** [_dictClear(d, ht, callback)]: the table after the call (always
    [_dictReset]), the value returned and the log. *)
Definition _dictClear (h : dictht) (has_cb : bool) (log : clear_log)
    : res (dictht * Z * clear_log) :=
  do log <- _dictClear_loop (S (length (tbl h))) h has_cb 0 (used h) log;
  Ok (_dictReset, DICT_OK, log).

(** [dictEmpty(d, callback)] *)
Definition dictEmpty (d : dict) (has_cb : bool) : res (dict * clear_log) :=
  do '(h0, _, log) <- _dictClear (ht0 d) has_cb {| freed := []; callbacks := 0 |};
  let d := set_ht0 d h0 in
  do '(h1, _, log) <- _dictClear (ht1 d) has_cb log;
  let d := set_ht1 d h1 in
  let d := set_rehashidx d (-1) in
  let d := set_iterators d 0 in
  Ok (d, log).

(** [dictRelease(d)]: the dictionary is gone; the log is left. *)
Definition dictRelease (d : dict) : res clear_log :=
  do '(h0, _, log) <- _dictClear (ht0 d) false {| freed := []; callbacks := 0 |};
  let d := set_ht0 d h0 in
  do '(h1, _, log) <- _dictClear (ht1 d) false log;
  Ok log.

Lemma free_chain_spec (he : list dictEntry) (used : Z) :
  Z.of_nat (length he) <= used < 2 ^ 64 ->
  free_chain he used = used - Z.of_nat (length he).
Proof.
  revert used. induction he as [|e he IH]; intros used Hu; simpl in *; [lia|].
  rewrite wrap64_small by lia. rewrite IH by lia. lia.
Qed.

Lemma concat_length_0 (t : list (list dictEntry)) :
  length (concat t) = 0%nat -> concat t = [].
Proof. destruct (concat t); [reflexivity | discriminate]. Qed.

Lemma _dictClear_loop_spec (h : dictht) (tb : list (list dictEntry))
    (has_cb : bool) (c0 : Z) :
  table h = Some tb -> Z.of_nat (length tb) = size h ->
  Z.of_nat (length (concat tb)) < 2 ^ 64 ->
  forall (fuel : nat) (i : Z) (log : clear_log),
    0 <= i <= size h -> size h - i < Z.of_nat fuel ->
    (callbacks log - c0) * 65536 <= i + 65535 ->
    exists cbs,
      _dictClear_loop fuel h has_cb i
        (Z.of_nat (length (concat (drop (Z.to_nat i) tb)))) log
      = Ok {| freed := freed log ++ concat (drop (Z.to_nat i) tb);
              callbacks := cbs |}
      /\ callbacks log <= cbs
      /\ (cbs - c0) * 65536 <= size h + 65535
      /\ (has_cb = false -> cbs = callbacks log).
Proof.
  intros Ht Hlen Hbound.
  induction fuel as [|fuel IH]; intros i log Hi Hfuel Hcb; [lia|].
  cbn [_dictClear_loop].
  assert (Hsub : Z.of_nat (length (concat (drop (Z.to_nat i) tb)))
                 <= Z.of_nat (length (concat tb))).
  { rewrite <- (take_drop (Z.to_nat i) tb) at 2.
    rewrite concat_app, length_app. lia. }
  destruct ((i <? size h)
            && (Z.of_nat (length (concat (drop (Z.to_nat i) tb))) >? 0)) eqn:Hgo.
  - apply andb_true_iff in Hgo as [Hlt Hpos].
    apply Z.ltb_lt in Hlt. apply Z.gtb_lt in Hpos.
    unfold the_table. rewrite Ht. cbn [bind].
    destruct (lookupZ_total tb i ltac:(lia)) as [he Hhe].
    rewrite Hhe. cbn [bind].
    pose proof (concat_drop_bucket tb i he Hhe) as Hd.
    rewrite Hd, length_app, free_chain_spec by (rewrite Hd, length_app in Hsub; lia).
    replace (Z.of_nat (length he + length (concat (drop (Z.to_nat (i + 1)) tb)))
             - Z.of_nat (length he))
      with (Z.of_nat (length (concat (drop (Z.to_nat (i + 1)) tb)))) by lia.
    set (log1 := if has_cb && (Z.land i 65535 =? 0)
                 then {| freed := freed log; callbacks := callbacks log + 1 |}
                 else log).
    assert (Hlog1 : freed log1 = freed log
                    /\ callbacks log <= callbacks log1
                    /\ (callbacks log1 - c0) * 65536 <= i + 1 + 65535
                    /\ (has_cb = false -> callbacks log1 = callbacks log)).
    { subst log1. destruct has_cb; simpl; [|repeat split; auto; lia].
      destruct (Z.eqb_spec (Z.land i 65535) 0) as [E|_]; simpl;
        [|repeat split; auto; try lia; discriminate].
      split; [reflexivity|]. split; [lia|]. split; [|discriminate].
      change 65535 with (Z.ones 16) in E. rewrite Z.land_ones in E by lia.
      change (2 ^ 16) with 65536 in E.
      pose proof (Z.div_mod i 65536 ltac:(lia)) as Hdm. rewrite E in Hdm.
      assert (callbacks log - c0 <= i / 65536) by nia. nia. }
    destruct Hlog1 as (Hf1 & Hc1 & Hc1' & Hn1).
    destruct (IH (i + 1) {| freed := freed log1 ++ he; callbacks := callbacks log1 |})
      as (cbs & Hrun & Hle & Hub & Hno); [lia | lia | exact Hc1'|].
    cbn [freed callbacks] in Hrun, Hle, Hno.
    exists cbs. rewrite Hrun, Hf1, <- app_assoc.
    split; [reflexivity|]. split; [lia|]. split; [exact Hub|].
    intros Hno'. rewrite (Hno Hno'). auto.
  - exists (callbacks log). split.
    + f_equal. destruct log as [fr cb]. simpl. f_equal.
      apply andb_false_iff in Hgo as [Hge|Hz].
      * apply Z.ltb_ge in Hge. rewrite drop_ge by lia. simpl.
        rewrite app_nil_r. reflexivity.
      * rewrite (concat_length_0 (drop (Z.to_nat i) tb)), app_nil_r; [reflexivity|].
        destruct (Z.gtb_spec (Z.of_nat (length (concat (drop (Z.to_nat i) tb)))) 0);
          [discriminate | lia].
    + split; [lia|]. split; [lia | auto].
Qed.

Lemma _dictClear_spec (h : dictht) (has_cb : bool) (log : clear_log) :
  ht_inv h -> used h < 2 ^ 64 ->
  exists cbs,
    _dictClear h has_cb log
    = Ok (_dictReset, DICT_OK,
          {| freed := freed log ++ ht_entries h; callbacks := cbs |})
    /\ callbacks log <= cbs
    /\ (cbs - callbacks log) * 65536 <= size h + 65535
    /\ (has_cb = false -> cbs = callbacks log).
Proof.
  intros Hinv Hu. unfold _dictClear, ht_entries, tbl.
  destruct (table h) as [tb|] eqn:Ht.
  - destruct (ht_inv_table h tb Hinv Ht) as (Hlen & Hsz & _ & Hused).
    pose proof (is_table_size_bounds _ Hsz) as Hb.
    unfold chain_count in Hused.
    change (default [] (Some tb)) with tb.
    destruct (_dictClear_loop_spec h tb has_cb (callbacks log) Ht Hlen ltac:(lia)
                (S (length tb)) 0 log ltac:(lia) ltac:(lia) ltac:(lia))
      as (cbs & Hrun & Hle & Hub & Hno).
    change (Z.to_nat 0) with 0%nat in Hrun. rewrite drop_0 in Hrun.
    rewrite Hused, Hrun. cbn [bind].
    exists cbs. split; [reflexivity|]. split; [exact Hle|].
    split; [exact Hub | exact Hno].
  - unfold ht_inv in Hinv. rewrite Ht in Hinv. destruct Hinv as (Hs & _ & Hu0).
    change (default [] None) with (@nil (list dictEntry)).
    cbn [length _dictClear_loop]. rewrite Hs. cbn [Z.ltb Z.compare andb bind concat].
    destruct log as [fr cb]. cbn [freed callbacks] in *.
    rewrite app_nil_r. exists cb. split; [reflexivity|].
    split; [lia|]. split; [lia | auto].
Qed.

(** [dictEmpty] and [dictRelease] on a well-formed dictionary release
    every entry exactly once, [ht[0]] first and each table in the order
    of its buckets and chains.  [dictEmpty] leaves the dictionary as
    [dictCreate] made it, and calls [callback] at most once for every
    65536 buckets of a table (never when it is NULL). *)
Theorem dictEmpty_frees_all (d : dict) (has_cb : bool) :
  dict_inv d ->
  exists log,
    dictEmpty d has_cb = Ok (dictCreate (type d), log)
    /\ freed log = dictEntries d
    /\ 0 <= callbacks log
    /\ callbacks log * 65536 <= size (ht0 d) + size (ht1 d) + 2 * 65535
    /\ (has_cb = false -> callbacks log = 0)
    /\ dictRelease d = Ok {| freed := dictEntries d; callbacks := 0 |}.
Proof.
  intros Hinv. pose proof Hinv as (Hi0 & Hi1 & Hsum & _).
  pose proof (ht_inv_used_nonneg _ Hi0) as Hu0.
  pose proof (ht_inv_used_nonneg _ Hi1) as Hu1.
  assert (Hboth : forall cb,
            exists log,
              (do '(h0, _, log) <- _dictClear (ht0 d) cb
                                     {| freed := []; callbacks := 0 |};
               do '(h1, _, log) <- _dictClear (ht1 (set_ht0 d h0)) cb log;
               Ok (h0, h1, log))
              = Ok (_dictReset, _dictReset, log)
              /\ freed log = dictEntries d
              /\ 0 <= callbacks log
              /\ callbacks log * 65536
                 <= size (ht0 d) + size (ht1 d) + 2 * 65535
              /\ (cb = false -> callbacks log = 0)).
  { intros cb.
    destruct (_dictClear_spec (ht0 d) cb {| freed := []; callbacks := 0 |}
                Hi0 ltac:(lia)) as (c0 & Hr0 & Hle0 & Hub0 & Hno0).
    rewrite Hr0. cbn [bind freed callbacks app] in *.
    change (ht1 (set_ht0 d _dictReset)) with (ht1 d).
    destruct (_dictClear_spec (ht1 d) cb
                {| freed := ht_entries (ht0 d); callbacks := c0 |}
                Hi1 ltac:(lia)) as (c1 & Hr1 & Hle1 & Hub1 & Hno1).
    rewrite Hr1. cbn [bind freed callbacks] in *.
    eexists. split; [reflexivity|]. cbn [freed callbacks].
    split; [reflexivity|]. split; [lia|]. split; [lia|].
    intros Hcb. rewrite (Hno1 Hcb), (Hno0 Hcb). reflexivity. }
  destruct (Hboth has_cb) as (log & Hrun & Hfreed & Hpos & Hub & Hno).
  exists log. split.
  - unfold dictEmpty.
    destruct (_dictClear (ht0 d) has_cb {| freed := []; callbacks := 0 |})
      as [[[h0 r0] l0]|]; [|discriminate].
    cbn [bind] in Hrun |- *.
    destruct (_dictClear (ht1 (set_ht0 d h0)) has_cb l0)
      as [[[h1 r1] l1]|]; [|discriminate].
    cbn [bind] in Hrun |- *. injection Hrun as -> -> ->. reflexivity.
  - split; [exact Hfreed|]. split; [exact Hpos|]. split; [exact Hub|].
    split; [exact Hno|].
    destruct (Hboth false) as (log' & Hrun' & Hfreed' & _ & _ & Hno').
    unfold dictRelease.
    destruct (_dictClear (ht0 d) false {| freed := []; callbacks := 0 |})
      as [[[h0 r0] l0]|]; [|discriminate].
    cbn [bind] in Hrun' |- *.
    destruct (_dictClear (ht1 (set_ht0 d h0)) false l0)
      as [[[h1 r1] l1]|]; [|discriminate].
    cbn [bind] in Hrun' |- *. injection Hrun' as -> -> ->.
    destruct log' as [fr cb]. cbn [freed callbacks] in *.
    rewrite Hfreed', (Hno' eq_refl). reflexivity.
Qed.

Lemma dictEmpty_frees_all_witness :
  exists log,
    dictEmpty rehashing_dict true = Ok (dictCreate plain_type, log)
    /\ freed log = dictEntries rehashing_dict.
Proof.
  destruct (dictEmpty_frees_all rehashing_dict true rehashing_dict_inv)
    as (log & Hrun & Hfreed & _).
  exists log. split; [exact Hrun | exact Hfreed].
Defined.

(** *** Progress of the incremental rehash *)

(** A turn of the outer loop of [dictRehash] that starts with buckets to
    move either moves one or uses up the budget of empty visits. *)
Lemma dictRehash_loop_progress (fuel : nat) (d : dict)
    (n ev moved probes : Z) (r : rehash_run) :
  dict_inv d -> rehashidx d <> -1 ->
  (Z.to_nat (size (ht0 d) - rehashidx d) < fuel)%nat ->
  0 < n <= INT_MAX -> used (ht0 d) <> 0 ->
  dictRehash_loop fuel d n ev moved probes = Ok r ->
  1 <= (r_moved r - moved) + (r_probes r - probes).
Proof.
  intros Hinv Hidx Hf Hn Hu. destruct fuel as [|fuel]; [lia|].
  pose proof (budget_range ev) as Hbr.
  rewrite dictRehash_loop_S.
  destruct (Z.eqb_spec n 0) as [|_]; [lia|].
  destruct (Z.eqb_spec (used (ht0 d)) 0) as [|_]; [contradiction|].
  cbn [orb].
  pose proof Hinv as (Hi0 & Hi1 & Hsum & _ & Hre).
  destruct (Hre Hidx) as (Hrange & Hn0 & Hn1 & Hprefix).
  destruct (table (ht0 d)) as [t0|] eqn:Ht0; [|contradiction].
  destruct (ht_inv_table _ _ Hi0 Ht0) as (Hlen0 & Hsz0 & Hm0 & Hu0).
  pose proof (is_table_size_bounds _ Hsz0) as Hszb.
  destruct (nonempty_bucket d t0 Hinv Hidx Ht0 Hu) as (j0 & b0 & Hj0 & Hb0 & Hne0).
  pose proof (lookupZ_lt _ _ _ Hb0) as Hj0lt.
  rewrite wrap64_small by lia.
  destruct (Z.gtb_spec (size (ht0 d)) (rehashidx d)) as [_|?]; [|lia].
  cbn [negb]. unfold the_table at 1. rewrite Ht0. cbn [bind].
  destruct (skip_empty_spec t0 (S (length t0)) (rehashidx d) ev probes j0 b0)
    as (s & Hs & Hspec); try assumption; try lia.
  rewrite Hs. cbn [bind]. destruct s as [j ev' p'|j p'].
  - destruct Hspec as (Hj & Hskip & (b & Hb & Hbne) & Hp' & Hbud & Hlt).
    rewrite Hb. cbn [bind].
    destruct (migrate_bucket_spec d t0 j b Hinv Hidx Ht0 ltac:(lia) Hskip Hb)
      as (d2 & Hmv & Ht2 & Hinv4 & Hri4 & Hty4 & Hit4 & Hs04 & Hs14 & _).
    rewrite Hmv. cbn [bind]. unfold the_table. rewrite Ht2. cbn [bind].
    destruct (dictRehash_loop_spec fuel (bucket_moved d2 t0 j)
                (wrap_int (n - 1)) ev' (moved + 1) p')
      as (r' & Hr & _ & _ & _ & _ & _ & Hrm & Hrp & _).
    { exact Hinv4. }
    { rewrite Hri4. lia. }
    { rewrite Hri4, Hs04. lia. }
    rewrite Hr. intros [= <-]. lia.
  - destruct Hspec as (Hj & Hskip & Hp' & Hbud).
    intros [= <-]. simpl. lia.
Qed.

(** A call of [dictRehash] with work to do and [0 < n] ends the rehash or
    moves the cursor. *)
Lemma dictRehash_advance (d : dict) (n : Z) :
  dict_inv d -> dictIsRehashing d = true -> 0 < n <= INT_MAX ->
  exists d' r,
    dictRehash d n = Ok (d', r)
    /\ dict_inv d' /\ dictEntries d' ≡ₚ dictEntries d
    /\ ((r = 0 /\ rehashidx d' = -1 /\ size (ht0 d') = size (ht1 d))
        \/ (r = 1 /\ rehashidx d < rehashidx d' < size (ht0 d)
            /\ size (ht0 d') = size (ht0 d)
            /\ size (ht1 d') = size (ht1 d))).
Proof.
  intros Hinv Hre Hn. apply dictIsRehashing_true in Hre.
  destruct (dictRehash_report_spec d n Hinv)
    as (rr & Hrun & Hsc & Hret & H0 & H1 & Hm & Hp & _).
  unfold dictRehash. rewrite Hrun. cbn [bind].
  exists (rr_dict rr), (rr_ret rr). split; [reflexivity|].
  pose proof Hsc as (Hinv' & _ & _ & Hperm & _).
  split; [exact Hinv'|]. split; [exact Hperm|].
  destruct Hret as [Hz|Ho].
  - left. destruct (H0 Hz) as (Hidle & _ & Hsz). auto.
  - right. destruct (H1 Ho) as (_ & Hre' & Hu' & Hs0 & Hs1 & Hidx).
    split; [exact Ho|]. split; [|split; assumption].
    split.
    + (* the cursor has moved *)
      unfold dictRehash_report in Hrun.
      rewrite (proj2 (dictIsRehashing_true d) Hre) in Hrun. cbn [negb] in Hrun.
      pose proof Hinv as (Hi0 & _ & _ & _ & Hr).
      destruct (Hr Hre) as (Hrange & Hn0 & _).
      destruct (table (ht0 d)) as [t0|] eqn:Ht0; [|contradiction].
      destruct (ht_inv_table _ _ Hi0 Ht0) as (Hlen0 & _).
      change (default [] (Some t0)) with t0 in Hrun.
      destruct (dictRehash_loop (S (length t0)) d n (wrap_int (n * 10)) 0 0)
        as [lr|] eqn:Hloop; [|discriminate].
      cbn [bind] in Hrun.
      assert (Hstart : used (ht0 d) <> 0).
      { intros Hz. rewrite dictRehash_loop_S, Hz in Hloop.
        rewrite orb_true_r in Hloop. injection Hloop as <-.
        cbn [r_early r_dict] in Hrun. rewrite Hz in Hrun.
        cbn [Z.eqb] in Hrun. injection Hrun as <-. discriminate Ho. }
      pose proof (dictRehash_loop_progress (S (length t0)) d n _ 0 0 lr Hinv Hre ltac:(lia)
                    Hn Hstart Hloop) as Hprog.
      assert (Hmp : rr_moved rr = r_moved lr /\ rr_probes rr = r_probes lr).
      { destruct (r_early lr); [injection Hrun as <-; auto|].
        destruct (used (ht0 (r_dict lr)) =? 0); injection Hrun as <-; auto. }
      destruct Hmp as [Hm1 Hm2]. rewrite Hm1, Hm2 in Hidx. lia.
    + (* and buckets are left *)
      pose proof Hinv' as (Hi0' & _).
      destruct (table (ht0 (rr_dict rr))) as [t0'|] eqn:Ht0'.
      * destruct (nonempty_bucket _ t0' Hinv' Hre' Ht0' Hu')
          as (j & b & Hj & Hb & _).
        apply lookupZ_lt in Hb.
        destruct (ht_inv_table _ _ Hi0' Ht0') as (Hlen & _). lia.
      * unfold ht_inv in Hi0'. rewrite Ht0' in Hi0'. lia.
Qed.

(** [dictRehash(d, n)] with [0 < n] on a rehashing dictionary either
    ends the rehash and returns 0, or returns 1 with the cursor further
    on than it was, still inside [ht[0]]. *)
Theorem dictRehash_progress (d : dict) (n : Z) :
  dict_inv d -> dictIsRehashing d = true -> 0 < n <= INT_MAX ->
  exists d' r,
    dictRehash d n = Ok (d', r)
    /\ dict_inv d' /\ dictEntries d' ≡ₚ dictEntries d
    /\ ((r = 0 /\ rehashidx d' = -1 /\ size (ht0 d') = size (ht1 d))
        \/ (r = 1 /\ rehashidx d < rehashidx d' < size (ht0 d)
            /\ size (ht0 d') = size (ht0 d)
            /\ size (ht1 d') = size (ht1 d))).
Proof. exact (dictRehash_advance d n). Qed.

Lemma dictRehash_progress_witness :
  exists d' r,
    dictRehash rehashing_dict 1 = Ok (d', r)
    /\ (r = 0 \/ (r = 1 /\ rehashidx rehashing_dict < rehashidx d')).
Proof.
  destruct (dictRehash_progress rehashing_dict 1 rehashing_dict_inv)
    as (d' & r & Hrun & _ & _ & [(Hr & _)|(Hr & Hidx & _)]).
  - reflexivity.
  - unfold INT_MAX. lia.
  - exists d', r. split; [exact Hrun | left; exact Hr].
  - exists d', r. split; [exact Hrun | right; split; [exact Hr | lia]].
Defined.

(** [m] calls of [dictRehash(d, n)], whatever they return. *)
Fixpoint dictRehash_repeat (m : nat) (d : dict) (n : Z) : res dict :=
  match m with
  | O => Ok d
  | S m => do '(d, _) <- dictRehash d n; dictRehash_repeat m d n
  end.

Lemma dictRehash_idle (d : dict) (n : Z) :
  dict_inv d -> rehashidx d = -1 -> dictRehash d n = Ok (d, 0).
Proof.
  intros Hinv Hidle. unfold dictRehash, dictRehash_report.
  rewrite (proj2 (dictIsRehashing_false d) Hidle). reflexivity.
Qed.

Lemma dictRehash_repeat_idle (m : nat) (d : dict) (n : Z) :
  dict_inv d -> rehashidx d = -1 -> dictRehash_repeat m d n = Ok d.
Proof.
  intros Hinv Hidle. induction m as [|m IH]; [reflexivity|].
  cbn [dictRehash_repeat]. rewrite (dictRehash_idle d n Hinv Hidle).
  exact IH.
Qed.

Lemma dictRehash_repeat_spec (n : Z) (m : nat) :
  0 < n <= INT_MAX ->
  forall d,
    dict_inv d -> rehashidx d <> -1 ->
    size (ht0 d) - rehashidx d < Z.of_nat m ->
    exists d',
      dictRehash_repeat m d n = Ok d'
      /\ dict_inv d' /\ rehashidx d' = -1
      /\ dictEntries d' ≡ₚ dictEntries d
      /\ size (ht0 d') = size (ht1 d).
Proof.
  intros Hn. induction m as [|m IH]; intros d Hinv Hre Hm.
  - exfalso. pose proof Hinv as (_ & _ & _ & _ & Hr).
    destruct (Hr Hre) as (Hrange & _). lia.
  - cbn [dictRehash_repeat].
    destruct (dictRehash_advance d n Hinv (proj2 (dictIsRehashing_true d) Hre) Hn)
      as (d1 & r & Hrun & Hinv1 & Hperm
          & [(_ & Hidle & Hsz)|(_ & Hidx & Hs0 & Hs1)]).
    + rewrite Hrun. cbn [bind].
      rewrite (dictRehash_repeat_idle m d1 n Hinv1 Hidle).
      exists d1. auto.
    + rewrite Hrun. cbn [bind].
      pose proof Hinv as (_ & _ & _ & _ & Hr).
      destruct (Hr Hre) as (Hrange & _).
      destruct (Z.eq_dec (rehashidx d1) (-1)) as [E|E]; [lia|].
      assert (Hm1 : size (ht0 d1) - rehashidx d1 < Z.of_nat m) by lia.
      destruct (IH d1 Hinv1 E Hm1) as (d2 & Hrep & Hinv2 & Hi2 & Hp2 & Hs2).
      exists d2. split; [exact Hrep|]. split; [exact Hinv2|].
      split; [exact Hi2|]. split; [etrans; eassumption | congruence].
Qed.

(** A rehash in progress is over after at most
    [size (ht0 d) - rehashidx d + 1] calls of [dictRehash(d, n)] with
    [0 < n]: all the entries are then in the table that was [ht[1]],
    which has become [ht[0]], and further calls change nothing. *)
Theorem dictRehash_completes (d : dict) (n : Z) (m : nat) :
  dict_inv d -> dictIsRehashing d = true -> 0 < n <= INT_MAX ->
  size (ht0 d) - rehashidx d < Z.of_nat m ->
  exists d',
    dictRehash_repeat m d n = Ok d'
    /\ dict_inv d' /\ dictIsRehashing d' = false
    /\ dictEntries d' ≡ₚ dictEntries d
    /\ size (ht0 d') = size (ht1 d)
    /\ ht1 d' = _dictReset
    /\ dictRehash d' n = Ok (d', 0).
Proof.
  intros Hinv Hre Hn Hm. apply dictIsRehashing_true in Hre.
  destruct (dictRehash_repeat_spec n m Hn d Hinv Hre Hm)
    as (d' & Hrep & Hinv' & Hidle & Hperm & Hsz).
  exists d'. split; [exact Hrep|]. split; [exact Hinv'|].
  split; [apply dictIsRehashing_false; exact Hidle|].
  split; [exact Hperm|]. split; [exact Hsz|].
  split; [|apply dictRehash_idle; assumption].
  destruct Hinv' as (_ & _ & _ & H & _). auto.
Qed.

Lemma dictRehash_completes_witness :
  exists d',
    dictRehash_repeat 9 rehashing_dict 1 = Ok d'
    /\ dictIsRehashing d' = false
    /\ dictEntries d' ≡ₚ dictEntries rehashing_dict.
Proof.
  destruct (dictRehash_completes rehashing_dict 1 9 rehashing_dict_inv)
    as (d' & Hrun & _ & Hidle & Hperm & _).
  - reflexivity.
  - unfold INT_MAX. lia.
  - vm_compute. reflexivity.
  - exists d'. auto.
Defined.

(** *** [dictRehashMilliseconds] *)

(** The loop of [dictRehashMilliseconds]:
    [while(dictRehash(d,100)) { rehashes += 100;
       if (timeInMilliseconds()-start > ms) break; }].
    [clock i] is what the [i]-th call of [timeInMilliseconds] in the
    function returns, a [long long]; [i] counts the calls made. *)
Fixpoint dictRehashMilliseconds_loop (fuel : nat) (clock : nat -> Z) (i : nat)
    (start : Z) (d : dict) (ms rehashes : Z) : res (dict * Z) :=
  match fuel with
  | O => Err OutOfFuel
  | S f =>
      do '(d, r) <- dictRehash d 100;
      if r =? 0 then Ok (d, rehashes)
      else
        let rehashes := wrap_int (rehashes + 100) in
        if wrap_long (clock i - start) >? ms then Ok (d, rehashes)
        else dictRehashMilliseconds_loop f clock (S i) start d ms rehashes
  end.

(** [dictRehashMilliseconds(d, ms)]: the dictionary after the call and
    the value returned.  Every turn of the loop but the last moves the
    rehash cursor, so the loop has at most [size + 1] turns. *)
Definition dictRehashMilliseconds (clock : nat -> Z) (d : dict) (ms : Z)
    : res (dict * Z) :=
  let start := clock 0%nat in
  dictRehashMilliseconds_loop (S (Z.to_nat (size (ht0 d)))) clock 1 start d ms 0.

Lemma wrap_int_add_l (a b : Z) : wrap_int (wrap_int a + b) = wrap_int (a + b).
Proof.
  unfold wrap_int.
  replace ((a + 2 ^ 31) mod 2 ^ 32 - 2 ^ 31 + b + 2 ^ 31)
    with ((a + 2 ^ 31) mod 2 ^ 32 + b) by lia.
  rewrite Zplus_mod_idemp_l. f_equal. f_equal. lia.
Qed.

Lemma dictRehashMilliseconds_loop_spec (clock : nat -> Z) (start ms : Z)
    (fuel : nat) :
  forall d i rehashes,
    dict_inv d ->
    - 2 ^ 31 <= rehashes <= INT_MAX ->
    (0 < fuel)%nat ->
    (rehashidx d <> -1 -> size (ht0 d) - rehashidx d < Z.of_nat fuel) ->
    exists d' k,
      dictRehashMilliseconds_loop fuel clock i start d ms rehashes
      = Ok (d', wrap_int (rehashes + 100 * Z.of_nat k))
      /\ dict_inv d' /\ dictEntries d' ≡ₚ dictEntries d
      /\ (rehashidx d' = -1
          \/ ((0 < k)%nat /\ ms < wrap_long (clock (i + k - 1)%nat - start)))
      /\ (forall j, (j + 1 < k)%nat -> wrap_long (clock (i + j)%nat - start) <= ms)
      /\ (rehashidx d = -1 -> d' = d /\ k = 0%nat)
      /\ (rehashidx d <> -1 ->
          rehashidx d' = -1 \/ rehashidx d < rehashidx d').
Proof.
  induction fuel as [|fuel IH]; intros d i rehashes Hinv Hr Hpos Hf; [lia|].
  cbn [dictRehashMilliseconds_loop].
  destruct (Z.eq_dec (rehashidx d) (-1)) as [Hidle|Hre].
  { rewrite (dictRehash_idle d 100 Hinv Hidle). cbn [bind]. simpl.
    exists d, 0%nat. rewrite Z.mul_0_r, Z.add_0_r, (wrap_int_small _ Hr).
    split; [reflexivity|]. split; [exact Hinv|]. split; [reflexivity|].
    split; [left; exact Hidle|]. split; [intros; lia|].
    split; [auto | contradiction]. }
  destruct (dictRehash_advance d 100 Hinv (proj2 (dictIsRehashing_true d) Hre))
    as (d1 & r & Hrun & Hinv1 & Hperm
        & [(-> & Hidle & _)|(-> & Hidx & Hs0 & _)]).
  { unfold INT_MAX. lia. }
  - rewrite Hrun. cbn [bind]. simpl.
    exists d1, 0%nat. rewrite Z.mul_0_r, Z.add_0_r, (wrap_int_small _ Hr).
    split; [reflexivity|]. split; [exact Hinv1|]. split; [exact Hperm|].
    split; [left; exact Hidle|]. split; [intros; lia|].
    split; [contradiction | auto].
  - rewrite Hrun. cbn [bind]. simpl.
    destruct (Z.gtb_spec (wrap_long (clock i - start)) ms) as [Hlate|Hearly].
    + exists d1, 1%nat. change (100 * Z.of_nat 1) with 100.
      split; [reflexivity|]. split; [exact Hinv1|]. split; [exact Hperm|].
      split.
      { right. split; [lia|]. replace (i + 1 - 1)%nat with i by lia. lia. }
      split; [intros; lia|]. split; [contradiction|]. intros _. right. lia.
    + pose proof Hinv as (_ & _ & _ & _ & Hri).
      destruct (Hri Hre) as (Hrange & _).
      destruct (IH d1 (S i) (wrap_int (rehashes + 100)) Hinv1
                  (wrap_int_range _))
        as (d2 & k & Hloop & Hinv2 & Hperm2 & Hend & Hbefore & _ & Hmoved).
      { specialize (Hf Hre). lia. }
      { intros _. specialize (Hf Hre). lia. }
      exists d2, (S k). rewrite Hloop.
      split.
      { f_equal. f_equal. rewrite wrap_int_add_l. f_equal. lia. }
      split; [exact Hinv2|]. split; [etrans; eassumption|].
      split.
      { destruct Hend as [Hend|[Hk Hend]]; [left; exact Hend|].
        right. split; [lia|].
        replace (i + S k - 1)%nat with (S i + k - 1)%nat by lia. exact Hend. }
      split.
      { intros [|j] Hj.
        - rewrite Nat.add_0_r. exact Hearly.
        - replace (i + S j)%nat with (S i + j)%nat by lia.
          apply Hbefore. lia. }
      split; [contradiction|]. intros _.
      assert (Hre1 : rehashidx d1 <> -1) by lia.
      destruct (Hmoved Hre1) as [H|H]; [left; exact H | right; lia].
Qed.

(** [dictRehashMilliseconds(d, ms)] returns whatever the clock does.  It
    returns [100 * k] (as an [int]) after [k] calls of [dictRehash] that
    left work to do; all entries are kept; on return either the rehash
    is over or the last reading of the clock, the [k]-th after the
    start, is more than [ms] after the start while the readings before
    it were not.  A rehash in progress is finished or taken further,
    however small [ms] is. *)
Theorem dictRehashMilliseconds_spec (clock : nat -> Z) (d : dict) (ms : Z) :
  dict_inv d ->
  exists d' k,
    dictRehashMilliseconds clock d ms = Ok (d', wrap_int (100 * Z.of_nat k))
    /\ dict_inv d' /\ dictEntries d' ≡ₚ dictEntries d
    /\ (dictIsRehashing d' = false
        \/ ((0 < k)%nat /\ ms < wrap_long (clock k - clock 0%nat)))
    /\ (forall j, (0 < j < k)%nat -> wrap_long (clock j - clock 0%nat) <= ms)
    /\ (dictIsRehashing d = false -> d' = d /\ k = 0%nat)
    /\ (dictIsRehashing d = true ->
        dictIsRehashing d' = false \/ rehashidx d < rehashidx d').
Proof.
  intros Hinv. unfold dictRehashMilliseconds.
  destruct (dictRehashMilliseconds_loop_spec clock (clock 0%nat) ms
              (S (Z.to_nat (size (ht0 d)))) d 1%nat 0 Hinv)
    as (d' & k & Hrun & Hinv' & Hperm & Hend & Hbefore & Hidle & Hmoved).
  { unfold INT_MAX. lia. }
  { lia. }
  { intros Hre. pose proof Hinv as (_ & _ & _ & _ & Hri).
    destruct (Hri Hre) as (Hrange & _). lia. }
  exists d', k. rewrite Hrun. split; [reflexivity|].
  split; [exact Hinv'|]. split; [exact Hperm|].
  split.
  { destruct Hend as [Hend|[Hk Hend]].
    - left. apply dictIsRehashing_false. exact Hend.
    - right. split; [exact Hk|].
      replace (1 + k - 1)%nat with k in Hend by lia. exact Hend. }
  split.
  { intros j Hj. destruct j as [|j]; [lia|].
    specialize (Hbefore j ltac:(lia)).
    replace (1 + j)%nat with (S j) in Hbefore by lia. exact Hbefore. }
  split.
  { intros H. apply Hidle. apply dictIsRehashing_false. exact H. }
  intros H. apply dictIsRehashing_true in H.
  destruct (Hmoved H) as [H'|H'];
    [left; apply dictIsRehashing_false; exact H' | right; exact H'].
Qed.

Lemma dictRehashMilliseconds_spec_witness :
  exists d' k,
    dictRehashMilliseconds (fun i => Z.of_nat i) rehashing_dict 1
    = Ok (d', wrap_int (100 * Z.of_nat k))
    /\ dictEntries d' ≡ₚ dictEntries rehashing_dict.
Proof.
  destruct (dictRehashMilliseconds_spec (fun i => Z.of_nat i) rehashing_dict 1
              rehashing_dict_inv)
    as (d' & k & Hrun & _ & Hperm & _).
  exists d', k. split; [exact Hrun | exact Hperm].
Defined.

(** *** [dictResize] *)

(** What [dictResize] asks [dictExpand] for, when [used] fits an [int]. *)
Lemma dictResize_request (c : env) (d : dict) :
  can_resize c = true ->
  dictIsRehashing d = false -> 0 <= used (ht0 d) < 2 ^ 31 ->
  dictResize c d
  = dictExpand c d (Z.max (used (ht0 d)) DICT_HT_INITIAL_SIZE).
Proof.
  intros Hflag Hre Hu. unfold dictResize. rewrite Hflag, Hre. cbn [negb orb].
  rewrite wrap_int_small by (unfold INT_MAX; lia).
  unfold DICT_HT_INITIAL_SIZE.
  destruct (Z.ltb_spec (used (ht0 d)) 4).
  - rewrite Z.max_r by lia. reflexivity.
  - rewrite Z.max_l by lia. rewrite wrap64_small by lia. reflexivity.
Qed.

(** [dictResize] on a dictionary at rest, with resizing allowed and fewer
    than [2^31] entries, aims at the smallest power of two that is at
    least 4 and holds the entries, [2 ^ k].  If [ht[0]] has that size
    already the call returns [DICT_ERR] and changes nothing.  Otherwise,
    the allocator serving the new array, it returns [DICT_OK], and once
    the rehash it starts has been run to its end ([m] calls of
    [dictRehash], [m] above the old size) [ht[0]] has [2 ^ k] buckets
    and the entries are the ones before the call. *)
Theorem dictResize_minimal (c : env) (d : dict) (n : Z) (m : nat) :
  dict_inv d -> can_resize c = true -> zcalloc_ok (mem c) = true ->
  dictIsRehashing d = false -> used (ht0 d) < 2 ^ 31 ->
  0 < n <= INT_MAX -> size (ht0 d) < Z.of_nat m ->
  exists k,
    2 <= k <= 31
    /\ used (ht0 d) <= 2 ^ k
    /\ (2 < k -> 2 ^ (k - 1) < used (ht0 d))
    /\ (size (ht0 d) = 2 ^ k -> dictResize c d = Ok (d, DICT_ERR))
    /\ (size (ht0 d) <> 2 ^ k ->
        exists d1 d2,
          dictResize c d = Ok (d1, DICT_OK)
          /\ dictRehash_repeat m d1 n = Ok d2
          /\ dict_inv d2 /\ dictIsRehashing d2 = false
          /\ size (ht0 d2) = 2 ^ k
          /\ used (ht0 d2) = used (ht0 d)
          /\ dictEntries d2 ≡ₚ dictEntries d).
Proof.
  intros Hinv Hflag Hmem Hre Hu Hn Hm.
  pose proof Hinv as (Hi0 & Hi1 & Hsum & Hidle & Hri).
  pose proof (ht_inv_used_nonneg _ Hi0) as Hu0.
  rewrite (dictResize_request c d Hflag Hre ltac:(lia)).
  set (want := Z.max (used (ht0 d)) DICT_HT_INITIAL_SIZE).
  assert (Hwant : used (ht0 d) <= want /\ 4 <= want < 2 ^ 31
                  /\ (4 < want -> want = used (ht0 d))).
  { unfold want, DICT_HT_INITIAL_SIZE. lia. }
  clearbody want. destruct Hwant as (Hw1 & Hw2 & Hw3).
  destruct (_dictNextPower_spec want) as (k & Hk & Hnp & Hlow & _).
  destruct (Hlow ltac:(unfold LONG_MAX; lia)) as [Hle Hmin].
  assert (Hk31 : k <= 31).
  { destruct (Z.le_gt_cases k 31) as [|Hgt]; [assumption|].
    pose proof (pow2_le_mono 31 (k - 1) ltac:(lia)).
    specialize (Hmin ltac:(lia)). lia. }
  assert (Hmin' : 2 < k -> 2 ^ (k - 1) < used (ht0 d)).
  { intros H2. specialize (Hmin H2).
    pose proof (pow2_le_mono 2 (k - 1) ltac:(lia)) as Hp.
    change (2 ^ 2) with 4 in Hp. rewrite <- Hw3; lia. }
  exists k. split; [lia|]. split; [lia|]. split; [exact Hmin'|].
  destruct (dictExpand_cases c d want Hmem ltac:(lia)) as (r & Hr & Hts & Hx).
  rewrite Hnp in Hr. injection Hr as <-.
  rewrite Hre in Hx. cbn [orb] in Hx.
  destruct (Z.gtb_spec (used (ht0 d)) want) as [?|_]; [lia|].
  destruct (dictExpand_inv c d want Hinv Hmem ltac:(lia))
    as (d1 & r1 & Hx1 & Hsc & _).
  split.
  { intros Hsz. rewrite Hx, Hsz, Z.eqb_refl. reflexivity. }
  intros Hsz. rewrite Hx. rewrite Hx in Hx1.
  destruct (Z.eqb_spec (2 ^ k) (size (ht0 d))) as [?|_]; [congruence|].
  apply dictIsRehashing_false in Hre.
  pose proof (Hidle Hre) as Hreset.
  pose proof (dict_inv_count d Hinv) as Hcnt.
  rewrite Hreset in Hcnt. simpl in Hcnt.
  destruct Hsc as (Hinv1 & _ & _ & Hperm1 & _).
  destruct (table (ht0 d)) as [t0|] eqn:Ht0; injection Hx1 as <- <-.
  - (* a rehash towards the new table starts *)
    destruct (dictRehash_repeat_spec n m Hn
                (set_rehashidx (set_ht1 d (fresh_table (2 ^ k))) 0) Hinv1)
      as (d2 & Hrep & Hinv2 & Hidle2 & Hperm2 & Hsz2).
    { simpl. lia. }
    { simpl. lia. }
    eexists _, d2. split; [reflexivity|]. split; [exact Hrep|].
    split; [exact Hinv2|].
    split; [apply dictIsRehashing_false; exact Hidle2|].
    split; [exact Hsz2|].
    split; [|etrans; eassumption].
    pose proof (dict_inv_count d2 Hinv2) as Hcnt2.
    pose proof Hinv2 as (_ & _ & _ & Hreset2 & _).
    rewrite (Hreset2 Hidle2) in Hcnt2. simpl in Hcnt2.
    rewrite (Permutation_length Hperm2), (Permutation_length Hperm1) in Hcnt2.
    lia.
  - (* no table yet: the new one becomes [ht[0]] at once *)
    eexists _, _. split; [reflexivity|].
    split; [apply dictRehash_repeat_idle; [exact Hinv1 | exact Hre]|].
    split; [exact Hinv1|].
    split; [apply dictIsRehashing_false; exact Hre|].
    split; [reflexivity|].
    split; [|exact Hperm1].
    unfold ht_inv in Hi0. rewrite Ht0 in Hi0. simpl. lia.
Qed.

(** A table of 8 buckets left with one entry. *)
Definition sparse_dict : dict :=
  {| type := plain_type;
     ht0 := {| table := Some [[]; [{| key := 1; val := 11 |}]; []; [];
                              []; []; []; []];
               size := 8; sizemask := 7; used := 1 |};
     ht1 := _dictReset; rehashidx := -1; iterators := 0 |}.

Lemma sparse_dict_inv : dict_inv sparse_dict.
Proof.
  unfold dict_inv, sparse_dict, ht_inv. simpl.
  split; [repeat split; try reflexivity; exists 3; split; [lia | reflexivity]|].
  split; [auto|]. split; [lia|]. split; [reflexivity|]. intros H. contradiction.
Qed.

Lemma dictResize_minimal_witness :
  exists d1 d2,
    dictResize (with_memory true) sparse_dict = Ok (d1, DICT_OK)
    /\ dictRehash_repeat 9 d1 1 = Ok d2
    /\ size (ht0 d2) = 4
    /\ dictEntries d2 ≡ₚ dictEntries sparse_dict.
Proof.
  destruct (dictResize_minimal (with_memory true) sparse_dict 1 9 sparse_dict_inv)
    as (k & Hk & Hle & Hmin & _ & Hgo).
  - reflexivity.
  - reflexivity.
  - reflexivity.
  - vm_compute. reflexivity.
  - unfold INT_MAX. lia.
  - vm_compute. reflexivity.
  - assert (Hk2 : k = 2).
    { destruct (Z.eq_dec k 2) as [|Hne]; [assumption|].
      specialize (Hmin ltac:(lia)). simpl in Hmin.
      pose proof (pow2_le_mono 0 (k - 1) ltac:(lia)) as Hp.
      simpl in Hp. lia. }
    subst k. destruct Hgo as (d1 & d2 & Hx & Hrep & _ & _ & Hsz & _ & Hperm).
    + simpl. lia.
    + exists d1, d2. auto.
Defined.

(** *** When the table grows *)

(** [_dictExpandIfNeeded] on a dictionary with fewer than [2^59] entries
    in [ht[0]], the allocator serving the array it may ask for, returns
    [DICT_OK].  It does nothing during a rehash;
    it gives a dictionary without a table one of 4 buckets; otherwise it
    leaves the dictionary alone while [used < size], and also while
    [used < 6 * size] when resizing is disabled; and once [used >= size]
    with resizing enabled, or [used >= 6 * size] in any case, it starts
    a rehash to a table of [2 ^ k] buckets, the power of two with
    [2 * used <= 2 ^ k < 4 * used], at least twice the old size. *)
Theorem _dictExpandIfNeeded_policy (c : env) (d : dict) :
  dict_inv d -> zcalloc_ok (mem c) = true -> used (ht0 d) < 2 ^ 59 ->
  exists d',
    _dictExpandIfNeeded c d = Ok (d', DICT_OK)
    /\ (dictIsRehashing d = true -> d' = d)
    /\ (dictIsRehashing d = false -> table (ht0 d) = None ->
        d' = set_ht0 d (fresh_table 4))
    /\ (dictIsRehashing d = false -> table (ht0 d) <> None ->
        (used (ht0 d) < size (ht0 d)
         \/ (can_resize c = false /\ used (ht0 d) < 6 * size (ht0 d)) ->
         d' = d)
        /\ (size (ht0 d) <= used (ht0 d) ->
            can_resize c = true \/ 6 * size (ht0 d) <= used (ht0 d) ->
            exists k,
              d' = set_rehashidx (set_ht1 d (fresh_table (2 ^ k))) 0
              /\ 2 * used (ht0 d) <= 2 ^ k < 4 * used (ht0 d)
              /\ 2 * size (ht0 d) <= 2 ^ k)).
Proof.
  intros Hinv Hmem Hu. unfold _dictExpandIfNeeded.
  pose proof Hinv as (Hi0 & Hi1 & Hsum & Hidle & Hri).
  pose proof (ht_inv_used_nonneg _ Hi0) as Hu0.
  destruct (dictIsRehashing d) eqn:Hre.
  { exists d. split; [reflexivity|]. split; [reflexivity|].
    split; intros; discriminate. }
  destruct (table (ht0 d)) as [t0|] eqn:Ht0.
  2:{ unfold ht_inv in Hi0. rewrite Ht0 in Hi0. destruct Hi0 as (Hs & _ & Hus).
      rewrite Hs. cbn [Z.eqb].
      destruct (dictExpand_cases c d DICT_HT_INITIAL_SIZE Hmem
                  ltac:(unfold DICT_HT_INITIAL_SIZE; lia)) as (r & Hr & _ & ->).
      vm_compute in Hr. injection Hr as <-.
      rewrite Hre, Hus, Hs, Ht0. simpl.
      exists (set_ht0 d (fresh_table 4)). split; [reflexivity|].
      split; [discriminate|]. split; [reflexivity|]. intros _ H. contradiction. }
  destruct (ht_inv_table _ _ Hi0 Ht0) as (Hlen & Hsz & _).
  pose proof (is_table_size_bounds _ Hsz) as Hszb.
  destruct (Z.eqb_spec (size (ht0 d)) 0) as [?|_]; [lia|].
  assert (Hratio : (used (ht0 d) / size (ht0 d) >? dict_force_resize_ratio)
                   = (6 * size (ht0 d) <=? used (ht0 d))).
  { unfold dict_force_resize_ratio.
    destruct (Z.gtb_spec (used (ht0 d) / size (ht0 d)) 5) as [Hg|Hg];
      destruct (Z.leb_spec (6 * size (ht0 d)) (used (ht0 d))) as [Hl|Hl];
      try reflexivity; exfalso.
    - assert (used (ht0 d) / size (ht0 d) < 6)
        by (apply Z.div_lt_upper_bound; lia). lia.
    - assert (6 <= used (ht0 d) / size (ht0 d))
        by (apply Z.div_le_lower_bound; lia). lia. }
  rewrite Hratio.
  destruct (Z.geb_spec (used (ht0 d)) (size (ht0 d))) as [Hfull|Hroom];
    cbn [andb].
  2:{ exists d. split; [reflexivity|]. split; [discriminate|].
      split; [intros _ H; discriminate|]. intros _ _.
      split; [reflexivity | intros; lia]. }
  destruct (can_resize c || (6 * size (ht0 d) <=? used (ht0 d))) eqn:Hgo.
  2:{ apply orb_false_iff in Hgo as [Hflag Hsix]. apply Z.leb_gt in Hsix.
      exists d. split; [reflexivity|]. split; [discriminate|].
      split; [intros _ H; discriminate|]. intros _ _.
      split; [reflexivity|]. intros _ [H|H]; [congruence | lia]. }
  rewrite wrap64_small by lia.
  destruct (_dictNextPower_spec (used (ht0 d) * 2)) as (k & Hk & Hnp & Hlow & _).
  destruct (Hlow ltac:(unfold LONG_MAX; lia)) as [Hle Hmin].
  assert (Hk2 : 2 < k).
  { destruct (Z.le_gt_cases k 2) as [Hk2|]; [|assumption].
    pose proof (pow2_le_mono k 2 ltac:(lia)) as Hp.
    change (2 ^ 2) with 4 in Hp. lia. }
  specialize (Hmin Hk2).
  assert (Hpow : 2 ^ k = 2 * 2 ^ (k - 1)).
  { replace k with (k - 1 + 1) at 1 by lia. rewrite Z.pow_add_r by lia. lia. }
  destruct (dictExpand_cases c d (used (ht0 d) * 2) Hmem ltac:(lia))
    as (r & Hr & _ & ->).
  rewrite Hnp in Hr. injection Hr as <-.
  rewrite Hre. cbn [orb].
  destruct (Z.gtb_spec (used (ht0 d)) (used (ht0 d) * 2)) as [?|_]; [lia|].
  destruct (Z.eqb_spec (2 ^ k) (size (ht0 d))) as [?|_]; [lia|].
  rewrite Ht0.
  exists (set_rehashidx (set_ht1 d (fresh_table (2 ^ k))) 0).
  split; [reflexivity|]. split; [discriminate|].
  split; [intros _ H; discriminate|]. intros _ _.
  split.
  { intros [H|[Hflag H]]; [lia|]. rewrite Hflag in Hgo. cbn [orb] in Hgo.
    apply Z.leb_le in Hgo. lia. }
  intros _ _. exists k. split; [reflexivity|]. lia.
Qed.

Lemma _dictExpandIfNeeded_policy_witness :
  exists d', _dictExpandIfNeeded (with_memory true) full_dict = Ok (d', DICT_OK).
Proof.
  destruct (_dictExpandIfNeeded_policy (with_memory true) full_dict) as (d' & Hx & _).
  - apply full_dict_ok.
  - reflexivity.
  - vm_compute. reflexivity.
  - exists d'. exact Hx.
Defined.

(** *** [dictGetRandomKey] *)

(** The head of the bucket one draw [r] of [random()] selects: with a
    rehash in progress
    [h = d->rehashidx + (random() % (d->ht[0].size + d->ht[1].size - d->rehashidx))],
    which indexes [ht[1]] from [ht[0].size] on; otherwise
    [h = random() & d->ht[0].sizemask]. *)
Definition random_bucket (d : dict) (r : Z) : res (list dictEntry) :=
  if dictIsRehashing d then
    let h := wrap64 (rehashidx d
                     + r mod wrap64 (wrap64 (size (ht0 d) + size (ht1 d))
                                     - rehashidx d)) in
    if h >=? size (ht0 d)
    then do t <- the_table (ht1 d); lookupZ t (wrap64 (h - size (ht0 d)))
    else do t <- the_table (ht0 d); lookupZ t h
  else
    let h := Z.land r (sizemask (ht0 d)) in
    do t <- the_table (ht0 d); lookupZ t h.

(** [do { ... } while(he == NULL);] with [rnd i] the value of the [i]-th
    call of [random()]; the result is the chain found and the number of
    calls made. *)
Fixpoint random_bucket_loop (fuel : nat) (rnd : nat -> Z) (i : nat) (d : dict)
    : res (list dictEntry * nat) :=
  match fuel with
  | O => Err OutOfFuel
  | S f =>
      do he <- random_bucket d (rnd i);
      match he with
      | [] => random_bucket_loop f rnd (S i) d
      | _ :: _ => Ok (he, S i)
      end
  end.

(** [dictGetRandomKey]: [listlen] counts the chain, [listele = random() %
    listlen] picks the entry. *)
Definition dictGetRandomKey (fuel : nat) (rnd : nat -> Z) (d : dict)
    : res (dict * option dictEntry) :=
  if dictSize d =? 0 then Ok (d, None)
  else
    do d <- (if dictIsRehashing d then _dictRehashStep d else Ok d);
    do '(he, i) <- random_bucket_loop fuel rnd 0 d;
    let listlen := wrap_int (Z.of_nat (length he)) in
    let listele := wrap_int (rnd i mod listlen) in
    do e <- lookupZ he listele;
    Ok (d, Some e).

Lemma wrap64_minus_mod (a b : Z) : wrap64 (wrap64 a - b) = wrap64 (a - b).
Proof. unfold wrap64. apply Zminus_mod_idemp_l. Qed.

Lemma random_bucket_spec (d : dict) (r : Z) :
  dict_inv d -> table (ht0 d) <> None -> 0 <= r < 2 ^ 63 ->
  size (ht0 d) + size (ht1 d) < 2 ^ 64 ->
  exists b, random_bucket d r = Ok b
            /\ (forall e, e ∈ b -> e ∈ dictEntries d)
            /\ Z.of_nat (length b) <= used (ht0 d) + used (ht1 d).
Proof.
  intros Hinv Ht0 Hr Hsizes. unfold random_bucket.
  pose proof Hinv as (Hi0 & Hi1 & _ & _ & Hri).
  pose proof (ht_inv_used_nonneg _ Hi0) as Hu0.
  pose proof (ht_inv_used_nonneg _ Hi1) as Hu1.
  destruct (table (ht0 d)) as [t0|] eqn:Et0; [|contradiction].
  destruct (ht_inv_table _ _ Hi0 Et0) as (Hlen0 & Hsz0 & Hm0 & Hc0).
  pose proof (is_table_size_bounds _ Hsz0) as Hb0.
  destruct (dictIsRehashing d) eqn:Hre.
  - apply dictIsRehashing_true in Hre.
    destruct (Hri Hre) as (Hrange & _ & Hn1 & _).
    destruct (table (ht1 d)) as [t1|] eqn:Et1; [|contradiction].
    destruct (ht_inv_table _ _ Hi1 Et1) as (Hlen1 & Hsz1 & _ & Hc1).
    pose proof (is_table_size_bounds _ Hsz1) as Hb1.
    set (span := wrap64 (wrap64 (size (ht0 d) + size (ht1 d)) - rehashidx d)).
    assert (Hspan : span = size (ht0 d) + size (ht1 d) - rehashidx d
                    /\ 0 < span < 2 ^ 64).
    { unfold span. rewrite wrap64_minus_mod.
      rewrite wrap64_small by lia. lia. }
    destruct Hspan as [Hspan Hpos].
    pose proof (Z.mod_pos_bound r span ltac:(lia)) as Hmod.
    destruct (Z.eq_dec (rehashidx d + r mod span) (2 ^ 64)) as [Hfull|Hnot].
    + lia.
    + rewrite (wrap64_small (rehashidx d + r mod span)) by lia.
      unfold the_table. rewrite Et0, Et1.
      destruct (Z.geb_spec (rehashidx d + r mod span) (size (ht0 d))) as [Hge|Hlt];
        cbn [bind].
      * rewrite wrap64_small by lia.
        destruct (lookupZ_total t1 (rehashidx d + r mod span - size (ht0 d)))
          as [b Hb]; [lia|].
        exists b. split; [exact Hb|].
        split; [|pose proof (chain_count_bucket _ _ _ Hb); lia]. intros e He.
        apply (bucket_entries d 1 t1 _ b e Et1 Hb He).
      * destruct (lookupZ_total t0 (rehashidx d + r mod span)) as [b Hb]; [lia|].
        exists b. split; [exact Hb|].
        split; [|pose proof (chain_count_bucket _ _ _ Hb); lia]. intros e He.
        apply (bucket_entries d 0 t0 _ b e Et0 Hb He).
  - unfold the_table. rewrite Et0. cbn [bind].
    destruct Hsz0 as (k & Hk & Hsize). rewrite Hm0, Hsize.
    pose proof (land_mask_range r k ltac:(lia)) as Hl.
    destruct (lookupZ_total t0 (Z.land r (2 ^ k - 1))) as [b Hb]; [lia|].
    exists b. split; [exact Hb|].
    split; [|pose proof (chain_count_bucket _ _ _ Hb); lia]. intros e He.
    apply (bucket_entries d 0 t0 _ b e Et0 Hb He).
Qed.

Lemma random_bucket_loop_spec (rnd : nat -> Z) (d : dict) (fuel : nat) :
  dict_inv d -> table (ht0 d) <> None ->
  size (ht0 d) + size (ht1 d) < 2 ^ 64 ->
  (forall i, 0 <= rnd i < 2 ^ 63) ->
  forall i n,
    (n < fuel)%nat ->
    (exists b, random_bucket d (rnd (i + n)%nat) = Ok b /\ b <> []) ->
    exists he j,
      random_bucket_loop fuel rnd i d = Ok (he, j)
      /\ he <> [] /\ (forall e, e ∈ he -> e ∈ dictEntries d)
      /\ Z.of_nat (length he) <= used (ht0 d) + used (ht1 d).
Proof.
  intros Hinv Ht0 Hsizes Hrnd.
  induction fuel as [|fuel IH]; intros i n Hn Hhit; [lia|].
  cbn [random_bucket_loop].
  destruct (random_bucket_spec d (rnd i) Hinv Ht0 (Hrnd i) Hsizes)
    as (b & Hb & Hin & Hlen).
  rewrite Hb. cbn [bind]. destruct b as [|e b].
  - destruct n as [|n].
    + destruct Hhit as (b' & Hb' & Hne). rewrite Nat.add_0_r, Hb in Hb'.
      injection Hb' as <-. contradiction.
    + apply (IH (S i) n); [lia|].
      replace (S i + n)%nat with (i + S n)%nat by lia. exact Hhit.
  - exists (e :: b), (S i). split; [reflexivity|]. split; [discriminate|].
    split; [exact Hin | exact Hlen].
Qed.

Lemma _dictRehashStep_sizes (d : dict) :
  dict_inv d -> rehashidx d <> -1 ->
  exists d',
    _dictRehashStep d = Ok d'
    /\ dict_inv d' /\ dictEntries d' ≡ₚ dictEntries d
    /\ table (ht0 d') <> None
    /\ size (ht0 d') + size (ht1 d') <= size (ht0 d) + size (ht1 d).
Proof.
  intros Hinv Hre. unfold _dictRehashStep.
  pose proof Hinv as (Hi0 & Hi1 & _ & _ & Hri).
  destruct (Hri Hre) as (_ & Hn0 & Hn1 & _).
  destruct (Z.eqb_spec (iterators d) 0) as [_|_].
  - destruct (dictRehash_advance d 1 Hinv (proj2 (dictIsRehashing_true d) Hre))
      as (d' & r & Hrun & Hinv' & Hperm & Hcases).
    { unfold INT_MAX. lia. }
    rewrite Hrun. cbn [bind]. exists d'. split; [reflexivity|].
    split; [exact Hinv'|]. split; [exact Hperm|].
    pose proof (dictRehash_report_spec d 1 Hinv)
      as (rr & Hrr & _ & _ & H0 & H1 & _).
    unfold dictRehash in Hrun. rewrite Hrr in Hrun. cbn [bind] in Hrun.
    injection Hrun as <- <-.
    destruct Hcases as [(Hz & Hidle & Hsz)|(Ho & Hidx & Hs0 & Hs1)].
    + destruct (H0 Hz) as (_ & Hreset & _). rewrite Hreset. simpl.
      destruct (table (ht1 d)) as [t1|] eqn:Et1; [|contradiction].
      destruct (ht_inv_table _ _ Hi1 Et1) as (_ & Hsz1 & _).
      pose proof (is_table_size_bounds _ Hsz1).
      destruct (table (ht0 d)) as [t0|] eqn:Et0; [|contradiction].
      destruct (ht_inv_table _ _ Hi0 Et0) as (_ & Hsz0 & _).
      pose proof (is_table_size_bounds _ Hsz0).
      split; [|lia].
      destruct Hinv' as (Hi0' & _). unfold ht_inv in Hi0'.
      destruct (table (ht0 (rr_dict rr))); [discriminate | lia].
    + destruct (H1 Ho) as (_ & Hre' & _).
      destruct Hinv' as (_ & _ & _ & _ & Hri').
      destruct (Hri' Hre') as (_ & Hn0' & _). split; [exact Hn0' | lia].
  - exists d. split; [reflexivity|]. split; [exact Hinv|].
    split; [reflexivity|]. split; [exact Hn0 | lia].
Qed.

(** [dictGetRandomKey] returns NULL on an empty dictionary, without
    touching it.  On a dictionary that is not empty, once one of the
    draws of [random()] selects a bucket that is not empty the call
    returns an entry of the dictionary, never NULL; the only change to
    the dictionary is the rehash step made first. *)
Theorem dictGetRandomKey_spec (rnd : nat -> Z) (d : dict) :
  dict_inv d ->
  used (ht0 d) + used (ht1 d) < 2 ^ 31 ->
  size (ht0 d) + size (ht1 d) < 2 ^ 64 ->
  (forall i, 0 <= rnd i < 2 ^ 63) ->
  (dictEntries d = [] ->
   forall fuel, dictGetRandomKey fuel rnd d = Ok (d, None))
  /\ (dictEntries d <> [] ->
      exists d',
        (if dictIsRehashing d then _dictRehashStep d else Ok d) = Ok d'
        /\ dict_inv d' /\ dictEntries d' ≡ₚ dictEntries d
        /\ forall fuel n,
             (n < fuel)%nat ->
             (exists b, random_bucket d' (rnd n) = Ok b /\ b <> []) ->
             exists e,
               dictGetRandomKey fuel rnd d = Ok (d', Some e)
               /\ e ∈ dictEntries d).
Proof.
  intros Hinv Hused Hsizes Hrnd.
  pose proof (dict_inv_count d Hinv) as Hcnt.
  unfold dictGetRandomKey, dictSize. split.
  - intros He fuel. rewrite Hcnt, He. reflexivity.
  - intros Hne.
    assert (Hpos : 0 < used (ht0 d) + used (ht1 d)).
    { rewrite Hcnt. destruct (dictEntries d); [contradiction | simpl; lia]. }
    rewrite wrap64_small by lia.
    destruct (Z.eqb_spec (used (ht0 d) + used (ht1 d)) 0) as [?|_]; [lia|].
    assert (Hstep : exists d',
              (if dictIsRehashing d then _dictRehashStep d else Ok d) = Ok d'
              /\ dict_inv d' /\ dictEntries d' ≡ₚ dictEntries d
              /\ table (ht0 d') <> None
              /\ size (ht0 d') + size (ht1 d') < 2 ^ 64).
    { destruct (dictIsRehashing d) eqn:Hre.
      - apply dictIsRehashing_true in Hre.
        destruct (_dictRehashStep_sizes d Hinv Hre)
          as (d' & Hs & Hinv' & Hp & Ht & Hsz).
        exists d'. split; [exact Hs|]. split; [exact Hinv'|].
        split; [exact Hp|]. split; [exact Ht | lia].
      - apply dictIsRehashing_false in Hre. exists d.
        split; [reflexivity|]. split; [exact Hinv|]. split; [reflexivity|].
        split; [|exact Hsizes].
        pose proof Hinv as (Hi0 & _ & _ & Hreset & _).
        rewrite (Hreset Hre) in Hpos. simpl in Hpos.
        unfold ht_inv in Hi0. destruct (table (ht0 d)); [discriminate | lia]. }
    destruct Hstep as (d' & Hs & Hinv' & Hperm & Ht' & Hsz').
    exists d'. split; [exact Hs|]. split; [exact Hinv'|]. split; [exact Hperm|].
    intros fuel n Hn Hhit. rewrite Hs. cbn [bind].
    destruct (random_bucket_loop_spec rnd d' fuel Hinv' Ht' Hsz' Hrnd 0%nat n Hn Hhit)
      as (he & j & Hloop & Hhe & Hin & Hlen).
    rewrite Hloop. cbn [bind].
    pose proof (dict_inv_count d' Hinv') as Hcnt'.
    rewrite (Permutation_length Hperm), <- Hcnt in Hcnt'.
    assert (Hl : 0 < Z.of_nat (length he)).
    { destruct he; [contradiction | simpl; lia]. }
    rewrite (wrap_int_small (Z.of_nat (length he))) by (unfold INT_MAX; lia).
    pose proof (Z.mod_pos_bound (rnd j) (Z.of_nat (length he)) Hl) as Hm.
    rewrite wrap_int_small by (unfold INT_MAX; lia).
    destruct (lookupZ_total he (rnd j mod Z.of_nat (length he)) Hm) as [e He].
    rewrite He. cbn [bind]. exists e. split; [reflexivity|].
    rewrite <- Hperm. apply Hin.
    apply lookupZ_Ok in He as [_ He]. eapply list_elem_of_lookup_2; eauto.
Qed.

Lemma dictGetRandomKey_spec_witness :
  exists e,
    dictGetRandomKey 1 (fun _ => 1) one_key_dict = Ok (one_key_dict, Some e)
    /\ e ∈ dictEntries one_key_dict.
Proof.
  destruct (dictGetRandomKey_spec (fun _ => 1) one_key_dict) as [_ H].
  - unfold dict_inv, one_key_dict, ht_inv. simpl.
    split; [repeat split; try reflexivity; exists 2; split; [lia | reflexivity]|].
    split; [auto|]. split; [lia|]. split; [reflexivity|]. intros H. contradiction.
  - vm_compute. reflexivity.
  - vm_compute. reflexivity.
  - intros _. lia.
  - destruct H as (d' & Hs & _ & _ & Hget); [discriminate|].
    injection Hs as <-.
    apply (Hget 1%nat 0%nat); [lia|].
    eexists. split; [reflexivity | discriminate].
Defined.

(** *** [dictGetSomeKeys] *)

(** Arithmetic on [unsigned int]. *)
Definition wrap_uint (x : Z) : Z := x mod 2 ^ 32.

(** [for (j = 0; j < count; j++)
       { if (dictIsRehashing(d)) _dictRehashStep(d); else break; }] *)
Fixpoint rehash_steps (n : nat) (d : dict) : res dict :=
  match n with
  | O => Ok d
  | S n =>
      if dictIsRehashing d
      then do d <- _dictRehashStep d; rehash_steps n d
      else Ok d
  end.

(** The variables of the sampling loop: the index [i], [emptylen], what
    has been stored through [des] ([stored] is its length), and the
    number of calls of [random()] made. *)
Record sample : Type := {
  s_i : Z;
  s_emptylen : Z;
  s_des : list dictEntry;
  s_draws : nat
}.

(** [while (he) { *des = he; des++; he = he->next; stored++;
                  if (stored == count) return stored; }]:
    the array and whether the function has returned. *)
Fixpoint collect (he des : list dictEntry) (count : Z)
    : list dictEntry * bool :=
  match he with
  | [] => (des, false)
  | e :: he =>
      let des := des ++ [e] in
      if Z.of_nat (length des) =? count then (des, true)
      else collect he des count
  end.

(** The body of [for (j = 0; j < tables; j++)] for table [j]; the
    boolean tells that the function has returned. *)
Definition sample_table (rnd : nat -> Z) (d : dict) (count maxsizemask tables : Z)
    (j : nat) (s : sample) : res (sample * bool) :=
  let below := (tables =? 2) && Nat.eqb j 0 && (s_i s <? rehashidx d) in
  if below && negb (s_i s >=? size (ht1 d)) then Ok (s, false)
  else
    let i := if below then rehashidx d else s_i s in
    if i >=? size (ht d j)
    then Ok ({| s_i := i; s_emptylen := s_emptylen s;
                s_des := s_des s; s_draws := s_draws s |}, false)
    else
      do t <- the_table (ht d j);
      do he <- lookupZ t i;
      match he with
      | [] =>
          let emptylen := wrap64 (s_emptylen s + 1) in
          if (emptylen >=? 5) && (emptylen >? count)
          then Ok ({| s_i := Z.land (rnd (s_draws s)) maxsizemask;
                      s_emptylen := 0;
                      s_des := s_des s; s_draws := S (s_draws s) |}, false)
          else Ok ({| s_i := i; s_emptylen := emptylen;
                      s_des := s_des s; s_draws := s_draws s |}, false)
      | _ :: _ =>
          let '(des, returned) := collect he (s_des s) count in
          Ok ({| s_i := i; s_emptylen := 0;
                 s_des := des; s_draws := s_draws s |}, returned)
      end.

(** [while(stored < count && maxsteps--) { for ...; i = (i+1) & maxsizemask; }] *)
Fixpoint sample_loop (maxsteps : nat) (rnd : nat -> Z) (d : dict)
    (count maxsizemask tables : Z) (s : sample) : res (list dictEntry) :=
  if negb (Z.of_nat (length (s_des s)) <? count) then Ok (s_des s)
  else
    match maxsteps with
    | O => Ok (s_des s)
    | S m =>
        do '(s, returned) <- sample_table rnd d count maxsizemask tables 0 s;
        if returned then Ok (s_des s)
        else
          do '(s, returned) <-
            (if tables =? 2
             then sample_table rnd d count maxsizemask tables 1 s
             else Ok (s, false));
          if returned then Ok (s_des s)
          else
            sample_loop m rnd d count maxsizemask tables
              {| s_i := Z.land (wrap64 (s_i s + 1)) maxsizemask;
                 s_emptylen := s_emptylen s;
                 s_des := s_des s; s_draws := s_draws s |}
    end.

(** [dictGetSomeKeys(d, des, count)]: the dictionary after the call and
    the entries stored through [des]; the value returned is their
    number. *)
Definition dictGetSomeKeys (rnd : nat -> Z) (d : dict) (count : Z)
    : res (dict * list dictEntry) :=
  let count := if dictSize d <? count then wrap_uint (dictSize d) else count in
  let maxsteps := wrap_uint (count * 10) in
  do d <- rehash_steps (Z.to_nat count) d;
  let tables := if dictIsRehashing d then 2 else 1 in
  let maxsizemask := sizemask (ht0 d) in
  let maxsizemask :=
    if (tables >? 1) && (maxsizemask <? sizemask (ht1 d))
    then sizemask (ht1 d) else maxsizemask in
  let i := Z.land (rnd 0%nat) maxsizemask in
  do des <- sample_loop (Z.to_nat maxsteps) rnd d count maxsizemask tables
              {| s_i := i; s_emptylen := 0; s_des := []; s_draws := 1 |};
  Ok (d, des).

Lemma rehash_steps_spec (n : nat) :
  forall d,
    dict_inv d ->
    exists d', rehash_steps n d = Ok d'
               /\ dict_inv d' /\ dictEntries d' ≡ₚ dictEntries d.
Proof.
  induction n as [|n IH]; intros d Hinv; cbn [rehash_steps].
  - exists d. auto.
  - destruct (dictIsRehashing d); [|exists d; auto].
    destruct (_dictRehashStep_spec d Hinv) as (d1 & Hs & (Hinv1 & _ & _ & Hp & _) & _).
    rewrite Hs. cbn [bind].
    destruct (IH d1 Hinv1) as (d2 & Hr & Hinv2 & Hp2).
    exists d2. split; [exact Hr|]. split; [exact Hinv2 | etrans; eassumption].
Qed.

(** What the sampling loop keeps: the index is not negative, the
    entries stored are entries of the dictionary, at most [count]. *)
Definition sample_ok (d : dict) (count : Z) (s : sample) : Prop :=
  0 <= s_i s
  /\ (forall e, e ∈ s_des s -> e ∈ dictEntries d)
  /\ Z.of_nat (length (s_des s)) <= count.

Lemma collect_spec (entries : list dictEntry) (count : Z) (he : list dictEntry) :
  forall des,
    (forall e, e ∈ he -> e ∈ entries) ->
    (forall e, e ∈ des -> e ∈ entries) ->
    Z.of_nat (length des) < count ->
    (forall e, e ∈ (collect he des count).1 -> e ∈ entries)
    /\ Z.of_nat (length (collect he des count).1) <= count
    /\ ((collect he des count).2 = false ->
        Z.of_nat (length (collect he des count).1) < count).
Proof.
  induction he as [|x he IH]; intros des Hhe Hdes Hlen; cbn [collect].
  - simpl. split; [exact Hdes|]. split; [lia | intros _; exact Hlen].
  - assert (Hdes' : forall e, e ∈ des ++ [x] -> e ∈ entries).
    { intros e He. apply elem_of_app in He as [He|He]; [auto|].
      apply list_elem_of_singleton in He. subst e. apply Hhe. left. }
    destruct (Z.eqb_spec (Z.of_nat (length (des ++ [x]))) count) as [Heq|Hne].
    + simpl. split; [exact Hdes'|]. split; [lia | discriminate].
    + apply IH; [|exact Hdes'|].
      * intros e He. apply Hhe. right. exact He.
      * rewrite length_app in Hne |- *. simpl in Hne |- *. lia.
Qed.

Lemma sample_table_spec (rnd : nat -> Z) (d : dict) (count maxsizemask tables : Z)
    (j : nat) (s : sample) :
  dict_inv d -> (forall i, 0 <= rnd i) ->
  (tables = 2 -> rehashidx d <> -1) ->
  sample_ok d count s -> Z.of_nat (length (s_des s)) < count ->
  exists s' returned,
    sample_table rnd d count maxsizemask tables j s = Ok (s', returned)
    /\ sample_ok d count s'
    /\ (returned = false -> Z.of_nat (length (s_des s')) < count).
Proof.
  intros Hinv Hrnd Htab (Hi & Hdes & _) Hroom. unfold sample_table.
  set (below := (tables =? 2) && Nat.eqb j 0 && (s_i s <? rehashidx d)).
  destruct (below && negb (s_i s >=? size (ht1 d))).
  { exists s, false. split; [reflexivity|]. split; [|auto].
    split; [exact Hi|]. split; [exact Hdes | lia]. }
  set (i := if below then rehashidx d else s_i s).
  assert (Hi' : 0 <= i).
  { unfold i. destruct below eqn:Hb; [|exact Hi].
    unfold below in Hb. apply andb_true_iff in Hb as [Hb Hlt].
    apply Z.ltb_lt in Hlt. lia. }
  clearbody i.
  destruct (Z.geb_spec i (size (ht d j))) as [Hge|Hlt].
  { eexists _, false. split; [reflexivity|]. split; [|auto].
    split; [exact Hi'|]. split; [exact Hdes | simpl; lia]. }
  assert (Hhj : ht_inv (ht d j)).
  { destruct Hinv as (Hi0 & Hi1 & _). destruct j; [exact Hi0 | exact Hi1]. }
  destruct (table (ht d j)) as [t|] eqn:Et.
  2:{ unfold ht_inv in Hhj. rewrite Et in Hhj. lia. }
  destruct (ht_inv_table _ _ Hhj Et) as (Hlen & _).
  unfold the_table. rewrite Et. cbn [bind].
  destruct (lookupZ_total t i ltac:(lia)) as [he Hhe]. rewrite Hhe. cbn [bind].
  destruct he as [|x he].
  - destruct ((wrap64 (s_emptylen s + 1) >=? 5) && (wrap64 (s_emptylen s + 1) >? count)).
    + eexists _, false. split; [reflexivity|]. split; [|auto].
      split; [|split; [exact Hdes | simpl; lia]]. simpl.
      apply Z.land_nonneg. left. apply Hrnd.
    + eexists _, false. split; [reflexivity|]. split; [|auto].
      split; [exact Hi'|]. split; [exact Hdes | simpl; lia].
  - assert (Hin : forall e, e ∈ x :: he -> e ∈ dictEntries d).
    { intros e He. apply (bucket_entries d j t i (x :: he) e Et Hhe He). }
    destruct (collect_spec (dictEntries d) count (x :: he) (s_des s) Hin Hdes Hroom)
      as (Hc1 & Hc2 & Hc3).
    destruct (collect (x :: he) (s_des s) count) as [des returned].
    simpl in Hc1, Hc2, Hc3.
    exists {| s_i := i; s_emptylen := 0; s_des := des; s_draws := s_draws s |},
           returned.
    split; [reflexivity|]. split; [|exact Hc3].
    split; [exact Hi'|]. split; [exact Hc1 | exact Hc2].
Qed.

Lemma sample_loop_spec (rnd : nat -> Z) (d : dict) (count maxsizemask tables : Z)
    (maxsteps : nat) :
  dict_inv d -> (forall i, 0 <= rnd i) -> 0 <= maxsizemask ->
  (tables = 2 -> rehashidx d <> -1) ->
  forall s,
    sample_ok d count s ->
    exists des,
      sample_loop maxsteps rnd d count maxsizemask tables s = Ok des
      /\ (forall e, e ∈ des -> e ∈ dictEntries d)
      /\ Z.of_nat (length des) <= count.
Proof.
  intros Hinv Hrnd Hmask Htab.
  induction maxsteps as [|m IH]; intros s Hok; cbn [sample_loop];
    pose proof Hok as (Hi & Hdes & Hlen);
    destruct (Z.ltb_spec (Z.of_nat (length (s_des s))) count) as [Hroom|Hfull];
    cbn [negb]; try (exists (s_des s); auto; fail).
  destruct (sample_table_spec rnd d count maxsizemask tables 0 s
              Hinv Hrnd Htab Hok Hroom) as (s1 & r1 & Hs1 & Hok1 & Hroom1).
  rewrite Hs1. cbn [bind].
  destruct r1.
  { exists (s_des s1). destruct Hok1 as (_ & H1 & H2). auto. }
  specialize (Hroom1 eq_refl).
  assert (Hsecond : exists s2 r2,
            (if tables =? 2
             then sample_table rnd d count maxsizemask tables 1 s1
             else Ok (s1, false)) = Ok (s2, r2)
            /\ sample_ok d count s2
            /\ (r2 = false -> Z.of_nat (length (s_des s2)) < count)).
  { destruct (tables =? 2).
    - apply sample_table_spec; assumption.
    - exists s1, false. auto. }
  destruct Hsecond as (s2 & r2 & Hs2 & Hok2 & Hroom2).
  rewrite Hs2. cbn [bind].
  destruct r2.
  { exists (s_des s2). destruct Hok2 as (_ & H1 & H2). auto. }
  apply IH. destruct Hok2 as (Hi2 & Hd2 & Hl2).
  split; [|split; [exact Hd2 | exact Hl2]].
  simpl. apply Z.land_nonneg. right. exact Hmask.
Qed.

Lemma sizemask_nonneg (h : dictht) : ht_inv h -> 0 <= sizemask h.
Proof.
  unfold ht_inv. destruct (table h).
  - intros (_ & Hsz & -> & _). pose proof (is_table_size_bounds _ Hsz). lia.
  - intros (_ & -> & _). lia.
Qed.

(** [dictGetSomeKeys(d, des, count)] returns, whatever [random()] gives:
    it stores at most [count] entries and at most as many as the
    dictionary holds, every one of them an entry of the dictionary; the
    dictionary keeps its entries (only rehash steps are made). *)
Theorem dictGetSomeKeys_spec (rnd : nat -> Z) (d : dict) (count : Z) :
  dict_inv d -> 0 <= count < 2 ^ 32 -> (forall i, 0 <= rnd i) ->
  exists d' des,
    dictGetSomeKeys rnd d count = Ok (d', des)
    /\ dict_inv d' /\ dictEntries d' ≡ₚ dictEntries d
    /\ (forall e, e ∈ des -> e ∈ dictEntries d)
    /\ Z.of_nat (length des) <= count
    /\ Z.of_nat (length des) <= dictSize d.
Proof.
  intros Hinv Hcount Hrnd. unfold dictGetSomeKeys.
  pose proof Hinv as (Hi0 & Hi1 & Hsum & _).
  pose proof (ht_inv_used_nonneg _ Hi0) as Hu0.
  pose proof (ht_inv_used_nonneg _ Hi1) as Hu1.
  assert (Hsize : dictSize d = used (ht0 d) + used (ht1 d)).
  { unfold dictSize. apply wrap64_small. lia. }
  set (count' := if dictSize d <? count then wrap_uint (dictSize d) else count).
  assert (Hc' : 0 <= count' /\ count' <= count /\ count' <= dictSize d).
  { unfold count'. destruct (Z.ltb_spec (dictSize d) count) as [Hlt|Hge].
    - unfold wrap_uint. rewrite Z.mod_small by lia. lia.
    - lia. }
  clearbody count'.
  destruct (rehash_steps_spec (Z.to_nat count') d Hinv) as (d' & Hs & Hinv' & Hperm).
  rewrite Hs. cbn [bind].
  pose proof Hinv' as (Hi0' & Hi1' & _).
  match goal with |- context [sample_loop ?ms rnd d' count' ?mask ?tb ?s0] =>
    destruct (sample_loop_spec rnd d' count' mask tb ms Hinv' Hrnd) with (s := s0)
      as (des & Hloop & Hin & Hlen)
  end.
  - destruct ((_ >? 1) && _); apply sizemask_nonneg; assumption.
  - destruct (dictIsRehashing d') eqn:Hre; [|discriminate].
    intros _. apply dictIsRehashing_true. exact Hre.
  - split; [|split; [intros e He; apply elem_of_nil in He; contradiction | simpl; lia]].
    simpl. apply Z.land_nonneg. left. apply Hrnd.
  - rewrite Hloop. cbn [bind]. exists d', des. split; [reflexivity|].
    split; [exact Hinv'|]. split; [exact Hperm|].
    split; [intros e He; rewrite <- Hperm; apply Hin; exact He|]. lia.
Qed.

Lemma dictGetSomeKeys_spec_witness :
  exists d' des,
    dictGetSomeKeys (fun i => Z.of_nat i) rehashing_dict 2 = Ok (d', des)
    /\ Z.of_nat (length des) <= 2.
Proof.
  destruct (dictGetSomeKeys_spec (fun i => Z.of_nat i) rehashing_dict 2
              rehashing_dict_inv)
    as (d' & des & Hrun & _ & _ & _ & Hlen & _).
  - lia.
  - intros i. lia.
  - exists d', des. split; [exact Hrun | exact Hlen].
Defined.

(** *** [dictFindEntryRefByPtrAndHash] *)

(** [dictGetHash] *)
Definition dictGetHash (d : dict) (k : Z) : Z := dictHashKey d k.

(** The walk [while(he) { if (oldptr==he->key) return heref; ... }]: the
    position in the chain of the first entry whose key is the pointer
    [oldptr]. *)
Fixpoint ptr_index (oldptr : Z) (he : list dictEntry) : option nat :=
  match he with
  | [] => None
  | e :: next => if oldptr =? key e then Some O
                 else option_map S (ptr_index oldptr next)
  end.

(** [dictFindEntryRefByPtrAndHash]: the reference found, or NULL. *)
Definition dictFindEntryRefByPtrAndHash (d : dict) (oldptr hash : Z)
    : res (option entry_ref) :=
  if wrap64 (used (ht0 d) + used (ht1 d)) =? 0 then Ok None
  else
    do '(idx, he) <- chain_at d 0 hash;
    match ptr_index oldptr he with
    | Some p => Ok (Some {| e_table := 0; e_bucket := idx; e_pos := p |})
    | None =>
        if negb (dictIsRehashing d) then Ok None
        else
          do '(idx, he) <- chain_at d 1 hash;
          match ptr_index oldptr he with
          | Some p => Ok (Some {| e_table := 1; e_bucket := idx; e_pos := p |})
          | None => Ok None
          end
    end.

Lemma ptr_index_Some (k : Z) (he : list dictEntry) (p : nat) :
  ptr_index k he = Some p -> exists e, he !! p = Some e /\ key e = k.
Proof.
  revert p. induction he as [|x he IH]; intros p; simpl; [discriminate|].
  destruct (Z.eqb_spec k (key x)) as [->|_].
  - intros [= <-]. exists x. auto.
  - destruct (ptr_index k he) as [q|]; [|discriminate].
    intros [= <-]. apply IH. reflexivity.
Qed.

Lemma ptr_index_None (k : Z) (he : list dictEntry) :
  ptr_index k he = None -> forall e, e ∈ he -> key e <> k.
Proof.
  induction he as [|x he IH]; simpl; intros H e He.
  - apply elem_of_nil in He. contradiction.
  - destruct (Z.eqb_spec k (key x)) as [|Hne]; [discriminate|].
    destruct (ptr_index k he) as [q|]; [discriminate|].
    apply elem_of_cons in He as [->|He]; [congruence | exact (IH eq_refl e He)].
Qed.

(** [dictFindEntryRefByPtrAndHash(d, k, dictGetHash(d, k))] leaves the
    dictionary alone; it returns a reference to an entry whose key is
    the pointer [k], and NULL only when no entry has that key. *)
Theorem dictFindEntryRefByPtrAndHash_spec (d : dict) (k : Z) :
  dict_inv d -> dict_placed d ->
  exists r,
    dictFindEntryRefByPtrAndHash d k (dictGetHash d k) = Ok r
    /\ match r with
       | Some ref => exists e, ref_at d ref e /\ key e = k
       | None => forall e, e ∈ dictEntries d -> key e <> k
       end.
Proof.
  intros Hinv [Hp0 Hp1]. unfold dictFindEntryRefByPtrAndHash, dictGetHash.
  pose proof Hinv as (Hi0 & Hi1 & Hsum & Hidle & Hri).
  pose proof (ht_inv_used_nonneg _ Hi0) as Hu0.
  pose proof (ht_inv_used_nonneg _ Hi1) as Hu1.
  pose proof (dict_inv_count d Hinv) as Hcnt.
  rewrite wrap64_small by lia.
  destruct (Z.eqb_spec (used (ht0 d) + used (ht1 d)) 0) as [Hz|Hnz].
  { exists None. split; [reflexivity|]. intros e He.
    destruct (dictEntries d); [apply elem_of_nil in He; contradiction|].
    simpl in Hcnt. lia. }
  assert (Ht0 : table (ht d 0) <> None).
  { simpl. destruct (Z.eq_dec (rehashidx d) (-1)) as [E|E].
    - rewrite (Hidle E) in Hnz. simpl in Hnz.
      unfold ht_inv in Hi0. destruct (table (ht0 d)); [discriminate | lia].
    - apply (Hri E). }
  (* an entry with the key [k] is in the chain its table is searched at *)
  assert (Hbucket : forall e, e ∈ dictEntries d -> key e = k ->
            exists t tb b,
              (t = 0%nat \/ t = 1%nat) /\ table (ht d t) = Some tb
              /\ lookupZ tb (Z.land (dictHashKey d k) (sizemask (ht d t))) = Ok b
              /\ e ∈ b).
  { intros e He Hk.
    destruct (dictEntries_bucket d e He) as (t & tb & i & b & Ht01 & Ht & Hb & Hin).
    exists t, tb, b. split; [exact Ht01|]. split; [exact Ht|]. split; [|exact Hin].
    rewrite <- Hk.
    replace (Z.land (dictHashKey d (key e)) (sizemask (ht d t))) with i; [exact Hb|].
    symmetry.
    destruct Ht01 as [->| ->]; [apply (Hp0 i b e) | apply (Hp1 i b e)];
      try exact Hin; unfold tbl; simpl in Ht |- *; rewrite Ht; exact Hb. }
  destruct (chain_at_spec d 0 (dictHashKey d k) Hinv Ht0)
    as (tb0 & idx0 & he0 & Hc0 & Htb0 & Hidx0 & Hl0).
  rewrite Hc0. cbn [bind].
  destruct (ptr_index k he0) as [p|] eqn:Hp.
  { eexists. split; [reflexivity|].
    destruct (ptr_index_Some _ _ _ Hp) as (e & He & Hk).
    exists e. split; [|exact Hk]. exists tb0, he0. auto. }
  pose proof (ptr_index_None _ _ Hp) as Hno0.
  destruct (dictIsRehashing d) eqn:Hre; cbn [negb].
  - apply dictIsRehashing_true in Hre. destruct (Hri Hre) as (_ & _ & Hn1 & _).
    destruct (chain_at_spec d 1 (dictHashKey d k) Hinv Hn1)
      as (tb1 & idx1 & he1 & Hc1 & Htb1 & Hidx1 & Hl1).
    rewrite Hc1. cbn [bind].
    destruct (ptr_index k he1) as [p|] eqn:Hp'.
    { eexists. split; [reflexivity|].
      destruct (ptr_index_Some _ _ _ Hp') as (e & He & Hk).
      exists e. split; [|exact Hk]. exists tb1, he1. auto. }
    pose proof (ptr_index_None _ _ Hp') as Hno1.
    exists None. split; [reflexivity|]. intros e He Hk.
    destruct (Hbucket e He Hk) as (t & tb & b & [->| ->] & Ht & Hb & Hin).
    + rewrite Htb0 in Ht. injection Ht as <-. rewrite <- Hidx0, Hl0 in Hb.
      injection Hb as <-. exact (Hno0 e Hin Hk).
    + rewrite Htb1 in Ht. injection Ht as <-. rewrite <- Hidx1, Hl1 in Hb.
      injection Hb as <-. exact (Hno1 e Hin Hk).
  - apply dictIsRehashing_false in Hre.
    exists None. split; [reflexivity|]. intros e He Hk.
    destruct (Hbucket e He Hk) as (t & tb & b & [->| ->] & Ht & Hb & Hin).
    + rewrite Htb0 in Ht. injection Ht as <-. rewrite <- Hidx0, Hl0 in Hb.
      injection Hb as <-. exact (Hno0 e Hin Hk).
    + simpl in Ht. rewrite (Hidle Hre) in Ht. discriminate.
Qed.

Lemma dictFindEntryRefByPtrAndHash_spec_witness :
  exists r,
    dictFindEntryRefByPtrAndHash rehashing_dict 4 (dictGetHash rehashing_dict 4)
    = Ok r
    /\ match r with
       | Some ref => exists e, ref_at rehashing_dict ref e /\ key e = 4
       | None => forall e, e ∈ dictEntries rehashing_dict -> key e <> 4
       end.
Proof.
  apply (dictFindEntryRefByPtrAndHash_spec rehashing_dict 4).
  - exact rehashing_dict_inv.
  - exact rehashing_dict_placed.
Defined.

(** *** Requests above [2^60] buckets *)

Lemma _dictNextPower_large (size r : Z) :
  2 ^ 60 < size -> _dictNextPower size = Ok r ->
  r = 2 ^ 61 \/ r = 2 ^ 62 \/ r = 2 ^ 63.
Proof.
  intros Hs Hr.
  destruct (_dictNextPower_spec size) as (k & Hk & Hnp & Hlow & Hbig').
  rewrite Hnp in Hr. injection Hr as <-.
  assert (Hk61 : 61 <= k).
  { destruct (Z_lt_le_dec k 61) as [Hlt|]; [|assumption].
    assert (2 ^ k <= 2 ^ 60) by (apply Z.pow_le_mono_r; lia).
    destruct (Z_lt_le_dec size LONG_MAX) as [Hsm|Hbig].
    - specialize (Hlow Hsm). lia.
    - specialize (Hbig' Hbig). lia. }
  assert (k = 61 \/ k = 62 \/ k = 63) as [->|[->| ->]] by lia; auto.
Qed.

(** [dictExpand] does not check the product
    [realsize*sizeof(dictEntry* )], which is computed in [size_t].  On a
    new dictionary, a request for more than [2^60] buckets that the
    allocator serves succeeds and records the size asked for over an
    array with no bucket at all; [dictAdd] then reads outside the
    array. *)
Theorem dictExpand_size_overflow (ty : dictType) (c c' : env)
    (size k v : Z) :
  zcalloc_ok (mem c) = true -> 2 ^ 60 < size ->
  exists d',
    dictExpand c (dictCreate ty) size = Ok (d', DICT_OK)
    /\ 2 ^ 61 <= Dict.size (ht0 d')
    /\ table (ht0 d') = Some []
    /\ dictAdd c' d' k v = Err OutOfBounds.
Proof.
  intros Hmem Hs.
  destruct (dictExpand_unfold c (dictCreate ty) size) as (r & Hr & _ & Hx).
  pose proof (_dictNextPower_large size r Hs Hr) as Hcases.
  assert (Htb : zcalloc_table c r = Ok []).
  { unfold zcalloc_table. rewrite Hmem.
    destruct Hcases as [->|[->| ->]]; reflexivity. }
  rewrite Htb in Hx. cbn [bind] in Hx.
  assert (Hgt : (0 >? size) = false) by (rewrite Z.gtb_ltb; apply Z.ltb_ge; lia).
  assert (Hne : (r =? 0) = false) by (apply Z.eqb_neq; lia).
  cbn [dictCreate dictIsRehashing rehashidx ht0 used Dict.size table
       _dictReset Z.eqb orb] in Hx.
  rewrite Hgt, Hne in Hx.
  eexists. split; [exact Hx|].
  split; [simpl; lia|]. split; [reflexivity|].
  set (d' := set_ht0 (dictCreate ty) _).
  assert (Hfull : (0 >=? r) = false) by (rewrite Z.geb_leb; apply Z.leb_gt; lia).
  assert (Hki : _dictKeyIndex c' d' k (dictHashKey d' k) = Err OutOfBounds).
  { unfold _dictKeyIndex, _dictExpandIfNeeded.
    change (dictIsRehashing d') with false.
    change (Dict.size (ht0 d')) with r. change (used (ht0 d')) with 0.
    rewrite Hne, Hfull. cbn [andb bind]. change (DICT_OK =? DICT_ERR) with false.
    cbv iota. unfold chain_at. change (the_table (ht d' 0)) with (Ok (@nil (list dictEntry))).
    cbn [bind]. unfold lookupZ.
    match goal with |- context [?i <? 0] => destruct (i <? 0) end; reflexivity. }
  unfold dictAdd, dictAddRaw. change (dictIsRehashing d') with false.
  cbn [bind]. rewrite Hki. reflexivity.
Qed.

Lemma dictExpand_size_overflow_witness :
  exists d',
    dictExpand (with_memory true) (dictCreate plain_type) (2 ^ 61 + 1)
    = Ok (d', DICT_OK)
    /\ Dict.size (ht0 d') = 2 ^ 62
    /\ table (ht0 d') = Some []
    /\ dictAdd (with_memory true) d' (2 ^ 40) 1 = Err OutOfBounds.
Proof.
  destruct (dictExpand_size_overflow plain_type (with_memory true)
              (with_memory true) (2 ^ 61 + 1) (2 ^ 40) 1)
    as (d' & Hx & _ & Ht & Ha).
  - reflexivity.
  - lia.
  - exists d'. split; [exact Hx|]. split; [|split; [exact Ht | exact Ha]].
    vm_compute in Hx. injection Hx as <-. reflexivity.
Defined.

(** *** A safe iterator and a caller that updates the dictionary *)




(** *** Emptying a dictionary through a safe iterator *)

(** The loop of a caller that removes every entry,
    [while ((de = dictNext(di)) != NULL) dictDelete(d, dictGetKey(de));]:
    the entries returned. *)
Fixpoint dict_drain (fuel : nat) (addr : dictht -> Z) (d : dict)
    (it : dictIterator) : res (dict * dictIterator * list dictEntry) :=
  match fuel with
  | O => Err OutOfFuel
  | S f =>
      do '(d, it, r) <- dictNext addr d it;
      match r with
      | None => Ok (d, it, [])
      | Some e =>
          do '(d, _) <- dictDelete d (key e);
          do '(d, it, l) <- dict_drain f addr d it;
          Ok (d, it, e :: l)
      end
  end.

(** The entry [dictNext] returns is the one [entry] points to, and
    [nextEntry] points to its successor. *)
Lemma dictNext_loop_entry (addr : dictht -> Z) (fuel : nat) :
  forall d it d' it' e,
    iter_points d it ->
    dictNext_loop fuel addr d it = Ok (d', it', Some e) ->
    entry it' = e :: nextEntry it' /\ entry_points d' it'.
Proof.
  induction fuel as [|fuel IH]; intros d it d' it' e Hp; [discriminate|].
  simpl. destruct (dictNext_advance addr d it) as [[[d1 it1] stop]|] eqn:Ha;
    [|discriminate]. cbn [bind].
  pose proof (dictNext_advance_points addr d d1 it it1 stop Hp Ha) as Hp1.
  destruct stop; [discriminate|].
  rewrite (dictNext_entry_same d1 it1 Hp1). cbn [bind].
  destruct (entry it1) as [|x el] eqn:He1.
  - apply IH. left. exact He1.
  - intros [= <- <- <-]. simpl. split; [reflexivity|].
    unfold entry_points, points_into in *. simpl. rewrite He1 in Hp1. exact Hp1.
Qed.

Lemma concat_nil_lookup (l : list (list dictEntry)) (i : Z) (b : list dictEntry) :
  concat l = [] -> lookupZ l i = Ok b -> b = [].
Proof.
  intros Hc Hb. apply lookupZ_Ok in Hb as [_ Hb].
  apply list_elem_of_lookup_2 in Hb.
  destruct b as [|x b]; [reflexivity|].
  assert (Hx : x ∈ concat l).
  { apply list_elem_of_In, in_concat. exists (x :: b).
    split; [apply list_elem_of_In; exact Hb | left; reflexivity]. }
  rewrite Hc in Hx. inversion Hx.
Qed.

Lemma concat_take_drop (l : list (list dictEntry)) (i : Z) (b : list dictEntry) :
  lookupZ l i = Ok b ->
  concat l = concat (take (Z.to_nat i) l) ++ b
             ++ concat (drop (Z.to_nat (i + 1)) l).
Proof.
  intros Hb. rewrite <- (concat_drop_bucket l i b Hb), <- concat_app.
  rewrite take_drop. reflexivity.
Qed.

Lemma concat_insertZ_take_drop (l : list (list dictEntry)) (i : Z)
    (b b' : list dictEntry) :
  lookupZ l i = Ok b ->
  concat (insertZ i b' l)
  = concat (take (Z.to_nat i) l) ++ b' ++ concat (drop (Z.to_nat (i + 1)) l).
Proof.
  intros Hb. apply lookupZ_Ok in Hb as [Hi Hb].
  unfold insertZ. rewrite insert_take_drop by (eapply lookup_lt_Some; eauto).
  rewrite concat_app. simpl.
  replace (Z.to_nat (i + 1)) with (S (Z.to_nat i)) by lia. reflexivity.
Qed.

(** [dictDelete] of the key of the first entry of a chain, while a safe
    iterator is live: that entry is unlinked, whatever the other keys. *)
Lemma dictDelete_head (d : dict) (t : nat) (tb : list (list dictEntry))
    (i : Z) (e : dictEntry) (next : list dictEntry) :
  dict_inv d -> dict_placed d -> iterators d <> 0 ->
  (t = 0%nat \/ (t = 1%nat /\ rehashidx d <> -1 /\ ht_entries (ht0 d) = [])) ->
  table (ht d t) = Some tb -> lookupZ tb i = Ok (e :: next) ->
  let d' := set_ht d t (update_bucket (ht d t) tb i next (used (ht d t) - 1)) in
  dictDelete d (key e) = Ok (d', DICT_OK) /\ dict_inv d' /\ dict_placed d'.
Proof.
  intros Hinv Hpl Hit Hpos Ht Hb d'.
  pose proof Hinv as (Hi0 & Hi1 & Hsum & Hidle & Hre).
  pose proof (ht_inv_used_nonneg _ Hi0) as Hu0.
  pose proof (ht_inv_used_nonneg _ Hi1) as Hu1.
  assert (Hit_inv : ht_inv (ht d t)) by (destruct t; assumption).
  destruct (ht_inv_table _ _ Hit_inv Ht) as (Hlen & Hsz & Hmask & Hused).
  pose proof (chain_count_bucket _ _ _ Hb) as Hcb. simpl length in Hcb.
  assert (Hut : 1 <= used (ht d t) < 2 ^ 64).
  { rewrite Hused. destruct t; simpl in *; lia. }
  assert (Hkm : key_matches d (key e) e = true).
  { unfold key_matches. rewrite Z.eqb_refl. reflexivity. }
  assert (Hidx : Z.land (dictHashKey d (key e)) (sizemask (ht d t)) = i).
  { assert (Hp : ht_placed d (ht d t)) by (destruct Hpl; destruct t; assumption).
    apply (Hp i (e :: next) e); [|left].
    unfold tbl. rewrite Ht. exact Hb. }
  assert (Hun : unlink_in d t (dictHashKey d (key e)) (key e)
                = Ok (Some (d', e))).
  { unfold unlink_in, chain_at, the_table. rewrite Ht. cbn [bind].
    rewrite Hidx, Hb. cbn [bind chain_unlink]. rewrite Hkm.
    cbn [bind]. unfold d', update_bucket. simpl used.
    rewrite wrap64_small by lia. reflexivity. }
  split.
  - unfold dictDelete, dictGenericDelete.
    assert (Hne : (used (ht0 d) =? 0) && (used (ht1 d) =? 0) = false).
    { apply andb_false_iff. destruct t; simpl in Hut.
      - left. apply Z.eqb_neq. lia.
      - right. apply Z.eqb_neq. lia. }
    rewrite Hne.
    assert (Hstep : (if dictIsRehashing d then _dictRehashStep d else Ok d) = Ok d).
    { destruct (dictIsRehashing d); [|reflexivity]. unfold _dictRehashStep.
      destruct (Z.eqb_spec (iterators d) 0); [contradiction | reflexivity]. }
    rewrite Hstep. cbn [bind].
    destruct Hpos as [->|(-> & Hreh & Hempty)].
    + rewrite Hun. reflexivity.
    + destruct (Hre Hreh) as (_ & Hn0 & _).
      destruct (chain_at_spec d 0 (dictHashKey d (key e)) Hinv Hn0)
        as (tb0 & idx0 & he0 & Hc0 & Ht0 & _ & Hl0).
      unfold unlink_in at 1. rewrite Hc0. cbn [bind].
      assert (He0 : he0 = []).
      { apply (concat_nil_lookup tb0 idx0); [|exact Hl0].
        unfold ht_entries, tbl in Hempty. simpl in Ht0. rewrite Ht0 in Hempty.
        exact Hempty. }
      rewrite He0. cbn [chain_unlink bind].
      assert (Hr : dictIsRehashing d = true)
        by (apply dictIsRehashing_true; exact Hreh).
      rewrite Hr. cbn [negb]. rewrite Hun. reflexivity.
  - split.
    + unfold d'.
      replace (used (ht d t) - 1)
        with (used (ht d t) - Z.of_nat (length (e :: next))
              + Z.of_nat (length next)) by (simpl length; lia).
      apply (update_bucket_inv d t tb i (e :: next) next Hinv Ht Hb).
      * intros _ _ H. discriminate H.
      * simpl length. lia.
    + unfold d'. apply update_bucket_placed; try assumption.
      * pose proof (lookupZ_lt _ _ _ Hb). apply lookupZ_Ok in Hb as [? _]. lia.
      * intros x Hx.
        assert (Hp : ht_placed d (ht d t)) by (destruct Hpl; destruct t; assumption).
        apply (Hp i (e :: next) x); [|right; exact Hx].
        unfold tbl. rewrite Ht. exact Hb.
Qed.

(** The entries of a dictionary whose iterator has all of them still to
    return start in the chain the iterator stands on. *)
Lemma first_bucket (d : dict) (t : nat) (tb : list (list dictEntry)) (i : Z)
    (pre next : list dictEntry) (e : dictEntry) :
  dict_inv d ->
  (t = 0%nat \/ (t = 1%nat /\ rehashidx d <> -1)) ->
  table (ht d t) = Some tb -> lookupZ tb i = Ok (pre ++ e :: next) ->
  dictEntries d = e :: next ++ rest_tables d t i ->
  pre = [] /\ concat (take (Z.to_nat i) tb) = []
  /\ (t = 1%nat -> ht_entries (ht0 d) = []).
Proof.
  intros Hinv Hpos Ht Hb Heq.
  pose proof (concat_take_drop tb i _ Hb) as Hsplit.
  unfold dictEntries, rest_tables in Heq.
  destruct Hpos as [->|(-> & Hreh)]; simpl in Ht.
  - assert (E0 : ht_entries (ht0 d) = concat tb)
      by (unfold ht_entries, tbl; rewrite Ht; reflexivity).
    assert (E1 : (if dictIsRehashing d && Nat.eqb 0 0
                  then ht_entries (ht1 d) else []) = ht_entries (ht1 d)).
    { rewrite andb_true_r. destruct (dictIsRehashing d) eqn:Hr; [reflexivity|].
      apply dictIsRehashing_false in Hr.
      destruct Hinv as (_ & _ & _ & Hidle & _). rewrite (Hidle Hr). reflexivity. }
    rewrite E0, E1, Hsplit in Heq. simpl ht in Heq. unfold tbl in Heq.
    rewrite Ht in Heq. simpl default in Heq.
    assert (H : (concat (take (Z.to_nat i) tb) ++ pre)
                ++ (e :: next ++ concat (drop (Z.to_nat (i + 1)) tb)
                    ++ ht_entries (ht1 d))
                = [] ++ (e :: next ++ concat (drop (Z.to_nat (i + 1)) tb)
                         ++ ht_entries (ht1 d))).
    { rewrite app_nil_l. etransitivity; [|exact Heq].
      rewrite <- !app_assoc. reflexivity. }
    apply app_inv_tail in H. apply app_eq_nil in H as [H1 H2].
    split; [exact H2|]. split; [exact H1 | intros H; discriminate H].
  - assert (E0 : ht_entries (ht1 d) = concat tb)
      by (unfold ht_entries, tbl; rewrite Ht; reflexivity).
    rewrite E0, Hsplit, andb_false_r, app_nil_r in Heq. simpl ht in Heq.
    unfold tbl in Heq. rewrite Ht in Heq. simpl default in Heq.
    assert (H : (ht_entries (ht0 d) ++ concat (take (Z.to_nat i) tb) ++ pre)
                ++ (e :: next ++ concat (drop (Z.to_nat (i + 1)) tb))
                = [] ++ (e :: next ++ concat (drop (Z.to_nat (i + 1)) tb))).
    { rewrite app_nil_l. etransitivity; [|exact Heq].
      rewrite <- !app_assoc. reflexivity. }
    apply app_inv_tail in H. apply app_eq_nil in H as [H0 H].
    apply app_eq_nil in H as [H1 H2].
    split; [exact H2|]. split; [exact H1 | intros _; exact H0].
Qed.

(** The entries after the head of that chain has been unlinked. *)
Lemma first_bucket_unlinked (d : dict) (t : nat) (tb : list (list dictEntry))
    (i u : Z) (next : list dictEntry) (e : dictEntry) :
  dict_inv d ->
  (t = 0%nat \/ (t = 1%nat /\ rehashidx d <> -1)) ->
  table (ht d t) = Some tb -> lookupZ tb i = Ok (e :: next) ->
  concat (take (Z.to_nat i) tb) = [] ->
  (t = 1%nat -> ht_entries (ht0 d) = []) ->
  let d' := set_ht d t (update_bucket (ht d t) tb i next u) in
  dictEntries d' = next ++ rest_tables d t i
  /\ rest_tables d' t i = rest_tables d t i.
Proof.
  intros Hinv Hpos Ht Hb Hpre Hempty d'.
  pose proof (concat_insertZ_take_drop tb i _ next Hb) as Hins.
  rewrite Hpre in Hins. simpl in Hins.
  assert (Hdrop : drop (Z.to_nat (i + 1)) (insertZ i next tb)
                  = drop (Z.to_nat (i + 1)) tb).
  { unfold insertZ. apply lookupZ_Ok in Hb as [Hi _].
    apply drop_insert_lt. lia. }
  unfold dictEntries, rest_tables, d'.
  destruct Hpos as [->|(-> & Hreh)]; simpl in Ht |- *.
  - assert (E1 : (if dictIsRehashing d && true
                  then ht_entries (ht1 d) else []) = ht_entries (ht1 d)).
    { rewrite andb_true_r. destruct (dictIsRehashing d) eqn:Hr; [reflexivity|].
      apply dictIsRehashing_false in Hr.
      destruct Hinv as (_ & _ & _ & Hidle & _). rewrite (Hidle Hr). reflexivity. }
    change (dictIsRehashing (set_ht0 d _)) with (dictIsRehashing d).
    unfold ht_entries at 1. unfold tbl at 1 2 3. simpl table. rewrite Ht.
    simpl default. rewrite Hins, Hdrop, <- app_assoc, E1.
    split; [reflexivity|]. unfold tbl. rewrite Ht. reflexivity.
  - rewrite (Hempty eq_refl). rewrite !andb_false_r, !app_nil_r. simpl.
    unfold ht_entries, tbl. simpl table. rewrite Ht. simpl default.
    rewrite Hins, Hdrop. auto.
Qed.

(** What holds before every [dictNext] of the loop: the iterator has
    every entry of the dictionary still to return, and the dictionary
    counts it as soon as it has been advanced. *)
Definition drain_inv (d : dict) (it : dictIterator) : Prop :=
  dict_inv d /\ dict_placed d
  /\ size (ht0 d) < 2 ^ 63 /\ size (ht1 d) < 2 ^ 63
  /\ iter_pos d it /\ dictEntries d = remaining d it
  /\ ((is_fresh it = true /\ safe it = true
       /\ 0 <= iterators d < 2 ^ 64 - 1)
      \/ (is_fresh it = false /\ iterators d <> 0)).

Lemma dict_drain_spec (addr : dictht -> Z) (fuel : nat) :
  forall d it,
    drain_inv d it -> (length (dictEntries d) < fuel)%nat ->
    exists d' it',
      dict_drain fuel addr d it = Ok (d', it', dictEntries d)
      /\ dictEntries d' = [] /\ dict_inv d' /\ type d' = type d
      /\ 0 <= index it' /\ safe it' = safe it
      /\ iterators d'
         = (if is_fresh it && safe it then wrap64 (iterators d + 1)
            else iterators d).
Proof.
  induction fuel as [|fuel IH]; intros d it Hd Hlen; [lia|].
  destruct Hd as (Hinv & Hpl & Hs0 & Hs1 & Hpos & Hall & Hcnt).
  cbn [dict_drain].
  destruct (dictNext_total addr d it Hinv (iter_pos_ok d it Hpos)
              (proj2 (proj2 (proj2 Hpos))))
    as [[[d1 it1] r] Hn].
  rewrite Hn. cbn [bind].
  destruct (dictNext_loop_counter addr _ d it d1 it1 r (iter_pos_ok d it Hpos) Hn)
    as (Hi1 & Hsafe1 & Hst1 & Hc1).
  destruct (dictNext_loop_remaining addr _ d it d1 it1 r Hinv Hs0 Hs1 Hpos Hn)
    as (_ & Hres).
  pose proof Hst1 as (Hty1 & H01 & H11 & Hr1).
  assert (Hent1 : dictEntries d1 = dictEntries d)
    by (unfold dictEntries; rewrite H01, H11; reflexivity).
  pose proof (same_tables_inv d d1 Hst1 Hinv) as Hinv1.
  destruct r as [e|].
  2:{ rewrite Hall, Hres. exists d1, it1. split; [reflexivity|].
      split; [rewrite Hent1, Hall; exact Hres|]. auto. }
  destruct Hres as [Hrem Hpos1].
  destruct (dictNext_loop_entry addr _ d it d1 it1 e
              (proj2 (proj2 (proj2 Hpos))) Hn) as [He1 Hep1].
  destruct Hep1 as [Hnil|(tb & b & Ht & Hb & [pre Hsuf])];
    [rewrite He1 in Hnil; discriminate|].
  rewrite He1 in Hsuf. subst b.
  assert (Hrem1 : remaining d1 it1 = nextEntry it1 ++ rest_tables d1 (itable it1) (index it1)).
  { unfold remaining. rewrite He1. reflexivity. }
  assert (Hall1 : dictEntries d1
                  = e :: nextEntry it1 ++ rest_tables d1 (itable it1) (index it1)).
  { rewrite Hent1, Hall, Hrem, Hrem1. reflexivity. }
  pose proof Hpos1 as (Htab1 & _ & _ & _).
  destruct (first_bucket d1 (itable it1) tb (index it1) pre (nextEntry it1) e
              Hinv1 Htab1 Ht Hb Hall1) as (-> & Hpre & Hempty).
  simpl app in Hb.
  assert (Hnf1 : is_fresh it1 = false).
  { unfold is_fresh. destruct (Z.eqb_spec (index it1) (-1)); [lia | reflexivity]. }
  assert (Hit1 : iterators d1 <> 0).
  { rewrite Hc1. destruct Hcnt as [(Hf & Hsf & Hrange)|(Hf & Hne)].
    - rewrite Hf, Hsf. simpl. rewrite wrap64_small by lia. lia.
    - rewrite Hf. simpl. exact Hne. }
  assert (Hpl1 : dict_placed d1).
  { destruct Hpl as [Hp0 Hp1]. split.
    - rewrite H01. apply (ht_placed_ext d); [exact Hty1 | exact Hp0].
    - rewrite H11. apply (ht_placed_ext d); [exact Hty1 | exact Hp1]. }
  assert (Htab1' : itable it1 = 0%nat
                   \/ (itable it1 = 1%nat /\ rehashidx d1 <> -1
                       /\ ht_entries (ht0 d1) = [])).
  { destruct Htab1 as [H|[H Hreh]]; [left; exact H|].
    right. split; [exact H|]. split; [exact Hreh | exact (Hempty H)]. }
  destruct (dictDelete_head d1 (itable it1) tb (index it1) e (nextEntry it1)
              Hinv1 Hpl1 Hit1 Htab1' Ht Hb) as (Hdel & Hinv2 & Hpl2).
  rewrite Hdel. cbn [bind].
  set (d2 := set_ht d1 (itable it1) _) in *.
  destruct (first_bucket_unlinked d1 (itable it1) tb (index it1)
              (used (ht d1 (itable it1)) - 1) (nextEntry it1) e
              Hinv1 Htab1 Ht Hb Hpre Hempty) as [Hall2 Hrest2].
  fold d2 in Hall2, Hrest2.
  destruct (set_ht_fields d1 (itable it1)
              (update_bucket (ht d1 (itable it1)) tb (index it1) (nextEntry it1)
                 (used (ht d1 (itable it1)) - 1))) as (Hty2 & Hits2 & Hreh2).
  fold d2 in Hty2, Hits2, Hreh2.
  assert (Hsz2 : size (ht0 d2) = size (ht0 d1) /\ size (ht1 d2) = size (ht1 d1)).
  { subst d2. destruct (itable it1); simpl; auto. }
  assert (Hd2 : drain_inv d2 it1).
  { split; [exact Hinv2|]. split; [exact Hpl2|].
    split; [rewrite (proj1 Hsz2), H01; exact Hs0|].
    split; [rewrite (proj2 Hsz2), H11; exact Hs1|].
    split.
    { split; [rewrite Hreh2; exact Htab1|]. split; [lia|].
      split; [intros E; lia|].
      right. right. exists (insertZ (index it1) (nextEntry it1) tb), (nextEntry it1).
      split; [subst d2; rewrite ht_set_ht; reflexivity|].
      split; [|reflexivity].
      apply lookupZ_insertZ_eq. pose proof (lookupZ_lt _ _ _ Hb).
      apply lookupZ_Ok in Hb as [? _]. lia. }
    split.
    { unfold remaining. rewrite He1, Hrest2. exact Hall2. }
    right. split; [exact Hnf1 | rewrite Hits2; exact Hit1]. }
  assert (Hlen2 : (length (dictEntries d2) < fuel)%nat).
  { rewrite Hall2, <- Hrem1. rewrite Hall, Hrem in Hlen. simpl in Hlen. lia. }
  destruct (IH d2 it1 Hd2 Hlen2)
    as (d' & it' & Hrun & Hnil & Hinv' & Hty' & Hi' & Hsafe' & Hc').
  rewrite Hrun. cbn [bind].
  exists d', it'. split.
  { rewrite Hall, Hrem, Hrem1, <- Hall2. reflexivity. }
  split; [exact Hnil|]. split; [exact Hinv'|].
  split; [congruence|]. split; [exact Hi'|]. split; [congruence|].
  rewrite Hc', Hnf1. simpl. rewrite Hits2. exact Hc1.
Qed.

(** The loop
    [while ((de = dictNext(di)) != NULL) dictDelete(d, dictGetKey(de));]
    over a safe iterator empties the dictionary, rehashing or not:
    every call returns, [dictNext] gives every entry exactly once, in the
    order of the buckets and chains, and after [dictReleaseIterator] the
    dictionary has no entry and the iterator count it had. *)
Theorem safe_iterator_drain (addr : dictht -> Z) (d : dict) :
  dict_inv d -> dict_placed d ->
  size (ht0 d) < 2 ^ 63 -> size (ht1 d) < 2 ^ 63 ->
  0 <= iterators d < 2 ^ 64 - 1 ->
  exists d1 it1 d2,
    dict_drain (S (length (dictEntries d))) addr d
      (snd (dictGetSafeIterator d))
    = Ok (d1, it1, dictEntries d)
    /\ dictReleaseIterator addr d1 it1 = Ok d2
    /\ dictEntries d2 = [] /\ dict_inv d2
    /\ type d2 = type d /\ iterators d2 = iterators d.
Proof.
  intros Hinv Hpl Hs0 Hs1 Hit.
  set (it := snd (dictGetSafeIterator d)).
  assert (Hd : drain_inv d it).
  { split; [exact Hinv|]. split; [exact Hpl|]. split; [exact Hs0|].
    split; [exact Hs1|]. split.
    { split; [left; reflexivity|]. split; [simpl; lia|].
      split; [intros _; split; reflexivity | left; reflexivity]. }
    split; [symmetry; apply remaining_fresh; auto|].
    left. split; [reflexivity|]. split; [reflexivity | exact Hit]. }
  destruct (dict_drain_spec addr (S (length (dictEntries d))) d it Hd ltac:(lia))
    as (d1 & it1 & Hrun & Hnil & Hinv1 & Hty1 & Hi1 & Hsafe1 & Hc1).
  exists d1, it1, (set_iterators d1 (wrap64 (iterators d1 - 1))).
  split; [exact Hrun|]. split.
  { unfold dictReleaseIterator.
    destruct (Z.eqb_spec (index it1) (-1)) as [E|_]; [lia|]. cbn [andb negb].
    rewrite Hsafe1. reflexivity. }
  split; [exact Hnil|]. split.
  { unfold dict_inv in *. exact Hinv1. }
  split; [exact Hty1|]. simpl.
  rewrite Hc1. simpl. apply Zmalloc.wrap64_add_sub. lia.
Qed.

Lemma safe_iterator_drain_witness :
  exists d1 it1 d2,
    dict_drain 6 no_addr rehashing_dict
      (snd (dictGetSafeIterator rehashing_dict))
    = Ok (d1, it1, dictEntries rehashing_dict)
    /\ dictReleaseIterator no_addr d1 it1 = Ok d2
    /\ dictEntries d2 = [] /\ iterators d2 = 1.
Proof.
  destruct (safe_iterator_drain no_addr rehashing_dict)
    as (d1 & it1 & d2 & Hrun & Hrel & Hnil & _ & _ & Hit).
  - exact rehashing_dict_inv.
  - exact rehashing_dict_placed.
  - simpl. lia.
  - simpl. lia.
  - simpl. lia.
  - exists d1, it1, d2. auto.
Defined.

End Dict.

(** ** bio.c *)

Module Bio.

Definition BIO_CLOSE_FILE : Z := 0.
Definition BIO_AOF_FSYNC : Z := 1.
Definition BIO_LAZY_FREE : Z := 2.
Definition BIO_NUM_OPS : Z := 3.

(** [struct bio_job] *)
Record bio_job : Type := { time : Z; arg1 : Z; arg2 : Z; arg3 : Z }.

(** A [listNode] of adlist.h: the address of the node and its [value]. *)
Record listNode : Type := { node_addr : Z; value : bio_job }.

(** Modelled from the spec: adlist.c, which defines [listAddNodeTail] and
    [listDelNode], is not among the sources; adlist.h declares them and the
    design document says that a submitted job is appended to the queue of
    its kind and that the worker removes the completed node.  A [list] is
    the sequence of its nodes from [head] to [tail]. *)
Definition listAddNodeTail (l : list listNode) (n : listNode) : list listNode :=
  l ++ [n].

(** Modelled from the spec: see [listAddNodeTail].  The node is found by
    its address. *)
Definition listDelNode (l : list listNode) (n : listNode) : list listNode :=
  filter (fun x => node_addr x <> node_addr n) l.

(** [listFirst] and [listLength], macros of adlist.h. *)
Definition listFirst (l : list listNode) : option listNode := head l.
Definition listLength (l : list listNode) : Z := Z.of_nat (length l).

(** Where the worker of one kind is in the loop of
    [bioProcessBackgroundJobs]. *)
Inductive worker : Type :=
| AtLoopHead                 (* holds the mutex, or waits on bio_newjob_cond *)
| Popped (ln : listNode)     (* has [ln], mutex released, job not yet run *)
| Ran (ln : listNode).       (* job run and freed, mutex not yet taken again *)

(** What the job of a kind does when it is run. *)
Inductive action : Type :=
| Close (fd : Z)
| Fsync (fd : Z)
| FreeObject (o : Z)
| FreeDatabase (ht1 ht2 : Z)
| FreeSlotsMap (sl : Z)
| Nothing.

(** The arrays of bio.c, indexed by the job kind, with the state of the
    workers, the next address [zmalloc] hands out for a node, and two
    logs: the jobs in the order they were submitted and in the order they
    were run (the logs are not in the C code). *)
Record bio_state : Type := {
  bio_jobs : Z -> list listNode;
  bio_pending : Z -> Z;
  bio_worker : Z -> worker;
  next_node : Z;
  submitted : list (Z * bio_job);
  completed : list (Z * bio_job);
  effects : list action
}.

Definition upd {A : Type} (f : Z -> A) (k : Z) (x : A) : Z -> A :=
  fun j => if j =? k then x else f j.

Definition valid_type (type : Z) : bool := (0 <=? type) && (type <? BIO_NUM_OPS).

(** [bioInit] *)
Definition bioInit : bio_state :=
  {| bio_jobs := fun _ => []; bio_pending := fun _ => 0;
     bio_worker := fun _ => AtLoopHead; next_node := 1;
     submitted := []; completed := []; effects := [] |}.

(** [bioCreateBackgroundJob]; [now] is what [time(NULL)] returns.  The
    body between [pthread_mutex_lock] and [pthread_mutex_unlock] is one
    step. *)
Definition bioCreateBackgroundJob (s : bio_state) (type now a1 a2 a3 : Z)
    : res bio_state :=
  if negb (valid_type type) then Err OutOfBounds
  else
    let job := {| time := now; arg1 := a1; arg2 := a2; arg3 := a3 |} in
    let n := {| node_addr := next_node s; value := job |} in
    Ok {| bio_jobs := upd (bio_jobs s) type (listAddNodeTail (bio_jobs s type) n);
          bio_pending := upd (bio_pending s) type (wrap64 (bio_pending s type + 1));
          bio_worker := bio_worker s;
          next_node := next_node s + 1;
          submitted := submitted s ++ [(type, job)];
          completed := completed s;
          effects := effects s |}.

(** The dispatch on the kind in [bioProcessBackgroundJobs]. *)
Definition run_job (type : Z) (job : bio_job) : action :=
  if type =? BIO_CLOSE_FILE then Close (arg1 job)
  else if type =? BIO_AOF_FSYNC then Fsync (arg1 job)
  else if negb (arg1 job =? 0) then FreeObject (arg1 job)
  else if negb (arg2 job =? 0) && negb (arg3 job =? 0)
       then FreeDatabase (arg2 job) (arg3 job)
  else if negb (arg3 job =? 0) then FreeSlotsMap (arg3 job)
  else Nothing.

(** One step of the worker of kind [type]; [None] when the worker cannot
    move (it waits on [bio_newjob_cond]).
    - at the loop head, with a job queued: [ln = listFirst(bio_jobs[type])],
      [job = ln->value], unlock;
    - with a job in hand: run it;
    - after the job: lock, [listDelNode(bio_jobs[type],ln)],
      [bio_pending[type]--], broadcast. *)
Definition worker_step (s : bio_state) (type : Z) : option bio_state :=
  if negb (valid_type type) then None
  else
    match bio_worker s type with
    | AtLoopHead =>
        if listLength (bio_jobs s type) =? 0 then None
        else
          match listFirst (bio_jobs s type) with
          | None => None
          | Some ln =>
              Some {| bio_jobs := bio_jobs s; bio_pending := bio_pending s;
                      bio_worker := upd (bio_worker s) type (Popped ln);
                      next_node := next_node s;
                      submitted := submitted s; completed := completed s;
                      effects := effects s |}
          end
    | Popped ln =>
        Some {| bio_jobs := bio_jobs s; bio_pending := bio_pending s;
                bio_worker := upd (bio_worker s) type (Ran ln);
                next_node := next_node s;
                submitted := submitted s;
                completed := completed s ++ [(type, value ln)];
                effects := effects s ++ [run_job type (value ln)] |}
    | Ran ln =>
        Some {| bio_jobs := upd (bio_jobs s) type
                              (listDelNode (bio_jobs s type) ln);
                bio_pending := upd (bio_pending s) type
                                 (wrap64 (bio_pending s type - 1));
                bio_worker := upd (bio_worker s) type AtLoopHead;
                next_node := next_node s;
                submitted := submitted s; completed := completed s;
                effects := effects s |}
    end.

(** What the threads do, in the order the mutexes let it happen. *)
Inductive event : Type :=
| Submit (type now a1 a2 a3 : Z)
| Work (type : Z).

Definition bio_step (s : bio_state) (e : event) : option bio_state :=
  match e with
  | Submit type now a1 a2 a3 =>
      match bioCreateBackgroundJob s type now a1 a2 a3 with
      | Ok s' => Some s'
      | Err _ => None
      end
  | Work type => worker_step s type
  end.

Fixpoint bio_run (s : bio_state) (es : list event) : option bio_state :=
  match es with
  | [] => Some s
  | e :: es =>
      match bio_step s e with
      | Some s' => bio_run s' es
      | None => None
      end
  end.

(** The jobs of one kind in a log, in order. *)
Definition jobs_of (type : Z) (log : list (Z * bio_job)) : list bio_job :=
  snd <$> filter (fun x => fst x = type) log.

(** *** FIFO order within a kind *)

(** The queue of kind [k] holds distinct nodes, and the jobs submitted
    for [k] are the jobs run for [k] followed by the jobs still queued,
    where the job of a worker in [Ran] has left the second group. *)
Definition kind_inv (s : bio_state) (k : Z) : Prop :=
  let q := bio_jobs s k in
  NoDup (node_addr <$> q)
  /\ (forall n, n ∈ q -> node_addr n < next_node s)
  /\ match bio_worker s k with
     | AtLoopHead =>
         jobs_of k (submitted s) = jobs_of k (completed s) ++ (value <$> q)
     | Popped ln =>
         (exists q', q = ln :: q')
         /\ jobs_of k (submitted s) = jobs_of k (completed s) ++ (value <$> q)
     | Ran ln =>
         exists q', q = ln :: q'
           /\ jobs_of k (submitted s)
              = jobs_of k (completed s) ++ (value <$> q')
     end.

Definition bio_inv (s : bio_state) : Prop := forall k, kind_inv s k.

Lemma jobs_of_snoc (k type : Z) (log : list (Z * bio_job)) (j : bio_job) :
  jobs_of k (log ++ [(type, j)])
  = jobs_of k log ++ (if decide (type = k) then [j] else []).
Proof.
  unfold jobs_of. rewrite filter_app, fmap_app. f_equal.
  rewrite filter_cons. simpl. destruct (decide (type = k)); reflexivity.
Qed.

Lemma upd_same {A : Type} (f : Z -> A) (k : Z) (x : A) : upd f k x k = x.
Proof. unfold upd. rewrite Z.eqb_refl. reflexivity. Qed.

Lemma upd_other {A : Type} (f : Z -> A) (k j : Z) (x : A) :
  j <> k -> upd f k x j = f j.
Proof. intros H. unfold upd. destruct (Z.eqb_spec j k); [contradiction | reflexivity]. Qed.

Lemma bioInit_inv : bio_inv bioInit.
Proof.
  intros k. unfold kind_inv. simpl. split; [constructor|].
  split; [intros n Hn; apply elem_of_nil in Hn; contradiction | reflexivity].
Qed.

Lemma listDelNode_head (ln : listNode) (q : list listNode) :
  NoDup (node_addr <$> (ln :: q)) -> listDelNode (ln :: q) ln = q.
Proof.
  intros Hnd. apply NoDup_cons in Hnd as [Hnotin _].
  unfold listDelNode. rewrite filter_cons.
  destruct (decide (node_addr ln <> node_addr ln)) as [H|_]; [contradiction|].
  induction q as [|x q IH]; [reflexivity|].
  rewrite filter_cons.
  assert (Hx : node_addr x <> node_addr ln).
  { intros E. apply Hnotin. rewrite <- E. simpl. apply list_elem_of_here. }
  destruct (decide (node_addr x <> node_addr ln)); [|contradiction].
  f_equal. apply IH. intros Hin. apply Hnotin. simpl.
  apply list_elem_of_further. exact Hin.
Qed.

Lemma submit_inv (s s' : bio_state) (type now a1 a2 a3 : Z) :
  bio_inv s ->
  bioCreateBackgroundJob s type now a1 a2 a3 = Ok s' -> bio_inv s'.
Proof.
  intros Hinv. unfold bioCreateBackgroundJob.
  destruct (valid_type type); [|discriminate]. cbn [negb].
  intros [= <-] k. specialize (Hinv k). unfold kind_inv in *. simpl.
  destruct Hinv as (Hnd & Hlt & Hlog).
  rewrite jobs_of_snoc.
  destruct (decide (type = k)) as [->|Hne].
  - rewrite !upd_same. unfold listAddNodeTail.
    split.
    { rewrite fmap_app. simpl. apply NoDup_app. split; [exact Hnd|].
      split; [|apply NoDup_singleton].
      intros x Hx Hx'. apply list_elem_of_singleton in Hx'. subst x.
      apply list_elem_of_fmap in Hx as (n & Hn & Hin).
      specialize (Hlt n Hin). lia. }
    split.
    { intros n Hn. apply elem_of_app in Hn as [Hn|Hn].
      - specialize (Hlt n Hn). lia.
      - apply list_elem_of_singleton in Hn. subst n. simpl. lia. }
    destruct (bio_worker s k) as [|ln|ln].
    + rewrite Hlog, fmap_app, app_assoc. reflexivity.
    + destruct Hlog as [[q' Hq] Hlog]. split.
      * exists (q' ++ [{| node_addr := next_node s;
                           value := {| time := now; arg1 := a1;
                                       arg2 := a2; arg3 := a3 |} |}]).
        rewrite Hq. reflexivity.
      * rewrite Hlog, fmap_app, app_assoc. reflexivity.
    + destruct Hlog as (q' & Hq & Hlog).
      exists (q' ++ [{| node_addr := next_node s;
                         value := {| time := now; arg1 := a1;
                                     arg2 := a2; arg3 := a3 |} |}]).
      split; [rewrite Hq; reflexivity|].
      rewrite Hlog, fmap_app, app_assoc. reflexivity.
  - rewrite !upd_other by congruence. rewrite app_nil_r.
    split; [exact Hnd|]. split; [|exact Hlog].
    intros n Hn. specialize (Hlt n Hn). lia.
Qed.

Lemma worker_step_inv (s s' : bio_state) (type : Z) :
  bio_inv s -> worker_step s type = Some s' -> bio_inv s'.
Proof.
  intros Hinv. unfold worker_step.
  destruct (valid_type type); [|discriminate]. cbn [negb].
  pose proof (Hinv type) as Ht. unfold kind_inv in Ht.
  destruct Ht as (Hnd & Hlt & Hlog).
  destruct (bio_worker s type) as [|ln|ln] eqn:Hw.
  - destruct (listLength (bio_jobs s type) =? 0); [discriminate|].
    destruct (listFirst (bio_jobs s type)) as [ln|] eqn:Hf; [|discriminate].
    intros [= <-] k. specialize (Hinv k). unfold kind_inv in *. simpl.
    destruct (Z.eq_dec k type) as [->|Hne].
    + rewrite upd_same. split; [exact Hnd|]. split; [exact Hlt|].
      split; [|exact Hlog].
      unfold listFirst in Hf. destruct (bio_jobs s type) as [|x q']; [discriminate|].
      injection Hf as ->. eauto.
    + rewrite upd_other by exact Hne. exact Hinv.
  - intros [= <-] k. specialize (Hinv k). unfold kind_inv in *. simpl.
    rewrite jobs_of_snoc.
    destruct (Z.eq_dec k type) as [->|Hne].
    + rewrite upd_same. split; [exact Hnd|]. split; [exact Hlt|].
      destruct Hlog as [[q' Hq] Hlog]. exists q'. split; [exact Hq|].
      destruct (decide (type = type)); [|contradiction].
      rewrite Hlog, Hq. simpl. rewrite <- app_assoc. reflexivity.
    + rewrite upd_other by exact Hne.
      destruct (decide (type = k)); [congruence|]. rewrite app_nil_r.
      exact Hinv.
  - intros [= <-] k. specialize (Hinv k). unfold kind_inv in *. simpl.
    destruct (Z.eq_dec k type) as [->|Hne].
    + rewrite !upd_same. destruct Hlog as (q' & Hq & Hlog).
      rewrite Hq in Hnd |- *. rewrite (listDelNode_head _ _ Hnd).
      split; [simpl in Hnd; apply NoDup_cons in Hnd as [_ H]; exact H|].
      split; [|exact Hlog].
      intros n Hn. apply Hlt. rewrite Hq. apply list_elem_of_further. exact Hn.
    + rewrite !upd_other by exact Hne. exact Hinv.
Qed.

Lemma bio_run_inv (es : list event) :
  forall s s', bio_inv s -> bio_run s es = Some s' -> bio_inv s'.
Proof.
  induction es as [|e es IH]; intros s s' Hinv; simpl.
  - intros [= <-]. exact Hinv.
  - destruct (bio_step s e) as [s1|] eqn:Hs; [|discriminate].
    apply IH. destruct e as [type now a1 a2 a3|type]; simpl in Hs.
    + destruct (bioCreateBackgroundJob s type now a1 a2 a3) as [s2|] eqn:Hc;
        [|discriminate].
      injection Hs as <-. eapply submit_inv; eauto.
    + eapply worker_step_inv; eauto.
Qed.

Definition job_a : bio_job := {| time := 100; arg1 := 7; arg2 := 0; arg3 := 0 |}.
Definition job_b : bio_job := {| time := 101; arg1 := 8; arg2 := 0; arg3 := 0 |}.

(** C8.  In every run of the submitting threads and the workers, the jobs
    of a kind that have been run are, in order, the first of the jobs
    submitted for that kind; and there is a run in which a job of kind 0
    is submitted before a job of kind 1 and run after it. *)
Theorem bio_fifo_within_kind :
  (forall es s, bio_run bioInit es = Some s ->
     forall type, jobs_of type (completed s) `prefix_of` jobs_of type (submitted s))
  /\ (exists es s,
        bio_run bioInit es = Some s
        /\ submitted s = [(0, job_a); (1, job_b)]
        /\ completed s = [(1, job_b); (0, job_a)]).
Proof.
  split.
  - intros es s Hrun type.
    pose proof (bio_run_inv es bioInit s bioInit_inv Hrun type) as (_ & _ & Hlog).
    destruct (bio_worker s type) as [|ln|ln].
    + eexists. exact Hlog.
    + destruct Hlog as [_ Hlog]. eexists. exact Hlog.
    + destruct Hlog as (q' & _ & Hlog). eexists. exact Hlog.
  - set (es := [Submit 0 100 7 0 0; Submit 1 101 8 0 0;
                Work 1; Work 1; Work 1; Work 0; Work 0; Work 0]).
    assert (Hs : option_map submitted (bio_run bioInit es)
                 = Some [(0, job_a); (1, job_b)]) by (vm_compute; reflexivity).
    assert (Hc : option_map completed (bio_run bioInit es)
                 = Some [(1, job_b); (0, job_a)]) by (vm_compute; reflexivity).
    exists es. destruct (bio_run bioInit es) as [s|]; [|discriminate Hs].
    exists s. simpl in Hs, Hc. split; [reflexivity|]. split; congruence.
Qed.

Lemma bio_fifo_within_kind_witness :
  exists s,
    bio_run bioInit
      [Submit 0 100 7 0 0; Submit 0 101 8 0 0; Work 0; Work 0; Submit 0 102 9 0 0;
       Work 0; Work 0; Work 0] = Some s
    /\ jobs_of 0 (completed s) `prefix_of` jobs_of 0 (submitted s).
Proof.
  assert (Hs : option_map submitted
                 (bio_run bioInit
                    [Submit 0 100 7 0 0; Submit 0 101 8 0 0; Work 0; Work 0;
                     Submit 0 102 9 0 0; Work 0; Work 0; Work 0])
               <> None) by (vm_compute; discriminate).
  destruct (bio_run bioInit
              [Submit 0 100 7 0 0; Submit 0 101 8 0 0; Work 0; Work 0;
               Submit 0 102 9 0 0; Work 0; Work 0; Work 0]) as [s|] eqn:E.
  - exists s. split; [reflexivity|].
    exact (proj1 bio_fifo_within_kind _ s E 0).
  - exfalso. apply Hs. reflexivity.
Defined.

(** *** The pending counter *)

(** [bioPendingJobsOfType]: the counter, read under the mutex. *)
Definition bioPendingJobsOfType (s : bio_state) (type : Z) : Z :=
  bio_pending s type.

(** The counter of a kind follows the length of its queue. *)
Definition pending_inv (s : bio_state) : Prop :=
  forall k, bio_pending s k = wrap64 (listLength (bio_jobs s k)).

Lemma wrap64_succ (a : Z) : wrap64 (wrap64 a + 1) = wrap64 (a + 1).
Proof. unfold wrap64. apply Zplus_mod_idemp_l. Qed.

Lemma wrap64_pred (a : Z) : wrap64 (wrap64 a - 1) = wrap64 (a - 1).
Proof. unfold wrap64. apply Zminus_mod_idemp_l. Qed.

Lemma submit_pending (s s' : bio_state) (type now a1 a2 a3 : Z) :
  pending_inv s ->
  bioCreateBackgroundJob s type now a1 a2 a3 = Ok s' -> pending_inv s'.
Proof.
  intros Hp. unfold bioCreateBackgroundJob.
  destruct (valid_type type); [|discriminate]. cbn [negb].
  intros [= <-] k. simpl. destruct (Z.eq_dec k type) as [->|Hne].
  - rewrite !upd_same, Hp, wrap64_succ. f_equal.
    unfold listLength, listAddNodeTail. rewrite length_app. simpl. lia.
  - rewrite !upd_other by exact Hne. apply Hp.
Qed.

Lemma worker_step_pending (s s' : bio_state) (type : Z) :
  bio_inv s -> pending_inv s ->
  worker_step s type = Some s' -> pending_inv s'.
Proof.
  intros Hinv Hp. unfold worker_step.
  destruct (valid_type type); [|discriminate]. cbn [negb].
  pose proof (Hinv type) as (Hnd & _ & Hlog).
  destruct (bio_worker s type) as [|ln|ln] eqn:Hw.
  - destruct (listLength (bio_jobs s type) =? 0); [discriminate|].
    destruct (listFirst (bio_jobs s type)); [|discriminate].
    intros [= <-] k. apply Hp.
  - intros [= <-] k. apply Hp.
  - intros [= <-] k. simpl. destruct (Z.eq_dec k type) as [->|Hne].
    + rewrite !upd_same, Hp, wrap64_pred. f_equal.
      destruct Hlog as (q' & Hq & _). rewrite Hq in Hnd |- *.
      rewrite (listDelNode_head _ _ Hnd). unfold listLength. simpl. lia.
    + rewrite !upd_other by exact Hne. apply Hp.
Qed.

Lemma bio_run_pending (es : list event) :
  forall s s',
    bio_inv s -> pending_inv s -> bio_run s es = Some s' -> pending_inv s'.
Proof.
  induction es as [|e es IH]; intros s s' Hinv Hp; simpl.
  - intros [= <-]. exact Hp.
  - destruct (bio_step s e) as [s1|] eqn:Hs; [|discriminate].
    destruct e as [type now a1 a2 a3|type]; simpl in Hs.
    + destruct (bioCreateBackgroundJob s type now a1 a2 a3) as [s2|] eqn:Hc;
        [|discriminate].
      injection Hs as <-.
      apply IH; [eapply submit_inv | eapply submit_pending]; eauto.
    + apply IH; [eapply worker_step_inv | eapply worker_step_pending]; eauto.
Qed.

(** In every run, [bioPendingJobsOfType(type)] is the length of the queue
    of that kind, as an [unsigned long long]: the jobs waiting and the
    one being run.  When it returns 0, with fewer than [2^64] jobs
    queued, every job submitted for the kind has been run and its
    worker is idle. *)
Theorem bioPendingJobsOfType_zero (es : list event) (s : bio_state) (type : Z) :
  bio_run bioInit es = Some s ->
  listLength (bio_jobs s type) < 2 ^ 64 ->
  bioPendingJobsOfType s type = wrap64 (listLength (bio_jobs s type))
  /\ (bioPendingJobsOfType s type = 0 ->
      bio_jobs s type = []
      /\ bio_worker s type = AtLoopHead
      /\ jobs_of type (completed s) = jobs_of type (submitted s)).
Proof.
  intros Hrun Hlen.
  pose proof (bio_run_inv es _ _ bioInit_inv Hrun) as Hinv.
  assert (Hp : pending_inv s).
  { apply (bio_run_pending es bioInit s bioInit_inv); [|exact Hrun].
    intros k. reflexivity. }
  unfold bioPendingJobsOfType. split; [apply Hp|].
  rewrite Hp. unfold listLength in *. intros Hz.
  rewrite Dict.wrap64_small in Hz by lia.
  assert (Hq : bio_jobs s type = []).
  { destruct (bio_jobs s type); [reflexivity | simpl in Hz; lia]. }
  split; [exact Hq|].
  destruct (Hinv type) as (_ & _ & Hlog). rewrite Hq in Hlog.
  destruct (bio_worker s type) as [|ln|ln].
  - split; [reflexivity|]. rewrite Hlog. simpl. rewrite app_nil_r. reflexivity.
  - destruct Hlog as [[q' Hq'] _]. discriminate.
  - destruct Hlog as (q' & Hq' & _). discriminate.
Qed.

Lemma bioPendingJobsOfType_zero_witness :
  exists s,
    bio_run bioInit [Submit 1 100 7 0 0; Work 1; Work 1; Work 1] = Some s
    /\ bioPendingJobsOfType s 1 = 0
    /\ jobs_of 1 (completed s) = jobs_of 1 (submitted s).
Proof.
  destruct (bio_run bioInit [Submit 1 100 7 0 0; Work 1; Work 1; Work 1])
    as [s|] eqn:E; [|vm_compute in E; discriminate].
  exists s. split; [reflexivity|].
  assert (Hz : bioPendingJobsOfType s 1 = 0).
  { vm_compute in E. injection E as <-. reflexivity. }
  split; [exact Hz|].
  apply (bioPendingJobsOfType_zero _ s 1 E); [|exact Hz].
  vm_compute in E. injection E as <-. reflexivity.
Defined.

End Bio.
